(** * pyamg/aggregation/smooth.py : prolongation smoothers

    A shallow embedding of [jacobi_prolongation_smoother],
    [Satisfy_Constraints_CSR], [Satisfy_Constraints_BSR] and
    [energy_prolongation_smoother], in exact rational arithmetic.

    Floating point numbers are read as exact rationals ([Qc]); the places
    where numpy would leave the rationals (a division by zero that yields
    [inf] or [nan]) end the computation with the exception [NonFinite]. *)

From Stdlib Require Import List Arith Lia ZArith Bool String.
From Stdlib Require Import QArith Qcanon Qcabs.
Import ListNotations.

Close Scope Qc_scope.
Close Scope Q_scope.
Local Open Scope nat_scope.
Local Open Scope list_scope.

Abbreviation length := List.length.

(* ================================================================== *)
(** * Exceptions and results *)

Inductive exn : Type :=
| TypeError (msg : string)
| ValueError (msg : string)
| IndexError
| ZeroDivisionError
| NameError
| NonFinite.

Inductive result (A : Type) : Type :=
| Ok (a : A)
| Raise (e : exn).

Arguments Ok {A} a.
Arguments Raise {A} e.

Definition bind {A B : Type} (r : result A) (k : A -> result B) : result B :=
  match r with
  | Ok a => k a
  | Raise e => Raise e
  end.

Notation "x <- r ;; k" := (bind r (fun x => k))
  (at level 61, r at next level, right associativity).
Notation "' p <- r ;; k" := (bind r (fun p => k))
  (at level 61, p pattern, r at next level, right associativity).

Definition is_ok {A : Type} (r : result A) : bool :=
  match r with Ok _ => true | Raise _ => false end.

(** [l[i]] on a Python list or a numpy array, with a non-negative index. *)
Definition index {A : Type} (l : list A) (i : nat) : result A :=
  match nth_error l i with
  | Some a => Ok a
  | None => Raise IndexError
  end.

(** [l[a:b]] : slices never raise. *)
Definition slice {A : Type} (l : list A) (a b : nat) : list A :=
  firstn (b - a) (skipn a l).

(** [l[a:b] = v] on a numpy array, [v] of the length of the slice. *)
Definition splice {A : Type} (l : list A) (a : nat) (v : list A) : list A :=
  firstn a l ++ v ++ skipn (a + List.length v) l.

(* ================================================================== *)
(** * Python values that reach the argument tests *)

(** A float is a rational, an infinity or a NaN: enough for the
    comparisons the argument tests make. *)
Inductive pyfloat : Type :=
| FFinite (q : Qc)
| FInf (negative : bool)
| FNaN.

(** What a caller can pass as [num_iters]. *)
Inductive pyval : Type :=
| PyInt (z : Z)
| PyBool (b : bool)
| PyLong (z : Z)
| PyFloat (f : pyfloat)
| PyNone
| PyStr (s : string).

(** [isinstance(v, int)]: [bool] is a subclass of [int]. *)
Definition isinstance_int (v : pyval) : bool :=
  match v with
  | PyInt _ | PyBool _ => true
  | _ => false
  end.

(** The integer an [int] instance stands for. *)
Definition int_value (v : pyval) : Z :=
  match v with
  | PyInt z => z
  | PyBool true => 1%Z
  | _ => 0%Z
  end.

Definition Qc_ltb (x y : Qc) : bool :=
  match (x ?= y)%Qc with Lt => true | _ => false end.

Definition Qc_eqb (x y : Qc) : bool :=
  match (x ?= y)%Qc with Eq => true | _ => false end.

(** [f > q] for a float [f] and a rational [q]; false on NaN. *)
Definition float_gt (f : pyfloat) (q : Qc) : bool :=
  match f with
  | FFinite x => Qc_ltb q x
  | FInf negative => negb negative
  | FNaN => false
  end.

(** [q > f] for a rational [q] and a float [f]; false on NaN. *)
Definition gt_float (q : Qc) (f : pyfloat) : bool :=
  match f with
  | FFinite x => Qc_ltb x q
  | FInf negative => negative
  | FNaN => false
  end.

(** The storage class of a matrix argument: [isspmatrix_csr], [isspmatrix_bsr]. *)
Inductive format : Type :=
| FmtCSR
| FmtBSR
| FmtOther.

Definition isspmatrix_csr (f : format) : bool :=
  match f with FmtCSR => true | _ => false end.

Definition isspmatrix_bsr (f : format) : bool :=
  match f with FmtBSR => true | _ => false end.

Definition msg_num_iters_int : string :=
  "Calling sa_energy_min Incorrectly.  Number of minimization iterations applied to P is num_iters, where num_iters must be an integer."%string.
Definition msg_num_iters_neg : string :=
  "Calling sa_energy_min Incorrectly.  Number of minimization iterations applied to P is num_iters, where num_iters >= 0."%string.
Definition msg_min_tol : string :=
  "Calling sa_energy_min Incorrectly.  0 < min_tol < 1."%string.
Definition msg_A_format : string :=
  "sa_energy_min routine requires a CSR or BSR operator.  Aborting."%string.
Definition msg_T_format : string :=
  "sa_energy_min routine requires a BSR tentative prolongator.  Aborting."%string.

(** Lines 200-213: the tests on the arguments, in the order of the source. *)
Definition test_inputs (num_iters : pyval) (min_tol : pyfloat)
    (fmtA fmtT : format) : result unit :=
  if negb (isinstance_int num_iters) then Raise (TypeError msg_num_iters_int)
  else if (int_value num_iters <? 0)%Z then Raise (TypeError msg_num_iters_neg)
  else if float_gt min_tol 1%Qc then Raise (TypeError msg_min_tol)
  else
    let csrflag := isspmatrix_csr fmtA in
    if negb csrflag && negb (isspmatrix_bsr fmtA) then Raise (TypeError msg_A_format)
    else if negb (isspmatrix_bsr fmtT) then Raise (TypeError msg_T_format)
    else Ok tt.

(* ================================================================== *)
(** * Dense matrices (numpy [matrix]) *)

Definition dmatrix : Type := list (list Qc).

Fixpoint qsum (l : list Qc) : Qc :=
  match l with
  | [] => 0%Qc
  | x :: r => (x + qsum r)%Qc
  end.

(** Sum of [f 0 .. f (n-1)]. *)
Definition sum_upto (n : nat) (f : nat -> Qc) : Qc := qsum (map f (seq 0 n)).

Definition drows (X : dmatrix) : nat := length X.
Definition dcols (X : dmatrix) : nat := length (hd [] X).
Definition dget (X : dmatrix) (i j : nat) : Qc := nth j (nth i X []) 0%Qc.

(** Every row has [k] entries. *)
Definition rect (k : nat) (X : dmatrix) : Prop := Forall (fun r => length r = k) X.

Definition dmake (n k : nat) (f : nat -> nat -> Qc) : dmatrix :=
  map (fun i => map (fun t => f i t) (seq 0 k)) (seq 0 n).

Definition dzeros (n k : nat) : dmatrix := dmake n k (fun _ _ => 0%Qc).

(** [X.T] *)
Definition transpose (X : dmatrix) : dmatrix :=
  dmake (dcols X) (drows X) (fun i j => dget X j i).

Definition msg_shapes : string := "shapes not aligned"%string.

(** [X * Y] for numpy matrices: the matrix product, a [ValueError] when the
    inner dimensions differ. *)
Definition dmul (X Y : dmatrix) : result dmatrix :=
  if dcols X =? drows Y
  then Ok (dmake (drows X) (dcols Y)
             (fun i t => sum_upto (drows Y) (fun a => dget X i a * dget Y a t)%Qc))
  else Raise (ValueError msg_shapes).

(** [B[colindx, :]] : the rows of [B] listed in [colindx]. *)
Fixpoint take_rows (B : dmatrix) (colindx : list nat) : result dmatrix :=
  match colindx with
  | [] => Ok []
  | c :: cs =>
      r <- index B c ;;
      rs <- take_rows B cs ;;
      Ok (r :: rs)
  end.

(* ================================================================== *)
(** * Compressed sparse rows (scipy [csr_matrix]) *)

Record csr_matrix : Type := mk_csr {
  csr_shape : nat * nat;
  csr_indptr : list nat;
  csr_indices : list nat;
  csr_data : list Qc
}.

(** The stored entries (column, value) of row [i]. *)
Definition csr_row (A : csr_matrix) (i : nat) : list (nat * Qc) :=
  let rowstart := nth i (csr_indptr A) 0 in
  let rowend := nth (S i) (csr_indptr A) 0 in
  combine (slice (csr_indices A) rowstart rowend) (slice (csr_data A) rowstart rowend).

(** The value a list of entries gives to column [j]: entries of one column add up. *)
Definition entries_get (es : list (nat * Qc)) (j : nat) : Qc :=
  qsum (map snd (filter (fun e => fst e =? j) es)).

(** [A[i, j]] *)
Definition csr_get (A : csr_matrix) (i j : nat) : Qc := entries_get (csr_row A i) j.

(** [A.nnz] : the number of stored entries. *)
Definition csr_nnz (A : csr_matrix) : nat := length (csr_data A).

(** Position [(i, j)] is stored in [A]. *)
Definition csr_stored (A : csr_matrix) (i j : nat) : Prop :=
  In j (map fst (csr_row A i)).

Definition total (lens : list nat) : nat := fold_right Nat.add 0 lens.

Fixpoint build_indptr (start : nat) (lens : list nat) : list nat :=
  match lens with
  | [] => [start]
  | n :: ns => start :: build_indptr (start + n) ns
  end.

Definition csr_of_rows (shape : nat * nat) (rows : list (list (nat * Qc))) : csr_matrix :=
  {| csr_shape := shape;
     csr_indptr := build_indptr 0 (map (@List.length _) rows);
     csr_indices := List.concat (map (map fst) rows);
     csr_data := List.concat (map (map snd) rows) |}.

Definition nonzero (x : Qc) : bool := negb (Qc_eqb x 0%Qc).

(** The nonzero entries of a dense row of [m] values, in the order of the columns. *)
Definition fun_row (m : nat) (g : nat -> Qc) : list (nat * Qc) :=
  filter (fun e => nonzero (snd e)) (map (fun j => (j, g j)) (seq 0 m)).

(** The canonical matrix of the given shape with the entries [f i j]: sorted
    column indices, no duplicates, no stored zero.  The element-wise
    operations of scipy return their result in this form. *)
Definition csr_of_fun (shape : nat * nat) (f : nat -> nat -> Qc) : csr_matrix :=
  csr_of_rows shape (map (fun i => fun_row (snd shape) (f i)) (seq 0 (fst shape))).

Definition msg_inconsistent : string := "inconsistent shapes"%string.
Definition msg_dim_mismatch : string := "dimension mismatch"%string.

Definition shape_eqb (s t : nat * nat) : bool :=
  (fst s =? fst t) && (snd s =? snd t).

(** [U - V] *)
Definition csr_sub (U V : csr_matrix) : result csr_matrix :=
  if shape_eqb (csr_shape U) (csr_shape V)
  then Ok (csr_of_fun (csr_shape U) (fun i j => csr_get U i j - csr_get V i j)%Qc)
  else Raise (ValueError msg_inconsistent).

(** Position [(i, j)] is stored in [A]. *)
Definition csr_has (A : csr_matrix) (i j : nat) : bool :=
  existsb (Nat.eqb j) (map fst (csr_row A i)).

(** The entries of a row at the columns that are [present], in the order of
    the columns. *)
Definition mask_row (m : nat) (present : nat -> bool) (g : nat -> Qc) : list (nat * Qc) :=
  map (fun j => (j, g j)) (filter present (seq 0 m)).

(** The matrix that stores [f i j] at the positions that are [present],
    zero or not. *)
Definition csr_of_mask (shape : nat * nat) (present : nat -> nat -> bool)
    (f : nat -> nat -> Qc) : csr_matrix :=
  csr_of_rows shape
    (map (fun i => mask_row (snd shape) (present i) (f i)) (seq 0 (fst shape))).

(** [a * X] : the stored structure is kept. *)
Definition csr_scale (a : Qc) (X : csr_matrix) : csr_matrix :=
  {| csr_shape := csr_shape X;
     csr_indptr := csr_indptr X;
     csr_indices := csr_indices X;
     csr_data := map (fun v => (a * v)%Qc) (csr_data X) |}.

(** [X.__abs__()] *)
Definition csr_abs (X : csr_matrix) : csr_matrix :=
  {| csr_shape := csr_shape X;
     csr_indptr := csr_indptr X;
     csr_indices := csr_indices X;
     csr_data := map Qcabs (csr_data X) |}.

(** [X.diagonal()] *)
Definition csr_diagonal (X : csr_matrix) : list Qc :=
  map (fun i => csr_get X i i) (seq 0 (Nat.min (fst (csr_shape X)) (snd (csr_shape X)))).

(** [U * mat(B)] : sparse times dense, a dense matrix. *)
Definition csr_times_dense (U : csr_matrix) (B : dmatrix) : result dmatrix :=
  if snd (csr_shape U) =? drows B
  then Ok (dmake (fst (csr_shape U)) (dcols B)
             (fun i t => sum_upto (snd (csr_shape U))
                           (fun j => csr_get U i j * dget B j t)%Qc))
  else Raise (ValueError msg_dim_mismatch).

(** Well-formed storage, as scipy checks it when a matrix is built. *)
Record csr_wf (A : csr_matrix) : Prop := {
  wf_indptr_len : length (csr_indptr A) = S (fst (csr_shape A));
  wf_indptr_0 : nth 0 (csr_indptr A) 0 = 0;
  wf_indptr_mono : forall i, i < fst (csr_shape A) ->
      nth i (csr_indptr A) 0 <= nth (S i) (csr_indptr A) 0;
  wf_indptr_last : nth (fst (csr_shape A)) (csr_indptr A) 0 = length (csr_indices A);
  wf_data_len : length (csr_data A) = length (csr_indices A);
  wf_indices_lt : Forall (fun j => j < snd (csr_shape A)) (csr_indices A)
}.

(* ================================================================== *)
(** * The constraint projector, scalar storage *)

(** A [for i in range(n)] loop whose body may raise. *)
Fixpoint for_each {St : Type} (l : list nat) (body : St -> nat -> result St) (s : St)
    : result St :=
  match l with
  | [] => Ok s
  | i :: r => s' <- body s i ;; for_each r body s'
  end.

Definition for_range {St : Type} (n : nat) (body : St -> nat -> result St) (s : St)
    : result St :=
  for_each (seq 0 n) body s.

Definition msg_broadcast : string := "could not broadcast input array"%string.

(** [data[a:b] = v] for a numpy array [data] and a matrix [v] with one row:
    the row must fill the slice, or hold a single value that is repeated. *)
Definition assign_slice (data : list Qc) (a b : nat) (v : dmatrix) : result (list Qc) :=
  let len := length (slice data a b) in
  match v with
  | [row] =>
      if length row =? len then Ok (splice data a row)
      else if length row =? 1 then Ok (splice data a (repeat (hd 0%Qc row) len))
      else Raise (ValueError msg_broadcast)
  | _ => Raise (ValueError msg_broadcast)
  end.

Definition csr_set_data (A : csr_matrix) (data : list Qc) : csr_matrix :=
  {| csr_shape := csr_shape A;
     csr_indptr := csr_indptr A;
     csr_indices := csr_indices A;
     csr_data := data |}.

(** [update_local = (Bi*(BtBinv[i]*UBi.T)).T] *)
Definition update_local_CSR (Bi G : dmatrix) (UBi : list Qc) : result dmatrix :=
  t <- dmul G (transpose [UBi]) ;;
  w <- dmul Bi t ;;
  Ok (transpose w).

(** Lines 81-91: the body of the loop over the rows, on row [i]. *)
Definition Satisfy_Constraints_CSR_row (B : dmatrix) (BtBinv : list dmatrix)
    (UB : dmatrix) (Sparsity_Pattern : csr_matrix) (i : nat) : result csr_matrix :=
  rowstart <- index (csr_indptr Sparsity_Pattern) i ;;
  rowend <- index (csr_indptr Sparsity_Pattern) (i + 1) ;;
  let colindx := slice (csr_indices Sparsity_Pattern) rowstart rowend in
  if negb (rowend =? rowstart) then
    Bi <- take_rows B colindx ;;
    UBi <- index UB i ;;
    G <- index BtBinv i ;;
    update_local <- update_local_CSR Bi G UBi ;;
    data <- assign_slice (csr_data Sparsity_Pattern) rowstart rowend update_local ;;
    Ok (csr_set_data Sparsity_Pattern data)
  else Ok Sparsity_Pattern.

(** Lines 59-98.  The pattern is an object the caller keeps: the function
    returns the new operator together with the pattern as it is left. *)
Definition Satisfy_Constraints_CSR (U Sparsity_Pattern : csr_matrix) (B : dmatrix)
    (BtBinv : list dmatrix) : result (csr_matrix * csr_matrix) :=
  let Nfine := fst (csr_shape U) in
  UB <- csr_times_dense U B ;;
  scratch <- for_range Nfine (Satisfy_Constraints_CSR_row B BtBinv UB) Sparsity_Pattern ;;
  U' <- csr_sub U scratch ;;
  Ok (U', csr_set_data scratch (map (fun _ => 1%Qc) (csr_data scratch))).

(** The values [update_local] holds, entry by entry: for the column [c] of
    the support, [sum_a B[c,a] * (sum_b G[a,b] * ub[b])]. *)
Definition local_update (B G : dmatrix) (ub : list Qc) (colindx : list nat) : list Qc :=
  let k := length ub in
  map (fun c => sum_upto k (fun a =>
                  dget B c a * sum_upto k (fun b => dget G a b * nth b ub 0%Qc))%Qc)
      colindx.

(** The support of row [i] of the pattern, and the values the loop of
    [Satisfy_Constraints_CSR] writes there. *)
Definition csr_colindx (Sparsity_Pattern : csr_matrix) (i : nat) : list nat :=
  slice (csr_indices Sparsity_Pattern)
        (nth i (csr_indptr Sparsity_Pattern) 0) (nth (S i) (csr_indptr Sparsity_Pattern) 0).

Definition row_update (Sparsity_Pattern : csr_matrix) (B : dmatrix)
    (BtBinv : list dmatrix) (UB : dmatrix) (i : nat) : list Qc :=
  local_update B (nth i BtBinv []) (nth i UB []) (csr_colindx Sparsity_Pattern i).

(** What holds of the scratch pattern [Sc] when the loop of
    [Satisfy_Constraints_CSR] has treated the rows below [i]: the structure is
    that of [SP], the treated rows hold their update, the others are untouched. *)
Definition scratch_inv (SP : csr_matrix) (B : dmatrix) (BtBinv : list dmatrix)
    (UB : dmatrix) (i : nat) (Sc : csr_matrix) : Prop :=
  csr_shape Sc = csr_shape SP /\
  csr_indptr Sc = csr_indptr SP /\
  csr_indices Sc = csr_indices SP /\
  length (csr_data Sc) = length (csr_data SP) /\
  (forall r, r < i -> r < fst (csr_shape SP) ->
     slice (csr_data Sc) (nth r (csr_indptr SP) 0) (nth (S r) (csr_indptr SP) 0)
     = row_update SP B BtBinv UB r) /\
  (forall r, i <= r -> r < fst (csr_shape SP) ->
     slice (csr_data Sc) (nth r (csr_indptr SP) 0) (nth (S r) (csr_indptr SP) 0)
     = slice (csr_data SP) (nth r (csr_indptr SP) 0) (nth (S r) (csr_indptr SP) 0)).

(** The identity matrix. *)
Definition identity (k : nat) : dmatrix :=
  dmake k k (fun i j => if i =? j then 1%Qc else 0%Qc).

(** [Bi.T*Bi] for [Bi = B[colindx,:]] : the local Gram matrix of a support. *)
Definition local_gram (B : dmatrix) (colindx : list nat) : result dmatrix :=
  Bi <- take_rows B colindx ;;
  dmul (transpose Bi) Bi.

(** [G] is an inverse of the local Gram matrix of the support [colindx]. *)
Definition inverts_gram (k : nat) (B : dmatrix) (colindx : list nat) (G : dmatrix) : Prop :=
  exists M, local_gram B colindx = Ok M /\ dmul M G = Ok (identity k).

(** The entries [Satisfy_Constraints_CSR] returns: those of [U] less the
    update of the row, on the support of the row. *)
Definition projected_CSR (U SP : csr_matrix) (B : dmatrix) (BtBinv : list dmatrix)
    (UB : dmatrix) : csr_matrix :=
  csr_of_fun (csr_shape U)
    (fun i j => csr_get U i j
                - entries_get (combine (csr_colindx SP i) (row_update SP B BtBinv UB i)) j)%Qc.

(** The stored positions of [U] are stored in [V]. *)
Definition csr_pattern_subset (U V : csr_matrix) : Prop :=
  forall i j, csr_stored U i j -> csr_stored V i j.

(** The pattern holds 1.0 everywhere, as [energy_prolongation_smoother] builds it. *)
Definition csr_all_ones (SP : csr_matrix) : Prop :=
  csr_data SP = repeat 1%Qc (length (csr_data SP)).

(* ================================================================== *)
(** * Block compressed sparse rows (scipy [bsr_matrix]) *)

Record bsr_matrix : Type := mk_bsr {
  bsr_shape : nat * nat;
  bsr_blocksize : nat * nat;
  bsr_indptr : list nat;
  bsr_indices : list nat;
  bsr_data : list dmatrix
}.

(** The stored blocks (block column, block) of the block row of node [I]. *)
Definition bsr_node (A : bsr_matrix) (I : nat) : list (nat * dmatrix) :=
  let rowstart := nth I (bsr_indptr A) 0 in
  let rowend := nth (S I) (bsr_indptr A) 0 in
  combine (slice (bsr_indices A) rowstart rowend) (slice (bsr_data A) rowstart rowend).

(** The scalar entries that row [r] of a stored block contributes. *)
Definition block_entries (C r : nat) (e : nat * dmatrix) : list (nat * Qc) :=
  map (fun c => (fst e * C + c, dget (snd e) r c)) (seq 0 C).

(** The entries (column, value) of the scalar row [i]: blocks are dense. *)
Definition bsr_row (A : bsr_matrix) (i : nat) : list (nat * Qc) :=
  let R := fst (bsr_blocksize A) in
  let C := snd (bsr_blocksize A) in
  flat_map (block_entries C (i mod R)) (bsr_node A (i / R)).

(** [A[i, j]] *)
Definition bsr_get (A : bsr_matrix) (i j : nat) : Qc := entries_get (bsr_row A i) j.

(** [A.nnz] : the number of stored values, [R*C] for each stored block. *)
Definition bsr_nnz (A : bsr_matrix) : nat :=
  length (bsr_indices A) * (fst (bsr_blocksize A) * snd (bsr_blocksize A)).

Definition bsr_stored (A : bsr_matrix) (i j : nat) : Prop :=
  In j (map fst (bsr_row A i)).

Definition block_of_fun (R C : nat) (f : nat -> nat -> Qc) (I J : nat) : dmatrix :=
  dmake R C (fun r c => f (I * R + r) (J * C + c)).

Definition block_nonzero (blk : dmatrix) : bool := existsb (existsb nonzero) blk.

(** The blocks of node [I] that hold a nonzero value, by increasing block column. *)
Definition fun_node (R C nbc : nat) (f : nat -> nat -> Qc) (I : nat) : list (nat * dmatrix) :=
  filter (fun e => block_nonzero (snd e))
         (map (fun J => (J, block_of_fun R C f I J)) (seq 0 nbc)).

Definition bsr_of_nodes (shape blocksize : nat * nat) (nodes : list (list (nat * dmatrix)))
    : bsr_matrix :=
  {| bsr_shape := shape;
     bsr_blocksize := blocksize;
     bsr_indptr := build_indptr 0 (map (@List.length _) nodes);
     bsr_indices := List.concat (map (map fst) nodes);
     bsr_data := List.concat (map (map snd) nodes) |}.

(** The canonical block matrix with the entries [f i j]: sorted block
    columns, no duplicates, no block of zeros. *)
Definition bsr_of_fun (shape blocksize : nat * nat) (f : nat -> nat -> Qc) : bsr_matrix :=
  let R := fst blocksize in
  let C := snd blocksize in
  bsr_of_nodes shape blocksize
    (map (fun_node R C (snd shape / C) f) (seq 0 (fst shape / R))).

(** [U - V] : the result has the block size of [U]. *)
Definition bsr_sub (U V : bsr_matrix) : result bsr_matrix :=
  if shape_eqb (bsr_shape U) (bsr_shape V)
  then Ok (bsr_of_fun (bsr_shape U) (bsr_blocksize U)
             (fun i j => bsr_get U i j - bsr_get V i j)%Qc)
  else Raise (ValueError msg_inconsistent).

(** [U * mat(B)] *)
Definition bsr_times_dense (U : bsr_matrix) (B : dmatrix) : result dmatrix :=
  if snd (bsr_shape U) =? drows B
  then Ok (dmake (fst (bsr_shape U)) (dcols B)
             (fun i t => sum_upto (snd (bsr_shape U))
                           (fun j => bsr_get U i j * dget B j t)%Qc))
  else Raise (ValueError msg_dim_mismatch).

Definition bsr_set_data (A : bsr_matrix) (data : list dmatrix) : bsr_matrix :=
  {| bsr_shape := bsr_shape A;
     bsr_blocksize := bsr_blocksize A;
     bsr_indptr := bsr_indptr A;
     bsr_indices := bsr_indices A;
     bsr_data := data |}.

(** Well-formed block storage: uniform dense blocks that tile the shape. *)
Record bsr_wf (A : bsr_matrix) : Prop := {
  bwf_R_pos : 0 < fst (bsr_blocksize A);
  bwf_C_pos : 0 < snd (bsr_blocksize A);
  bwf_rows : fst (bsr_shape A) mod fst (bsr_blocksize A) = 0;
  bwf_cols : snd (bsr_shape A) mod snd (bsr_blocksize A) = 0;
  bwf_indptr_len :
    length (bsr_indptr A) = S (fst (bsr_shape A) / fst (bsr_blocksize A));
  bwf_indptr_0 : nth 0 (bsr_indptr A) 0 = 0;
  bwf_indptr_mono : forall I, I < fst (bsr_shape A) / fst (bsr_blocksize A) ->
      nth I (bsr_indptr A) 0 <= nth (S I) (bsr_indptr A) 0;
  bwf_indptr_last :
    nth (fst (bsr_shape A) / fst (bsr_blocksize A)) (bsr_indptr A) 0
    = length (bsr_indices A);
  bwf_data_len : length (bsr_data A) = length (bsr_indices A);
  bwf_indices_lt :
    Forall (fun J => J < snd (bsr_shape A) / snd (bsr_blocksize A)) (bsr_indices A);
  bwf_blocks :
    Forall (fun blk => drows blk = fst (bsr_blocksize A) /\
                       rect (snd (bsr_blocksize A)) blk) (bsr_data A)
}.

(* ================================================================== *)
(** * The constraint projector, block storage *)

Definition msg_reshape : string := "total size of new array must be unchanged"%string.

(** [X[:,j].reshape(numBlocks, ColsPerBlock)] *)
Definition column_reshape (X : dmatrix) (j numBlocks ColsPerBlock : nat) : result dmatrix :=
  if negb (j <? dcols X) then Raise IndexError
  else if drows X =? numBlocks * ColsPerBlock
  then Ok (dmake numBlocks ColsPerBlock (fun b c => dget X (b * ColsPerBlock + c) j))
  else Raise (ValueError msg_reshape).

(** Row [j] of a block replaced. *)
Definition set_row (blk : dmatrix) (j : nat) (row : list Qc) : dmatrix :=
  firstn j blk ++ row :: skipn (S j) blk.

(** [data[a:b, j, :] = V] for the array [data] of blocks of [R] rows and [C]
    columns: [V] is broadcast to the shape of the target. *)
Definition assign_block_rows (R C : nat) (data : list dmatrix) (a b j : nat) (V : dmatrix)
    : result (list dmatrix) :=
  let len := length (slice data a b) in
  if negb (j <? R) then Raise IndexError
  else if ((drows V =? len) || (drows V =? 1)) && ((dcols V =? C) || (dcols V =? 1))
  then
    let value p c :=
      dget V (if drows V =? len then p else 0) (if dcols V =? C then c else 0) in
    Ok (splice data a
          (map (fun p => set_row (nth (a + p) data []) j
                           (map (fun c => value p c) (seq 0 C)))
               (seq 0 len)))
  else Raise (ValueError msg_broadcast).

(** Lines 143-144: the loop that writes the values of a node, on block row [j]. *)
Definition Satisfy_Constraints_BSR_write (update_local : dmatrix)
    (rowstart rowend numBlocks RowsPerBlock ColsPerBlock : nat)
    (Sparsity_Pattern : bsr_matrix) (j : nat) : result bsr_matrix :=
  V <- column_reshape update_local j numBlocks ColsPerBlock ;;
  data <- assign_block_rows (fst (bsr_blocksize Sparsity_Pattern))
            (snd (bsr_blocksize Sparsity_Pattern))
            (bsr_data Sparsity_Pattern) rowstart rowend j V ;;
  Ok (bsr_set_data Sparsity_Pattern data).

(** Lines 131-146: the body of the loop over the nodes, on node [i]; the
    state is the pattern and [rowoffset]. *)
Definition Satisfy_Constraints_BSR_node (B : dmatrix) (BtBinv : list dmatrix)
    (colindices : list (list nat)) (UB : dmatrix) (RowsPerBlock ColsPerBlock : nat)
    (st : bsr_matrix * nat) (i : nat) : result (bsr_matrix * nat) :=
  let '(Sparsity_Pattern, rowoffset) := st in
  rowstart <- index (bsr_indptr Sparsity_Pattern) i ;;
  rowend <- index (bsr_indptr Sparsity_Pattern) (i + 1) ;;
  colindx <- index colindices i ;;
  let numBlocks := rowend - rowstart in
  SP' <- (if negb (length colindx =? 0) then
            Bi <- take_rows B colindx ;;
            let UBi := slice UB rowoffset (rowoffset + RowsPerBlock) in
            G <- index BtBinv i ;;
            t <- dmul G (transpose UBi) ;;
            update_local <- dmul Bi t ;;
            for_range RowsPerBlock
              (Satisfy_Constraints_BSR_write update_local rowstart rowend numBlocks
                 RowsPerBlock ColsPerBlock)
              Sparsity_Pattern
          else Ok Sparsity_Pattern) ;;
  Ok (SP', rowoffset + RowsPerBlock).

(** Lines 101-153. *)
Definition Satisfy_Constraints_BSR (U Sparsity_Pattern : bsr_matrix) (B : dmatrix)
    (BtBinv : list dmatrix) (colindices : list (list nat))
    : result (bsr_matrix * bsr_matrix) :=
  let Nfine := fst (bsr_shape U) in
  let RowsPerBlock := fst (bsr_blocksize U) in
  let ColsPerBlock := snd (bsr_blocksize U) in
  if RowsPerBlock =? 0 then Raise ZeroDivisionError else
  let Nnodes := Nfine / RowsPerBlock in
  UB <- bsr_times_dense U B ;;
  '(scratch, _) <- for_range Nnodes
      (Satisfy_Constraints_BSR_node B BtBinv colindices UB RowsPerBlock ColsPerBlock)
      (Sparsity_Pattern, 0) ;;
  U' <- bsr_sub U scratch ;;
  Ok (U', bsr_set_data scratch
            (map (fun blk => map (fun row => map (fun _ => 1%Qc) row) blk)
                 (bsr_data scratch))).

(** Modelled from the spec: [BSR_Get_Colindices] of [pyamg.utils] is not part
    of the sources at hand.  The docstring of [Satisfy_Constraints_BSR]
    describes its result: a list indexed by node that returns the column
    indices of all the degrees of freedom of the node, every block being
    dense. *)
Definition expand_block_columns (C : nat) (block_columns : list nat) : list nat :=
  flat_map (fun J => map (fun c => J * C + c) (seq 0 C)) block_columns.

Definition BSR_Get_Colindices (A : bsr_matrix) : list (list nat) :=
  map (fun I => expand_block_columns (snd (bsr_blocksize A))
                  (slice (bsr_indices A) (nth I (bsr_indptr A) 0) (nth (S I) (bsr_indptr A) 0)))
      (seq 0 (fst (bsr_shape A) / fst (bsr_blocksize A))).

(** The block columns of node [I] of the pattern, the scalar columns they
    cover, and the blocks the loop of [Satisfy_Constraints_BSR] leaves there. *)
Definition bsr_colindx (SP : bsr_matrix) (I : nat) : list nat :=
  slice (bsr_indices SP) (nth I (bsr_indptr SP) 0) (nth (S I) (bsr_indptr SP) 0).

Definition node_colindx (SP : bsr_matrix) (I : nat) : list nat :=
  expand_block_columns (snd (bsr_blocksize SP)) (bsr_colindx SP I).

Definition node_row_update (SP : bsr_matrix) (B : dmatrix) (BtBinv : list dmatrix)
    (UB : dmatrix) (I r : nat) : list Qc :=
  local_update B (nth I BtBinv []) (nth (I * fst (bsr_blocksize SP) + r) UB [])
    (node_colindx SP I).

Definition node_update (SP : bsr_matrix) (B : dmatrix) (BtBinv : list dmatrix)
    (UB : dmatrix) (I : nat) : list dmatrix :=
  let R := fst (bsr_blocksize SP) in
  let C := snd (bsr_blocksize SP) in
  map (fun b => dmake R C (fun r c =>
                 nth (b * C + c) (node_row_update SP B BtBinv UB I r) 0%Qc))
      (seq 0 (length (bsr_colindx SP I))).

(** The blocks of a node while the rows below [j] have been written with the
    columns of [X] and the others still hold the rows of [old]. *)
Definition partial_blocks (C : nat) (X : dmatrix) (old : list dmatrix) (j : nat)
    : list dmatrix :=
  map (fun b => map (fun r => map (fun c => dget X (b * C + c) r) (seq 0 C)) (seq 0 j)
                ++ skipn j (nth b old []))
      (seq 0 (length old)).

(** What holds of the scratch pattern and of [rowoffset] when the loop of
    [Satisfy_Constraints_BSR] has treated the nodes below [i]. *)
Definition bscratch_inv (SP : bsr_matrix) (B : dmatrix) (BtBinv : list dmatrix)
    (UB : dmatrix) (i : nat) (st : bsr_matrix * nat) : Prop :=
  let Sc := fst st in
  snd st = i * fst (bsr_blocksize SP) /\
  bsr_shape Sc = bsr_shape SP /\
  bsr_blocksize Sc = bsr_blocksize SP /\
  bsr_indptr Sc = bsr_indptr SP /\
  bsr_indices Sc = bsr_indices SP /\
  length (bsr_data Sc) = length (bsr_data SP) /\
  (forall I, I < i -> I < fst (bsr_shape SP) / fst (bsr_blocksize SP) ->
     slice (bsr_data Sc) (nth I (bsr_indptr SP) 0) (nth (S I) (bsr_indptr SP) 0)
     = node_update SP B BtBinv UB I) /\
  (forall I, i <= I -> I < fst (bsr_shape SP) / fst (bsr_blocksize SP) ->
     slice (bsr_data Sc) (nth I (bsr_indptr SP) 0) (nth (S I) (bsr_indptr SP) 0)
     = slice (bsr_data SP) (nth I (bsr_indptr SP) 0) (nth (S I) (bsr_indptr SP) 0)).

(** What holds of the scratch pattern while the rows [0..j-1] of the blocks in
    [rowstart:rowend] have been written from [X]; [Sc0] is the pattern when
    the loop over the rows of the blocks starts. *)
Definition write_inv (Sc0 : bsr_matrix) (X : dmatrix) (rowstart rowend : nat)
    (j : nat) (Sc : bsr_matrix) : Prop :=
  bsr_shape Sc = bsr_shape Sc0 /\
  bsr_blocksize Sc = bsr_blocksize Sc0 /\
  bsr_indptr Sc = bsr_indptr Sc0 /\
  bsr_indices Sc = bsr_indices Sc0 /\
  length (bsr_data Sc) = length (bsr_data Sc0) /\
  slice (bsr_data Sc) rowstart rowend
  = partial_blocks (snd (bsr_blocksize Sc0)) X (slice (bsr_data Sc0) rowstart rowend) j /\
  (forall p, p < rowstart \/ rowend <= p ->
     nth p (bsr_data Sc) [] = nth p (bsr_data Sc0) []).

(** The entries [Satisfy_Constraints_BSR] returns. *)
Definition projected_BSR (U SP : bsr_matrix) (B : dmatrix) (BtBinv : list dmatrix)
    (UB : dmatrix) : bsr_matrix :=
  let R := fst (bsr_blocksize SP) in
  bsr_of_fun (bsr_shape U) (bsr_blocksize U)
    (fun i j => bsr_get U i j
                - entries_get (combine (node_colindx SP (i / R))
                                 (node_row_update SP B BtBinv UB (i / R) (i mod R))) j)%Qc.

Definition bsr_pattern_subset (U V : bsr_matrix) : Prop :=
  forall i j, bsr_stored U i j -> bsr_stored V i j.

(** Every stored value of the pattern is 1.0. *)
Definition bsr_all_ones (SP : bsr_matrix) : Prop :=
  Forall (Forall (Forall (fun v => v = 1%Qc))) (bsr_data SP).

(* ================================================================== *)
(** * The local Gram inverses (lines 293-373) *)

(** The thresholds [1e-10] and [1e-8], read as decimal rationals. *)
Definition abs_threshold : Qc := Q2Qc (1 # 10000000000).
Definition rel_threshold : Qc := Q2Qc (1 # 100000000).

(** [Sigma.nonzero()[0]] : the positions of the nonzero values. *)
Definition nonzero_indices (Sigma : list Qc) : list nat :=
  filter (fun p => nonzero (nth p Sigma 0%Qc)) (seq 0 (length Sigma)).

(** [Sigma[indys]] *)
Fixpoint take (Sigma : list Qc) (indys : list nat) : result (list Qc) :=
  match indys with
  | [] => Ok []
  | p :: ps =>
      s <- index Sigma p ;;
      r <- take Sigma ps ;;
      Ok (s :: r)
  end.

(** [U[:,indys]] *)
Fixpoint take_cols (U : dmatrix) (indys : list nat) : result dmatrix :=
  match U with
  | [] => Ok []
  | row :: rows =>
      r <- take row indys ;;
      rs <- take_cols rows indys ;;
      Ok (r :: rs)
  end.

(** [1.0/Sigma] : a zero value would give [inf]. *)
Fixpoint reciprocals (Sigma : list Qc) : result (list Qc) :=
  match Sigma with
  | [] => Ok []
  | s :: r =>
      if nonzero s then (r' <- reciprocals r ;; Ok ((1 / s)%Qc :: r'))
      else Raise NonFinite
  end.

(** [Sigma.reshape(Sigma.shape[0],1)*X] : the column of the values of [Sigma]
    against the rows of [X], broadcast as numpy does. *)
Definition scale_rows_by (Sigma : list Qc) (X : dmatrix) : result dmatrix :=
  let r := length Sigma in
  if (r =? drows X) || (r =? 1) || (drows X =? 1) then
    Ok (dmake (Nat.max r (drows X)) (dcols X)
          (fun p c => nth (if r =? 1 then 0 else p) Sigma 0%Qc
                      * dget X (if drows X =? 1 then 0 else p) c)%Qc)
  else Raise (ValueError msg_broadcast).

(** [Sigma[NullDim-1]] : the index [-1] is the last position. *)
Definition index_last (Sigma : list Qc) (NullDim : nat) : result Qc :=
  if NullDim =? 0 then index (rev Sigma) 0 else index Sigma (NullDim - 1).

Section GramInverse.
(** [scipy.linalg.svd] : the factors [U], [Sigma], [VT] of a square matrix. *)
Variable svd : dmatrix -> dmatrix * list Qc * dmatrix.

(** Lines 309-332 (and 350-373): the inverse of [Bi.T*Bi] from its singular
    value decomposition. *)
Definition local_inverse (NullDim : nat) (Bi : dmatrix) : result dmatrix :=
  M <- dmul (transpose Bi) Bi ;;
  let '(U, Sigma, VT) := svd M in
  s0 <- index Sigma 0 ;;
  '(U, Sigma, VT) <-
    (if Qc_ltb (Qcabs s0) abs_threshold then
       Ok (U, map (fun _ => 0%Qc) Sigma, VT)
     else
       let Sigma := map (fun s => if Qc_ltb rel_threshold (Qcabs (s / s0))
                                  then s else 0%Qc) Sigma in
       last <- index_last Sigma NullDim ;;
       '(U, Sigma, VT) <-
         (if Qc_eqb last 0%Qc then
            let indys := nonzero_indices Sigma in
            Sigma' <- take Sigma indys ;;
            U' <- take_cols U indys ;;
            VT' <- take_rows VT indys ;;
            Ok (U', Sigma', VT')
          else Ok (U, Sigma, VT)) ;;
       Sigma <- reciprocals Sigma ;;
       Ok (U, Sigma, VT)) ;;
  X <- scale_rows_by Sigma (transpose U) ;;
  dmul (transpose VT) X.

(** [BtBinv[i] = G] on a Python list. *)
Definition list_set (BtBinv : list dmatrix) (i : nat) (G : dmatrix) : result (list dmatrix) :=
  if i <? length BtBinv then Ok (firstn i BtBinv ++ G :: skipn (S i) BtBinv)
  else Raise IndexError.

(** Lines 301-332: the body of the loop over the rows. *)
Definition build_BtBinv_CSR_row (Sparsity_Pattern : csr_matrix) (B : dmatrix)
    (NullDim : nat) (BtBinv : list dmatrix) (i : nat) : result (list dmatrix) :=
  rowstart <- index (csr_indptr Sparsity_Pattern) i ;;
  rowend <- index (csr_indptr Sparsity_Pattern) (i + 1) ;;
  let colindx := slice (csr_indices Sparsity_Pattern) rowstart rowend in
  if negb (rowend =? rowstart) then
    Bi <- take_rows B colindx ;;
    G <- local_inverse NullDim Bi ;;
    list_set BtBinv i G
  else Ok BtBinv.

(** Lines 295-332. *)
Definition build_BtBinv_CSR (Sparsity_Pattern : csr_matrix) (B : dmatrix)
    (Nfine NullDim : nat) : result (list dmatrix) :=
  let preall := dzeros NullDim NullDim in
  let BtBinv := map (fun _ => preall) (seq 0 Nfine) in
  for_range Nfine (build_BtBinv_CSR_row Sparsity_Pattern B NullDim) BtBinv.

(** Lines 342-373: the body of the loop over the nodes. *)
Definition build_BtBinv_BSR_node (Sparsity_Pattern : bsr_matrix) (B : dmatrix)
    (colindices : list (list nat)) (NullDim : nat) (BtBinv : list dmatrix) (i : nat)
    : result (list dmatrix) :=
  rowstart <- index (bsr_indptr Sparsity_Pattern) i ;;
  rowend <- index (bsr_indptr Sparsity_Pattern) (i + 1) ;;
  colindx <- index colindices i ;;
  if negb (rowend =? rowstart) then
    Bi <- take_rows B colindx ;;
    G <- local_inverse NullDim Bi ;;
    list_set BtBinv i G
  else Ok BtBinv.

(** Lines 333-373. *)
Definition build_BtBinv_BSR (Sparsity_Pattern : bsr_matrix) (B : dmatrix)
    (colindices : list (list nat)) (Nfine NullDim : nat) : result (list dmatrix) :=
  let preall := dzeros NullDim NullDim in
  let RowsPerBlock := fst (bsr_blocksize Sparsity_Pattern) in
  if RowsPerBlock =? 0 then Raise ZeroDivisionError else
  let Nnodes := Nfine / RowsPerBlock in
  let BtBinv := map (fun _ => preall) (seq 0 Nnodes) in
  for_range Nnodes (build_BtBinv_BSR_node Sparsity_Pattern B colindices NullDim) BtBinv.

End GramInverse.

(** The rule of the specification for a decomposition [(U, Sigma, VT)] of a
    [k] by [k] matrix: nothing is kept when the largest singular value is
    below [1e-10]; otherwise the directions whose singular value has a ratio
    above [1e-8] to the largest are kept and their singular values inverted. *)
Definition kept_indices (k : nat) (Sigma : list Qc) : list nat :=
  filter (fun p => Qc_ltb rel_threshold
                     (Qcabs (nth p Sigma 0%Qc / nth 0 Sigma 0%Qc)))
         (seq 0 k).

Definition truncated_inverse_spec (k : nat) (usv : dmatrix * list Qc * dmatrix) : dmatrix :=
  let '(U, Sigma, VT) := usv in
  if Qc_ltb (Qcabs (nth 0 Sigma 0%Qc)) abs_threshold then dzeros k k
  else dmake k k (fun a b =>
         qsum (map (fun p => dget VT p a * (1 / nth p Sigma 0%Qc) * dget U b p)%Qc
                   (kept_indices k Sigma))).

(** Singular values as [svd] returns them: non-negative, largest first. *)
Fixpoint nonincreasing (Sigma : list Qc) : Prop :=
  match Sigma with
  | [] => True
  | s :: r => (0 <= s)%Qc /\ Forall (fun x => (x <= s)%Qc) r /\ nonincreasing r
  end.

(** The shapes [svd] returns for a [k] by [k] matrix. *)
Definition svd_shapes (k : nat) (usv : dmatrix * list Qc * dmatrix) : Prop :=
  let '(U, Sigma, VT) := usv in
  drows U = k /\ rect k U /\ length Sigma = k /\ drows VT = k /\ rect k VT /\
  nonincreasing Sigma.

(** A decomposition of a [1] by [1] matrix. *)
Definition svd_1x1 (M : dmatrix) : dmatrix * list Qc * dmatrix :=
  let m := dget M 0 0 in
  ([[1%Qc]], [Qcabs m], [[if Qc_ltb m 0%Qc then (-(1))%Qc else 1%Qc]]).

(** What the table holds for a support [colindx]: zeros for an empty
    support, otherwise the truncated inverse of the specification at the
    decomposition of the local Gram matrix. *)
Definition table_entry_spec (svd : dmatrix -> dmatrix * list Qc * dmatrix) (k : nat)
    (B : dmatrix) (colindx : list nat) (G : dmatrix) : Prop :=
  (colindx = [] -> G = dzeros k k) /\
  (colindx <> [] ->
     exists M, local_gram B colindx = Ok M /\ G = truncated_inverse_spec k (svd M)).

(** The table while the loop of the builder has treated the supports below [i]. *)
Definition table_inv (svd : dmatrix -> dmatrix * list Qc * dmatrix) (k : nat)
    (B : dmatrix) (support : nat -> list nat) (N : nat) (i : nat)
    (BtBinv : list dmatrix) : Prop :=
  length BtBinv = N /\
  (forall r, r < i -> r < N -> table_entry_spec svd k B (support r) (nth r BtBinv [])) /\
  (forall r, i <= r -> r < N -> nth r BtBinv [] = dzeros k k).

(* ================================================================== *)
(** * Decidable well-formedness, for concrete matrices *)

Definition rectb (k : nat) (X : dmatrix) : bool :=
  forallb (fun r => length r =? k) X.

Definition csr_wfb (A : csr_matrix) : bool :=
  (length (csr_indptr A) =? S (fst (csr_shape A)))
  && (nth 0 (csr_indptr A) 0 =? 0)
  && forallb (fun i => nth i (csr_indptr A) 0 <=? nth (S i) (csr_indptr A) 0)
             (seq 0 (fst (csr_shape A)))
  && (nth (fst (csr_shape A)) (csr_indptr A) 0 =? length (csr_indices A))
  && (length (csr_data A) =? length (csr_indices A))
  && forallb (fun j => j <? snd (csr_shape A)) (csr_indices A).

Definition bsr_wfb (A : bsr_matrix) : bool :=
  let R := fst (bsr_blocksize A) in
  let C := snd (bsr_blocksize A) in
  let N := fst (bsr_shape A) / R in
  (0 <? R) && (0 <? C)
  && (fst (bsr_shape A) mod R =? 0) && (snd (bsr_shape A) mod C =? 0)
  && (length (bsr_indptr A) =? S N)
  && (nth 0 (bsr_indptr A) 0 =? 0)
  && forallb (fun i => nth i (bsr_indptr A) 0 <=? nth (S i) (bsr_indptr A) 0) (seq 0 N)
  && (nth N (bsr_indptr A) 0 =? length (bsr_indices A))
  && (length (bsr_data A) =? length (bsr_indices A))
  && forallb (fun J => J <? snd (bsr_shape A) / C) (bsr_indices A)
  && forallb (fun blk => (drows blk =? R) && rectb C blk) (bsr_data A).

(* ================================================================== *)
(** * Concrete inputs *)

Definition qz (z : Z) : Qc := Q2Qc (inject_Z z).

(** The values of a dense matrix, without the proofs that they are reduced. *)
Definition dvalues (X : dmatrix) : list (list Q) := map (map this) X.

(** A near-nullspace of one vector on two coarse unknowns. *)
Definition ex_B : dmatrix := [[qz 1]; [qz 2]].

(** A scalar pattern on three rows: the supports are [0;1], [1] and none. *)
Definition ex_SP_csr : csr_matrix :=
  mk_csr (3, 2) [0; 2; 3; 3] [0; 1; 1] [1%Qc; 1%Qc; 1%Qc].

Definition ex_U_csr : csr_matrix :=
  mk_csr (3, 2) [0; 2; 3; 3] [0; 1; 1] [qz 1; qz 3; qz 7].

(** The inverses of the local Gram matrices of [ex_SP_csr]: 1/(1+4), 1/4. *)
Definition ex_BtBinv_csr : list dmatrix :=
  [[[Q2Qc (1 # 5)]]; [[Q2Qc (1 # 4)]]; [[0%Qc]]].

(** A block pattern of two nodes of two rows, each with both coarse unknowns. *)
Definition ex_SP_bsr : bsr_matrix :=
  mk_bsr (4, 2) (2, 1) [0; 2; 4] [0; 1; 0; 1]
    [[[1%Qc]; [1%Qc]]; [[1%Qc]; [1%Qc]]; [[1%Qc]; [1%Qc]]; [[1%Qc]; [1%Qc]]].

Definition ex_U_bsr : bsr_matrix :=
  mk_bsr (4, 2) (2, 1) [0; 2; 4] [0; 1; 0; 1]
    [[[qz 1]; [qz 2]]; [[qz 3]; [qz 4]]; [[qz 3]; [qz 4]]; [[qz 5]; [qz 6]]].

Definition ex_BtBinv_bsr : list dmatrix := [[[Q2Qc (1 # 5)]]; [[Q2Qc (1 # 5)]]].

(** A near-nullspace vector of small scale, and an operator of large scale. *)
Definition cx_B : dmatrix := [[Q2Qc (1 # 1000000)]].
Definition cx_SP : csr_matrix := mk_csr (1, 1) [0; 1] [0] [1%Qc].
Definition cx_U : csr_matrix := mk_csr (1, 1) [0; 1] [0] [qz 1000000].

(** [G] is a reflexive generalised inverse of the local Gram matrix [M] of
    the support: [G*M*G = G].  Every pseudoinverse is one. *)
Definition reflexive_inverse (B : dmatrix) (colindx : list nat) (G : dmatrix) : Prop :=
  exists M GM, local_gram B colindx = Ok M /\ dmul G M = Ok GM /\ dmul GM G = Ok G.

Definition kronecker (p q : nat) : Qc := if p =? q then 1%Qc else 0%Qc.

(** [(U, Sigma, VT)] is a singular value decomposition of the [k] by [k]
    matrix [M]: [M = U * diag(Sigma) * VT], the columns of [U] and the rows of
    [VT] being orthonormal. *)
Definition svd_exact (k : nat) (M : dmatrix) (usv : dmatrix * list Qc * dmatrix) : Prop :=
  let '(U, Sigma, VT) := usv in
  (forall a b, a < k -> b < k ->
     dget M a b = sum_upto k (fun p => dget U a p * nth p Sigma 0 * dget VT p b)%Qc) /\
  (forall p q, p < k -> q < k ->
     sum_upto k (fun a => dget U a p * dget U a q)%Qc = kronecker p q) /\
  (forall p q, p < k -> q < k ->
     sum_upto k (fun b => dget VT p b * dget VT q b)%Qc = kronecker p q).

(* ================================================================== *)
(** * The objects of the caller

    [Satisfy_Constraints_CSR] and [Satisfy_Constraints_BSR] above take the
    operator and the pattern as two values, which is how
    [energy_prolongation_smoother] calls them: with two distinct objects.
    The pattern is written in place, so the same functions are given here on
    a store of objects, [U] and [Sparsity_Pattern] being addresses. *)

Section Heap.
Variable M : Type.

Definition heap : Type := list M.

Definition deref (h : heap) (a : nat) : result M := index h a.

Definition store (h : heap) (a : nat) (v : M) : heap :=
  if a <? length h then firstn a h ++ v :: skipn (S a) h else h.

End Heap.

Arguments deref {M} h a.
Arguments store {M} h a v.

(** Lines 59-98 on the store: the result is a new operator, returned as a
    value; the store is returned as the call leaves it. *)
Definition Satisfy_Constraints_CSR_call (h : heap csr_matrix) (U Sparsity_Pattern : nat)
    (B : dmatrix) (BtBinv : list dmatrix) : result (csr_matrix * heap csr_matrix) :=
  u <- deref h U ;;
  let Nfine := fst (csr_shape u) in
  UB <- csr_times_dense u B ;;
  h1 <- for_range Nfine
          (fun h i =>
             sp <- deref h Sparsity_Pattern ;;
             sp' <- Satisfy_Constraints_CSR_row B BtBinv UB sp i ;;
             Ok (store h Sparsity_Pattern sp'))
          h ;;
  u1 <- deref h1 U ;;
  sp1 <- deref h1 Sparsity_Pattern ;;
  U' <- csr_sub u1 sp1 ;;
  Ok (U', store h1 Sparsity_Pattern
            (csr_set_data sp1 (map (fun _ => 1%Qc) (csr_data sp1)))).

(** Lines 101-153 on the store. *)
Definition Satisfy_Constraints_BSR_call (h : heap bsr_matrix) (U Sparsity_Pattern : nat)
    (B : dmatrix) (BtBinv : list dmatrix) (colindices : list (list nat))
    : result (bsr_matrix * heap bsr_matrix) :=
  u <- deref h U ;;
  let Nfine := fst (bsr_shape u) in
  let RowsPerBlock := fst (bsr_blocksize u) in
  let ColsPerBlock := snd (bsr_blocksize u) in
  if RowsPerBlock =? 0 then Raise ZeroDivisionError else
  let Nnodes := Nfine / RowsPerBlock in
  UB <- bsr_times_dense u B ;;
  '(h1, _) <- for_range Nnodes
      (fun (st : heap bsr_matrix * nat) i =>
         let '(h, rowoffset) := st in
         sp <- deref h Sparsity_Pattern ;;
         '(sp', rowoffset') <-
           Satisfy_Constraints_BSR_node B BtBinv colindices UB RowsPerBlock ColsPerBlock
             (sp, rowoffset) i ;;
         Ok (store h Sparsity_Pattern sp', rowoffset'))
      (h, 0) ;;
  u1 <- deref h1 U ;;
  sp1 <- deref h1 Sparsity_Pattern ;;
  U' <- bsr_sub u1 sp1 ;;
  Ok (U', store h1 Sparsity_Pattern
            (bsr_set_data sp1
               (map (fun blk => map (fun row => map (fun _ => 1%Qc) row) blk)
                    (bsr_data sp1)))).

(** Two patterns with the same structure and as many stored values. *)
Definition csr_same_structure (A A' : csr_matrix) : Prop :=
  csr_shape A' = csr_shape A /\ csr_indptr A' = csr_indptr A /\
  csr_indices A' = csr_indices A /\ length (csr_data A') = length (csr_data A).

Definition bsr_same_structure (A A' : bsr_matrix) : Prop :=
  bsr_shape A' = bsr_shape A /\ bsr_blocksize A' = bsr_blocksize A /\
  bsr_indptr A' = bsr_indptr A /\ bsr_indices A' = bsr_indices A /\
  length (bsr_data A') = length (bsr_data A).

(** What a call leaves of the store [h]: every object but the pattern is
    the same, and the pattern has its structure and satisfies [ones]. *)
Definition frame {M : Type} (same : M -> M -> Prop) (ones : M -> Prop)
    (h h' : heap M) (Sparsity_Pattern : nat) : Prop :=
  length h' = length h /\
  (forall a, a <> Sparsity_Pattern -> nth_error h' a = nth_error h a) /\
  exists sp sp', deref h Sparsity_Pattern = Ok sp /\
                 deref h' Sparsity_Pattern = Ok sp' /\ same sp sp' /\ ones sp'.

(* ================================================================== *)
(** * Sparse matrices of either storage class *)

(** ** Block storage: the remaining operations *)

Definition bsr_has (A : bsr_matrix) (i j : nat) : bool :=
  existsb (Nat.eqb j) (map fst (bsr_row A i)).

(** [A.data.flatten()] *)
Definition bsr_values (A : bsr_matrix) : list Qc := List.concat (List.concat (bsr_data A)).

(** The blocks of node [I] at the block columns that are [present]. *)
Definition mask_node (R C nbc : nat) (present : nat -> bool) (f : nat -> nat -> Qc)
    (I : nat) : list (nat * dmatrix) :=
  map (fun J => (J, block_of_fun R C f I J)) (filter present (seq 0 nbc)).

(** The block matrix that stores the blocks that are [present], zero or not. *)
Definition bsr_of_mask (shape blocksize : nat * nat) (present : nat -> nat -> bool)
    (f : nat -> nat -> Qc) : bsr_matrix :=
  let R := fst blocksize in
  let C := snd blocksize in
  bsr_of_nodes shape blocksize
    (map (fun I => mask_node R C (snd shape / C) (present I) f I) (seq 0 (fst shape / R))).

Definition bsr_scale (a : Qc) (X : bsr_matrix) : bsr_matrix :=
  bsr_set_data X (map (map (map (fun v => (a * v)%Qc))) (bsr_data X)).

Definition bsr_abs (X : bsr_matrix) : bsr_matrix :=
  bsr_set_data X (map (map (map Qcabs)) (bsr_data X)).

(** [X.tocsr()] : every value of every stored block is stored. *)
Definition bsr_tocsr (X : bsr_matrix) : csr_matrix :=
  csr_of_rows (bsr_shape X) (map (bsr_row X) (seq 0 (fst (bsr_shape X)))).

Definition msg_blocksize : string := "invalid blocksize"%string.

(** Some position of the block [(I, J)] of [R] by [C] values satisfies [has]. *)
Definition block_has (R C : nat) (has : nat -> nat -> bool) (I J : nat) : bool :=
  existsb (fun i => existsb (fun j => has i j) (seq (J * C) C)) (seq (I * R) R).

(** [X.tobsr(blocksize=(R, C))] : the blocks that hold a stored position. *)
Definition csr_tobsr (X : csr_matrix) (blocksize : nat * nat) : result bsr_matrix :=
  let R := fst blocksize in
  let C := snd blocksize in
  if (0 <? R) && (0 <? C) && (fst (csr_shape X) mod R =? 0) && (snd (csr_shape X) mod C =? 0)
  then Ok (bsr_of_mask (csr_shape X) blocksize (block_has R C (csr_has X)) (csr_get X))
  else Raise (ValueError msg_blocksize).

(** ** Either class *)

Inductive spmatrix : Type :=
| Csr (X : csr_matrix)
| Bsr (X : bsr_matrix).

Definition sp_shape (X : spmatrix) : nat * nat :=
  match X with Csr x => csr_shape x | Bsr x => bsr_shape x end.

Definition sp_blocksize (X : spmatrix) : nat * nat :=
  match X with Csr _ => (1, 1) | Bsr x => bsr_blocksize x end.

Definition sp_nnz (X : spmatrix) : nat :=
  match X with Csr x => csr_nnz x | Bsr x => bsr_nnz x end.

Definition sp_get (X : spmatrix) (i j : nat) : Qc :=
  match X with Csr x => csr_get x i j | Bsr x => bsr_get x i j end.

Definition sp_has (X : spmatrix) (i j : nat) : bool :=
  match X with Csr x => csr_has x i j | Bsr x => bsr_has x i j end.

(** [X.data.flatten()] *)
Definition sp_values (X : spmatrix) : list Qc :=
  match X with Csr x => csr_data x | Bsr x => bsr_values x end.

(** [X.sum()] *)
Definition sp_sum (X : spmatrix) : Qc := qsum (sp_values X).

(** [X.diagonal()] *)
Definition sp_diagonal (X : spmatrix) : list Qc :=
  map (fun i => sp_get X i i) (seq 0 (Nat.min (fst (sp_shape X)) (snd (sp_shape X)))).

(** [a * X] *)
Definition sp_scale (a : Qc) (X : spmatrix) : spmatrix :=
  match X with Csr x => Csr (csr_scale a x) | Bsr x => Bsr (bsr_scale a x) end.

(** [-X] *)
Definition sp_neg (X : spmatrix) : spmatrix := sp_scale (- (1))%Qc X.

(** [X.__abs__()] *)
Definition sp_abs (X : spmatrix) : spmatrix :=
  match X with Csr x => Csr (csr_abs x) | Bsr x => Bsr (bsr_abs x) end.

(** The result of an element-wise operation of scipy: it has the class and
    the block size of the left operand [X], and stores no zero (no block of
    zeros).  The right operand is converted, which keeps its entries. *)
Definition sp_of_fun (X : spmatrix) (f : nat -> nat -> Qc) : spmatrix :=
  match X with
  | Csr x => Csr (csr_of_fun (csr_shape x) f)
  | Bsr x => Bsr (bsr_of_fun (bsr_shape x) (bsr_blocksize x) f)
  end.

(** [X + Y], [X - Y], [X.multiply(Y)] *)
Definition sp_add (X Y : spmatrix) : result spmatrix :=
  if shape_eqb (sp_shape X) (sp_shape Y)
  then Ok (sp_of_fun X (fun i j => sp_get X i j + sp_get Y i j)%Qc)
  else Raise (ValueError msg_inconsistent).

Definition sp_sub (X Y : spmatrix) : result spmatrix :=
  if shape_eqb (sp_shape X) (sp_shape Y)
  then Ok (sp_of_fun X (fun i j => sp_get X i j - sp_get Y i j)%Qc)
  else Raise (ValueError msg_inconsistent).

Definition sp_multiply (X Y : spmatrix) : result spmatrix :=
  if shape_eqb (sp_shape X) (sp_shape Y)
  then Ok (sp_of_fun X (fun i j => sp_get X i j * sp_get Y i j)%Qc)
  else Raise (ValueError msg_inconsistent).

(** [X * Y], the product of two sparse matrices, in the class of [X].  It is
    structural: a position (a block) is stored when a stored position
    (block) of [X] meets one of [Y], also when the sum is zero.  Rows are
    given with sorted columns; this module sorts the one product whose
    order it looks at. *)
Definition sp_matmul (X Y : spmatrix) : result spmatrix :=
  if snd (sp_shape X) =? fst (sp_shape Y) then
    let shape := (fst (sp_shape X), snd (sp_shape Y)) in
    let f := fun i j => sum_upto (fst (sp_shape Y))
                          (fun a => sp_get X i a * sp_get Y a j)%Qc in
    match X with
    | Csr x =>
        Ok (Csr (csr_of_mask shape
                   (fun i j => existsb (fun a => sp_has Y a j) (map fst (csr_row x i)))
                   f))
    | Bsr x =>
        let R := fst (bsr_blocksize x) in
        let n := snd (bsr_blocksize x) in
        let C := snd (sp_blocksize Y) in
        Ok (Bsr (bsr_of_mask shape (R, C)
                   (fun I J => existsb (fun K => block_has n C (sp_has Y) K J)
                                 (map fst (bsr_node x I)))
                   f))
    end
  else Raise (ValueError msg_dim_mismatch).

(** [X * mat(B)] *)
Definition sp_times_dense (X : spmatrix) (B : dmatrix) : result dmatrix :=
  match X with Csr x => csr_times_dense x B | Bsr x => bsr_times_dense x B end.

(** [X.data[...] = 1.0] *)
Definition sp_set_ones (X : spmatrix) : spmatrix :=
  match X with
  | Csr x => Csr (csr_set_data x (map (fun _ => 1%Qc) (csr_data x)))
  | Bsr x => Bsr (bsr_set_data x (map (map (map (fun _ => 1%Qc))) (bsr_data x)))
  end.

(** [X.sort_indices()] : the entries of each row (the blocks of each node)
    by increasing column. *)
Fixpoint insert_entry {A : Type} (e : nat * A) (l : list (nat * A)) : list (nat * A) :=
  match l with
  | [] => [e]
  | x :: r => if fst e <=? fst x then e :: l else x :: insert_entry e r
  end.

Definition sort_entries {A : Type} (l : list (nat * A)) : list (nat * A) :=
  fold_right insert_entry [] l.

Definition sp_sort_indices (X : spmatrix) : spmatrix :=
  match X with
  | Csr x =>
      Csr (csr_of_rows (csr_shape x)
             (map (fun i => sort_entries (csr_row x i)) (seq 0 (fst (csr_shape x)))))
  | Bsr x =>
      Bsr (bsr_of_nodes (bsr_shape x) (bsr_blocksize x)
             (map (fun I => sort_entries (bsr_node x I))
                  (seq 0 (fst (bsr_shape x) / fst (bsr_blocksize x)))))
  end.

(** [spdiags([v], [0], N, N)] : the values of [v] on the diagonal, without the zeros. *)
Definition spdiags (v : list Qc) (N : nat) : csr_matrix :=
  csr_of_fun (N, N)
    (fun i j => if (i =? j) && (j <? length v) then nth j v 0%Qc else 0%Qc).

(* ================================================================== *)
(** * The energy minimization (lines 159-490) *)

(** What a caller can pass as [A] or [T]: a sparse matrix of one of the two
    classes, or anything else. *)
Inductive pyobject : Type :=
| Sparse (X : spmatrix)
| NotCsrBsr.

Definition format_of (o : pyobject) : format :=
  match o with
  | Sparse (Csr _) => FmtCSR
  | Sparse (Bsr _) => FmtBSR
  | NotCsrBsr => FmtOther
  end.

(** What the function prints, and the files it writes when asked to. *)
Inductive event : Type :=
| Print (text : string)
| Savemat (name : string).

Definition warn_blocksize : string :=
  "Warning, T's row-blocksize should be the same as A's blocksize."%string.
Definition msg_no_nonzeros : string :=
  "Error in sa_energy_min(..).  A, T or Atilde has no nonzeros on a level."%string.
Definition msg_initial_R : string :=
  "Error in sa_energy_min(..).  Initial R no nonzeros on a level.  Calling Default Prolongator Smoother"%string.
Definition msg_zero_diag : string :=
  "Zero on diag(A) for nonzero row of A in sa_ode_energy_min routine. -- Aborting."%string.
Definition msg_max_empty : string := "max() arg is an empty sequence"%string.
Definition msg_storage : string := "unexpected storage class"%string.

Definition Qc_max (x y : Qc) : Qc := if Qc_ltb x y then y else x.

(** [max(data.__abs__())] for the Python built-in [max]. *)
Definition max_abs (data : list Qc) : result Qc :=
  match data with
  | [] => Raise (ValueError msg_max_empty)
  | x :: r => Ok (fold_left Qc_max (map Qcabs r) (Qcabs x))
  end.

(** [x/y] for two numpy floats: a zero [y] would give [inf] or [nan]. *)
Definition divide (x y : Qc) : result Qc :=
  if Qc_eqb y 0%Qc then Raise NonFinite else Ok (x / y)%Qc.

(** The value of a local variable that may not be bound yet. *)
Definition bound {A : Type} (v : option A) : result A :=
  match v with Some a => Ok a | None => Raise NameError end.

(** The local variables of the two loops of lines 404-472. *)
Record state : Type := mk_state {
  st_i : nat;
  st_T : spmatrix;
  st_R : spmatrix;
  st_resid : Qc;
  st_P : option spmatrix;
  st_oldsum : option Qc;
  st_pattern : spmatrix
}.

(** A [while] loop that is known to end within [fuel] turns. *)
Fixpoint while {St : Type} (fuel : nat) (cond : St -> bool) (body : St -> result St)
    (s : St) : result St :=
  match fuel with
  | 0 => Ok s
  | S fuel' => if cond s then (s' <- body s ;; while fuel' cond body s') else Ok s
  end.

(** Where the function stands before its loops: it has returned (lines 218
    and 393), or the loops start in the state [s]. *)
Inductive prepared : Type :=
| Returned (T : spmatrix) (events : list event)
| Ready (csrflag : bool) (Dinv : spmatrix) (BtBinv : list dmatrix)
    (colindices : list (list nat)) (blocks : nat * nat) (events : list event) (s : state).

Section EnergyMinimization.

(** [scipy.linalg.svd]. *)
Variable svd : dmatrix -> dmatrix * list Qc * dmatrix.

(** [UnAmal], [BSR_Get_Row] of [pyamg.utils] and
    [pyamg.sa.sa_smoothed_prolongator] are not part of the sources at hand. *)
Variable UnAmal : csr_matrix -> nat -> nat -> bsr_matrix.
Variable BSR_Get_Row : bsr_matrix -> nat -> list Qc * list nat.
Variable sa_smoothed_prolongator : spmatrix -> spmatrix -> result spmatrix.

(** Lines 243-249: the test on a row [i] with a zero on the diagonal. *)
Definition check_zero_row (A : spmatrix) (i : nat) : result unit :=
  match A with
  | Csr a =>
      p <- index (csr_indptr a) i ;;
      q <- index (csr_indptr a) (i + 1) ;;
      if negb (p =? q) then Raise (ValueError msg_zero_diag) else Ok tt
  | Bsr a =>
      let '(zi, colindx) := BSR_Get_Row a i in
      if 0 <? length colindx then Raise (ValueError msg_zero_diag) else Ok tt
  end.

(** [D.__eq__(0.0).nonzero()[0]] *)
Definition zero_positions (D : list Qc) : list nat :=
  filter (fun i => Qc_eqb (nth i D 0%Qc) 0%Qc) (seq 0 (length D)).

(** Lines 238-252: the diagonal of [A], with 1.0 at the rows of zeros. *)
Definition checked_diagonal (A : spmatrix) : result (list Qc) :=
  let D := sp_diagonal A in
  if negb (length (nonzero_indices D) =? fst (sp_shape A)) then
    let zero_rows := zero_positions D in
    _ <- for_each zero_rows (fun _ i => check_zero_row A i) tt ;;
    Ok (map (fun i => if existsb (Nat.eqb i) zero_rows then 1%Qc else nth i D 0%Qc)
            (seq 0 (length D)))
  else Ok D.

(** Lines 254-258: [Dinv]. *)
Definition diagonal_preconditioner (A : spmatrix) (D : list Qc) (Nfine : nat)
    : result spmatrix :=
  d <- reciprocals D ;;
  match A with
  | Csr _ => Ok (Csr (spdiags d Nfine))
  | Bsr a => Dinv <- csr_tobsr (spdiags d Nfine) (bsr_blocksize a) ;; Ok (Bsr Dinv)
  end.

(** Lines 262-278: [T] as the loops use it, the pattern and the columns of
    its nodes. *)
Definition sparsity_pattern (A : spmatrix) (T : bsr_matrix) (Atilde : csr_matrix)
    : result (spmatrix * spmatrix * list (list nat)) :=
  match A with
  | Bsr a =>
      let numPDEs := fst (bsr_blocksize a) in
      Sparsity_Pattern <- sp_matmul (sp_abs (Bsr (UnAmal Atilde numPDEs numPDEs)))
                                    (sp_abs (Bsr T)) ;;
      let Sparsity_Pattern := sp_sort_indices (sp_set_ones Sparsity_Pattern) in
      let colindices :=
        match Sparsity_Pattern with
        | Bsr sp => BSR_Get_Colindices sp
        | Csr _ => []
        end in
      Ok (Bsr T, Sparsity_Pattern, colindices)
  | Csr _ =>
      let T := Csr (bsr_tocsr T) in
      Sparsity_Pattern <- sp_matmul (sp_abs (Csr Atilde)) (sp_abs T) ;;
      let Sparsity_Pattern := sp_sort_indices (sp_set_ones Sparsity_Pattern) in
      Ok (T, Sparsity_Pattern, [])
  end.

(** Lines 295-373: the table of the local inverses. *)
Definition build_BtBinv (Sparsity_Pattern : spmatrix) (B : dmatrix)
    (colindices : list (list nat)) (Nfine NullDim : nat) : result (list dmatrix) :=
  match Sparsity_Pattern with
  | Csr sp => build_BtBinv_CSR svd sp B Nfine NullDim
  | Bsr sp => build_BtBinv_BSR svd sp B colindices Nfine NullDim
  end.

Section Loops.

Variables (csrflag : bool) (A Dinv : spmatrix) (B : dmatrix) (BtBinv : list dmatrix).
Variable colindices : list (list nat).
Variables (num_iters : Z) (min_tol : pyfloat).

(** The call of the projector of the class of [A]; the pattern is returned
    as the call leaves it. *)
Definition Satisfy_Constraints (U Sparsity_Pattern : spmatrix)
    : result (spmatrix * spmatrix) :=
  if csrflag then
    match U, Sparsity_Pattern with
    | Csr u, Csr sp =>
        '(u', sp') <- Satisfy_Constraints_CSR u sp B BtBinv ;; Ok (Csr u', Csr sp')
    | _, _ => Raise (TypeError msg_storage)
    end
  else
    match U, Sparsity_Pattern with
    | Bsr u, Bsr sp =>
        '(u', sp') <- Satisfy_Constraints_BSR u sp B BtBinv colindices ;;
        Ok (Bsr u', Bsr sp')
    | _, _ => Raise (TypeError msg_storage)
    end.

(** [(i < num_iters) and (resid > min_tol)] *)
Definition continue (s : state) : bool :=
  (Z.of_nat (st_i s) <? num_iters)%Z && gt_float (st_resid s) min_tol.

(** Lines 406-438: one turn of the loop of the SPD branch. *)
Definition cg_step (s : state) : result state :=
  Z <- sp_matmul Dinv (st_R s) ;;
  RZ <- sp_multiply (st_R s) Z ;;
  let newsum := sp_sum RZ in
  P <- (if st_i s =? 0 then Ok Z
        else
          oldsum <- bound (st_oldsum s) ;;
          beta <- divide newsum oldsum ;;
          P <- bound (st_P s) ;;
          sp_add Z (sp_scale beta P)) ;;
  let oldsum := newsum in
  AP <- sp_matmul A P ;;
  AP <- sp_multiply AP (st_pattern s) ;;
  '(AP, Sparsity_Pattern) <- Satisfy_Constraints AP (st_pattern s) ;;
  PAP <- sp_multiply P AP ;;
  alpha <- divide newsum (sp_sum PAP) ;;
  T <- sp_add (st_T s) (sp_scale alpha P) ;;
  R <- sp_sub (st_R s) (sp_scale alpha AP) ;;
  resid <- max_abs (sp_values R) ;;
  Ok (mk_state (st_i s + 1) T R resid (Some P) (Some oldsum) Sparsity_Pattern).

(** Lines 446-470: one turn of the loop of the other branch. *)
Definition minres_step (s : state) : result state :=
  P <- sp_matmul A (st_R s) ;;
  P <- sp_multiply P (st_pattern s) ;;
  '(P, Sparsity_Pattern) <- Satisfy_Constraints P (st_pattern s) ;;
  PR <- sp_multiply P (st_R s) ;;
  let numer := sp_sum PR in
  PP <- sp_multiply P P ;;
  let denom := sp_sum PP in
  alpha <- divide numer denom ;;
  T <- sp_add (st_T s) (sp_scale alpha (st_R s)) ;;
  R <- sp_sub (st_R s) (sp_scale alpha P) ;;
  resid <- max_abs (sp_values R) ;;
  Ok (mk_state (st_i s + 1) T R resid (st_P s) (st_oldsum s) Sparsity_Pattern).

(** Lines 402-472.  [i] grows by one at each turn, so the loop ends within
    [num_iters] turns. *)
Definition minimize (SPD : bool) (s : state) : result state :=
  while (Z.to_nat num_iters) continue (if SPD then cg_step else minres_step) s.

End Loops.

(** Lines 214-395: from the tests on the arguments to the loops. *)
Definition prepare (A : spmatrix) (T : bsr_matrix) (Atilde : csr_matrix) (B : dmatrix)
    (file_output : bool) : result prepared :=
  let csrflag := match A with Csr _ => true | Bsr _ => false end in
  let warning :=
    match A with
    | Bsr a => if negb (fst (bsr_blocksize T) =? fst (bsr_blocksize a))
               then [Print warn_blocksize] else []
    | Csr _ => []
    end in
  if (bsr_nnz T =? 0) || (csr_nnz Atilde =? 0) || (sp_nnz A =? 0) then
    Ok (Returned (Bsr T) (warning ++ [Print msg_no_nonzeros]))
  else
    let Nfine := fst (bsr_shape T) in
    let NullDim := dcols B in
    D <- checked_diagonal A ;;
    Dinv <- diagonal_preconditioner A D Nfine ;;
    let blocks := bsr_blocksize T in
    '(T, Sparsity_Pattern, colindices) <- sparsity_pattern A T Atilde ;;
    let written :=
      if file_output
      then [Savemat "Sparsity_Pattern"; Savemat "Amat"; Savemat "Atilde";
            Savemat "P"; Savemat "ParamsEnMin"; Savemat "Bone"]
      else [] in
    BtBinv <- build_BtBinv Sparsity_Pattern B colindices Nfine NullDim ;;
    R <- sp_matmul (sp_neg A) T ;;
    R <- sp_multiply R Sparsity_Pattern ;;
    '(R, Sparsity_Pattern) <-
      Satisfy_Constraints csrflag B BtBinv colindices R Sparsity_Pattern ;;
    if sp_nnz R =? 0 then
      T <- sa_smoothed_prolongator A T ;;
      Ok (Returned T (warning ++ written ++ [Print msg_initial_R]))
    else
      resid <- max_abs (sp_values R) ;;
      Ok (Ready csrflag Dinv BtBinv colindices blocks (warning ++ written)
            (mk_state 0 T R resid None None Sparsity_Pattern)).

(** Lines 159-490.  The result is the prolongator with what was printed and
    written, in this order. *)
Definition energy_prolongation_smoother (A T : pyobject) (Atilde : csr_matrix)
    (B : dmatrix) (SPD : bool) (num_iters : pyval) (min_tol : pyfloat)
    (file_output : bool) : result (spmatrix * list event) :=
  _ <- test_inputs num_iters min_tol (format_of A) (format_of T) ;;
  match A, T with
  | Sparse A, Sparse (Bsr T) =>
      p <- prepare A T Atilde B file_output ;;
      match p with
      | Returned T events => Ok (T, events)
      | Ready csrflag Dinv BtBinv colindices blocks events s =>
          s <- minimize csrflag A Dinv B BtBinv colindices (int_value num_iters) min_tol
                 SPD s ;;
          T <- (if csrflag then
                  match st_T s with
                  | Csr t => t' <- csr_tobsr t blocks ;; Ok (Bsr t')
                  | Bsr _ => Raise (TypeError msg_storage)
                  end
                else Ok (st_T s)) ;;
          Ok (T, events ++ (if file_output then [Savemat "Ppyth"] else []))
      end
  | NotCsrBsr, _ => Raise (TypeError msg_A_format)
  | _, _ => Raise (TypeError msg_T_format)
  end.

End EnergyMinimization.

(** The blocks of [X] tile its shape (no condition on scalar storage). *)
Definition sp_tiles (X : spmatrix) : Prop :=
  0 < fst (sp_blocksize X) /\ 0 < snd (sp_blocksize X) /\
  fst (sp_shape X) mod fst (sp_blocksize X) = 0 /\
  snd (sp_shape X) mod snd (sp_blocksize X) = 0.

(** The product [X * B] vanishes: [X] annihilates [B]. *)
Definition annihilates (X : spmatrix) (B : dmatrix) : Prop :=
  forall i t, i < fst (sp_shape X) ->
    sum_upto (snd (sp_shape X)) (fun j => sp_get X i j * dget B j t)%Qc = 0%Qc.

(** [X * B] and [Y * B] have the same entries. *)
Definition same_action (X Y : spmatrix) (B : dmatrix) : Prop :=
  sp_shape X = sp_shape Y /\
  forall i t, i < fst (sp_shape X) ->
    sum_upto (snd (sp_shape X)) (fun j => sp_get X i j * dget B j t)%Qc
    = sum_upto (snd (sp_shape Y)) (fun j => sp_get Y i j * dget B j t)%Qc.

(** Well-formed storage, of either class. *)
Definition sp_wf (X : spmatrix) : Prop :=
  match X with Csr x => csr_wf x | Bsr x => bsr_wf x end.

(** The test of lines 243-249 finds row [i] of [A] nonzero: the row stores
    something (scalar storage), or the helper [BSR_Get_Row] returns a column
    for it (block storage). *)
Definition row_is_stored (BSR_Get_Row : bsr_matrix -> nat -> list Qc * list nat)
    (A : spmatrix) (i : nat) : Prop :=
  match A with
  | Csr a => nth i (csr_indptr a) 0 <> nth (S i) (csr_indptr a) 0
  | Bsr a => snd (BSR_Get_Row a i) <> []
  end.

(** A scalar operator whose second row is empty. *)
Definition ex_A_empty_row : csr_matrix :=
  mk_csr (3, 3) [0; 2; 2; 3] [0; 1; 2] [qz 2; qz 1; qz 4].

(** [A] is symmetric, and positive definite on the vectors of its size. *)
Definition symmetric (A : spmatrix) : Prop :=
  fst (sp_shape A) = snd (sp_shape A) /\
  forall i j, i < fst (sp_shape A) -> j < fst (sp_shape A) -> sp_get A i j = sp_get A j i.

Definition positive_definite (A : spmatrix) : Prop :=
  forall x : nat -> Qc,
    (exists i, i < fst (sp_shape A) /\ x i <> 0%Qc) ->
    (0 < sum_upto (fst (sp_shape A))
           (fun i => x i * sum_upto (snd (sp_shape A)) (fun j => sp_get A i j * x j)))%Qc.

(** A symmetric positive definite operator, a tentative prolongator with two
    aggregates and the constant near-nullspace vector. *)
Definition cx5_A : csr_matrix :=
  mk_csr (3, 3) [0; 3; 6; 9] [0; 1; 2; 0; 1; 2; 0; 1; 2]
    [qz 4; qz (-2); qz 1; qz (-2); qz 3; qz 1; qz 1; qz 1; qz 3].

Definition cx5_T : bsr_matrix :=
  mk_bsr (3, 2) (1, 1) [0; 1; 2; 3] [0; 0; 1] [[[qz 1]]; [[qz 1]]; [[qz 1]]].

Definition cx5_B : dmatrix := [[qz 1]; [qz 1]].

(** An operator and a prolongator of scale 1e6 for the vector [cx_B] of scale 1e-6. *)
Definition cx1_A : csr_matrix :=
  mk_csr (2, 2) [0; 2; 4] [0; 1; 0; 1] [qz 2; qz 1; qz 1; qz 3].

Definition cx1_T : bsr_matrix :=
  mk_bsr (2, 1) (1, 1) [0; 1; 2] [0; 0] [[[qz 1000000]]; [[qz 1000000]]].

(** Stand-ins for the functions that are not part of the sources, for the
    runs on scalar storage, which do not call them. *)
Definition no_UnAmal (Atilde : csr_matrix) (R C : nat) : bsr_matrix :=
  mk_bsr (0, 0) (R, C) [0] [] [].
Definition no_BSR_Get_Row (A : bsr_matrix) (i : nat) : list Qc * list nat := ([], []).
Definition no_fallback (A T : spmatrix) : result spmatrix := Ok T.

Definition is_csr (X : spmatrix) : bool :=
  match X with Csr _ => true | Bsr _ => false end.

Definition sp_all_ones (SP : spmatrix) : Prop :=
  match SP with Csr sp => csr_all_ones sp | Bsr sp => bsr_all_ones sp end.

(** The number of rows (nodes) of the pattern and their supports. *)
Definition sp_supports (SP : spmatrix) : nat * (nat -> list nat) :=
  match SP with
  | Csr sp => (fst (csr_shape sp), csr_colindx sp)
  | Bsr sp => (fst (bsr_shape sp) / fst (bsr_blocksize sp), node_colindx sp)
  end.

(** The table has an entry of [k] by [k] values for every row (node). *)
Definition table_shaped (k : nat) (SP : spmatrix) (BtBinv : list dmatrix) : Prop :=
  fst (sp_supports SP) <= length BtBinv /\
  forall i, i < fst (sp_supports SP) ->
    rect k (nth i BtBinv []) /\ drows (nth i BtBinv []) = k.

(** The table holds an inverse of the local Gram matrix of every row (node)
    whose support is not empty: nothing was truncated. *)
Definition table_inverts (k : nat) (B : dmatrix) (SP : spmatrix) (BtBinv : list dmatrix)
    : Prop :=
  forall i, i < fst (sp_supports SP) -> snd (sp_supports SP) i <> [] ->
    inverts_gram k B (snd (sp_supports SP) i) (nth i BtBinv []).

(** What the loops need of the projector: applied to an operator masked by
    the pattern, it returns an operator of the same class, shape and block
    size that annihilates [B], and leaves the pattern as it was. *)
Definition projector_ok (csrflag : bool) (B : dmatrix) (BtBinv : list dmatrix)
    (colindices : list (list nat)) (SP : spmatrix) : Prop :=
  forall X U,
    is_csr X = csrflag -> sp_blocksize X = sp_blocksize SP ->
    sp_multiply X SP = Ok U ->
    exists U',
      Satisfy_Constraints csrflag B BtBinv colindices U SP = Ok (U', SP) /\
      is_csr U' = csrflag /\ sp_shape U' = sp_shape SP /\
      sp_blocksize U' = sp_blocksize SP /\ annihilates U' B.

(** What the loops assume of their surroundings. *)
Definition loop_env (csrflag : bool) (A Dinv : spmatrix) (B : dmatrix)
    (BtBinv : list dmatrix) (colindices : list (list nat)) (SP : spmatrix) : Prop :=
  sp_tiles SP /\ is_csr A = csrflag /\ is_csr Dinv = csrflag /\
  sp_tiles A /\ sp_tiles Dinv /\
  fst (sp_blocksize A) = fst (sp_blocksize SP) /\
  fst (sp_blocksize Dinv) = fst (sp_blocksize SP) /\
  projector_ok csrflag B BtBinv colindices SP.

(** What holds of the local variables of the loops at each turn: the
    pattern is the one of the start, the residual and the search direction
    annihilate [B], and the prolongator acts on [B] as [T0] does. *)
Definition loop_inv (csrflag : bool) (B : dmatrix) (SP T0 : spmatrix) (s : state) : Prop :=
  st_pattern s = SP /\
  is_csr (st_R s) = csrflag /\ sp_blocksize (st_R s) = sp_blocksize SP /\
  sp_shape (st_R s) = sp_shape SP /\ annihilates (st_R s) B /\
  sp_tiles (st_T s) /\ same_action (st_T s) T0 B /\
  (forall P, st_P s = Some P ->
     is_csr P = csrflag /\ sp_blocksize P = sp_blocksize SP /\
     sp_tiles P /\ annihilates P B).

(** [T] as the loops and the default smoother get it: converted to scalar
    storage when [A] is (line 274). *)
Definition working_T (A : spmatrix) (T : bsr_matrix) : spmatrix :=
  match A with Csr _ => Csr (bsr_tocsr T) | Bsr _ => Bsr T end.

(** What line 215 prints, what lines 283-289 write and what line 485 writes. *)
Definition printed_warning (A : spmatrix) (T : bsr_matrix) : list event :=
  match A with
  | Bsr a => if negb (fst (bsr_blocksize T) =? fst (bsr_blocksize a))
             then [Print warn_blocksize] else []
  | Csr _ => []
  end.

Definition written_inputs (file_output : bool) : list event :=
  if file_output
  then [Savemat "Sparsity_Pattern"; Savemat "Amat"; Savemat "Atilde";
        Savemat "P"; Savemat "ParamsEnMin"; Savemat "Bone"]
  else [].

Definition written_result (file_output : bool) : list event :=
  if file_output then [Savemat "Ppyth"] else [].

(** One of [A], [T], [Atilde] stores nothing (line 216). *)
Definition no_nonzeros (A : spmatrix) (T : bsr_matrix) (Atilde : csr_matrix) : bool :=
  (bsr_nnz T =? 0) || (csr_nnz Atilde =? 0) || (sp_nnz A =? 0).

(** [X] is stored as [Y] is: the same class, shape and block size. *)
Definition same_format (X Y : spmatrix) : Prop :=
  is_csr X = is_csr Y /\ sp_shape X = sp_shape Y /\ sp_blocksize X = sp_blocksize Y.

(** An operator that stores positions outside [ex_SP_csr], and a block pattern
    with one block for each node together with an operator that stores every
    block. *)
Definition ex_U_csr_wide : csr_matrix :=
  mk_csr (3, 2) [0; 2; 4; 5] [0; 1; 0; 1; 0] [qz 1; qz 3; qz 5; qz 7; qz 9].

Definition ex_SP_bsr_sparse : bsr_matrix :=
  mk_bsr (4, 2) (2, 1) [0; 1; 2] [0; 1] [[[1%Qc]; [1%Qc]]; [[1%Qc]; [1%Qc]]].

(* ================================================================== *)
(** * The Jacobi smoother (lines 10-41) *)

(** [1.0 / D] on an array: numpy divides by a zero to [inf] and goes on. *)
Definition array_reciprocal (D : list Qc) : list pyfloat :=
  map (fun d => if Qc_eqb d 0%Qc then FInf false else FFinite (1 / d)%Qc) D.

(** [X[D == 0] = v] *)
Definition assign_where_zero (D : list Qc) (X : list pyfloat) (v : pyfloat)
    : list pyfloat :=
  map (fun p => if Qc_eqb (fst p) 0%Qc then v else snd p) (combine D X).

(** Lines 32-34: [D_inv]. *)
Definition jacobi_D_inv (S : spmatrix) : list pyfloat :=
  let D := sp_diagonal S in
  let D_inv := array_reciprocal D in
  assign_where_zero D D_inv (FFinite 0%Qc).

Section Jacobi.

(** [scale_rows] and [approximate_spectral_radius] of [pyamg.utils] are not
    part of the sources at hand. *)
Variable scale_rows : spmatrix -> list pyfloat -> bool -> result spmatrix.
Variable approximate_spectral_radius : spmatrix -> result Qc.

(** Lines 10-41.  [D_inv_S *= c] scales the stored values in place; the
    product is in the class of [D_inv_S], the difference in the class of [T]. *)
Definition jacobi_prolongation_smoother (S T : spmatrix) (omega : Qc) : result spmatrix :=
  let D_inv := jacobi_D_inv S in
  D_inv_S <- scale_rows S D_inv true ;;
  rho <- approximate_spectral_radius D_inv_S ;;
  c <- divide omega rho ;;
  let D_inv_S := sp_scale c D_inv_S in
  X <- sp_matmul D_inv_S T ;;
  sp_sub T X.

End Jacobi.

(** The default of [omega]. *)
Definition default_omega : Qc := Q2Qc (4 # 3).

(** The value of a finite float, 0 for the others. *)
Definition float_value (f : pyfloat) : Qc :=
  match f with FFinite q => q | _ => 0%Qc end.

(** Modelled from the spec: [scale_rows(S, v)] is the product of the diagonal
    matrix of [v] with [S], which section 4.5 writes [D^-1 S]; the result is a
    new matrix of the class of [S]. *)
Definition scale_rows_by_diagonal (S : spmatrix) (v : list pyfloat) (copy : bool)
    : result spmatrix :=
  Ok (sp_of_fun S (fun i j => float_value (nth i v (FFinite 0%Qc)) * sp_get S i j)%Qc).

(** Modelled from the spec: an external estimate of the spectral radius; the
    largest absolute row sum stands in for it. *)
Definition row_sum_radius (X : spmatrix) : result Qc :=
  max_abs (map (fun i => sum_upto (snd (sp_shape X)) (fun j => Qcabs (sp_get X i j)))
               (seq 0 (fst (sp_shape X)))).

(** An exact decomposition of [M] with an orthogonal [U], whose singular
    values all pass the two thresholds of the builder: nothing is truncated. *)
Definition full_rank_svd (k : nat) (M : dmatrix) (usv : dmatrix * list Qc * dmatrix)
    : Prop :=
  svd_exact k M usv /\
  let '(U, Sigma, VT) := usv in
  (forall a b, a < k -> b < k ->
     sum_upto k (fun p => dget U a p * dget U b p)%Qc = kronecker a b) /\
  Qc_ltb (Qcabs (nth 0 Sigma 0%Qc)) abs_threshold = false /\
  forall p, p < k ->
    Qc_ltb rel_threshold (Qcabs (nth p Sigma 0%Qc / nth 0 Sigma 0%Qc)) = true.

(* ================================================================== *)
(** * Properties *)

(** ** Sums of rationals *)

Lemma qsum_app (l r : list Qc) : qsum (l ++ r) = (qsum l + qsum r)%Qc.
Proof.
  induction l as [|x l IH]; simpl.
  - ring.
  - rewrite IH. ring.
Qed.

Lemma qsum_map_ext {A : Type} (f g : A -> Qc) (l : list A) :
  (forall a, In a l -> f a = g a) -> qsum (map f l) = qsum (map g l).
Proof.
  induction l as [|x l IH]; simpl; intros H; [reflexivity|].
  rewrite (H x) by (now left). rewrite IH; [reflexivity|].
  intros a Ha. apply H. now right.
Qed.

Lemma qsum_map_plus {A : Type} (f g : A -> Qc) (l : list A) :
  qsum (map (fun a => f a + g a)%Qc l) = (qsum (map f l) + qsum (map g l))%Qc.
Proof.
  induction l as [|x l IH]; simpl; [ring|]. rewrite IH. ring.
Qed.

Lemma qsum_map_minus {A : Type} (f g : A -> Qc) (l : list A) :
  qsum (map (fun a => f a - g a)%Qc l) = (qsum (map f l) - qsum (map g l))%Qc.
Proof.
  induction l as [|x l IH]; simpl; [ring|]. rewrite IH. ring.
Qed.

Lemma qsum_map_scale_l {A : Type} (c : Qc) (f : A -> Qc) (l : list A) :
  qsum (map (fun a => c * f a)%Qc l) = (c * qsum (map f l))%Qc.
Proof.
  induction l as [|x l IH]; simpl; [ring|]. rewrite IH. ring.
Qed.

Lemma qsum_map_scale_r {A : Type} (c : Qc) (f : A -> Qc) (l : list A) :
  qsum (map (fun a => f a * c)%Qc l) = (qsum (map f l) * c)%Qc.
Proof.
  induction l as [|x l IH]; simpl; [ring|]. rewrite IH. ring.
Qed.

Lemma qsum_map_zero {A : Type} (f : A -> Qc) (l : list A) :
  (forall a, In a l -> f a = 0%Qc) -> qsum (map f l) = 0%Qc.
Proof.
  induction l as [|x l IH]; simpl; intros H; [reflexivity|].
  rewrite (H x) by (now left). rewrite IH; [ring|].
  intros a Ha. apply H. now right.
Qed.

(** Two nested sums can be exchanged. *)
Lemma qsum_map_swap {A C : Type} (f : A -> C -> Qc) (l : list A) (r : list C) :
  qsum (map (fun a => qsum (map (fun c => f a c) r)) l)
  = qsum (map (fun c => qsum (map (fun a => f a c) l)) r).
Proof.
  induction l as [|x l IH]; simpl.
  - symmetry. apply qsum_map_zero. reflexivity.
  - rewrite IH. rewrite <- qsum_map_plus. reflexivity.
Qed.

(** A sum over the positions of a list is the sum over its elements. *)
Lemma sum_upto_nth {A : Type} (d : A) (f : A -> Qc) (l : list A) :
  sum_upto (length l) (fun j => f (nth j l d)) = qsum (map f l).
Proof.
  unfold sum_upto. induction l as [|x l IH]; simpl; [reflexivity|].
  rewrite <- seq_shift, map_map. simpl. rewrite IH. reflexivity.
Qed.

Lemma sum_upto_ext (n : nat) (f g : nat -> Qc) :
  (forall i, i < n -> f i = g i) -> sum_upto n f = sum_upto n g.
Proof.
  intros H. apply qsum_map_ext. intros a Ha. apply in_seq in Ha. apply H. lia.
Qed.

Lemma sum_upto_zero (n : nat) (f : nat -> Qc) :
  (forall i, i < n -> f i = 0%Qc) -> sum_upto n f = 0%Qc.
Proof.
  intros H. apply qsum_map_zero. intros a Ha. apply in_seq in Ha. apply H. lia.
Qed.

Lemma sum_upto_swap (n m : nat) (f : nat -> nat -> Qc) :
  sum_upto n (fun i => sum_upto m (fun j => f i j))
  = sum_upto m (fun j => sum_upto n (fun i => f i j)).
Proof. apply qsum_map_swap. Qed.

(** A sum that has a single nonzero term. *)
Lemma sum_upto_single (n t : nat) (f : nat -> Qc) :
  t < n -> (forall i, i < n -> i <> t -> f i = 0%Qc) -> sum_upto n f = f t.
Proof.
  unfold sum_upto. intros Ht H.
  assert (G : forall s len, s <= t < s + len ->
            (forall i, s <= i < s + len -> i <> t -> f i = 0%Qc) ->
            qsum (map f (seq s len)) = f t).
  { intros s len. revert s. induction len as [|len IH]; intros s Hs Hz; [lia|].
    simpl. destruct (Nat.eq_dec s t) as [->|Hne].
    - rewrite qsum_map_zero; [ring|]. intros a Ha. apply in_seq in Ha.
      apply Hz; lia.
    - rewrite (Hz s) by lia. rewrite IH; [ring| lia |].
      intros i Hi Hit. apply Hz; lia. }
  apply G; [lia|]. intros i Hi. apply H. lia.
Qed.

(** ** Dense matrices *)

Lemma nth_map_seq {A : Type} (d : A) (f : nat -> A) (n i : nat) :
  i < n -> nth i (map f (seq 0 n)) d = f i.
Proof.
  intros Hi. rewrite (nth_indep _ d (f 0)) by (rewrite length_map, length_seq; exact Hi).
  rewrite (map_nth f (seq 0 n) 0 i). rewrite seq_nth by exact Hi. reflexivity.
Qed.

Lemma drows_dmake (n k : nat) (f : nat -> nat -> Qc) : drows (dmake n k f) = n.
Proof. unfold drows, dmake. now rewrite length_map, length_seq. Qed.

Lemma dcols_dmake (n k : nat) (f : nat -> nat -> Qc) : 0 < n -> dcols (dmake n k f) = k.
Proof.
  unfold dcols, dmake. destruct n as [|n]; [lia|]. intros _. simpl.
  now rewrite length_map, length_seq.
Qed.

Lemma dget_dmake (n k : nat) (f : nat -> nat -> Qc) (i t : nat) :
  i < n -> t < k -> dget (dmake n k f) i t = f i t.
Proof.
  intros Hi Ht. unfold dget, dmake.
  rewrite (nth_map_seq [] (fun i => map (fun t => f i t) (seq 0 k)) n i Hi).
  now rewrite nth_map_seq.
Qed.

Lemma rect_dmake (n k : nat) (f : nat -> nat -> Qc) : rect k (dmake n k f).
Proof.
  unfold rect, dmake. apply Forall_forall. intros r Hr.
  apply in_map_iff in Hr as (i & <- & _). now rewrite length_map, length_seq.
Qed.

Lemma dcols_rect (k : nat) (X : dmatrix) : rect k X -> 0 < drows X -> dcols X = k.
Proof.
  unfold rect, dcols, drows. destruct X as [|r X]; simpl; [lia|].
  intros H _. now inversion H.
Qed.

(** A matrix is determined by its shape and its entries. *)
Lemma dmatrix_ext (k : nat) (X Y : dmatrix) :
  rect k X -> rect k Y -> drows X = drows Y ->
  (forall i t, i < drows X -> t < k -> dget X i t = dget Y i t) -> X = Y.
Proof.
  unfold rect, drows, dget. revert Y.
  induction X as [|r X IH]; intros [|s Y] HX HY Hlen H; simpl in *; try discriminate.
  - reflexivity.
  - inversion HX as [|? ? Hr HX']; inversion HY as [|? ? Hs HY']; subst.
    f_equal.
    + apply (nth_ext r s 0%Qc 0%Qc); [congruence|].
      intros t Ht. apply (H 0 t); lia.
    + apply IH; auto. intros i t Hi Ht. apply (H (S i) t); lia.
Qed.

Lemma dmake_ext (n k : nat) (f g : nat -> nat -> Qc) :
  (forall i t, i < n -> t < k -> f i t = g i t) -> dmake n k f = dmake n k g.
Proof.
  intros H. unfold dmake. apply map_ext_in. intros i Hi. apply in_seq in Hi.
  apply map_ext_in. intros t Ht. apply in_seq in Ht. apply H; lia.
Qed.

Lemma take_rows_ok (B : dmatrix) (colindx : list nat) :
  Forall (fun c => c < drows B) colindx ->
  take_rows B colindx = Ok (map (fun c => nth c B []) colindx).
Proof.
  induction colindx as [|c cs IH]; intros H; simpl; [reflexivity|].
  inversion H as [|? ? Hc Hcs]; subst.
  unfold index. destruct (nth_error B c) as [r|] eqn:E.
  - simpl. rewrite IH by exact Hcs. simpl.
    now rewrite (nth_error_nth _ _ _ E).
  - apply nth_error_None in E. unfold drows in Hc. lia.
Qed.

Lemma take_rows_inv (B : dmatrix) (colindx : list nat) (Bi : dmatrix) :
  take_rows B colindx = Ok Bi ->
  Forall (fun c => c < drows B) colindx /\ Bi = map (fun c => nth c B []) colindx.
Proof.
  revert Bi. induction colindx as [|c cs IH]; intros Bi; simpl.
  - intros [= <-]. split; [constructor | reflexivity].
  - unfold index. destruct (nth_error B c) as [r|] eqn:E; simpl; [|discriminate].
    destruct (take_rows B cs) as [rs|] eqn:E'; simpl; [|discriminate].
    intros [= <-]. destruct (IH rs eq_refl) as [H1 H2]. split.
    + constructor; [|exact H1]. unfold drows. apply nth_error_Some. congruence.
    + now rewrite (nth_error_nth _ _ _ E), H2.
Qed.

Lemma index_ok {A : Type} (d : A) (l : list A) (i : nat) :
  i < length l -> index l i = Ok (nth i l d).
Proof.
  intros H. unfold index. destruct (nth_error l i) eqn:E.
  - now rewrite (nth_error_nth _ _ _ E).
  - apply nth_error_None in E. lia.
Qed.

Lemma index_inv {A : Type} (d : A) (l : list A) (i : nat) (a : A) :
  index l i = Ok a -> i < length l /\ a = nth i l d.
Proof.
  unfold index. destruct (nth_error l i) eqn:E; [|discriminate].
  intros [= <-]. split.
  - apply nth_error_Some. congruence.
  - now rewrite (nth_error_nth _ _ _ E).
Qed.

(** ** Slices *)

Lemma length_slice {A : Type} (l : list A) (a b : nat) :
  b <= length l -> length (slice l a b) = b - a.
Proof. intros H. unfold slice. rewrite length_firstn, length_skipn. lia. Qed.

Lemma nth_slice {A : Type} (d : A) (l : list A) (a b j : nat) :
  j < b - a -> nth j (slice l a b) d = nth (a + j) l d.
Proof.
  intros H. unfold slice. rewrite nth_firstn.
  destruct (Nat.ltb_spec j (b - a)); [|lia]. apply nth_skipn.
Qed.

Lemma length_splice {A : Type} (l : list A) (a : nat) (v : list A) :
  a + length v <= length l -> length (splice l a v) = length l.
Proof.
  intros H. unfold splice. rewrite !length_app, length_firstn, length_skipn. lia.
Qed.

Lemma nth_splice_in {A : Type} (d : A) (l : list A) (a : nat) (v : list A) (j : nat) :
  a <= length l -> j < length v -> nth (a + j) (splice l a v) d = nth j v d.
Proof.
  intros Ha Hj. unfold splice.
  rewrite app_nth2 by (rewrite length_firstn; lia).
  rewrite length_firstn, Nat.min_l by lia.
  rewrite app_nth1 by lia. f_equal. lia.
Qed.

Lemma nth_splice_out {A : Type} (d : A) (l : list A) (a : nat) (v : list A) (p : nat) :
  a + length v <= length l -> p < a \/ a + length v <= p ->
  nth p (splice l a v) d = nth p l d.
Proof.
  intros Ha Hp. unfold splice. destruct Hp as [Hp|Hp].
  - rewrite app_nth1 by (rewrite length_firstn; lia).
    rewrite nth_firstn. destruct (Nat.ltb_spec p a); [reflexivity|lia].
  - rewrite app_nth2 by (rewrite length_firstn; lia).
    rewrite length_firstn, Nat.min_l by lia.
    rewrite app_nth2 by lia. rewrite nth_skipn. f_equal. lia.
Qed.

(** A slice is read back from the positions it covers. *)
Lemma slice_eq_map {A : Type} (d : A) (l : list A) (a b : nat) :
  b <= length l -> slice l a b = map (fun j => nth (a + j) l d) (seq 0 (b - a)).
Proof.
  intros H. apply (nth_ext _ _ d d).
  - rewrite length_slice by exact H. now rewrite length_map, length_seq.
  - intros j Hj. rewrite length_slice in Hj by exact H.
    rewrite nth_slice by exact Hj. now rewrite nth_map_seq.
Qed.

Lemma slice_splice_same {A : Type} (l : list A) (a b : nat) (v : list A) :
  a <= b -> b <= length l -> length v = b - a -> slice (splice l a v) a b = v.
Proof.
  intros Hab Hb Hv. destruct v as [|d v'] eqn:Ev.
  - simpl in Hv. unfold slice. replace (b - a) with 0 by lia. reflexivity.
  - rewrite <- Ev in *. apply (nth_ext _ _ d d).
    + rewrite length_slice; [lia|]. rewrite length_splice; lia.
    + intros j Hj. rewrite length_slice in Hj by (rewrite length_splice; lia).
      rewrite nth_slice by exact Hj. apply nth_splice_in; lia.
Qed.

Lemma slice_splice_other {A : Type} (l : list A) (a : nat) (v : list A) (c e : nat) :
  a + length v <= length l -> e <= length l -> c <= e ->
  e <= a \/ a + length v <= c ->
  slice (splice l a v) c e = slice l c e.
Proof.
  intros Ha He Hce Hd.
  destruct l as [|d l'] eqn:El.
  - simpl in *. assert (length v = 0) by lia. destruct v; [|discriminate].
    unfold splice. simpl. now rewrite firstn_nil, skipn_nil.
  - rewrite <- El in *. assert (Hl : length l = S (length l')) by now rewrite El.
    clear El. apply (nth_ext _ _ d d).
    + rewrite !length_slice; auto. rewrite length_splice; lia.
    + intros j Hj. rewrite length_slice in Hj by (rewrite length_splice; lia).
      rewrite !nth_slice by exact Hj. apply nth_splice_out; lia.
Qed.

(** ** Compressed rows built from a list of rows *)

Lemma length_build_indptr (s : nat) (lens : list nat) :
  length (build_indptr s lens) = S (length lens).
Proof. revert s. induction lens as [|n ns IH]; intros s; simpl; [reflexivity|]. now rewrite IH. Qed.

Lemma nth_build_indptr (s : nat) (lens : list nat) (i : nat) :
  i <= length lens -> nth i (build_indptr s lens) 0 = s + total (firstn i lens).
Proof.
  revert s i. induction lens as [|n ns IH]; intros s i Hi; simpl in *.
  - assert (i = 0) as -> by lia. simpl. lia.
  - destruct i as [|i]; simpl; [lia|]. rewrite IH by lia. lia.
Qed.

Lemma total_firstn_S (lens : list nat) (i : nat) :
  i < length lens -> total (firstn (S i) lens) = total (firstn i lens) + nth i lens 0.
Proof.
  revert i. induction lens as [|n ns IH]; intros i Hi; simpl in *; [lia|].
  destruct i as [|i]; simpl; [lia|]. rewrite IH by lia. lia.
Qed.

Lemma length_concat_map {A B : Type} (f : list A -> list B) (ls : list (list A)) :
  (forall l, length (f l) = length l) ->
  length (List.concat (map f ls)) = total (map (@List.length _) ls).
Proof.
  intros Hf. induction ls as [|l ls IH]; simpl; [reflexivity|].
  now rewrite length_app, IH, Hf.
Qed.

Lemma slice_concat {A : Type} (ls : list (list A)) (i : nat) :
  i < length ls ->
  slice (List.concat ls)
        (total (firstn i (map (@List.length _) ls)))
        (total (firstn (S i) (map (@List.length _) ls)))
  = nth i ls [].
Proof.
  revert i. induction ls as [|l ls IH]; intros i Hi; simpl in *; [lia|].
  destruct i as [|i]; simpl.
  - unfold slice. simpl. rewrite Nat.add_0_r, Nat.sub_0_r.
    rewrite firstn_app, Nat.sub_diag, firstn_all. simpl. now rewrite app_nil_r.
  - rewrite <- (IH i) by lia. unfold slice.
    rewrite skipn_app.
    rewrite (skipn_all2 l) by lia. simpl. f_equal; [lia|]. f_equal. lia.
Qed.

Lemma nth_map_nil {A B : Type} (f : list A -> list B) (Hf : f [] = [])
    (ls : list (list A)) (i : nat) :
  nth i (map f ls) [] = f (nth i ls []).
Proof. rewrite <- Hf at 1. apply map_nth. Qed.

Lemma csr_row_of_rows (shape : nat * nat) (rows : list (list (nat * Qc))) (i : nat) :
  i < length rows -> csr_row (csr_of_rows shape rows) i = nth i rows [].
Proof.
  intros Hi. unfold csr_row, csr_of_rows. simpl.
  rewrite !nth_build_indptr by (rewrite length_map; lia).
  rewrite !Nat.add_0_l.
  pose proof (slice_concat (map (map fst) rows) i) as H1.
  pose proof (slice_concat (map (map snd) rows) i) as H2.
  rewrite length_map in H1, H2. specialize (H1 Hi). specialize (H2 Hi).
  rewrite map_map in H1, H2.
  rewrite (map_ext (fun x => length (map fst x)) (@List.length _)) in H1
    by (intros; apply length_map).
  rewrite (map_ext (fun x => length (map snd x)) (@List.length _)) in H2
    by (intros; apply length_map).
  rewrite H1, H2.
  rewrite (nth_map_nil (map fst) eq_refl), (nth_map_nil (map snd) eq_refl).
  generalize (nth i rows []). intros es.
  induction es as [|[c v] es IH]; simpl; [reflexivity|]. now rewrite IH.
Qed.

Lemma csr_row_out_of_rows (shape : nat * nat) (rows : list (list (nat * Qc))) (i : nat) :
  length rows <= i -> csr_row (csr_of_rows shape rows) i = [].
Proof.
  intros Hi. unfold csr_row, csr_of_rows. simpl.
  rewrite (nth_overflow _ (n := S i))
    by (rewrite length_build_indptr, length_map; lia).
  unfold slice. simpl. reflexivity.
Qed.

(** ** The canonical matrix of a function *)

Lemma Qc_eqb_eq (x y : Qc) : Qc_eqb x y = true <-> x = y.
Proof.
  unfold Qc_eqb. destruct (x ?= y)%Qc eqn:E.
  - split; [intros _|reflexivity]. now apply Qceq_alt.
  - split; [discriminate|]. intros ->. rewrite (proj1 (Qceq_alt y y) eq_refl) in E. discriminate.
  - split; [discriminate|]. intros ->. rewrite (proj1 (Qceq_alt y y) eq_refl) in E. discriminate.
Qed.

Lemma nonzero_true (x : Qc) : nonzero x = true <-> x <> 0%Qc.
Proof.
  unfold nonzero. rewrite negb_true_iff. split.
  - intros H E. apply Qc_eqb_eq in E. congruence.
  - intros H. destruct (Qc_eqb x 0%Qc) eqn:E; [|reflexivity].
    apply Qc_eqb_eq in E. contradiction.
Qed.

Lemma nonzero_false (x : Qc) : nonzero x = false <-> x = 0%Qc.
Proof.
  unfold nonzero. rewrite negb_false_iff. apply Qc_eqb_eq.
Qed.

Lemma entries_get_fun_row_gen (g : nat -> Qc) (s len j : nat) :
  entries_get (filter (fun e => nonzero (snd e)) (map (fun j => (j, g j)) (seq s len))) j
  = if (s <=? j) && (j <? s + len) then g j else 0%Qc.
Proof.
  unfold entries_get. revert s. induction len as [|len IH]; intros s; simpl.
  - destruct (Nat.leb_spec s j), (Nat.ltb_spec j (s + 0)); simpl; try reflexivity; lia.
  - destruct (nonzero (g s)) eqn:Enz; simpl.
    + destruct (Nat.eqb_spec s j) as [->|Hne]; simpl.
      * rewrite IH. destruct (Nat.leb_spec (S j) j); [lia|]. simpl.
        destruct (Nat.leb_spec j j); [|lia]. destruct (Nat.ltb_spec j (j + S len)); [|lia].
        simpl. ring.
      * rewrite IH.
        destruct (Nat.leb_spec (S s) j), (Nat.leb_spec s j),
          (Nat.ltb_spec j (S s + len)), (Nat.ltb_spec j (s + S len)); simpl; try reflexivity; lia.
    + rewrite IH. apply nonzero_false in Enz.
      destruct (Nat.eq_dec s j) as [->|Hne].
      * destruct (Nat.leb_spec (S j) j); [lia|]. simpl.
        destruct (Nat.leb_spec j j); [|lia]. destruct (Nat.ltb_spec j (j + S len)); [|lia].
        simpl. now rewrite Enz.
      * destruct (Nat.leb_spec (S s) j), (Nat.leb_spec s j),
          (Nat.ltb_spec j (S s + len)), (Nat.ltb_spec j (s + S len)); simpl; try reflexivity; lia.
Qed.

Lemma entries_get_fun_row (m : nat) (g : nat -> Qc) (j : nat) :
  entries_get (fun_row m g) j = if j <? m then g j else 0%Qc.
Proof. unfold fun_row. rewrite entries_get_fun_row_gen. reflexivity. Qed.

Lemma csr_row_of_fun (shape : nat * nat) (f : nat -> nat -> Qc) (i : nat) :
  csr_row (csr_of_fun shape f) i
  = if i <? fst shape then fun_row (snd shape) (f i) else [].
Proof.
  unfold csr_of_fun. destruct (Nat.ltb_spec i (fst shape)) as [Hi|Hi].
  - rewrite csr_row_of_rows by (rewrite length_map, length_seq; exact Hi).
    exact (nth_map_seq [] (fun i => fun_row (snd shape) (f i)) _ _ Hi).
  - apply csr_row_out_of_rows. now rewrite length_map, length_seq.
Qed.

(** The entries of the canonical matrix are those of the function. *)
Lemma csr_get_of_fun (shape : nat * nat) (f : nat -> nat -> Qc) (i j : nat) :
  csr_get (csr_of_fun shape f) i j
  = if (i <? fst shape) && (j <? snd shape) then f i j else 0%Qc.
Proof.
  unfold csr_get. rewrite csr_row_of_fun.
  destruct (i <? fst shape); simpl; [|reflexivity].
  apply entries_get_fun_row.
Qed.

Lemma csr_shape_of_fun (shape : nat * nat) (f : nat -> nat -> Qc) :
  csr_shape (csr_of_fun shape f) = shape.
Proof. reflexivity. Qed.

Lemma csr_of_fun_ext (shape : nat * nat) (f g : nat -> nat -> Qc) :
  (forall i j, i < fst shape -> j < snd shape -> f i j = g i j) ->
  csr_of_fun shape f = csr_of_fun shape g.
Proof.
  intros H. unfold csr_of_fun. f_equal. apply map_ext_in. intros i Hi.
  apply in_seq in Hi. unfold fun_row. f_equal. apply map_ext_in. intros j Hj.
  apply in_seq in Hj. f_equal. apply H; lia.
Qed.

(** What is stored in the canonical matrix is what is not zero. *)
Lemma csr_stored_of_fun (shape : nat * nat) (f : nat -> nat -> Qc) (i j : nat) :
  csr_stored (csr_of_fun shape f) i j <->
  i < fst shape /\ j < snd shape /\ f i j <> 0%Qc.
Proof.
  unfold csr_stored. rewrite csr_row_of_fun.
  destruct (Nat.ltb_spec i (fst shape)) as [Hi|Hi].
  - unfold fun_row. rewrite in_map_iff. split.
    + intros ([c v] & Hc & Hin). simpl in Hc. subst c.
      apply filter_In in Hin as [Hin Hnz]. simpl in Hnz.
      apply in_map_iff in Hin as (j' & [= -> <-] & Hj'). apply in_seq in Hj'.
      repeat split; try lia. now apply nonzero_true.
    + intros (_ & Hj & Hnz). exists (j, f i j). split; [reflexivity|].
      apply filter_In. split.
      * apply in_map_iff. exists j. split; [reflexivity|]. apply in_seq. lia.
      * simpl. now apply nonzero_true.
  - simpl. split; [contradiction|]. intros (H & _). lia.
Qed.

(** ** The local update *)

Lemma map_seq_nth {A C : Type} (d : A) (f : A -> C) (l : list A) :
  map (fun j => f (nth j l d)) (seq 0 (length l)) = map f l.
Proof.
  induction l as [|x l IH]; simpl; [reflexivity|].
  rewrite <- seq_shift, map_map. simpl. now rewrite IH.
Qed.

Lemma dget_take_rows (B : dmatrix) (colindx : list nat) (j a : nat) :
  j < length colindx ->
  dget (map (fun c => nth c B []) colindx) j a = dget B (nth j colindx 0) a.
Proof.
  intros Hj. unfold dget. f_equal.
  rewrite (nth_indep _ [] (nth 0 B [])) by (now rewrite length_map).
  now rewrite (map_nth (fun c => nth c B []) colindx 0 j).
Qed.

Lemma rect_take_rows (k : nat) (B : dmatrix) (colindx : list nat) :
  rect k B -> Forall (fun c => c < drows B) colindx ->
  rect k (map (fun c => nth c B []) colindx).
Proof.
  unfold rect, drows. intros HB Hc. apply Forall_forall. intros r Hr.
  apply in_map_iff in Hr as (c & <- & Hin).
  rewrite Forall_forall in HB, Hc. apply HB. apply nth_In. now apply Hc.
Qed.

Lemma transpose_row (ub : list Qc) :
  0 < length ub ->
  transpose [ub] = dmake (length ub) 1 (fun b _ => nth b ub 0%Qc).
Proof.
  intros Hk. unfold transpose. unfold dcols, drows. simpl.
  apply dmake_ext. intros i t Hi Ht. assert (t = 0) as -> by lia. reflexivity.
Qed.

Lemma update_local_CSR_ok (k : nat) (Bi G : dmatrix) (ub : list Qc) :
  0 < k -> rect k Bi -> 0 < drows Bi -> rect k G -> drows G = k -> length ub = k ->
  update_local_CSR Bi G ub
  = Ok [map (fun j => sum_upto k (fun a =>
              dget Bi j a * sum_upto k (fun b => dget G a b * nth b ub 0%Qc))%Qc)
            (seq 0 (drows Bi))].
Proof.
  intros Hk HBi HBi0 HG HGk Hub. unfold update_local_CSR.
  rewrite transpose_row by lia. rewrite Hub.
  unfold dmul at 1. rewrite (dcols_rect k G HG) by lia.
  rewrite drows_dmake, Nat.eqb_refl. simpl bind.
  rewrite dcols_dmake by lia. rewrite HGk.
  unfold dmul. rewrite (dcols_rect k Bi HBi) by lia.
  rewrite drows_dmake, Nat.eqb_refl. simpl bind.
  rewrite dcols_dmake by lia.
  unfold transpose. rewrite drows_dmake. rewrite dcols_dmake by lia.
  f_equal. unfold dmake at 1. simpl. f_equal.
  apply map_ext_in. intros j Hj. apply in_seq in Hj.
  rewrite dget_dmake by lia.
  apply sum_upto_ext. intros a Ha. f_equal.
  rewrite dget_dmake by lia.
  apply sum_upto_ext. intros b Hb. f_equal.
  now rewrite dget_dmake by lia.
Qed.

(** On the rows of [B] selected by the support, [update_local] is [local_update]. *)
Lemma update_local_CSR_take_rows (k : nat) (B G : dmatrix) (ub : list Qc)
    (colindx : list nat) :
  0 < k -> rect k B -> Forall (fun c => c < drows B) colindx -> colindx <> [] ->
  rect k G -> drows G = k -> length ub = k ->
  update_local_CSR (map (fun c => nth c B []) colindx) G ub
  = Ok [local_update B G ub colindx].
Proof.
  intros Hk HB Hc Hne HG HGk Hub.
  rewrite (update_local_CSR_ok k); auto.
  - f_equal. f_equal. unfold local_update, drows. rewrite length_map, Hub.
    rewrite <- (map_seq_nth 0 (fun c => sum_upto k (fun a =>
        dget B c a * sum_upto k (fun b => dget G a b * nth b ub 0%Qc))%Qc) colindx).
    apply map_ext_in. intros j Hj. apply in_seq in Hj.
    apply sum_upto_ext. intros a Ha. now rewrite dget_take_rows by lia.
  - now apply rect_take_rows.
  - unfold drows. rewrite length_map. destruct colindx; [contradiction|simpl; lia].
Qed.

Lemma length_local_update (B G : dmatrix) (ub : list Qc) (colindx : list nat) :
  length (local_update B G ub colindx) = length colindx.
Proof. unfold local_update. apply length_map. Qed.

(** ** Loops *)

Lemma for_each_invariant {St : Type} (P : nat -> St -> Prop)
    (body : St -> nat -> result St) (a len : nat) (s : St) :
  P a s ->
  (forall i s, a <= i < a + len -> P i s -> exists s', body s i = Ok s' /\ P (S i) s') ->
  exists s', for_each (seq a len) body s = Ok s' /\ P (a + len) s'.
Proof.
  revert a s. induction len as [|len IH]; intros a s H0 Hstep; simpl.
  - exists s. rewrite Nat.add_0_r. auto.
  - destruct (Hstep a s) as (s1 & E1 & H1); [lia|exact H0|].
    rewrite E1. simpl.
    destruct (IH (S a) s1 H1) as (s' & E' & H').
    + intros i s2 Hi. apply Hstep. lia.
    + exists s'. split; [exact E'|]. now replace (a + S len) with (S a + len) by lia.
Qed.

Lemma for_range_invariant {St : Type} (P : nat -> St -> Prop)
    (body : St -> nat -> result St) (n : nat) (s : St) :
  P 0 s ->
  (forall i s, i < n -> P i s -> exists s', body s i = Ok s' /\ P (S i) s') ->
  exists s', for_range n body s = Ok s' /\ P n s'.
Proof.
  intros H0 Hstep. apply (for_each_invariant P body 0 n s H0).
  intros i s1 Hi. apply Hstep. lia.
Qed.

(** The same rule when the loop is only known to have returned. *)
Lemma for_each_invariant_partial {St : Type} (P : nat -> St -> Prop)
    (body : St -> nat -> result St) (a len : nat) (s s' : St) :
  P a s ->
  (forall i s s', a <= i < a + len -> P i s -> body s i = Ok s' -> P (S i) s') ->
  for_each (seq a len) body s = Ok s' -> P (a + len) s'.
Proof.
  revert a s. induction len as [|len IH]; intros a s H0 Hstep; simpl.
  - intros [= <-]. now rewrite Nat.add_0_r.
  - destruct (body s a) as [s1|] eqn:E1; simpl; [|discriminate].
    intros E. replace (a + S len) with (S a + len) by lia.
    apply (IH (S a) s1); auto.
    + apply (Hstep a s); auto. lia.
    + intros i s2 s3 Hi. apply Hstep. lia.
Qed.

(** ** The scratch values after the loop of [Satisfy_Constraints_CSR] *)

Lemma indptr_mono (A : csr_matrix) (i j : nat) :
  csr_wf A -> i <= j <= fst (csr_shape A) ->
  nth i (csr_indptr A) 0 <= nth j (csr_indptr A) 0.
Proof.
  intros W [Hij Hj]. induction j as [|j IH].
  - assert (i = 0) as -> by lia. lia.
  - destruct (Nat.eq_dec i (S j)) as [->|Hne]; [lia|].
    pose proof (wf_indptr_mono A W j ltac:(lia)). specialize (IH ltac:(lia) ltac:(lia)). lia.
Qed.

Lemma indptr_le_nnz (A : csr_matrix) (i : nat) :
  csr_wf A -> i <= fst (csr_shape A) ->
  nth i (csr_indptr A) 0 <= length (csr_indices A).
Proof.
  intros W Hi. rewrite <- (wf_indptr_last A W). apply indptr_mono; auto.
Qed.

Lemma length_csr_colindx (A : csr_matrix) (i : nat) :
  csr_wf A -> i < fst (csr_shape A) ->
  length (csr_colindx A i) = nth (S i) (csr_indptr A) 0 - nth i (csr_indptr A) 0.
Proof.
  intros W Hi. unfold csr_colindx. apply length_slice. apply indptr_le_nnz; auto.
Qed.

Lemma In_slice {A : Type} (l : list A) (a b : nat) (x : A) :
  In x (slice l a b) -> In x l.
Proof.
  unfold slice. intros H.
  assert (H1 : forall n (r : list A), In x (firstn n r) -> In x r).
  { induction n as [|n IH]; intros [|y r]; simpl; auto.
    - contradiction.
    - intros [E|E]; [now left|right; now apply IH]. }
  assert (H2 : forall n (r : list A), In x (skipn n r) -> In x r).
  { induction n as [|n IH]; intros [|y r]; simpl; auto. }
  eauto.
Qed.

Lemma csr_colindx_lt (A : csr_matrix) (i : nat) :
  csr_wf A -> Forall (fun j => j < snd (csr_shape A)) (csr_colindx A i).
Proof.
  intros W. unfold csr_colindx. apply Forall_forall. intros j Hj.
  apply In_slice in Hj.
  pose proof (wf_indices_lt A W) as H. rewrite Forall_forall in H. now apply H.
Qed.

Section ScratchCSR.
Variables (SP : csr_matrix) (B : dmatrix) (BtBinv : list dmatrix) (UB : dmatrix).
Variable k : nat.
Hypothesis W : csr_wf SP.
Hypothesis Hk : 0 < k.
Hypothesis HB : rect k B.
Hypothesis HBrows : drows B = snd (csr_shape SP).
Hypothesis HUB : rect k UB.
Hypothesis HUBrows : drows UB = fst (csr_shape SP).
Hypothesis HGlen : fst (csr_shape SP) <= length BtBinv.
Hypothesis HG : forall i, i < fst (csr_shape SP) ->
    rect k (nth i BtBinv []) /\ drows (nth i BtBinv []) = k.

Lemma Satisfy_Constraints_CSR_row_step (i : nat) (Sc : csr_matrix) :
  i < fst (csr_shape SP) -> scratch_inv SP B BtBinv UB i Sc ->
  exists Sc', Satisfy_Constraints_CSR_row B BtBinv UB Sc i = Ok Sc' /\
              scratch_inv SP B BtBinv UB (S i) Sc'.
Proof.
  intros Hi (Hsh & Hptr & Hidx & Hlen & Hdone & Htodo).
  pose proof (wf_indptr_len SP W) as Hplen.
  pose proof (wf_indptr_mono SP W i Hi) as Hmono.
  pose proof (indptr_le_nnz SP (S i) W ltac:(lia)) as Hend.
  pose proof (wf_data_len SP W) as Hdlen.
  assert (HUBlen : length UB = fst (csr_shape SP)) by exact HUBrows.
  unfold Satisfy_Constraints_CSR_row. rewrite Hptr, Hidx, Nat.add_1_r.
  rewrite (index_ok 0) by lia. simpl bind.
  rewrite (index_ok 0) by lia. simpl bind.
  set (rowstart := nth i (csr_indptr SP) 0) in *.
  set (rowend := nth (S i) (csr_indptr SP) 0) in *.
  destruct (Nat.eqb_spec rowend rowstart) as [E|E]; simpl negb; cbv iota.
  - exists Sc. split; [reflexivity|].
    repeat split; auto.
    + intros r Hr Hrn. destruct (Nat.eq_dec r i) as [->|Hne].
      * unfold row_update, csr_colindx. fold rowstart rowend. rewrite E.
        unfold slice. rewrite Nat.sub_diag. reflexivity.
      * apply Hdone; lia.
    + intros r Hr Hrn. apply Htodo; lia.
  - change (slice (csr_indices SP) rowstart rowend) with (csr_colindx SP i).
    assert (Hcol : Forall (fun c => c < drows B) (csr_colindx SP i)).
    { rewrite HBrows. now apply csr_colindx_lt. }
    assert (Hclen : length (csr_colindx SP i) = rowend - rowstart).
    { now apply length_csr_colindx. }
    rewrite take_rows_ok by exact Hcol. simpl bind.
    rewrite (index_ok []) by lia. simpl bind.
    rewrite (index_ok ([] : dmatrix)) by lia. simpl bind.
    destruct (HG i Hi) as [HGr HGk].
    rewrite (update_local_CSR_take_rows k); auto.
    2:{ intros E0. rewrite E0 in Hclen. simpl in Hclen. lia. }
    2:{ unfold rect in HUB. rewrite Forall_forall in HUB. apply HUB.
        apply nth_In. lia. }
    simpl bind. fold (row_update SP B BtBinv UB i).
    assert (Hulen : length (row_update SP B BtBinv UB i) = rowend - rowstart).
    { unfold row_update. now rewrite length_local_update. }
    unfold assign_slice. rewrite length_slice by lia.
    rewrite Hulen, Nat.eqb_refl. simpl bind.
    eexists. split; [reflexivity|].
    unfold scratch_inv. simpl.
    repeat split; auto.
    + rewrite length_splice; lia.
    + intros r Hr Hrn. destruct (Nat.eq_dec r i) as [->|Hne].
      * fold rowstart rowend. apply slice_splice_same; lia.
      * rewrite slice_splice_other.
        -- apply Hdone; lia.
        -- lia.
        -- pose proof (indptr_le_nnz SP (S r) W ltac:(lia)). lia.
        -- apply (wf_indptr_mono SP W r). lia.
        -- left. apply indptr_mono; auto. lia.
    + intros r Hr Hrn. rewrite slice_splice_other.
      * apply Htodo; lia.
      * lia.
      * pose proof (indptr_le_nnz SP (S r) W ltac:(lia)). lia.
      * apply (wf_indptr_mono SP W r). lia.
      * right. rewrite Hulen.
        pose proof (indptr_mono SP (S i) r W ltac:(lia)). fold rowend in H. lia.
Qed.

Lemma scratch_inv_init : scratch_inv SP B BtBinv UB 0 SP.
Proof. repeat split; auto. intros r Hr. lia. Qed.

(** The loop returns, with every row holding its update. *)
Lemma Satisfy_Constraints_CSR_loop :
  exists Sc, for_range (fst (csr_shape SP))
               (Satisfy_Constraints_CSR_row B BtBinv UB) SP = Ok Sc /\
             scratch_inv SP B BtBinv UB (fst (csr_shape SP)) Sc.
Proof.
  apply for_range_invariant; [exact scratch_inv_init|].
  intros i s Hi. now apply Satisfy_Constraints_CSR_row_step.
Qed.

End ScratchCSR.

(** ** The product of the scratch pattern with [B] *)

Lemma entries_get_cons (c : nat) (v : Qc) (es : list (nat * Qc)) (j : nat) :
  entries_get ((c, v) :: es) j
  = ((if c =? j then v else 0) + entries_get es j)%Qc.
Proof.
  unfold entries_get. simpl. destruct (c =? j); simpl; ring.
Qed.

Lemma entries_get_not_stored (es : list (nat * Qc)) (j : nat) :
  ~ In j (map fst es) -> entries_get es j = 0%Qc.
Proof.
  induction es as [|[c v] es IH]; intros H; [reflexivity|].
  rewrite entries_get_cons. simpl in H.
  destruct (Nat.eqb_spec c j) as [->|Hne]; [tauto|].
  rewrite IH by tauto. ring.
Qed.

(** Summing a row against a dense column visits the stored entries. *)
Lemma entries_get_sum (m : nat) (h : nat -> Qc) (es : list (nat * Qc)) :
  Forall (fun e => fst e < m) es ->
  sum_upto m (fun c => entries_get es c * h c)%Qc
  = qsum (map (fun e => snd e * h (fst e))%Qc es).
Proof.
  induction es as [|[c v] es IH]; intros H.
  - simpl. apply sum_upto_zero. intros i _. unfold entries_get. simpl. ring.
  - inversion H as [|? ? Hc Hes]; subst. simpl in Hc. simpl.
    rewrite <- IH by exact Hes.
    rewrite (sum_upto_ext m _ (fun j => (if c =? j then v else 0) * h j
                                        + entries_get es j * h j)%Qc).
    2:{ intros j _. rewrite entries_get_cons. ring. }
    unfold sum_upto. rewrite qsum_map_plus. f_equal.
    change (sum_upto m (fun j => (if c =? j then v else 0) * h j)%Qc = (v * h c)%Qc).
    rewrite (sum_upto_single m c).
    + now rewrite Nat.eqb_refl.
    + exact Hc.
    + intros i _ Hi. destruct (Nat.eqb_spec c i); [congruence|ring].
Qed.

Lemma qsum_combine_map {A : Type} (F : A -> Qc) (h : A -> Qc) (l : list A) :
  qsum (map (fun e => snd e * h (fst e))%Qc (combine l (map F l)))
  = qsum (map (fun c => F c * h c)%Qc l).
Proof.
  induction l as [|x l IH]; simpl; [reflexivity|]. now rewrite IH.
Qed.

Lemma dget_identity (k i j : nat) :
  i < k -> j < k -> dget (identity k) i j = if i =? j then 1%Qc else 0%Qc.
Proof. intros Hi Hj. unfold identity. now rewrite dget_dmake. Qed.

Lemma dmul_inv (X Y Z : dmatrix) :
  dmul X Y = Ok Z ->
  dcols X = drows Y /\
  Z = dmake (drows X) (dcols Y)
        (fun i t => sum_upto (drows Y) (fun a => dget X i a * dget Y a t)%Qc).
Proof.
  unfold dmul. destruct (Nat.eqb_spec (dcols X) (drows Y)); [|discriminate].
  intros [= <-]. auto.
Qed.

Lemma drows_identity (k : nat) : drows (identity k) = k.
Proof. apply drows_dmake. Qed.

(** The entries of the local Gram matrix. *)
Lemma local_gram_entries (k : nat) (B : dmatrix) (colindx : list nat) (M : dmatrix) :
  0 < k -> rect k B -> colindx <> [] ->
  local_gram B colindx = Ok M ->
  drows M = k /\ rect k M /\
  forall t a, t < k -> a < k ->
    dget M t a = qsum (map (fun c => dget B c t * dget B c a)%Qc colindx).
Proof.
  intros Hk HB Hne. unfold local_gram.
  destruct (take_rows B colindx) as [Bi|] eqn:E; simpl; [|discriminate].
  apply take_rows_inv in E as [Hc ->]. intros HM.
  set (Bi := map (fun c => nth c B []) colindx) in *.
  assert (HBi : rect k Bi) by now apply rect_take_rows.
  assert (Hlen : drows Bi = length colindx) by (unfold Bi, drows; apply length_map).
  assert (Hpos : 0 < drows Bi).
  { rewrite Hlen. destruct colindx; [contradiction|simpl; lia]. }
  apply dmul_inv in HM as [_ ->].
  assert (HBc : dcols Bi = k) by apply (dcols_rect k Bi HBi Hpos).
  assert (HTr : drows (transpose Bi) = k).
  { unfold transpose. now rewrite drows_dmake. }
  rewrite HTr, HBc.
  split; [apply drows_dmake|]. split; [apply rect_dmake|].
  intros t a Ht Ha. rewrite dget_dmake by lia. rewrite Hlen.
  rewrite <- (sum_upto_nth 0 (fun c => dget B c t * dget B c a)%Qc colindx).
  apply sum_upto_ext. intros j Hj.
  unfold transpose. rewrite dget_dmake by lia.
  unfold Bi. now rewrite !dget_take_rows by lia.
Qed.

(** Rows of the scratch pattern against [B]: the update of a row, multiplied
    by [B], is [M * (G * ub)] for the local Gram matrix [M]. *)
Lemma local_update_times_B_gram (k : nat) (B G M : dmatrix) (ub : list Qc)
    (colindx : list nat) (t : nat) :
  0 < k -> rect k B -> colindx <> [] -> length ub = k ->
  local_gram B colindx = Ok M -> t < k ->
  qsum (map (fun e => snd e * dget B (fst e) t)%Qc
            (combine colindx (local_update B G ub colindx)))
  = sum_upto k (fun a => dget M t a
                         * sum_upto k (fun b => dget G a b * nth b ub 0))%Qc.
Proof.
  intros Hk HB Hne Hub HM Ht.
  destruct (local_gram_entries k B colindx M Hk HB Hne HM) as (HMk & HMr & HMe).
  unfold local_update. rewrite Hub.
  rewrite (qsum_combine_map
    (fun c => sum_upto k (fun a =>
       dget B c a * sum_upto k (fun b => dget G a b * nth b ub 0))%Qc)
    (fun c => dget B c t)).
  set (v := fun a => sum_upto k (fun b => dget G a b * nth b ub 0)%Qc).
  rewrite (qsum_map_ext _
    (fun c => qsum (map (fun a => dget B c t * dget B c a * v a)%Qc (seq 0 k)))).
  2:{ intros c _. unfold sum_upto.
      rewrite <- (qsum_map_scale_r (dget B c t) (fun a => dget B c a * v a)%Qc).
      apply qsum_map_ext. intros a _. ring. }
  rewrite qsum_map_swap.
  apply qsum_map_ext. intros a Ha. apply in_seq in Ha. rewrite HMe by lia.
  now rewrite <- (qsum_map_scale_r (v a) (fun c => dget B c t * dget B c a)%Qc).
Qed.

(** When the table holds an inverse of the local Gram matrix, the update of
    a row reproduces [U*B] there. *)
Lemma local_update_times_B (k : nat) (B G : dmatrix) (ub : list Qc)
    (colindx : list nat) (t : nat) :
  0 < k -> rect k B -> colindx <> [] -> drows G = k -> length ub = k ->
  inverts_gram k B colindx G -> t < k ->
  qsum (map (fun e => snd e * dget B (fst e) t)%Qc
            (combine colindx (local_update B G ub colindx)))
  = nth t ub 0%Qc.
Proof.
  intros Hk HB Hne HGk Hub (M & HM & HMG) Ht.
  rewrite (local_update_times_B_gram k B G M) by assumption.
  (* [M * (G * ub)] is [(M * G) * ub] *)
  rewrite (sum_upto_ext k _
    (fun a => sum_upto k (fun b => dget M t a * dget G a b * nth b ub 0)%Qc)).
  2:{ intros a _. unfold sum_upto.
      rewrite <- (qsum_map_scale_l (dget M t a) (fun b => dget G a b * nth b ub 0)%Qc).
      apply qsum_map_ext. intros b _. ring. }
  rewrite sum_upto_swap.
  apply dmul_inv in HMG as [Hcols HI].
  assert (HMk : drows M = k).
  { pose proof (f_equal drows HI) as H1. now rewrite drows_identity, drows_dmake in H1. }
  assert (HGc : dcols G = k).
  { pose proof (f_equal (fun X => dcols X) HI) as H2. simpl in H2.
    unfold identity in H2. rewrite !dcols_dmake in H2 by lia. congruence. }
  rewrite (sum_upto_ext k _ (fun b => (if t =? b then 1 else 0) * nth b ub 0)%Qc).
  2:{ intros b Hb.
      rewrite <- (dget_identity k t b) by lia. rewrite HI.
      rewrite dget_dmake by lia. rewrite HGk.
      unfold sum_upto.
      now rewrite <- (qsum_map_scale_r (nth b ub 0%Qc) (fun a => dget M t a * dget G a b)%Qc). }
  rewrite (sum_upto_single k t).
  - rewrite Nat.eqb_refl. ring.
  - exact Ht.
  - intros i _ Hi. destruct (Nat.eqb_spec t i); [congruence|ring].
Qed.

(** ** [Satisfy_Constraints_CSR] on well-formed arguments *)

Lemma csr_row_scratch (SP : csr_matrix) (B : dmatrix) (BtBinv : list dmatrix)
    (UB : dmatrix) (Sc : csr_matrix) (i : nat) :
  scratch_inv SP B BtBinv UB (fst (csr_shape SP)) Sc -> i < fst (csr_shape SP) ->
  csr_row Sc i = combine (csr_colindx SP i) (row_update SP B BtBinv UB i).
Proof.
  intros (Hsh & Hptr & Hidx & Hlen & Hdone & _) Hi.
  unfold csr_row. rewrite Hptr, Hidx. cbv zeta.
  rewrite Hdone by lia. reflexivity.
Qed.

Lemma map_const_repeat {A C : Type} (c : C) (l : list A) :
  map (fun _ => c) l = repeat c (length l).
Proof. induction l as [|x l IH]; simpl; [reflexivity|]. now rewrite IH. Qed.

Section ProjectorCSR.
Variables (U SP : csr_matrix) (B : dmatrix) (BtBinv : list dmatrix) (k : nat).
Hypothesis W : csr_wf SP.
Hypothesis Hshape : csr_shape U = csr_shape SP.
Hypothesis Hk : 0 < k.
Hypothesis HB : rect k B.
Hypothesis HBrows : drows B = snd (csr_shape SP).
Hypothesis HBpos : 0 < drows B.
Hypothesis HGlen : fst (csr_shape SP) <= length BtBinv.
Hypothesis HG : forall i, i < fst (csr_shape SP) ->
    rect k (nth i BtBinv []) /\ drows (nth i BtBinv []) = k.

Let n := fst (csr_shape SP).
Let m := snd (csr_shape SP).
Let UB := dmake n k (fun i t => sum_upto m (fun j => csr_get U i j * dget B j t)%Qc).

Lemma csr_times_dense_U : csr_times_dense U B = Ok UB.
Proof.
  unfold csr_times_dense. rewrite Hshape, HBrows, Nat.eqb_refl.
  now rewrite (dcols_rect k B HB HBpos).
Qed.

(** The call returns; the operator returned and the pattern left behind. *)
Lemma Satisfy_Constraints_CSR_returns :
  exists Sc,
    scratch_inv SP B BtBinv UB n Sc /\
    Satisfy_Constraints_CSR U SP B BtBinv
    = Ok (projected_CSR U SP B BtBinv UB,
          csr_set_data Sc (repeat 1%Qc (length (csr_data SP)))).
Proof.
  destruct (Satisfy_Constraints_CSR_loop SP B BtBinv UB k W Hk HB HBrows
              (rect_dmake _ _ _) (drows_dmake _ _ _) HGlen HG) as (Sc & Eloop & Hinv).
  exists Sc. split; [exact Hinv|].
  unfold Satisfy_Constraints_CSR. rewrite csr_times_dense_U. simpl bind.
  rewrite Hshape. fold n. fold n in Eloop. rewrite Eloop. simpl bind.
  pose proof Hinv as (Hsh & Hptr & Hidx & Hlen & _).
  unfold csr_sub. rewrite Hshape, Hsh. unfold shape_eqb. rewrite !Nat.eqb_refl.
  simpl. f_equal. f_equal.
  - unfold projected_CSR. rewrite Hshape. apply csr_of_fun_ext. intros i j Hi Hj.
    f_equal. unfold csr_get. now rewrite (csr_row_scratch SP B BtBinv UB Sc i Hinv Hi).
  - f_equal. now rewrite map_const_repeat, Hlen.
Qed.

(** Where the table inverts the local Gram matrices, the product of the
    returned operator with [B] vanishes. *)
Lemma projected_CSR_times_B :
  csr_pattern_subset U SP ->
  (forall i, i < n -> csr_colindx SP i <> [] ->
     inverts_gram k B (csr_colindx SP i) (nth i BtBinv [])) ->
  csr_times_dense (projected_CSR U SP B BtBinv UB) B = Ok (dzeros n k).
Proof.
  intros Hsub Hinv.
  unfold csr_times_dense, projected_CSR. rewrite csr_shape_of_fun, Hshape.
  fold n m. rewrite HBrows. fold m. rewrite Nat.eqb_refl.
  rewrite (dcols_rect k B HB HBpos). f_equal. unfold dzeros.
  apply dmake_ext. intros i t Hi Ht.
  rewrite (sum_upto_ext m _
    (fun j => csr_get U i j * dget B j t
              - entries_get (combine (csr_colindx SP i) (row_update SP B BtBinv UB i)) j
                * dget B j t)%Qc).
  2:{ intros j Hj. rewrite csr_get_of_fun. simpl fst. simpl snd. fold n m.
      destruct (Nat.ltb_spec i n); [|lia]. destruct (Nat.ltb_spec j m); [|lia].
      simpl. ring. }
  unfold sum_upto. rewrite qsum_map_minus.
  change (sum_upto m (fun j => csr_get U i j * dget B j t)%Qc
          - sum_upto m (fun j =>
              entries_get (combine (csr_colindx SP i) (row_update SP B BtBinv UB i)) j
              * dget B j t)%Qc = 0)%Qc.
  rewrite entries_get_sum.
  2:{ apply Forall_forall. intros [c v] Hin. apply in_combine_l in Hin. simpl.
      pose proof (csr_colindx_lt SP i W) as H. rewrite Forall_forall in H.
      now apply H. }
  destruct (csr_colindx SP i) as [|c0 cs] eqn:Ecol.
  - (* no support: the row of [U] is empty as well *)
    simpl. rewrite sum_upto_zero; [ring|].
    intros j Hj. unfold csr_get. rewrite entries_get_not_stored; [ring|].
    intros Hst. apply (Hsub i j) in Hst. unfold csr_stored, csr_row in Hst.
    unfold csr_colindx in Ecol. rewrite Ecol in Hst. simpl in Hst. exact Hst.
  - rewrite <- Ecol. unfold row_update.
    rewrite (local_update_times_B k); auto.
    + change (nth t (nth i UB []) 0%Qc) with (dget UB i t).
      unfold UB. rewrite dget_dmake by assumption. ring.
    + rewrite Ecol. discriminate.
    + now apply HG.
    + pose proof (rect_dmake n k
        (fun i t => sum_upto m (fun j => csr_get U i j * dget B j t)%Qc)) as HR.
      unfold rect in HR. rewrite Forall_forall in HR. apply HR. apply nth_In.
      fold UB. change (length UB) with (drows UB). unfold UB.
      now rewrite drows_dmake.
    + apply Hinv; [exact Hi|]. rewrite Ecol. discriminate.
Qed.

(** The stored positions of the returned operator lie in the pattern. *)
Lemma projected_CSR_pattern :
  csr_pattern_subset U SP ->
  csr_pattern_subset (projected_CSR U SP B BtBinv UB) SP.
Proof.
  intros Hsub i j Hst. unfold projected_CSR in Hst.
  apply csr_stored_of_fun in Hst as (Hi & Hj & Hnz).
  destruct (in_dec Nat.eq_dec j (map fst (csr_row SP i))) as [Hin|Hout]; [exact Hin|].
  exfalso. apply Hnz.
  assert (HU : csr_get U i j = 0%Qc).
  { unfold csr_get. apply entries_get_not_stored. intros H. apply Hout. now apply Hsub. }
  rewrite HU. rewrite entries_get_not_stored; [ring|].
  intros H. apply Hout. unfold csr_row.
  assert (Hfst : forall (A C : Type) (l : list A) (r r' : list C),
             length r = length r' -> map fst (combine l r) = map fst (combine l r')).
  { intros A C l. induction l as [|x l IH]; intros [|y r] [|y' r'] E;
      simpl in *; try discriminate; auto. f_equal. apply IH. lia. }
  rewrite Hshape in Hi. fold n in Hi.
  rewrite (Hfst _ _ _ _ (row_update SP B BtBinv UB i)); [exact H|].
  unfold row_update. rewrite length_local_update.
  rewrite length_csr_colindx by auto.
  apply length_slice. rewrite (wf_data_len SP W). apply indptr_le_nnz; auto.
Qed.

End ProjectorCSR.

(** ** Block rows built from a list of nodes *)

Lemma combine_slices_concat {A C : Type} (rows : list (list (A * C))) (i : nat) :
  i < length rows ->
  let indptr := build_indptr 0 (map (@List.length _) rows) in
  combine (slice (List.concat (map (map fst) rows)) (nth i indptr 0) (nth (S i) indptr 0))
          (slice (List.concat (map (map snd) rows)) (nth i indptr 0) (nth (S i) indptr 0))
  = nth i rows [].
Proof.
  intros Hi indptr. unfold indptr.
  rewrite !nth_build_indptr by (rewrite length_map; lia).
  rewrite !Nat.add_0_l.
  pose proof (slice_concat (map (map fst) rows) i) as H1.
  pose proof (slice_concat (map (map snd) rows) i) as H2.
  rewrite length_map in H1, H2. specialize (H1 Hi). specialize (H2 Hi).
  rewrite map_map in H1, H2.
  rewrite (map_ext (fun x => length (map fst x)) (@List.length _)) in H1
    by (intros; apply length_map).
  rewrite (map_ext (fun x => length (map snd x)) (@List.length _)) in H2
    by (intros; apply length_map).
  rewrite H1, H2.
  rewrite (nth_map_nil (map fst) eq_refl), (nth_map_nil (map snd) eq_refl).
  generalize (nth i rows []). intros es.
  induction es as [|[c v] es IH]; simpl; [reflexivity|]. now rewrite IH.
Qed.

Lemma bsr_node_of_nodes (shape blocksize : nat * nat)
    (nodes : list (list (nat * dmatrix))) (I : nat) :
  I < length nodes -> bsr_node (bsr_of_nodes shape blocksize nodes) I = nth I nodes [].
Proof. intros HI. unfold bsr_node, bsr_of_nodes. simpl. now apply combine_slices_concat. Qed.

Lemma bsr_node_out_of_nodes (shape blocksize : nat * nat)
    (nodes : list (list (nat * dmatrix))) (I : nat) :
  length nodes <= I -> bsr_node (bsr_of_nodes shape blocksize nodes) I = [].
Proof.
  intros HI. unfold bsr_node, bsr_of_nodes. simpl.
  rewrite (nth_overflow _ (n := S I))
    by (rewrite length_build_indptr, length_map; lia).
  unfold slice. simpl. reflexivity.
Qed.

Lemma entries_get_app (l r : list (nat * Qc)) (j : nat) :
  entries_get (l ++ r) j = (entries_get l j + entries_get r j)%Qc.
Proof. unfold entries_get. now rewrite filter_app, map_app, qsum_app. Qed.

Lemma entries_get_run (base : nat) (g : nat -> Qc) (s len j : nat) :
  entries_get (map (fun c => (base + c, g c)) (seq s len)) j
  = if (base + s <=? j) && (j <? base + s + len) then g (j - base) else 0%Qc.
Proof.
  revert s. induction len as [|len IH]; intros s; simpl.
  - destruct (Nat.leb_spec (base + s) j), (Nat.ltb_spec j (base + s + 0));
      simpl; try reflexivity; lia.
  - rewrite entries_get_cons, IH.
    destruct (Nat.eqb_spec (base + s) j) as [E|E].
    + replace (j - base) with s by lia.
      destruct (Nat.leb_spec (base + S s) j), (Nat.leb_spec (base + s) j),
        (Nat.ltb_spec j (base + s + S len)); simpl; try lia. ring.
    + destruct (Nat.leb_spec (base + S s) j), (Nat.leb_spec (base + s) j),
        (Nat.ltb_spec j (base + S s + len)), (Nat.ltb_spec j (base + s + S len));
        simpl; try lia; ring.
Qed.

Lemma entries_get_block (C r : nat) (J : nat) (blk : dmatrix) (j : nat) :
  entries_get (block_entries C r (J, blk)) j
  = if (J * C <=? j) && (j <? J * C + C) then dget blk r (j - J * C) else 0%Qc.
Proof.
  unfold block_entries. simpl fst. simpl snd.
  rewrite (entries_get_run (J * C) (fun c => dget blk r c) 0 C j).
  now rewrite !Nat.add_0_r.
Qed.

Lemma existsb_nonzero_false (l : list Qc) (c : nat) :
  existsb nonzero l = false -> nth c l 0%Qc = 0%Qc.
Proof.
  revert c. induction l as [|x l IH]; intros c H; simpl in *.
  - now destruct c.
  - apply orb_false_iff in H as [Hx Hl]. destruct c as [|c].
    + now apply nonzero_false.
    + now apply IH.
Qed.

Lemma block_nonzero_false (blk : dmatrix) (r c : nat) :
  block_nonzero blk = false -> dget blk r c = 0%Qc.
Proof.
  unfold block_nonzero, dget. revert r. induction blk as [|row blk IH]; intros r H; simpl in *.
  - destruct r; now destruct c.
  - apply orb_false_iff in H as [Hrow Hblk]. destruct r as [|r].
    + now apply existsb_nonzero_false.
    + now apply IH.
Qed.

Lemma block_nonzero_true (blk : dmatrix) :
  block_nonzero blk = true ->
  exists r c, r < drows blk /\ c < length (nth r blk []) /\ dget blk r c <> 0%Qc.
Proof.
  unfold block_nonzero, dget, drows. induction blk as [|row blk IH]; simpl; [discriminate|].
  intros H. apply orb_true_iff in H as [H|H].
  - exists 0. apply existsb_exists in H as (x & Hin & Hx).
    apply (In_nth _ _ 0%Qc) in Hin as (c & Hc & E). exists c. simpl.
    repeat split; [lia|exact Hc|]. rewrite E. now apply nonzero_true.
  - destruct (IH H) as (r & c & Hr & Hc & Hnz). exists (S r), c. simpl.
    repeat split; auto. lia.
Qed.

Lemma entries_get_fun_node (R C : nat) (f : nat -> nat -> Qc) (I r : nat) (s len j : nat) :
  r < R -> 0 < C ->
  entries_get (flat_map (block_entries C r)
                 (filter (fun e => block_nonzero (snd e))
                         (map (fun J => (J, block_of_fun R C f I J)) (seq s len)))) j
  = if (s * C <=? j) && (j <? (s + len) * C) then f (I * R + r) j else 0%Qc.
Proof.
  intros Hr HC. revert s. induction len as [|len IH]; intros s; simpl.
  - unfold entries_get. simpl.
    destruct (Nat.leb_spec (s * C) j), (Nat.ltb_spec j ((s + 0) * C));
      simpl; try reflexivity. lia.
  - assert (Hblk : forall c, c < C ->
              dget (block_of_fun R C f I s) r c = f (I * R + r) (s * C + c)).
    { intros c Hc. unfold block_of_fun. now rewrite dget_dmake. }
    destruct (block_nonzero (block_of_fun R C f I s)) eqn:Enz; simpl.
    + rewrite entries_get_app, IH, entries_get_block.
      destruct (Nat.leb_spec (s * C) j), (Nat.ltb_spec j (s * C + C)),
        (Nat.leb_spec (S s * C) j), (Nat.ltb_spec j ((S s + len) * C)),
        (Nat.ltb_spec j ((s + S len) * C)); simpl; try nia; try ring.
      rewrite Hblk by lia. replace (s * C + (j - s * C)) with j by lia. ring.
    + rewrite IH.
      destruct (Nat.leb_spec (s * C) j), (Nat.ltb_spec j (s * C + C)),
        (Nat.leb_spec (S s * C) j), (Nat.ltb_spec j ((S s + len) * C)),
        (Nat.ltb_spec j ((s + S len) * C)); simpl; try nia; try ring.
      rewrite <- (block_nonzero_false _ r (j - s * C) Enz).
      rewrite Hblk by lia. now replace (s * C + (j - s * C)) with j by lia.
Qed.

(** The entries of the canonical block matrix are those of the function. *)
Lemma bsr_get_of_fun (n m R C : nat) (f : nat -> nat -> Qc) (i j : nat) :
  0 < R -> 0 < C -> n mod R = 0 -> m mod C = 0 ->
  bsr_get (bsr_of_fun (n, m) (R, C) f) i j
  = if (i <? n) && (j <? m) then f i j else 0%Qc.
Proof.
  intros HR HC Hn Hm. unfold bsr_get, bsr_row, bsr_of_fun. simpl fst. simpl snd.
  assert (En : n = n / R * R).
  { pose proof (Nat.div_mod n R ltac:(lia)). lia. }
  assert (Em : m = m / C * C).
  { pose proof (Nat.div_mod m C ltac:(lia)). lia. }
  destruct (Nat.ltb_spec i n) as [Hi|Hi].
  - assert (HI : i / R < n / R) by (apply Nat.Div0.div_lt_upper_bound; lia).
    rewrite bsr_node_of_nodes by (rewrite length_map, length_seq; exact HI).
    rewrite (nth_map_seq [] (fun_node R C (m / C) f) _ _ HI).
    unfold fun_node. rewrite entries_get_fun_node;
      [|apply Nat.mod_upper_bound; lia|exact HC].
    simpl. rewrite <- Em.
    replace (i / R * R + i mod R) with i
      by (pose proof (Nat.div_mod i R ltac:(lia)); lia).
    reflexivity.
  - rewrite bsr_node_out_of_nodes.
    + reflexivity.
    + rewrite length_map, length_seq.
      apply Nat.div_le_lower_bound; lia.
Qed.

(** ** Writing the rows of the blocks of a node *)

Lemma set_row_partial (newrows : list (list Qc)) (old : dmatrix) (j : nat) (row : list Qc) :
  length newrows = j -> j < length old ->
  set_row (newrows ++ skipn j old) j row = (newrows ++ [row]) ++ skipn (S j) old.
Proof.
  intros Hn Hj. unfold set_row.
  rewrite firstn_app, Hn, Nat.sub_diag. simpl firstn at 2. rewrite app_nil_r.
  rewrite firstn_all2 by lia.
  rewrite skipn_app, Hn. rewrite (skipn_all2 newrows) by lia.
  replace (S j - j) with 1 by lia.
  rewrite skipn_skipn. rewrite <- app_assoc. reflexivity.
Qed.

Lemma partial_blocks_0 (C : nat) (X : dmatrix) (old : list dmatrix) :
  partial_blocks C X old 0 = old.
Proof.
  unfold partial_blocks. apply (nth_ext _ _ [] []).
  - now rewrite length_map, length_seq.
  - intros b Hb. rewrite length_map, length_seq in Hb.
    now rewrite (nth_map_seq [] _ _ _ Hb).
Qed.

Lemma length_partial_blocks (C : nat) (X : dmatrix) (old : list dmatrix) (j : nat) :
  length (partial_blocks C X old j) = length old.
Proof. unfold partial_blocks. now rewrite length_map, length_seq. Qed.

Lemma nth_partial_blocks (C : nat) (X : dmatrix) (old : list dmatrix) (j b : nat) :
  b < length old ->
  nth b (partial_blocks C X old j) []
  = map (fun r => map (fun c => dget X (b * C + c) r) (seq 0 C)) (seq 0 j)
    ++ skipn j (nth b old []).
Proof.
  intros Hb. unfold partial_blocks.
  exact (nth_map_seq [] _ _ _ Hb).
Qed.

Lemma partial_blocks_full (R C : nat) (X : dmatrix) (old : list dmatrix) :
  Forall (fun blk => drows blk = R) old ->
  partial_blocks C X old R
  = map (fun b => dmake R C (fun r c => dget X (b * C + c) r)) (seq 0 (length old)).
Proof.
  intros H. unfold partial_blocks. apply map_ext_in. intros b Hb. apply in_seq in Hb.
  rewrite skipn_all2.
  - now rewrite app_nil_r.
  - rewrite Forall_forall in H. unfold drows in H. rewrite (H (nth b old [])); [lia|].
    apply nth_In. lia.
Qed.

Section WriteBSR.
Variables (Sc0 : bsr_matrix) (X : dmatrix) (rowstart rowend numBlocks R C : nat).
Hypothesis Hbs : bsr_blocksize Sc0 = (R, C).
Hypothesis Hnb : numBlocks = rowend - rowstart.
Hypothesis Hpos : 0 < numBlocks.
Hypothesis Hend : rowend <= length (bsr_data Sc0).
Hypothesis HXrows : drows X = numBlocks * C.
Hypothesis HXcols : dcols X = R.
Hypothesis Hold : Forall (fun blk => drows blk = R) (slice (bsr_data Sc0) rowstart rowend).

Lemma Satisfy_Constraints_BSR_write_step (j : nat) (Sc : bsr_matrix) :
  j < R -> write_inv Sc0 X rowstart rowend j Sc ->
  exists Sc', Satisfy_Constraints_BSR_write X rowstart rowend numBlocks R C Sc j = Ok Sc' /\
              write_inv Sc0 X rowstart rowend (S j) Sc'.
Proof.
  intros Hj (Hsh & Hb & Hptr & Hidx & Hlen & Hsl & Hout).
  unfold Satisfy_Constraints_BSR_write, column_reshape.
  rewrite HXcols. destruct (Nat.ltb_spec j R) as [_|]; [|lia]. simpl negb. cbv iota.
  rewrite HXrows, Nat.eqb_refl. simpl bind.
  unfold assign_block_rows. rewrite Hb, Hbs. simpl fst. simpl snd.
  destruct (Nat.ltb_spec j R) as [_|]; [|lia]. simpl negb. cbv iota.
  assert (Hslen : length (slice (bsr_data Sc) rowstart rowend) = numBlocks).
  { rewrite length_slice; lia. }
  rewrite Hslen, drows_dmake, Nat.eqb_refl.
  rewrite dcols_dmake by exact Hpos. rewrite Nat.eqb_refl. simpl orb. simpl andb. cbv iota.
  simpl bind. eexists. split; [reflexivity|].
  assert (Hlen0 : length (slice (bsr_data Sc0) rowstart rowend) = numBlocks).
  { rewrite length_slice; lia. }
  unfold write_inv. cbn [bsr_set_data bsr_shape bsr_blocksize bsr_indptr bsr_indices bsr_data].
  set (new := map _ (seq 0 numBlocks)).
  assert (Hnew : length new = numBlocks) by (unfold new; now rewrite length_map, length_seq).
  repeat split; auto.
  - rewrite length_splice; lia.
  - rewrite slice_splice_same by lia.
    rewrite Hbs. simpl snd.
    apply (nth_ext _ _ [] []).
    + rewrite length_partial_blocks, Hlen0. exact Hnew.
    + intros p Hp. assert (Hp' : p < numBlocks) by (rewrite <- Hnew; exact Hp).
      clear Hp. rename Hp' into Hp.
      rewrite nth_partial_blocks by lia.
      unfold new. rewrite (nth_map_seq ([] : dmatrix) _ _ _ Hp).
      rewrite <- (nth_slice ([] : dmatrix) (bsr_data Sc) rowstart rowend p) by lia.
      rewrite Hsl, Hbs. simpl snd. rewrite nth_partial_blocks by lia.
      rewrite set_row_partial.
      * rewrite seq_S, map_app. simpl. f_equal. f_equal. f_equal.
        apply map_ext_in. intros c Hc. apply in_seq in Hc.
        now rewrite dget_dmake by lia.
      * now rewrite length_map, length_seq.
      * rewrite Forall_forall in Hold. unfold drows in Hold.
        rewrite (Hold (nth p (slice (bsr_data Sc0) rowstart rowend) [])); [exact Hj|].
        apply nth_In. lia.
  - intros p Hp. rewrite nth_splice_out; [now apply Hout|lia|lia].
Qed.

Lemma write_inv_init : write_inv Sc0 X rowstart rowend 0 Sc0.
Proof.
  repeat split; auto. now rewrite partial_blocks_0.
Qed.

(** The loop over the rows of the blocks returns with every block of the
    node rewritten from [X]. *)
Lemma Satisfy_Constraints_BSR_write_loop :
  exists Sc, for_range R (Satisfy_Constraints_BSR_write X rowstart rowend numBlocks R C) Sc0
             = Ok Sc /\
             write_inv Sc0 X rowstart rowend R Sc.
Proof.
  apply for_range_invariant; [exact write_inv_init|].
  intros j s Hj. now apply Satisfy_Constraints_BSR_write_step.
Qed.

End WriteBSR.

(** ** The columns of a node and the update of a node *)

Lemma length_expand_block_columns (C : nat) (cols : list nat) :
  length (expand_block_columns C cols) = length cols * C.
Proof.
  unfold expand_block_columns. induction cols as [|J cols IH]; simpl; [reflexivity|].
  rewrite length_app, length_map, length_seq, IH. reflexivity.
Qed.

Lemma expand_block_columns_lt (C nbc : nat) (cols : list nat) :
  Forall (fun J => J < nbc) cols ->
  Forall (fun c => c < nbc * C) (expand_block_columns C cols).
Proof.
  intros H. unfold expand_block_columns. apply Forall_forall. intros c Hc.
  apply in_flat_map in Hc as (J & HJ & Hc).
  apply in_map_iff in Hc as (c' & <- & Hc'). apply in_seq in Hc'.
  rewrite Forall_forall in H. specialize (H J HJ). nia.
Qed.

Lemma slice_ext {A : Type} (d : A) (l l' : list A) (a b : nat) :
  length l = length l' -> b <= length l ->
  (forall p, a <= p < b -> nth p l d = nth p l' d) ->
  slice l a b = slice l' a b.
Proof.
  intros Hlen Hb H. apply (nth_ext _ _ d d).
  - rewrite !length_slice; lia.
  - intros j Hj. rewrite length_slice in Hj by lia.
    rewrite !nth_slice by lia. apply H. lia.
Qed.

Lemma Forall_slice {A : Type} (P : A -> Prop) (l : list A) (a b : nat) :
  Forall P l -> Forall P (slice l a b).
Proof.
  intros H. apply Forall_forall. intros x Hx. apply In_slice in Hx.
  rewrite Forall_forall in H. now apply H.
Qed.

Lemma bsr_indptr_mono (A : bsr_matrix) (i j : nat) :
  bsr_wf A -> i <= j <= fst (bsr_shape A) / fst (bsr_blocksize A) ->
  nth i (bsr_indptr A) 0 <= nth j (bsr_indptr A) 0.
Proof.
  intros W [Hij Hj]. induction j as [|j IH].
  - assert (i = 0) as -> by lia. lia.
  - destruct (Nat.eq_dec i (S j)) as [->|Hne]; [lia|].
    pose proof (bwf_indptr_mono A W j ltac:(lia)). specialize (IH ltac:(lia) ltac:(lia)). lia.
Qed.

Lemma bsr_indptr_le_nnz (A : bsr_matrix) (i : nat) :
  bsr_wf A -> i <= fst (bsr_shape A) / fst (bsr_blocksize A) ->
  nth i (bsr_indptr A) 0 <= length (bsr_indices A).
Proof.
  intros W Hi. rewrite <- (bwf_indptr_last A W). apply bsr_indptr_mono; auto.
Qed.

Lemma length_bsr_colindx (A : bsr_matrix) (I : nat) :
  bsr_wf A -> I < fst (bsr_shape A) / fst (bsr_blocksize A) ->
  length (bsr_colindx A I) = nth (S I) (bsr_indptr A) 0 - nth I (bsr_indptr A) 0.
Proof.
  intros W Hi. unfold bsr_colindx. apply length_slice. apply bsr_indptr_le_nnz; auto.
Qed.

Lemma node_colindx_lt (A : bsr_matrix) (I : nat) :
  bsr_wf A -> Forall (fun j => j < snd (bsr_shape A)) (node_colindx A I).
Proof.
  intros W. unfold node_colindx.
  pose proof (bwf_cols A W) as Hm. pose proof (bwf_C_pos A W) as HC.
  assert (Em : snd (bsr_shape A) = snd (bsr_shape A) / snd (bsr_blocksize A)
                                   * snd (bsr_blocksize A)).
  { pose proof (Nat.div_mod (snd (bsr_shape A)) (snd (bsr_blocksize A)) ltac:(lia)). lia. }
  pose proof (expand_block_columns_lt (snd (bsr_blocksize A))
                (snd (bsr_shape A) / snd (bsr_blocksize A)) (bsr_colindx A I)) as H.
  rewrite <- Em in H. apply H.
  unfold bsr_colindx. apply Forall_slice. apply (bwf_indices_lt A W).
Qed.

Lemma dmul_ok (X Y : dmatrix) :
  dcols X = drows Y ->
  dmul X Y = Ok (dmake (drows X) (dcols Y)
                   (fun i t => sum_upto (drows Y) (fun a => dget X i a * dget Y a t)%Qc)).
Proof. intros H. unfold dmul. now rewrite H, Nat.eqb_refl. Qed.

(** [Bi*(BtBinv[i]*UBi.T)] entry by entry. *)
Lemma update_local_BSR_ok (k R : nat) (Bi G UBi : dmatrix) :
  0 < k -> 0 < R -> rect k Bi -> 0 < drows Bi -> rect k G -> drows G = k ->
  rect k UBi -> drows UBi = R ->
  (t <- dmul G (transpose UBi) ;; dmul Bi t)
  = Ok (dmake (drows Bi) R
          (fun q r => sum_upto k (fun a =>
             dget Bi q a * sum_upto k (fun b => dget G a b * dget UBi r b))%Qc)).
Proof.
  intros Hk HR HBi HBi0 HG HGk HUBi HUBiR.
  assert (HUc : dcols UBi = k) by (apply dcols_rect; [exact HUBi|lia]).
  assert (HTr : drows (transpose UBi) = k) by (unfold transpose; now rewrite drows_dmake).
  assert (HTc : dcols (transpose UBi) = R).
  { unfold transpose. rewrite dcols_dmake by lia. exact HUBiR. }
  rewrite dmul_ok by (rewrite (dcols_rect k G HG) by lia; now rewrite HTr).
  simpl bind. rewrite HGk, HTc, HTr.
  rewrite dmul_ok by (rewrite (dcols_rect k Bi HBi HBi0); now rewrite drows_dmake).
  rewrite drows_dmake. rewrite dcols_dmake by lia.
  f_equal. apply dmake_ext. intros q r Hq Hr.
  apply sum_upto_ext. intros a Ha. f_equal.
  rewrite dget_dmake by lia.
  apply sum_upto_ext. intros b Hb. f_equal.
  unfold transpose. rewrite dget_dmake; [reflexivity|lia|lia].
Qed.

Lemma nth_local_update (B G : dmatrix) (ub : list Qc) (colindx : list nat) (q : nat) :
  q < length colindx ->
  nth q (local_update B G ub colindx) 0%Qc
  = sum_upto (length ub) (fun a =>
      dget B (nth q colindx 0%nat) a
      * sum_upto (length ub) (fun b => dget G a b * nth b ub 0))%Qc.
Proof.
  intros Hq. unfold local_update. cbv zeta.
  set (F := fun c => sum_upto (length ub) (fun a =>
        dget B c a * sum_upto (length ub) (fun b => dget G a b * nth b ub 0))%Qc).
  rewrite (nth_indep _ 0%Qc (F 0)) by (now rewrite length_map).
  now rewrite (map_nth F colindx 0 q).
Qed.

(** ** The scratch values after the loop of [Satisfy_Constraints_BSR] *)

Section ScratchBSR.
Variables (SP : bsr_matrix) (B : dmatrix) (BtBinv : list dmatrix) (UB : dmatrix).
Variables (colindices : list (list nat)) (k R C : nat).
Hypothesis W : bsr_wf SP.
Hypothesis Hbs : bsr_blocksize SP = (R, C).
Hypothesis Hk : 0 < k.
Hypothesis HB : rect k B.
Hypothesis HBrows : drows B = snd (bsr_shape SP).
Hypothesis HUB : rect k UB.
Hypothesis HUBrows : drows UB = fst (bsr_shape SP).
Hypothesis HGlen : fst (bsr_shape SP) / R <= length BtBinv.
Hypothesis HG : forall I, I < fst (bsr_shape SP) / R ->
    rect k (nth I BtBinv []) /\ drows (nth I BtBinv []) = k.
Hypothesis Hcollen : fst (bsr_shape SP) / R <= length colindices.
Hypothesis Hcol : forall I, I < fst (bsr_shape SP) / R ->
    nth I colindices [] = node_colindx SP I.

Lemma block_sizes_pos : 0 < R /\ 0 < C.
Proof.
  pose proof (bwf_R_pos SP W) as H1. pose proof (bwf_C_pos SP W) as H2.
  rewrite Hbs in H1, H2. auto.
Qed.

Lemma node_rows_le (I : nat) :
  I < fst (bsr_shape SP) / R -> I * R + R <= fst (bsr_shape SP).
Proof.
  intros HI. destruct block_sizes_pos as [HR _].
  pose proof (Nat.div_mod (fst (bsr_shape SP)) R ltac:(lia)) as E.
  pose proof (bwf_rows SP W) as Hm. rewrite Hbs in Hm. simpl in Hm. nia.
Qed.

Lemma Satisfy_Constraints_BSR_node_step (I : nat) (st : bsr_matrix * nat) :
  I < fst (bsr_shape SP) / R -> bscratch_inv SP B BtBinv UB I st ->
  exists st', Satisfy_Constraints_BSR_node B BtBinv colindices UB R C st I = Ok st' /\
              bscratch_inv SP B BtBinv UB (S I) st'.
Proof.
  destruct st as [Sc ro]. unfold bscratch_inv. simpl fst. simpl snd.
  rewrite Hbs. simpl fst. simpl snd.
  intros HI (Hro & Hsh & Hb & Hptr & Hidx & Hlen & Hdone & Htodo).
  destruct block_sizes_pos as [HR HC].
  pose proof (bwf_indptr_len SP W) as Hplen. rewrite Hbs in Hplen. simpl in Hplen.
  pose proof (bwf_indptr_mono SP W I) as Hmono. rewrite Hbs in Hmono. simpl in Hmono.
  specialize (Hmono HI).
  pose proof (bsr_indptr_le_nnz SP (S I) W) as Hend. rewrite Hbs in Hend. simpl in Hend.
  specialize (Hend ltac:(lia)).
  pose proof (bwf_data_len SP W) as Hdlen.
  pose proof (node_rows_le I HI) as Hrows.
  assert (HUBlen : length UB = fst (bsr_shape SP)) by exact HUBrows.
  pose proof (length_bsr_colindx SP I W) as Hclen. rewrite Hbs in Hclen. simpl in Hclen.
  specialize (Hclen HI).
  unfold Satisfy_Constraints_BSR_node. rewrite Hptr, Nat.add_1_r.
  rewrite (index_ok 0) by lia. simpl bind.
  rewrite (index_ok 0) by lia. simpl bind.
  rewrite (index_ok ([] : list nat)) by lia. simpl bind.
  rewrite (Hcol I HI).
  set (rowstart := nth I (bsr_indptr SP) 0) in *.
  set (rowend := nth (S I) (bsr_indptr SP) 0) in *.
  assert (Hnlen : length (node_colindx SP I) = (rowend - rowstart) * C).
  { unfold node_colindx. rewrite length_expand_block_columns, Hclen, Hbs. reflexivity. }
  rewrite Hnlen.
  destruct (Nat.eqb_spec ((rowend - rowstart) * C) 0) as [E|E]; simpl negb; cbv iota.
  - (* a node without blocks *)
    simpl bind. eexists. split; [reflexivity|]. simpl fst. simpl snd.
    assert (Erows : rowend = rowstart) by nia.
    repeat split; auto; try lia.
    + intros I' HI' HI'n. destruct (Nat.eq_dec I' I) as [->|Hne].
      * fold rowstart rowend. unfold node_update. rewrite Hclen, Erows, Nat.sub_diag.
        unfold slice. rewrite Nat.sub_diag. reflexivity.
      * apply Hdone; lia.
    + intros I' HI' HI'n. apply Htodo; lia.
  - assert (Hnb : 0 < rowend - rowstart) by nia.
    assert (Hcolb : Forall (fun c => c < drows B) (node_colindx SP I)).
    { rewrite HBrows. now apply node_colindx_lt. }
    rewrite take_rows_ok by exact Hcolb. simpl bind.
    rewrite (index_ok ([] : dmatrix)) by lia. simpl bind.
    destruct (HG I HI) as [HGr HGk].
    set (Bi := map (fun c => nth c B []) (node_colindx SP I)).
    set (UBi := slice UB ro (ro + R)).
    assert (HBi : rect k Bi) by (now apply rect_take_rows).
    assert (HBirows : drows Bi = (rowend - rowstart) * C).
    { unfold Bi, drows. now rewrite length_map. }
    assert (HUBi : rect k UBi) by (now apply Forall_slice).
    assert (HUBirows : drows UBi = R).
    { unfold UBi, drows. rewrite length_slice by lia. lia. }
    pose proof (update_local_BSR_ok k R Bi (nth I BtBinv []) UBi
                  Hk HR HBi ltac:(lia) HGr HGk HUBi HUBirows) as EX.
    simpl bind in EX.
    destruct (dmul (nth I BtBinv []) (transpose UBi)) as [t|] eqn:Et;
      simpl bind in EX; [|discriminate].
    simpl bind. rewrite EX. simpl bind.
    set (X := dmake (drows Bi) R _) in *.
    assert (Hold : Forall (fun blk => drows blk = R) (slice (bsr_data Sc) rowstart rowend)).
    { unfold rowstart, rowend. rewrite (Htodo I) by lia. apply Forall_slice.
      pose proof (bwf_blocks SP W) as Hblk. rewrite Hbs in Hblk. simpl in Hblk.
      eapply Forall_impl; [|exact Hblk]. simpl. tauto. }
    destruct (Satisfy_Constraints_BSR_write_loop Sc X rowstart rowend
                (rowend - rowstart) R C) as (Sc' & Eloop & Hw).
    + now rewrite Hb.
    + reflexivity.
    + exact Hnb.
    + lia.
    + unfold X. now rewrite drows_dmake.
    + unfold X. rewrite dcols_dmake by lia. reflexivity.
    + exact Hold.
    + rewrite Eloop. simpl bind. eexists. split; [reflexivity|].
      destruct Hw as (Hsh' & Hb' & Hptr' & Hidx' & Hlen' & Hsl' & Hout').
      simpl fst. simpl snd.
      repeat split; try congruence; try lia.
      * intros I' HI' HI'n. destruct (Nat.eq_dec I' I) as [->|Hne].
        -- fold rowstart rowend. rewrite Hsl'. rewrite Hb. simpl snd.
           rewrite (partial_blocks_full R) by exact Hold.
           unfold node_update. rewrite Hbs. simpl fst. simpl snd.
           rewrite length_slice by lia. rewrite Hclen.
           apply map_ext_in. intros b Hb0. apply in_seq in Hb0.
           apply dmake_ext. intros r c Hr Hc.
           unfold X. rewrite dget_dmake by nia.
           unfold node_row_update. rewrite Hbs. simpl fst.
           rewrite nth_local_update by nia.
           assert (Hub : length (nth (I * R + r) UB []) = k).
           { unfold rect in HUB. rewrite Forall_forall in HUB. apply HUB.
             apply nth_In. lia. }
           rewrite Hub.
           apply sum_upto_ext. intros a Ha. f_equal.
           ++ unfold Bi. apply dget_take_rows. nia.
           ++ apply sum_upto_ext. intros b' Hb'0. f_equal.
              unfold dget, UBi. rewrite nth_slice by lia. now rewrite Hro.
        -- rewrite <- (Hdone I') by lia.
           apply (slice_ext ([] : dmatrix)); [exact Hlen'| |].
           ++ pose proof (bsr_indptr_le_nnz SP (S I') W) as H1.
              rewrite Hbs in H1. simpl in H1. specialize (H1 ltac:(lia)). lia.
           ++ intros p Hp. apply Hout'. left.
              pose proof (bsr_indptr_mono SP (S I') I W) as H1.
              rewrite Hbs in H1. simpl in H1. specialize (H1 ltac:(lia)).
              fold rowstart in H1. lia.
      * intros I' HI' HI'n. rewrite <- (Htodo I') by lia.
        apply (slice_ext ([] : dmatrix)); [exact Hlen'| |].
        -- pose proof (bsr_indptr_le_nnz SP (S I') W) as H1.
           rewrite Hbs in H1. simpl in H1. specialize (H1 ltac:(lia)). lia.
        -- intros p Hp. apply Hout'. right.
           pose proof (bsr_indptr_mono SP (S I) I' W) as H1.
           rewrite Hbs in H1. simpl in H1. specialize (H1 ltac:(lia)).
           fold rowend in H1. lia.
Qed.

Lemma bscratch_inv_init : bscratch_inv SP B BtBinv UB 0 (SP, 0).
Proof. unfold bscratch_inv. simpl. repeat split; auto. intros I HI. lia. Qed.

(** The loop over the nodes returns, with every node holding its update. *)
Lemma Satisfy_Constraints_BSR_loop :
  exists st, for_range (fst (bsr_shape SP) / R)
               (Satisfy_Constraints_BSR_node B BtBinv colindices UB R C) (SP, 0) = Ok st /\
             bscratch_inv SP B BtBinv UB (fst (bsr_shape SP) / R) st.
Proof.
  apply for_range_invariant; [exact bscratch_inv_init|].
  intros i s Hi. now apply Satisfy_Constraints_BSR_node_step.
Qed.

End ScratchBSR.

(** ** The scalar rows of the scratch pattern *)

Lemma combine_app_l {A C : Type} (a b : list A) (l : list C) :
  combine (a ++ b) l = combine a (firstn (length a) l) ++ combine b (skipn (length a) l).
Proof.
  revert l. induction a as [|x a IH]; intros l; simpl; [reflexivity|].
  destruct l as [|y l]; simpl.
  - now rewrite combine_nil.
  - now rewrite IH.
Qed.

Lemma combine_map_seq {A C : Type} (d : C) (f : nat -> A) (n s : nat) (l : list C) :
  n <= length l ->
  combine (map f (seq s n)) l = map (fun c => (f c, nth (c - s) l d)) (seq s n).
Proof.
  revert s l. induction n as [|n IH]; intros s l Hn; simpl; [reflexivity|].
  destruct l as [|y l]; simpl in *; [lia|].
  rewrite Nat.sub_diag. f_equal. rewrite IH by lia.
  apply map_ext_in. intros c Hc. apply in_seq in Hc.
  replace (c - s) with (S (c - S s)) by lia. reflexivity.
Qed.

Lemma scratch_node_entries (R C r : nat) (lu : nat -> list Qc) (cols : list nat) (s : nat) :
  r < R -> length (lu r) = (s + length cols) * C ->
  flat_map (block_entries C r)
    (combine cols (map (fun b => dmake R C (fun r c => nth (b * C + c) (lu r) 0%Qc))
                       (seq s (length cols))))
  = combine (expand_block_columns C cols) (skipn (s * C) (lu r)).
Proof.
  intros Hr. revert s. induction cols as [|J cols IH]; intros s Hlen; [reflexivity|].
  simpl length in *. simpl seq. simpl map. simpl combine. simpl flat_map.
  unfold expand_block_columns. simpl flat_map. fold (expand_block_columns C cols).
  rewrite combine_app_l, length_map, length_seq.
  rewrite IH by lia. rewrite skipn_skipn. replace (C + s * C) with (S s * C) by lia.
  f_equal.
  rewrite (combine_map_seq 0%Qc) by (rewrite length_firstn, length_skipn; nia).
  unfold block_entries. simpl fst. simpl snd.
  apply map_ext_in. intros c Hc. apply in_seq in Hc.
  f_equal. rewrite dget_dmake by lia.
  rewrite Nat.sub_0_r. rewrite nth_firstn.
  destruct (Nat.ltb_spec c C); [|lia].
  rewrite nth_skipn. f_equal.
Qed.

Lemma In_expand_block_columns (C : nat) (cols : list nat) (j : nat) :
  0 < C -> (In j (expand_block_columns C cols) <-> In (j / C) cols).
Proof.
  intros HC. unfold expand_block_columns. rewrite in_flat_map. split.
  - intros (J & HJ & Hj). apply in_map_iff in Hj as (c & <- & Hc). apply in_seq in Hc.
    replace ((J * C + c) / C) with J; [exact HJ|].
    rewrite Nat.div_add_l by lia. rewrite Nat.div_small by lia. lia.
  - intros H. exists (j / C). split; [exact H|]. apply in_map_iff.
    exists (j mod C). split.
    + pose proof (Nat.div_mod j C ltac:(lia)). lia.
    + apply in_seq. pose proof (Nat.mod_upper_bound j C ltac:(lia)). lia.
Qed.

Lemma map_fst_combine {A C : Type} (l : list A) (r : list C) :
  length l = length r -> map fst (combine l r) = l.
Proof.
  revert r. induction l as [|x l IH]; intros [|y r] H; simpl in *; try discriminate; auto.
  f_equal. apply IH. lia.
Qed.

Lemma map_fst_block_entries (C r : nat) (nodes : list (nat * dmatrix)) :
  map fst (flat_map (block_entries C r) nodes) = expand_block_columns C (map fst nodes).
Proof.
  unfold expand_block_columns. induction nodes as [|[J blk] nodes IH]; simpl; [reflexivity|].
  rewrite map_app, IH. f_equal. unfold block_entries. rewrite map_map. reflexivity.
Qed.

(** The stored scalar columns of a row are the columns of its node. *)
Lemma map_fst_bsr_row (A : bsr_matrix) (i : nat) :
  bsr_wf A -> i < fst (bsr_shape A) ->
  map fst (bsr_row A i) = node_colindx A (i / fst (bsr_blocksize A)).
Proof.
  intros W Hi. unfold bsr_row, node_colindx, bsr_node, bsr_colindx.
  rewrite map_fst_block_entries. f_equal. apply map_fst_combine.
  pose proof (bwf_R_pos A W) as HR.
  assert (HI : i / fst (bsr_blocksize A) < fst (bsr_shape A) / fst (bsr_blocksize A)).
  { pose proof (bwf_rows A W) as Hn.
    apply Nat.Div0.div_lt_upper_bound.
    pose proof (Nat.div_mod (fst (bsr_shape A)) (fst (bsr_blocksize A)) ltac:(lia)). lia. }
  pose proof (bsr_indptr_le_nnz A (S (i / fst (bsr_blocksize A))) W ltac:(lia)) as Hend.
  pose proof (bwf_data_len A W) as Hd.
  rewrite !length_slice by lia. reflexivity.
Qed.

Lemma bsr_stored_of_fun (n m R C : nat) (f : nat -> nat -> Qc) (i j : nat) :
  0 < R -> 0 < C -> n mod R = 0 -> m mod C = 0 ->
  bsr_stored (bsr_of_fun (n, m) (R, C) f) i j ->
  exists i' j', i' / R = i / R /\ j' / C = j / C /\ i' < n /\ j' < m /\ f i' j' <> 0%Qc.
Proof.
  intros HR HC Hn Hm. unfold bsr_stored, bsr_row, bsr_of_fun. simpl fst. simpl snd.
  assert (En : n = n / R * R).
  { pose proof (Nat.div_mod n R ltac:(lia)). lia. }
  assert (Em : m = m / C * C).
  { pose proof (Nat.div_mod m C ltac:(lia)). lia. }
  destruct (Nat.lt_ge_cases (i / R) (n / R)) as [HI|HI].
  - rewrite bsr_node_of_nodes by (rewrite length_map, length_seq; exact HI).
    rewrite (nth_map_seq [] (fun_node R C (m / C) f) _ _ HI).
    rewrite map_fst_block_entries. rewrite In_expand_block_columns by exact HC.
    intros Hin. apply in_map_iff in Hin as ([J blk] & EJ & Hin). simpl in EJ. subst J.
    unfold fun_node in Hin. apply filter_In in Hin as [Hin Hnz]. simpl in Hnz.
    apply in_map_iff in Hin as (J & [= EJ <-] & HJ). apply in_seq in HJ.
    apply block_nonzero_true in Hnz as (r & c & Hr & Hc & Hnz).
    unfold block_of_fun in Hr, Hc. rewrite drows_dmake in Hr.
    assert (Hc' : c < C).
    { unfold dmake in Hc. rewrite (nth_map_seq [] _ _ _ Hr) in Hc.
      now rewrite length_map, length_seq in Hc. }
    unfold block_of_fun in Hnz. rewrite dget_dmake in Hnz by assumption.
    exists (i / R * R + r), (J * C + c). repeat split.
    + rewrite Nat.div_add_l by lia. rewrite (Nat.div_small r R) by lia. lia.
    + rewrite Nat.div_add_l by lia. rewrite (Nat.div_small c C) by lia. lia.
    + nia.
    + nia.
    + exact Hnz.
  - rewrite bsr_node_out_of_nodes by (now rewrite length_map, length_seq).
    simpl. contradiction.
Qed.

Lemma bsr_row_scratch (SP : bsr_matrix) (B : dmatrix) (BtBinv : list dmatrix)
    (UB : dmatrix) (st : bsr_matrix * nat) (i : nat) :
  bsr_wf SP ->
  bscratch_inv SP B BtBinv UB (fst (bsr_shape SP) / fst (bsr_blocksize SP)) st ->
  i < fst (bsr_shape SP) ->
  bsr_row (fst st) i
  = combine (node_colindx SP (i / fst (bsr_blocksize SP)))
            (node_row_update SP B BtBinv UB (i / fst (bsr_blocksize SP))
               (i mod fst (bsr_blocksize SP))).
Proof.
  intros W (Hro & Hsh & Hb & Hptr & Hidx & Hlen & Hdone & _) Hi.
  pose proof (bwf_R_pos SP W) as HR. pose proof (bwf_C_pos SP W) as HC.
  set (R := fst (bsr_blocksize SP)) in *. set (C := snd (bsr_blocksize SP)) in *.
  assert (HI : i / R < fst (bsr_shape SP) / R).
  { pose proof (bwf_rows SP W) as Hn. fold R in Hn.
    apply Nat.Div0.div_lt_upper_bound.
    pose proof (Nat.div_mod (fst (bsr_shape SP)) R ltac:(lia)). lia. }
  unfold bsr_row, bsr_node. rewrite Hb, Hptr, Hidx. fold R C. cbv zeta.
  rewrite (Hdone (i / R)) by lia.
  fold (bsr_colindx SP (i / R)). unfold node_update. fold R C. cbv zeta.
  rewrite (scratch_node_entries R C (i mod R)
             (node_row_update SP B BtBinv UB (i / R)) (bsr_colindx SP (i / R)) 0).
  - reflexivity.
  - apply Nat.mod_upper_bound. lia.
  - unfold node_row_update. rewrite length_local_update. unfold node_colindx.
    rewrite length_expand_block_columns. reflexivity.
Qed.

Lemma map_map_const_ones (data : list dmatrix) :
  Forall (Forall (Forall (fun v => v = 1%Qc)))
    (map (fun blk => map (fun row => map (fun _ => 1%Qc) row) blk) data).
Proof.
  apply Forall_forall. intros blk Hblk. apply in_map_iff in Hblk as (blk0 & <- & _).
  apply Forall_forall. intros row Hrow. apply in_map_iff in Hrow as (row0 & <- & _).
  apply Forall_forall. intros v Hv. now apply in_map_iff in Hv as (v0 & <- & _).
Qed.

Lemma bsr_of_fun_ext (shape blocksize : nat * nat) (f g : nat -> nat -> Qc) :
  0 < fst blocksize -> 0 < snd blocksize ->
  fst shape mod fst blocksize = 0 -> snd shape mod snd blocksize = 0 ->
  (forall i j, i < fst shape -> j < snd shape -> f i j = g i j) ->
  bsr_of_fun shape blocksize f = bsr_of_fun shape blocksize g.
Proof.
  intros HR HC Hn Hm H. unfold bsr_of_fun. cbv zeta. f_equal.
  pose proof (Nat.div_mod (fst shape) (fst blocksize) ltac:(lia)) as En.
  pose proof (Nat.div_mod (snd shape) (snd blocksize) ltac:(lia)) as Em.
  apply map_ext_in. intros I HI. apply in_seq in HI.
  unfold fun_node. f_equal. apply map_ext_in. intros J HJ. apply in_seq in HJ.
  f_equal. unfold block_of_fun. apply dmake_ext. intros r c Hr Hc.
  apply H; nia.
Qed.

Lemma bsr_get_of_fun_wf (shape blocksize : nat * nat) (f : nat -> nat -> Qc) (i j : nat) :
  0 < fst blocksize -> 0 < snd blocksize ->
  fst shape mod fst blocksize = 0 -> snd shape mod snd blocksize = 0 ->
  bsr_get (bsr_of_fun shape blocksize f) i j
  = if (i <? fst shape) && (j <? snd shape) then f i j else 0%Qc.
Proof.
  destruct shape as [n m], blocksize as [R C]. simpl. intros. now apply bsr_get_of_fun.
Qed.

Lemma div_lt_of_same_block (n R i i' : nat) :
  0 < R -> n mod R = 0 -> i' < n -> i' / R = i / R -> i < n.
Proof.
  intros HR Hn Hi' E.
  pose proof (Nat.div_mod n R ltac:(lia)) as En.
  pose proof (Nat.div_mod i R ltac:(lia)) as Ei.
  pose proof (Nat.div_mod i' R ltac:(lia)) as Ei'.
  pose proof (Nat.mod_upper_bound i R ltac:(lia)).
  pose proof (Nat.mod_upper_bound i' R ltac:(lia)).
  rewrite E in Ei'. rewrite Hn in En.
  generalize dependent (i / R). generalize dependent (n / R).
  intros q' En q _ Ei Ei'.
  assert (q < q') by nia. nia.
Qed.

(** ** [Satisfy_Constraints_BSR] on well-formed arguments *)

Section ProjectorBSR.
Variables (U SP : bsr_matrix) (B : dmatrix) (BtBinv : list dmatrix) (k R C : nat).
Hypothesis W : bsr_wf SP.
Hypothesis Hshape : bsr_shape U = bsr_shape SP.
Hypothesis Hbsz : bsr_blocksize U = bsr_blocksize SP.
Hypothesis Hbs : bsr_blocksize SP = (R, C).
Hypothesis Hk : 0 < k.
Hypothesis HB : rect k B.
Hypothesis HBrows : drows B = snd (bsr_shape SP).
Hypothesis HBpos : 0 < drows B.
Hypothesis HGlen : fst (bsr_shape SP) / R <= length BtBinv.
Hypothesis HG : forall I, I < fst (bsr_shape SP) / R ->
    rect k (nth I BtBinv []) /\ drows (nth I BtBinv []) = k.

Let n := fst (bsr_shape SP).
Let m := snd (bsr_shape SP).
Let UB := dmake n k (fun i t => sum_upto m (fun j => bsr_get U i j * dget B j t)%Qc).

Lemma bsr_times_dense_U : bsr_times_dense U B = Ok UB.
Proof.
  unfold bsr_times_dense. rewrite Hshape, HBrows, Nat.eqb_refl.
  now rewrite (dcols_rect k B HB HBpos).
Qed.

Lemma BSR_Get_Colindices_nth (I : nat) :
  I < n / R -> nth I (BSR_Get_Colindices SP) [] = node_colindx SP I.
Proof.
  intros HI. unfold BSR_Get_Colindices. rewrite Hbs. simpl fst. simpl snd.
  fold n. rewrite (nth_map_seq [] _ _ _ HI).
  unfold node_colindx, bsr_colindx. now rewrite Hbs.
Qed.

Lemma length_BSR_Get_Colindices : length (BSR_Get_Colindices SP) = n / R.
Proof.
  unfold BSR_Get_Colindices. rewrite Hbs. simpl fst.
  now rewrite length_map, length_seq.
Qed.

(** The call returns; the operator returned and the pattern left behind. *)
Lemma Satisfy_Constraints_BSR_returns :
  exists st,
    bscratch_inv SP B BtBinv UB (n / R) st /\
    Satisfy_Constraints_BSR U SP B BtBinv (BSR_Get_Colindices SP)
    = Ok (projected_BSR U SP B BtBinv UB,
          bsr_set_data (fst st)
            (map (fun blk => map (fun row => map (fun _ => 1%Qc) row) blk)
                 (bsr_data (fst st)))).
Proof.
  destruct (block_sizes_pos SP R C W Hbs) as [HR HC].
  destruct (Satisfy_Constraints_BSR_loop SP B BtBinv UB (BSR_Get_Colindices SP) k R C
              W Hbs Hk HB HBrows (rect_dmake _ _ _) (drows_dmake _ _ _) HGlen HG)
    as ([Sc ro] & Eloop & Hinv).
  { fold n. rewrite length_BSR_Get_Colindices. lia. }
  { intros I HI. now apply BSR_Get_Colindices_nth. }
  exists (Sc, ro). split; [exact Hinv|].
  assert (Hinv' : bscratch_inv SP B BtBinv UB
                    (fst (bsr_shape SP) / fst (bsr_blocksize SP)) (Sc, ro)).
  { rewrite Hbs. exact Hinv. }
  unfold Satisfy_Constraints_BSR. rewrite Hbsz, Hbs, Hshape. simpl fst. simpl snd.
  destruct (Nat.eqb_spec R 0) as [E|_]; [lia|].
  pose proof bsr_times_dense_U as EUB. rewrite EUB. simpl bind.
  fold n. fold n in Eloop. rewrite Eloop. simpl bind.
  pose proof Hinv as (Hro & Hsh & Hb & Hptr & Hidx & Hlen & _). simpl fst in *.
  unfold bsr_sub. rewrite Hshape, Hsh. unfold shape_eqb. rewrite !Nat.eqb_refl.
  simpl. f_equal. f_equal.
  unfold projected_BSR. rewrite Hshape, Hbsz.
  apply bsr_of_fun_ext.
  - apply (bwf_R_pos SP W).
  - apply (bwf_C_pos SP W).
  - apply (bwf_rows SP W).
  - apply (bwf_cols SP W).
  - intros i j Hi Hj. f_equal. unfold bsr_get.
    pose proof (bsr_row_scratch SP B BtBinv UB (Sc, ro) i W Hinv' Hi) as Hrow.
    simpl fst in Hrow. now rewrite Hrow.
Qed.

Lemma bsr_stored_node (i j : nat) :
  i < n -> (bsr_stored SP i j <-> In (j / C) (bsr_colindx SP (i / R))).
Proof.
  intros Hi. destruct (block_sizes_pos SP R C W Hbs) as [HR HC].
  unfold bsr_stored. rewrite (map_fst_bsr_row SP i W Hi). rewrite Hbs. simpl fst.
  unfold node_colindx. rewrite Hbs. simpl snd.
  now apply In_expand_block_columns.
Qed.

(** Where the table inverts the local Gram matrices, the product of the
    returned operator with [B] vanishes. *)
Lemma projected_BSR_times_B :
  bsr_pattern_subset U SP ->
  (forall I, I < n / R -> node_colindx SP I <> [] ->
     inverts_gram k B (node_colindx SP I) (nth I BtBinv [])) ->
  bsr_times_dense (projected_BSR U SP B BtBinv UB) B = Ok (dzeros n k).
Proof.
  intros Hsub Hinv. destruct (block_sizes_pos SP R C W Hbs) as [HR HC].
  pose proof (bwf_rows SP W) as Hn. pose proof (bwf_cols SP W) as Hm.
  unfold bsr_times_dense. unfold projected_BSR at 1 2. simpl bsr_shape.
  rewrite Hshape. fold n m. rewrite HBrows. fold m. rewrite Nat.eqb_refl.
  rewrite (dcols_rect k B HB HBpos). f_equal. unfold dzeros.
  apply dmake_ext. intros i t Hi Ht.
  set (I := i / R). set (r := i mod R).
  assert (Ei : I * R + r = i).
  { unfold I, r. pose proof (Nat.div_mod i R ltac:(lia)). lia. }
  assert (HI : I < n / R).
  { unfold I. apply Nat.Div0.div_lt_upper_bound. rewrite Hbs in Hn. simpl in Hn.
    fold n in Hn. pose proof (Nat.div_mod n R ltac:(lia)). lia. }
  rewrite (sum_upto_ext m _
    (fun j => bsr_get U i j * dget B j t
              - entries_get (combine (node_colindx SP I)
                               (node_row_update SP B BtBinv UB I r)) j
                * dget B j t)%Qc).
  2:{ intros j Hj. unfold projected_BSR. rewrite bsr_get_of_fun_wf.
      - rewrite Hshape. fold n m.
        destruct (Nat.ltb_spec i n); [|lia]. destruct (Nat.ltb_spec j m); [|lia].
        simpl. rewrite Hbs. simpl fst. fold I r. ring.
      - rewrite Hbsz. apply (bwf_R_pos SP W).
      - rewrite Hbsz. apply (bwf_C_pos SP W).
      - rewrite Hbsz, Hshape. exact Hn.
      - rewrite Hbsz, Hshape. exact Hm. }
  unfold sum_upto. rewrite qsum_map_minus.
  change (sum_upto m (fun j => bsr_get U i j * dget B j t)%Qc
          - sum_upto m (fun j =>
              entries_get (combine (node_colindx SP I)
                             (node_row_update SP B BtBinv UB I r)) j
              * dget B j t)%Qc = 0)%Qc.
  rewrite entries_get_sum.
  2:{ apply Forall_forall. intros [c v] Hin. apply in_combine_l in Hin. simpl.
      pose proof (node_colindx_lt SP I W) as H. rewrite Forall_forall in H.
      now apply H. }
  destruct (node_colindx SP I) as [|c0 cs] eqn:Ecol.
  - simpl. rewrite sum_upto_zero; [ring|].
    intros j Hj. unfold bsr_get. rewrite entries_get_not_stored; [ring|].
    intros Hst. apply (Hsub i j) in Hst. unfold bsr_stored in Hst.
    rewrite (map_fst_bsr_row SP i W Hi) in Hst. rewrite Hbs in Hst. simpl fst in Hst.
    fold I in Hst. rewrite Ecol in Hst. exact Hst.
  - rewrite <- Ecol. unfold node_row_update. rewrite Hbs. simpl fst. rewrite Ei.
    assert (Hub : length (nth i UB []) = k).
    { pose proof (rect_dmake n k
        (fun i t => sum_upto m (fun j => bsr_get U i j * dget B j t)%Qc)) as HR'.
      unfold rect in HR'. rewrite Forall_forall in HR'. apply HR'. apply nth_In.
      fold UB. change (length UB) with (drows UB). unfold UB.
      now rewrite drows_dmake. }
    rewrite (local_update_times_B k); auto.
    + change (nth t (nth i UB []) 0%Qc) with (dget UB i t).
      unfold UB. rewrite dget_dmake by assumption. ring.
    + rewrite Ecol. discriminate.
    + now apply HG.
    + apply Hinv; [exact HI|]. rewrite Ecol. discriminate.
Qed.

(** The stored positions of the returned operator lie in the pattern. *)
Lemma projected_BSR_pattern :
  bsr_pattern_subset U SP ->
  bsr_pattern_subset (projected_BSR U SP B BtBinv UB) SP.
Proof.
  intros Hsub i j Hst. destruct (block_sizes_pos SP R C W Hbs) as [HR HC].
  pose proof (bwf_rows SP W) as Hn. pose proof (bwf_cols SP W) as Hm.
  rewrite Hbs in Hn, Hm. simpl in Hn, Hm. fold n in Hn. fold m in Hm.
  unfold projected_BSR in Hst. rewrite Hshape, Hbsz, Hbs in Hst.
  rewrite (surjective_pairing (bsr_shape SP)) in Hst. fold n m in Hst.
  apply bsr_stored_of_fun in Hst as (i' & j' & Ei & Ej & Hi' & Hj' & Hnz); auto.
  assert (Hi : i < n) by (apply (div_lt_of_same_block n R i i'); auto).
  apply bsr_stored_node; [exact Hi|].
  rewrite <- Ei, <- Ej. apply bsr_stored_node; [exact Hi'|].
  destruct (in_dec Nat.eq_dec j' (map fst (bsr_row SP i'))) as [Hin|Hout]; [exact Hin|].
  exfalso. apply Hnz. simpl fst.
  assert (HU : bsr_get U i' j' = 0%Qc).
  { unfold bsr_get. apply entries_get_not_stored. intros H. apply Hout. now apply Hsub. }
  rewrite HU. rewrite entries_get_not_stored; [ring|].
  intros H. apply Hout. rewrite (map_fst_bsr_row SP i' W Hi'). rewrite Hbs. simpl fst.
  apply in_map_iff in H as ([c v] & Ec & Hcv). simpl in Ec. subst c.
  now apply in_combine_l in Hcv.
Qed.

End ProjectorBSR.

(** ** The local Gram inverses *)

Lemma Qc_ltb_lt (x y : Qc) : Qc_ltb x y = true <-> (x < y)%Qc.
Proof.
  unfold Qc_ltb. rewrite Qclt_alt. destruct (x ?= y)%Qc; split; congruence.
Qed.

Lemma Qc_ltb_ge (x y : Qc) : Qc_ltb x y = false <-> (y <= x)%Qc.
Proof.
  split.
  - intros H. apply Qcnot_lt_le. intros L. apply Qc_ltb_lt in L. congruence.
  - intros H. destruct (Qc_ltb x y) eqn:E; [|reflexivity].
    apply Qc_ltb_lt in E. exfalso. exact (Qcle_not_lt _ _ H E).
Qed.

Lemma Qcinv_pos (x : Qc) : (0 < x)%Qc -> (0 < / x)%Qc.
Proof.
  intros Hx. destruct (Qclt_le_dec 0 (/ x)) as [H|H]; [exact H|exfalso].
  assert (Hne : x <> 0%Qc) by (intros E; subst; exact (Qclt_not_eq _ _ Hx eq_refl)).
  pose proof (Qcmult_le_compat_r _ _ x H (Qclt_le_weak _ _ Hx)) as H1.
  rewrite Qcmult_inv_l in H1 by exact Hne. rewrite Qcmult_0_l in H1.
  apply (Qcle_not_lt _ _ H1). reflexivity.
Qed.

Lemma rel_threshold_pos : (0 < rel_threshold)%Qc.
Proof. reflexivity. Qed.

Lemma abs_threshold_pos : (0 < abs_threshold)%Qc.
Proof. reflexivity. Qed.

Lemma Qcabs_0 : Qcabs 0%Qc = 0%Qc.
Proof. apply Qcabs_pos. apply Qcle_refl. Qed.

(** A ratio above the relative threshold is the ratio of a nonzero value. *)
Lemma ratio_above_nonzero (s s0 : Qc) :
  Qc_ltb rel_threshold (Qcabs (s / s0)) = true -> s <> 0%Qc.
Proof.
  intros H E. subst s. apply Qc_ltb_lt in H.
  unfold Qcdiv in H. rewrite Qcmult_0_l, Qcabs_0 in H.
  exact (Qclt_not_le _ _ rel_threshold_pos (Qclt_le_weak _ _ H)).
Qed.

Lemma ratio_monotone (x y s0 : Qc) :
  (0 < s0)%Qc -> (0 <= x)%Qc -> (x <= y)%Qc ->
  Qc_ltb rel_threshold (Qcabs (x / s0)) = true ->
  Qc_ltb rel_threshold (Qcabs (y / s0)) = true.
Proof.
  intros Hs Hx Hxy H. apply Qc_ltb_lt in H. apply Qc_ltb_lt.
  pose proof (Qclt_le_weak _ _ (Qcinv_pos s0 Hs)) as Hi.
  assert (H0 : (0 <= x / s0)%Qc).
  { unfold Qcdiv. rewrite <- (Qcmult_0_l (/ s0)). now apply Qcmult_le_compat_r. }
  assert (H1 : (x / s0 <= y / s0)%Qc) by (now apply Qcmult_le_compat_r).
  rewrite Qcabs_pos in H by exact H0.
  rewrite Qcabs_pos by (eapply Qcle_trans; eassumption).
  eapply Qclt_le_trans; eassumption.
Qed.

Lemma take_ok (Sigma : list Qc) (indys : list nat) :
  Forall (fun p => p < length Sigma) indys ->
  take Sigma indys = Ok (map (fun p => nth p Sigma 0%Qc) indys).
Proof.
  induction indys as [|p ps IH]; intros H; simpl; [reflexivity|].
  inversion H as [|? ? Hp Hps]; subst.
  rewrite (index_ok 0%Qc) by exact Hp. simpl. rewrite IH by exact Hps. reflexivity.
Qed.

Lemma take_cols_ok (k : nat) (U : dmatrix) (indys : list nat) :
  rect k U -> Forall (fun p => p < k) indys ->
  take_cols U indys = Ok (map (fun row => map (fun p => nth p row 0%Qc) indys) U).
Proof.
  unfold rect. intros HU Hi. induction U as [|row U IH]; simpl; [reflexivity|].
  apply Forall_cons_iff in HU as [Hrow HU'].
  rewrite take_ok by (now rewrite Hrow). simpl. rewrite IH by exact HU'. reflexivity.
Qed.

Lemma reciprocals_ok (Sigma : list Qc) :
  Forall (fun s => s <> 0%Qc) Sigma ->
  reciprocals Sigma = Ok (map (fun s => (1 / s)%Qc) Sigma).
Proof.
  induction Sigma as [|s r IH]; intros H; simpl; [reflexivity|].
  inversion H as [|? ? Hs Hr]; subst.
  rewrite (proj2 (nonzero_true s) Hs). rewrite IH by exact Hr. reflexivity.
Qed.

Lemma scale_rows_by_ok (Sigma : list Qc) (X : dmatrix) :
  length Sigma = drows X -> 0 < drows X ->
  scale_rows_by Sigma X
  = Ok (dmake (drows X) (dcols X) (fun p c => nth p Sigma 0%Qc * dget X p c)%Qc).
Proof.
  intros H Hpos. unfold scale_rows_by. rewrite H, Nat.eqb_refl. simpl orb. cbv iota.
  rewrite Nat.max_id. f_equal. apply dmake_ext. intros p c Hp Hc.
  destruct (Nat.eqb_spec (drows X) 1) as [E|E]; [|reflexivity].
  now replace p with 0 by lia.
Qed.

Lemma nonincreasing_nth (Sigma : list Qc) (p q : nat) :
  nonincreasing Sigma -> p <= q -> q < length Sigma ->
  (0 <= nth q Sigma 0 /\ nth q Sigma 0 <= nth p Sigma 0)%Qc.
Proof.
  revert p q. induction Sigma as [|s r IH]; intros p q H Hpq Hq; simpl in Hq; [lia|].
  destruct H as (Hs & Hall & Hr).
  destruct q as [|q].
  - assert (p = 0) as -> by lia. simpl. split; [exact Hs|apply Qcle_refl].
  - destruct p as [|p]; simpl.
    + destruct (IH q q Hr (le_n _) ltac:(lia)) as [H0 _]. split; [exact H0|].
      rewrite Forall_forall in Hall. apply Hall. apply nth_In. lia.
    + apply IH; auto; lia.
Qed.

(** [mat(VT.T)*mat(Sigma.reshape(Sigma.shape[0],1)*U.T)] entry by entry, for
    [U] of [k] rows and [r] columns, [VT] of [r] rows and [k] columns. *)
Lemma assemble_inverse (k r : nat) (U VT : dmatrix) (Sigma : list Qc) :
  0 < k -> 0 < r -> drows U = k -> rect r U -> drows VT = r -> rect k VT ->
  length Sigma = r ->
  (X <- scale_rows_by Sigma (transpose U) ;; dmul (transpose VT) X)
  = Ok (dmake k k (fun a b =>
          sum_upto r (fun p => dget VT p a * nth p Sigma 0 * dget U b p)%Qc)).
Proof.
  intros Hk Hr HUk HU HVr HV HS.
  assert (HUc : dcols U = r) by (apply dcols_rect; [exact HU|lia]).
  assert (HVc : dcols VT = k) by (apply dcols_rect; [exact HV|lia]).
  assert (HTU : drows (transpose U) = r) by (unfold transpose; now rewrite drows_dmake).
  assert (HTUc : dcols (transpose U) = k).
  { unfold transpose. rewrite dcols_dmake by lia. exact HUk. }
  rewrite scale_rows_by_ok by lia. simpl bind. rewrite HTU, HTUc.
  assert (HTV : drows (transpose VT) = k) by (unfold transpose; now rewrite drows_dmake).
  assert (HTVc : dcols (transpose VT) = r).
  { unfold transpose. rewrite dcols_dmake by lia. exact HVr. }
  rewrite dmul_ok by (now rewrite HTVc, drows_dmake).
  rewrite HTV, drows_dmake. rewrite dcols_dmake by lia.
  f_equal. apply dmake_ext. intros a b Ha Hb.
  apply sum_upto_ext. intros p Hp.
  rewrite dget_dmake by lia.
  unfold transpose. rewrite !dget_dmake by lia. ring.
Qed.

Lemma nth_map_in {A C : Type} (d : A) (e : C) (f : A -> C) (l : list A) (p : nat) :
  p < length l -> nth p (map f l) e = f (nth p l d).
Proof.
  intros Hp. rewrite (nth_indep _ e (f d)) by (now rewrite length_map).
  apply map_nth.
Qed.

Lemma dget_take_cols (U : dmatrix) (indys : list nat) (b p : nat) :
  b < drows U -> p < length indys ->
  dget (map (fun row => map (fun q => nth q row 0%Qc) indys) U) b p
  = dget U b (nth p indys 0).
Proof.
  intros Hb Hp. unfold dget.
  rewrite (nth_map_in [] [] _ U b Hb).
  now rewrite (nth_map_in 0 0%Qc _ indys p Hp).
Qed.

Section GramInverseSpec.
Variable svd : dmatrix -> dmatrix * list Qc * dmatrix.
Variable k : nat.
Hypothesis Hk : 0 < k.
Hypothesis Hsvd : forall M, drows M = k -> rect k M -> svd_shapes k (svd M).

(** The inverse computed for a support is the truncated inverse of the
    specification, taken at the decomposition of the local Gram matrix. *)
Lemma local_inverse_spec (Bi : dmatrix) :
  rect k Bi -> 0 < drows Bi ->
  exists M, dmul (transpose Bi) Bi = Ok M /\
            local_inverse svd k Bi = Ok (truncated_inverse_spec k (svd M)).
Proof.
  intros HBi HBpos.
  assert (HBc : dcols Bi = k) by (now apply dcols_rect).
  assert (HTr : drows (transpose Bi) = k) by (unfold transpose; now rewrite drows_dmake).
  assert (HTc : dcols (transpose Bi) = drows Bi).
  { unfold transpose. rewrite dcols_dmake by lia. reflexivity. }
  eexists. split; [apply dmul_ok; exact HTc|].
  unfold local_inverse. rewrite dmul_ok by exact HTc. simpl bind.
  set (M := dmake _ _ _).
  assert (HM : svd_shapes k (svd M)).
  { apply Hsvd.
    - unfold M. now rewrite drows_dmake.
    - unfold M. rewrite HBc. apply rect_dmake. }
  destruct (svd M) as [[U Sigma] VT].
  destruct HM as (HUk & HU & HS & HVk & HV & Hsorted).
  rewrite (index_ok 0%Qc) by lia. simpl bind.
  unfold truncated_inverse_spec.
  set (s0 := nth 0 Sigma 0%Qc).
  destruct (Qc_ltb (Qcabs s0) abs_threshold) eqn:Eabs.
  - (* the largest singular value is below the absolute threshold *)
    simpl bind.
    rewrite (assemble_inverse k k) by (auto; now rewrite length_map).
    f_equal. unfold dzeros. apply dmake_ext. intros a b Ha Hb.
    apply sum_upto_zero. intros p Hp.
    rewrite (nth_map_in 0%Qc 0%Qc) by lia. ring.
  - apply Qc_ltb_ge in Eabs.
    assert (Hs0 : (0 < s0)%Qc).
    { destruct (nonincreasing_nth Sigma 0 0 Hsorted (le_n _) ltac:(lia)) as [H0 _].
      fold s0 in H0. destruct (Qcle_lt_or_eq _ _ H0) as [L|E]; [exact L|].
      exfalso. rewrite <- E, Qcabs_0 in Eabs.
      exact (Qcle_not_lt _ _ Eabs abs_threshold_pos). }
    set (keep := fun s => Qc_ltb rel_threshold (Qcabs (s / s0))).
    set (Sigma' := map (fun s => if keep s then s else 0%Qc) Sigma).
    assert (HS' : length Sigma' = k) by (unfold Sigma'; now rewrite length_map).
    assert (Hnth : forall p, p < k ->
              nth p Sigma' 0%Qc
              = if keep (nth p Sigma 0%Qc) then nth p Sigma 0%Qc else 0%Qc).
    { intros p Hp. unfold Sigma'. now rewrite (nth_map_in 0%Qc 0%Qc) by lia. }
    assert (Hnz : forall p, p < k ->
              nonzero (nth p Sigma' 0%Qc) = keep (nth p Sigma 0%Qc)).
    { intros p Hp. rewrite Hnth by exact Hp.
      destruct (keep (nth p Sigma 0%Qc)) eqn:Ek.
      - apply nonzero_true. now apply (ratio_above_nonzero _ s0).
      - now apply nonzero_false. }
    assert (Hindys : nonzero_indices Sigma' = kept_indices k Sigma).
    { unfold nonzero_indices, kept_indices. rewrite HS'.
      apply filter_ext_in. intros p Hp. apply in_seq in Hp.
      rewrite Hnz by lia. reflexivity. }
    assert (Hkeep0 : keep s0 = true).
    { unfold keep. apply Qc_ltb_lt. unfold Qcdiv. rewrite Qcmult_inv_r.
      - reflexivity.
      - intros E. rewrite E in Hs0. exact (Qclt_not_eq _ _ Hs0 eq_refl). }
    unfold index_last. destruct (Nat.eqb_spec k 0) as [E0|_]; [lia|].
    change (map (fun s : Qc => if Qc_ltb rel_threshold (Qcabs (s / s0)) then s else 0%Qc)
                Sigma) with Sigma'.
    rewrite (index_ok 0%Qc Sigma' (k - 1)) by (rewrite HS'; lia). simpl bind.
    destruct (Qc_eqb (nth (k - 1) Sigma' 0%Qc) 0%Qc) eqn:Elast.
    + (* some singular value was zeroed: the factors are truncated *)
      set (indys := nonzero_indices Sigma').
      assert (Hlt : Forall (fun p => p < k) indys).
      { unfold indys, nonzero_indices. apply Forall_forall. intros p Hp.
        apply filter_In in Hp as [Hp _]. apply in_seq in Hp. lia. }
      assert (Hin0 : In 0 indys).
      { unfold indys, nonzero_indices. apply filter_In. split.
        - apply in_seq. lia.
        - rewrite Hnz by lia. exact Hkeep0. }
      assert (Hr : 0 < length indys) by (destruct indys; [contradiction|simpl; lia]).
      rewrite take_ok by (now rewrite HS'). simpl bind.
      rewrite (take_cols_ok k) by assumption. simpl bind.
      rewrite take_rows_ok by (now rewrite HVk). simpl bind.
      rewrite reciprocals_ok.
      2:{ apply Forall_forall. intros s Hs. apply in_map_iff in Hs as (p & <- & Hp).
          rewrite Forall_forall in Hlt. specialize (Hlt p Hp).
          apply nonzero_true. unfold indys, nonzero_indices in Hp.
          now apply filter_In in Hp as [_ Hp]. }
      simpl bind.
      rewrite (assemble_inverse k (length indys)); auto.
      * f_equal. apply dmake_ext. intros a b Ha Hb.
        rewrite <- Hindys. fold indys.
        rewrite <- (sum_upto_nth 0
          (fun q => dget VT q a * (1 / nth q Sigma 0) * dget U b q)%Qc indys).
        apply sum_upto_ext. intros p Hp.
        rewrite dget_take_rows by exact Hp.
        rewrite dget_take_cols by lia.
        rewrite (nth_map_in 0%Qc 0%Qc) by (now rewrite length_map).
        rewrite (nth_map_in 0 0%Qc) by exact Hp.
        assert (Hq : nth p indys 0 < k).
        { rewrite Forall_forall in Hlt. apply Hlt. now apply nth_In. }
        assert (Hkq : keep (nth (nth p indys 0) Sigma 0%Qc) = true).
        { rewrite <- Hnz by exact Hq.
          assert (Hin : In (nth p indys 0) indys) by (now apply nth_In).
          unfold indys, nonzero_indices in Hin. now apply filter_In in Hin as [_ Hin]. }
        rewrite Hnth by exact Hq. rewrite Hkq. reflexivity.
      * unfold drows. now rewrite length_map.
      * unfold rect. apply Forall_forall. intros row Hrow.
        apply in_map_iff in Hrow as (row0 & <- & _). now rewrite length_map.
      * unfold drows. now rewrite length_map.
      * apply rect_take_rows; [exact HV|now rewrite HVk].
      * now rewrite !length_map.
    + (* no singular value was zeroed *)
      assert (Hlast : keep (nth (k - 1) Sigma 0%Qc) = true).
      { rewrite <- Hnz by lia. apply nonzero_true. intros E.
        rewrite E in Elast. unfold Qc_eqb in Elast.
        rewrite (proj1 (Qceq_alt 0%Qc 0%Qc) eq_refl) in Elast. discriminate. }
      assert (Hall : forall p, p < k -> keep (nth p Sigma 0%Qc) = true).
      { intros p Hp.
        destruct (nonincreasing_nth Sigma p (k - 1) Hsorted ltac:(lia) ltac:(lia))
          as [H0 H1].
        exact (ratio_monotone _ _ s0 Hs0 H0 H1 Hlast). }
      simpl bind. rewrite reciprocals_ok.
      2:{ apply Forall_forall. intros s Hs.
          apply (In_nth _ _ 0%Qc) in Hs as (p & Hp & <-). rewrite HS' in Hp.
          apply nonzero_true. rewrite Hnz by exact Hp. now apply Hall. }
      simpl bind.
      rewrite (assemble_inverse k k) by (auto; now rewrite !length_map).
      f_equal. apply dmake_ext. intros a b Ha Hb.
      assert (Hkept : kept_indices k Sigma = seq 0 k).
      { unfold kept_indices.
        rewrite (filter_ext_in _ (fun _ => true)).
        - clear. induction (seq 0 k) as [|x l IH]; simpl; [reflexivity|]. now rewrite IH.
        - intros p Hp. apply in_seq in Hp. apply Hall. lia. }
      rewrite Hkept. apply qsum_map_ext. intros p Hp. apply in_seq in Hp.
      rewrite (nth_map_in 0%Qc 0%Qc) by (rewrite HS'; lia).
      rewrite Hnth by lia. rewrite Hall by lia. reflexivity.
Qed.

End GramInverseSpec.

Lemma list_set_ok (BtBinv : list dmatrix) (i : nat) (G : dmatrix) :
  i < length BtBinv ->
  exists t, list_set BtBinv i G = Ok t /\ length t = length BtBinv /\
            nth i t [] = G /\ (forall r, r <> i -> nth r t [] = nth r BtBinv []).
Proof.
  intros Hi. unfold list_set. destruct (Nat.ltb_spec i (length BtBinv)); [|lia].
  eexists. split; [reflexivity|]. repeat split.
  - rewrite length_app, length_firstn. cbn [length]. rewrite length_skipn. lia.
  - rewrite app_nth2 by (rewrite length_firstn; lia).
    rewrite length_firstn, Nat.min_l by lia. now rewrite Nat.sub_diag.
  - intros r Hr. destruct (Nat.lt_ge_cases r i) as [L|L].
    + rewrite app_nth1 by (rewrite length_firstn; lia).
      rewrite nth_firstn. destruct (Nat.ltb_spec r i); [reflexivity|lia].
    + rewrite app_nth2 by (rewrite length_firstn; lia).
      rewrite length_firstn, Nat.min_l by lia.
      destruct (r - i) as [|d] eqn:E; [lia|]. cbn [nth].
      rewrite nth_skipn. f_equal. lia.
Qed.

Lemma truncated_inverse_shape (k : nat) (usv : dmatrix * list Qc * dmatrix) :
  rect k (truncated_inverse_spec k usv) /\ drows (truncated_inverse_spec k usv) = k.
Proof.
  destruct usv as [[U Sigma] VT]. unfold truncated_inverse_spec, dzeros.
  destruct (Qc_ltb _ _); split; try apply rect_dmake; apply drows_dmake.
Qed.

Lemma table_entry_shape (svd : dmatrix -> dmatrix * list Qc * dmatrix) (k : nat)
    (B : dmatrix) (colindx : list nat) (G : dmatrix) :
  table_entry_spec svd k B colindx G -> rect k G /\ drows G = k.
Proof.
  intros [H0 H1]. destruct colindx as [|c cs].
  - rewrite (H0 eq_refl). unfold dzeros. split; [apply rect_dmake|apply drows_dmake].
  - destruct (H1 ltac:(discriminate)) as (M & _ & ->). apply truncated_inverse_shape.
Qed.

Section BuilderSpec.
Variable svd : dmatrix -> dmatrix * list Qc * dmatrix.
Variables (B : dmatrix) (k : nat).
Hypothesis Hk : 0 < k.
Hypothesis Hsvd : forall M, drows M = k -> rect k M -> svd_shapes k (svd M).
Hypothesis HB : rect k B.

(** The entry computed for a nonempty support. *)
Lemma local_inverse_entry (colindx : list nat) :
  Forall (fun c => c < drows B) colindx -> colindx <> [] ->
  exists G, (Bi <- take_rows B colindx ;; local_inverse svd k Bi) = Ok G /\
            table_entry_spec svd k B colindx G.
Proof.
  intros Hc Hne. rewrite take_rows_ok by exact Hc. simpl bind.
  destruct (local_inverse_spec svd k Hk Hsvd (map (fun c => nth c B []) colindx))
    as (M & EM & EG).
  - now apply rect_take_rows.
  - unfold drows. rewrite length_map. destruct colindx; [contradiction|simpl; lia].
  - eexists. split; [exact EG|]. split; [contradiction|].
    intros _. exists M. split; [|reflexivity].
    unfold local_gram. rewrite take_rows_ok by exact Hc. exact EM.
Qed.

Lemma table_inv_init (support : nat -> list nat) (N : nat) :
  table_inv svd k B support N 0 (map (fun _ => dzeros k k) (seq 0 N)).
Proof.
  unfold table_inv. rewrite length_map, length_seq. split; [reflexivity|]. split.
  - intros r Hr. lia.
  - intros r _ Hr. exact (nth_map_seq ([] : dmatrix) (fun _ => dzeros k k) N r Hr).
Qed.

(** Scalar storage: the table is built, and holds the entry of each row. *)
Lemma build_BtBinv_CSR_spec (SP : csr_matrix) :
  csr_wf SP -> drows B = snd (csr_shape SP) ->
  exists BtBinv,
    build_BtBinv_CSR svd SP B (fst (csr_shape SP)) k = Ok BtBinv /\
    table_inv svd k B (csr_colindx SP) (fst (csr_shape SP)) (fst (csr_shape SP)) BtBinv.
Proof.
  intros W HBrows. unfold build_BtBinv_CSR.
  apply for_range_invariant; [apply table_inv_init|].
  intros i t Hi (Hlen & Hdone & Htodo).
  pose proof (wf_indptr_len SP W) as Hplen.
  pose proof (length_csr_colindx SP i W Hi) as Hclen.
  pose proof (wf_indptr_mono SP W i Hi) as Hmono.
  unfold build_BtBinv_CSR_row. rewrite Nat.add_1_r.
  rewrite (index_ok 0) by lia. simpl bind.
  rewrite (index_ok 0) by lia. simpl bind.
  fold (csr_colindx SP i).
  destruct (Nat.eqb_spec (nth (S i) (csr_indptr SP) 0) (nth i (csr_indptr SP) 0)) as [E|E];
    simpl negb; cbv iota.
  - exists t. split; [reflexivity|]. split; [exact Hlen|]. split.
    + intros r Hr HrN. destruct (Nat.eq_dec r i) as [->|Hne]; [|apply Hdone; lia].
      rewrite Htodo by lia. split; [reflexivity|].
      intros Hne. exfalso. apply Hne. apply length_zero_iff_nil. lia.
    + intros r Hr HrN. apply Htodo; lia.
  - assert (Hne : csr_colindx SP i <> []).
    { intros E0. rewrite E0 in Hclen. simpl in Hclen. lia. }
    destruct (local_inverse_entry (csr_colindx SP i)) as (G & EG & HG).
    { rewrite HBrows. now apply csr_colindx_lt. }
    { exact Hne. }
    destruct (take_rows B (csr_colindx SP i)) as [Bi|] eqn:EBi; simpl bind in *;
      [|discriminate].
    rewrite EG. simpl bind.
    destruct (list_set_ok t i G ltac:(lia)) as (t' & Et' & Hlen' & Hi' & Hother).
    exists t'. split; [exact Et'|]. split; [lia|]. split.
    + intros r Hr HrN. destruct (Nat.eq_dec r i) as [->|Hne'].
      * now rewrite Hi'.
      * rewrite Hother by exact Hne'. apply Hdone; lia.
    + intros r Hr HrN. rewrite Hother by lia. apply Htodo; lia.
Qed.

(** Block storage: the table is built, and holds the entry of each node. *)
Lemma build_BtBinv_BSR_spec (SP : bsr_matrix) :
  bsr_wf SP -> drows B = snd (bsr_shape SP) ->
  exists BtBinv,
    build_BtBinv_BSR svd SP B (BSR_Get_Colindices SP) (fst (bsr_shape SP)) k = Ok BtBinv /\
    table_inv svd k B (node_colindx SP)
      (fst (bsr_shape SP) / fst (bsr_blocksize SP))
      (fst (bsr_shape SP) / fst (bsr_blocksize SP)) BtBinv.
Proof.
  intros W HBrows. unfold build_BtBinv_BSR.
  pose proof (bwf_R_pos SP W) as HR. pose proof (bwf_C_pos SP W) as HC.
  destruct (Nat.eqb_spec (fst (bsr_blocksize SP)) 0) as [E0|_]; [lia|].
  apply for_range_invariant; [apply table_inv_init|].
  intros i t Hi (Hlen & Hdone & Htodo).
  pose proof (bwf_indptr_len SP W) as Hplen.
  pose proof (length_bsr_colindx SP i W Hi) as Hclen.
  pose proof (bwf_indptr_mono SP W i Hi) as Hmono.
  assert (Hcol : nth i (BSR_Get_Colindices SP) [] = node_colindx SP i).
  { unfold BSR_Get_Colindices. now rewrite (nth_map_seq [] _ _ _ Hi). }
  assert (Hnlen : length (node_colindx SP i)
                  = (nth (S i) (bsr_indptr SP) 0 - nth i (bsr_indptr SP) 0)
                    * snd (bsr_blocksize SP)).
  { unfold node_colindx. now rewrite length_expand_block_columns, Hclen. }
  unfold build_BtBinv_BSR_node. rewrite Nat.add_1_r.
  rewrite (index_ok 0) by lia. simpl bind.
  rewrite (index_ok 0) by lia. simpl bind.
  rewrite (index_ok ([] : list nat))
    by (unfold BSR_Get_Colindices; rewrite length_map, length_seq; exact Hi).
  simpl bind. rewrite Hcol.
  destruct (Nat.eqb_spec (nth (S i) (bsr_indptr SP) 0) (nth i (bsr_indptr SP) 0)) as [E|E];
    simpl negb; cbv iota.
  - exists t. split; [reflexivity|]. split; [exact Hlen|]. split.
    + intros r Hr HrN. destruct (Nat.eq_dec r i) as [->|Hne]; [|apply Hdone; lia].
      rewrite Htodo by lia. split; [reflexivity|].
      intros Hne. exfalso. apply Hne. apply length_zero_iff_nil. rewrite Hnlen. lia.
    + intros r Hr HrN. apply Htodo; lia.
  - assert (Hne : node_colindx SP i <> []).
    { intros E1. rewrite E1 in Hnlen. simpl in Hnlen. nia. }
    destruct (local_inverse_entry (node_colindx SP i)) as (G & EG & HG).
    { rewrite HBrows. now apply node_colindx_lt. }
    { exact Hne. }
    destruct (take_rows B (node_colindx SP i)) as [Bi|] eqn:EBi; simpl bind in *;
      [|discriminate].
    rewrite EG. simpl bind.
    destruct (list_set_ok t i G ltac:(lia)) as (t' & Et' & Hlen' & Hi' & Hother).
    exists t'. split; [exact Et'|]. split; [lia|]. split.
    + intros r Hr HrN. destruct (Nat.eq_dec r i) as [->|Hne'].
      * now rewrite Hi'.
      * rewrite Hother by exact Hne'. apply Hdone; lia.
    + intros r Hr HrN. rewrite Hother by lia. apply Htodo; lia.
Qed.

End BuilderSpec.

(** ** Deciding well-formedness *)

Lemma rectb_rect (k : nat) (X : dmatrix) : rectb k X = true -> rect k X.
Proof.
  unfold rectb, rect. intros H. apply Forall_forall. intros r Hr.
  rewrite forallb_forall in H. apply Nat.eqb_eq. now apply H.
Qed.

Lemma csr_wfb_wf (A : csr_matrix) : csr_wfb A = true -> csr_wf A.
Proof.
  unfold csr_wfb. intros H.
  repeat (apply andb_true_iff in H as [H ?]).
  constructor.
  - now apply Nat.eqb_eq.
  - now apply Nat.eqb_eq.
  - intros i Hi. apply Nat.leb_le.
    match goal with Hm : forallb _ (seq 0 _) = true |- _ =>
      rewrite forallb_forall in Hm; apply Hm end.
    apply in_seq. lia.
  - now apply Nat.eqb_eq.
  - now apply Nat.eqb_eq.
  - apply Forall_forall. intros j Hj. apply Nat.ltb_lt.
    match goal with Hm : forallb _ (csr_indices A) = true |- _ =>
      rewrite forallb_forall in Hm; now apply Hm end.
Qed.

Lemma bsr_wfb_wf (A : bsr_matrix) : bsr_wfb A = true -> bsr_wf A.
Proof.
  unfold bsr_wfb. cbv zeta. intros H.
  repeat (apply andb_true_iff in H as [H ?]).
  constructor.
  - now apply Nat.ltb_lt.
  - now apply Nat.ltb_lt.
  - now apply Nat.eqb_eq.
  - now apply Nat.eqb_eq.
  - now apply Nat.eqb_eq.
  - now apply Nat.eqb_eq.
  - intros i Hi. apply Nat.leb_le.
    match goal with Hm : forallb _ (seq 0 _) = true |- _ =>
      rewrite forallb_forall in Hm; apply Hm end.
    apply in_seq. lia.
  - now apply Nat.eqb_eq.
  - now apply Nat.eqb_eq.
  - apply Forall_forall. intros j Hj. apply Nat.ltb_lt.
    match goal with Hm : forallb _ (bsr_indices A) = true |- _ =>
      rewrite forallb_forall in Hm; now apply Hm end.
  - apply Forall_forall. intros blk Hblk.
    match goal with Hm : forallb _ (bsr_data A) = true |- _ =>
      rewrite forallb_forall in Hm; specialize (Hm blk Hblk);
      apply andb_true_iff in Hm as [Hrows Hrect] end.
    split; [now apply Nat.eqb_eq|now apply rectb_rect].
Qed.

Lemma svd_1x1_shapes (M : dmatrix) : svd_shapes 1 (svd_1x1 M).
Proof.
  unfold svd_shapes, svd_1x1. repeat split; try (repeat constructor).
  apply Qcabs_nonneg.
Qed.

(** ** Equality of computed rationals *)

Lemma values_eq (l l' : list Qc) : map this l = map this l' -> l = l'.
Proof.
  revert l'. induction l as [|x l IH]; intros [|y l'] H; simpl in H; try discriminate.
  - reflexivity.
  - injection H as Hx Hl. f_equal; [now apply Qc_decomp|now apply IH].
Qed.

Lemma dvalues_eq (X Y : dmatrix) : dvalues X = dvalues Y -> X = Y.
Proof.
  unfold dvalues. revert Y. induction X as [|r X IH]; intros [|s Y] H; simpl in H;
    try discriminate.
  - reflexivity.
  - injection H as Hr HX. f_equal; [now apply values_eq|now apply IH].
Qed.

Lemma result_dvalues_eq (r : result dmatrix) (X : dmatrix) :
  match r with Ok Y => dvalues Y = dvalues X | Raise _ => False end -> r = Ok X.
Proof.
  destruct r as [Y|e]; [|contradiction]. intros H. f_equal. now apply dvalues_eq.
Qed.

(** ** The truncation rule of the local Gram inverses *)



(** ** The constraint projector: what it returns *)


Lemma map_fst_combine_firstn {A C : Type} (l : list A) (r : list C) :
  map fst (combine l r) = firstn (length r) l.
Proof.
  revert r. induction l as [|x l IH]; intros [|y r]; simpl; auto.
  now rewrite IH.
Qed.

Lemma length_slice_same {A C : Type} (l : list A) (l' : list C) (a b : nat) :
  length l = length l' -> length (slice l a b) = length (slice l' a b).
Proof.
  intros H. unfold slice. rewrite !length_firstn, !length_skipn. lia.
Qed.

(** Two matrices with the same structure store the same positions. *)
Lemma csr_pattern_subset_same (U V : csr_matrix) :
  csr_indptr U = csr_indptr V -> csr_indices U = csr_indices V ->
  length (csr_data U) = length (csr_data V) -> csr_pattern_subset U V.
Proof.
  intros Hp Hi Hd i j. unfold csr_stored, csr_row. rewrite Hp, Hi. cbv zeta.
  rewrite !map_fst_combine_firstn.
  now rewrite (length_slice_same (csr_data U) (csr_data V)).
Qed.

Lemma bsr_pattern_subset_same (U V : bsr_matrix) :
  bsr_blocksize U = bsr_blocksize V ->
  bsr_indptr U = bsr_indptr V -> bsr_indices U = bsr_indices V ->
  length (bsr_data U) = length (bsr_data V) -> bsr_pattern_subset U V.
Proof.
  intros Hb Hp Hi Hd i j. unfold bsr_stored, bsr_row, bsr_node.
  rewrite Hb, Hp, Hi. cbv zeta.
  rewrite !map_fst_block_entries, !map_fst_combine_firstn.
  now rewrite (length_slice_same (bsr_data U) (bsr_data V)).
Qed.



(** ** Applying the projector twice *)

Lemma sum_upto_scale_l (n : nat) (c : Qc) (f : nat -> Qc) :
  sum_upto n (fun i => c * f i)%Qc = (c * sum_upto n f)%Qc.
Proof. apply qsum_map_scale_l. Qed.

Lemma sum_upto_scale_r (n : nat) (c : Qc) (f : nat -> Qc) :
  sum_upto n (fun i => f i * c)%Qc = (sum_upto n f * c)%Qc.
Proof. apply qsum_map_scale_r. Qed.

Lemma sum_upto_minus (n : nat) (f g : nat -> Qc) :
  sum_upto n (fun i => f i - g i)%Qc = (sum_upto n f - sum_upto n g)%Qc.
Proof. apply qsum_map_minus. Qed.

Lemma reflexive_inverse_entries (k : nat) (B G : dmatrix) (colindx : list nat) :
  0 < k -> rect k B -> colindx <> [] -> rect k G -> drows G = k ->
  reflexive_inverse B colindx G ->
  exists M, local_gram B colindx = Ok M /\
    forall a d, a < k -> d < k ->
      dget G a d
      = sum_upto k (fun c => sum_upto k (fun b => dget G a b * dget M b c) * dget G c d)%Qc.
Proof.
  intros Hk HB Hne HG HGk (M & GM & EM & E1 & E2).
  destruct (local_gram_entries k B colindx M Hk HB Hne EM) as (HMk & HMr & _).
  exists M. split; [exact EM|]. intros a d Ha Hd.
  apply dmul_inv in E1 as [_ E1]. apply dmul_inv in E2 as [_ E2].
  assert (HGc : dcols G = k) by (apply dcols_rect; [exact HG|lia]).
  assert (HMc : dcols M = k) by (apply dcols_rect; [exact HMr|lia]).
  rewrite HGk, HMk, HMc in E1.
  assert (HGMr : drows GM = k) by (rewrite E1; apply drows_dmake).
  rewrite HGMr, HGc, HGk in E2.
  rewrite E2 at 1. rewrite dget_dmake by assumption.
  apply sum_upto_ext. intros c Hc. f_equal.
  rewrite E1. now rewrite dget_dmake.
Qed.

(** When [G*M*G = G], the update computed from [ub - M*(G*ub)] is zero. *)
Lemma second_update_zero (k : nat) (B G M : dmatrix) (ub ub1 : list Qc)
    (colindx : list nat) :
  length ub1 = k ->
  (forall t, t < k ->
     nth t ub1 0%Qc
     = (nth t ub 0 - sum_upto k (fun a =>
          dget M t a * sum_upto k (fun b => dget G a b * nth b ub 0)))%Qc) ->
  (forall a d, a < k -> d < k ->
     dget G a d
     = sum_upto k (fun c => sum_upto k (fun b => dget G a b * dget M b c) * dget G c d)%Qc) ->
  local_update B G ub1 colindx = map (fun _ => 0%Qc) colindx.
Proof.
  intros Hlen Hub1 Hrefl. unfold local_update. rewrite Hlen.
  apply map_ext. intros c.
  apply sum_upto_zero. intros a Ha.
  assert (E : sum_upto k (fun b => dget G a b * nth b ub1 0)%Qc = 0%Qc).
  { rewrite (sum_upto_ext k _
      (fun b => dget G a b * nth b ub 0
                - dget G a b * sum_upto k (fun c0 =>
                    dget M b c0 * sum_upto k (fun d => dget G c0 d * nth d ub 0)))%Qc).
    2:{ intros b Hb. rewrite Hub1 by exact Hb. ring. }
    rewrite sum_upto_minus.
    (* the first sum, with [G = G*M*G] *)
    rewrite (sum_upto_ext k (fun b => dget G a b * nth b ub 0)%Qc
      (fun d => sum_upto k (fun c0 => sum_upto k (fun b =>
                  dget G a b * dget M b c0 * dget G c0 d * nth d ub 0)))%Qc).
    2:{ intros d Hd. rewrite (Hrefl a d Ha Hd).
        rewrite <- sum_upto_scale_r. apply sum_upto_ext. intros c0 _.
        rewrite <- !sum_upto_scale_r. apply sum_upto_ext. intros b _. ring. }
    (* the second sum, expanded *)
    rewrite (sum_upto_ext k
      (fun b => dget G a b * sum_upto k (fun c0 =>
                  dget M b c0 * sum_upto k (fun d => dget G c0 d * nth d ub 0)))%Qc
      (fun b => sum_upto k (fun c0 => sum_upto k (fun d =>
                  dget G a b * dget M b c0 * dget G c0 d * nth d ub 0)))%Qc).
    2:{ intros b _. rewrite <- sum_upto_scale_l. apply sum_upto_ext. intros c0 _.
        rewrite <- !sum_upto_scale_l. apply sum_upto_ext. intros d _. ring. }
    (* both are the same triple sum *)
    rewrite (sum_upto_ext k
      (fun b => sum_upto k (fun c0 => sum_upto k (fun d =>
                  dget G a b * dget M b c0 * dget G c0 d * nth d ub 0)))%Qc
      (fun b => sum_upto k (fun d => sum_upto k (fun c0 =>
                  dget G a b * dget M b c0 * dget G c0 d * nth d ub 0)))%Qc)
      by (intros b _; apply sum_upto_swap).
    rewrite (sum_upto_swap k k
      (fun b d => sum_upto k (fun c0 =>
                  dget G a b * dget M b c0 * dget G c0 d * nth d ub 0))%Qc).
    rewrite (sum_upto_ext k
      (fun d => sum_upto k (fun b => sum_upto k (fun c0 =>
                  dget G a b * dget M b c0 * dget G c0 d * nth d ub 0)))%Qc
      (fun d => sum_upto k (fun c0 => sum_upto k (fun b =>
                  dget G a b * dget M b c0 * dget G c0 d * nth d ub 0)))%Qc)
      by (intros d _; apply sum_upto_swap).
    ring. }
  rewrite E. ring.
Qed.

Lemma entries_get_zero_values (cols : list nat) (j : nat) :
  entries_get (combine cols (map (fun _ => 0%Qc) cols)) j = 0%Qc.
Proof.
  induction cols as [|c cols IH]; [reflexivity|].
  simpl. rewrite entries_get_cons, IH. destruct (c =? j); ring.
Qed.

Lemma csr_wf_same_structure (A A' : csr_matrix) :
  csr_wf A -> csr_shape A' = csr_shape A -> csr_indptr A' = csr_indptr A ->
  csr_indices A' = csr_indices A -> length (csr_data A') = length (csr_data A) ->
  csr_wf A'.
Proof.
  intros W Hs Hp Hi Hd. constructor; rewrite ?Hs, ?Hp, ?Hi, ?Hd; apply W.
Qed.

Lemma csr_colindx_same_structure (A A' : csr_matrix) (i : nat) :
  csr_indptr A' = csr_indptr A -> csr_indices A' = csr_indices A ->
  csr_colindx A' i = csr_colindx A i.
Proof. intros Hp Hi. unfold csr_colindx. now rewrite Hp, Hi. Qed.

Section IdempotentCSR.
Variables (U SP : csr_matrix) (B : dmatrix) (BtBinv : list dmatrix) (k : nat).
Hypothesis W : csr_wf SP.
Hypothesis Hshape : csr_shape U = csr_shape SP.
Hypothesis Hk : 0 < k.
Hypothesis HB : rect k B.
Hypothesis HBrows : drows B = snd (csr_shape SP).
Hypothesis HBpos : 0 < drows B.
Hypothesis HGlen : fst (csr_shape SP) <= length BtBinv.
Hypothesis HG : forall i, i < fst (csr_shape SP) ->
  rect k (nth i BtBinv []) /\ drows (nth i BtBinv []) = k.
Hypothesis Hrefl : forall i, i < fst (csr_shape SP) -> csr_colindx SP i <> [] ->
  reflexive_inverse B (csr_colindx SP i) (nth i BtBinv []).

Let n := fst (csr_shape SP).
Let m := snd (csr_shape SP).
Let UB := dmake n k (fun i t => sum_upto m (fun j => csr_get U i j * dget B j t)%Qc).
Let U1 := projected_CSR U SP B BtBinv UB.
Let UB1 := dmake n k (fun i t => sum_upto m (fun j => csr_get U1 i j * dget B j t)%Qc).

(** The product of the projected operator with [B], row by row. *)
Lemma projected_CSR_row_times_B (i t : nat) (M : dmatrix) :
  i < n -> t < k -> csr_colindx SP i <> [] ->
  local_gram B (csr_colindx SP i) = Ok M ->
  dget UB1 i t
  = (dget UB i t
     - sum_upto k (fun a => dget M t a
                            * sum_upto k (fun b => dget (nth i BtBinv []) a b * dget UB i b)))%Qc.
Proof.
  intros Hi Ht Hne EM. unfold UB1. rewrite dget_dmake by assumption.
  rewrite (sum_upto_ext m _
    (fun j => csr_get U i j * dget B j t
              - entries_get (combine (csr_colindx SP i) (row_update SP B BtBinv UB i)) j
                * dget B j t)%Qc).
  2:{ intros j Hj. unfold U1, projected_CSR. rewrite csr_get_of_fun, Hshape.
      fold n m. destruct (Nat.ltb_spec i n); [|lia]. destruct (Nat.ltb_spec j m); [|lia].
      simpl. ring. }
  rewrite sum_upto_minus.
  assert (EUB : dget UB i t = sum_upto m (fun j => csr_get U i j * dget B j t)%Qc).
  { unfold UB. now rewrite dget_dmake. }
  rewrite EUB. f_equal.
  rewrite entries_get_sum.
  2:{ apply Forall_forall. intros [c v] Hin. apply in_combine_l in Hin. simpl.
      pose proof (csr_colindx_lt SP i W) as H. rewrite Forall_forall in H.
      now apply H. }
  assert (Hub : length (nth i UB []) = k).
  { pose proof (rect_dmake n k
      (fun i t => sum_upto m (fun j => csr_get U i j * dget B j t)%Qc)) as HR.
    unfold rect in HR. rewrite Forall_forall in HR. apply HR. apply nth_In.
    fold UB. change (length UB) with (drows UB). unfold UB. now rewrite drows_dmake. }
  unfold row_update.
  now rewrite (local_update_times_B_gram k B (nth i BtBinv []) M).
Qed.

(** A second application computes no update. *)
Lemma second_row_update_zero (i : nat) :
  i < n ->
  row_update SP B BtBinv UB1 i = map (fun _ => 0%Qc) (csr_colindx SP i).
Proof.
  intros Hi. unfold row_update.
  destruct (csr_colindx SP i) as [|c0 cs] eqn:Ecol; [reflexivity|].
  rewrite <- Ecol.
  assert (Hne : csr_colindx SP i <> []) by (rewrite Ecol; discriminate).
  destruct (HG i Hi) as [HGr HGk].
  destruct (reflexive_inverse_entries k B (nth i BtBinv []) (csr_colindx SP i)
              Hk HB Hne HGr HGk (Hrefl i Hi Hne)) as (M & EM & HM).
  apply (second_update_zero k B (nth i BtBinv []) M (nth i UB [])).
  - pose proof (rect_dmake n k
      (fun i t => sum_upto m (fun j => csr_get U1 i j * dget B j t)%Qc)) as HR.
    unfold rect in HR. rewrite Forall_forall in HR. apply HR. apply nth_In.
    fold UB1. change (length UB1) with (drows UB1). unfold UB1. now rewrite drows_dmake.
  - intros t Ht. exact (projected_CSR_row_times_B i t M Hi Ht Hne EM).
  - exact HM.
Qed.

(** Applied to its own result, with the pattern it left, the projector
    returns the same operator and leaves the same pattern. *)
Lemma Satisfy_Constraints_CSR_twice :
  exists U' SP',
    Satisfy_Constraints_CSR U SP B BtBinv = Ok (U', SP') /\
    Satisfy_Constraints_CSR U' SP' B BtBinv = Ok (U', SP').
Proof.
  destruct (Satisfy_Constraints_CSR_returns U SP B BtBinv k
              W Hshape Hk HB HBrows HBpos HGlen HG) as (Sc & Hinv & E).
  fold n m UB in Hinv, E. fold U1 in E.
  set (SP1 := csr_set_data Sc (repeat 1%Qc (length (csr_data SP)))) in *.
  exists U1, SP1. split; [exact E|].
  destruct Hinv as (Hsh & Hptr & Hidx & Hlen & _).
  assert (W1 : csr_wf SP1).
  { apply (csr_wf_same_structure SP); auto. unfold SP1. simpl. apply repeat_length. }
  assert (Hsh1 : csr_shape SP1 = csr_shape SP) by exact Hsh.
  assert (HshU1 : csr_shape U1 = csr_shape SP1).
  { unfold U1, projected_CSR. rewrite csr_shape_of_fun. congruence. }
  destruct (Satisfy_Constraints_CSR_returns U1 SP1 B BtBinv k W1 HshU1 Hk HB) as (Sc2 & Hinv2 & E2).
  { now rewrite Hsh1. }
  { exact HBpos. }
  { now rewrite Hsh1. }
  { intros i Hi. apply HG. now rewrite <- Hsh1. }
  rewrite E2. f_equal. f_equal.
  - (* the operator *)
    rewrite Hsh1. fold n m. fold UB1.
    unfold projected_CSR at 1. rewrite HshU1, Hsh1.
    transitivity (csr_of_fun (csr_shape SP) (fun i j => csr_get U1 i j)).
    + apply csr_of_fun_ext. intros i j Hi Hj.
      rewrite (csr_colindx_same_structure SP SP1) by assumption.
      assert (Hup : row_update SP1 B BtBinv UB1 i = row_update SP B BtBinv UB1 i).
      { unfold row_update. now rewrite (csr_colindx_same_structure SP SP1). }
      rewrite Hup, (second_row_update_zero i Hi), entries_get_zero_values. ring.
    + unfold U1 at 2. unfold projected_CSR. rewrite Hshape.
      apply csr_of_fun_ext. intros i j Hi Hj.
      unfold U1, projected_CSR. rewrite csr_get_of_fun, Hshape.
      destruct (Nat.ltb_spec i (fst (csr_shape SP))); [|lia].
      destruct (Nat.ltb_spec j (snd (csr_shape SP))); [|lia]. reflexivity.
  - (* the pattern *)
    destruct Hinv2 as (Hsh2 & Hptr2 & Hidx2 & Hlen2 & _).
    unfold SP1 at 2. unfold csr_set_data. simpl.
    rewrite Hsh2, Hptr2, Hidx2. unfold SP1. simpl. rewrite repeat_length.
    reflexivity.
Qed.

End IdempotentCSR.

Lemma indptr_cover (indptr : list nat) (N p : nat) :
  nth 0 indptr 0 <= p -> p < nth N indptr 0 ->
  exists I, I < N /\ nth I indptr 0 <= p < nth (S I) indptr 0.
Proof.
  intros H0. induction N as [|N IH]; intros HN; [lia|].
  destruct (Nat.lt_ge_cases p (nth N indptr 0)) as [L|L].
  - destruct (IH L) as (I & HI & H). exists I. split; [lia|exact H].
  - exists N. split; [lia|]. lia.
Qed.

Lemma ones_blocks (R C : nat) (data : list dmatrix) :
  Forall (fun blk => drows blk = R /\ rect C blk) data ->
  map (fun blk => map (fun row => map (fun _ => 1%Qc) row) blk) data
  = repeat (repeat (repeat 1%Qc C) R) (length data).
Proof.
  intros H. induction data as [|blk data IH]; [reflexivity|].
  apply Forall_cons_iff in H as [[Hr Hc] Hd]. simpl. rewrite IH by exact Hd. f_equal.
  rewrite <- Hr. unfold drows. clear Hr IH.
  induction blk as [|row blk IHb]; [reflexivity|].
  apply Forall_cons_iff in Hc as [Hrow Hblk]. simpl. rewrite IHb by exact Hblk. f_equal.
  now rewrite map_const_repeat, Hrow.
Qed.

Lemma ones_blocks_shape (R C n : nat) :
  Forall (fun blk => drows blk = R /\ rect C blk) (repeat (repeat (repeat 1%Qc C) R) n).
Proof.
  apply Forall_forall. intros blk Hblk. apply repeat_spec in Hblk. subst blk. split.
  - unfold drows. apply repeat_length.
  - unfold rect. apply Forall_forall. intros row Hrow. apply repeat_spec in Hrow.
    subst row. apply repeat_length.
Qed.

(** The blocks of the scratch pattern keep the block size. *)
Lemma scratch_blocks_shape (SP : bsr_matrix) (B : dmatrix) (BtBinv : list dmatrix)
    (UB : dmatrix) (st : bsr_matrix * nat) :
  bsr_wf SP ->
  bscratch_inv SP B BtBinv UB (fst (bsr_shape SP) / fst (bsr_blocksize SP)) st ->
  Forall (fun blk => drows blk = fst (bsr_blocksize SP) /\ rect (snd (bsr_blocksize SP)) blk)
         (bsr_data (fst st)).
Proof.
  intros W (_ & Hsh & Hb & Hptr & Hidx & Hlen & Hdone & _).
  apply Forall_forall. intros blk Hblk.
  apply (In_nth _ _ []) in Hblk as (p & Hp & <-).
  destruct (indptr_cover (bsr_indptr SP) (fst (bsr_shape SP) / fst (bsr_blocksize SP)) p)
    as (I & HI & Hlo & Hhi).
  - rewrite (bwf_indptr_0 SP W). lia.
  - rewrite (bwf_indptr_last SP W), <- (bwf_data_len SP W), <- Hlen. exact Hp.
  - pose proof (bsr_indptr_le_nnz SP (S I) W ltac:(lia)) as Hend.
    pose proof (bwf_data_len SP W) as Hd.
    replace p with (nth I (bsr_indptr SP) 0 + (p - nth I (bsr_indptr SP) 0)) by lia.
    rewrite <- (nth_slice ([] : dmatrix) (bsr_data (fst st)) _ (nth (S I) (bsr_indptr SP) 0))
      by lia.
    rewrite (Hdone I) by lia. unfold node_update. cbv zeta.
    rewrite (nth_map_in 0 ([] : dmatrix)).
    + split; [apply drows_dmake|apply rect_dmake].
    + rewrite length_seq, (length_bsr_colindx SP I W HI). lia.
Qed.

Lemma bsr_wf_same_structure (A A' : bsr_matrix) :
  bsr_wf A -> bsr_shape A' = bsr_shape A -> bsr_blocksize A' = bsr_blocksize A ->
  bsr_indptr A' = bsr_indptr A -> bsr_indices A' = bsr_indices A ->
  length (bsr_data A') = length (bsr_data A) ->
  Forall (fun blk => drows blk = fst (bsr_blocksize A) /\ rect (snd (bsr_blocksize A)) blk)
         (bsr_data A') ->
  bsr_wf A'.
Proof.
  intros W Hs Hb Hp Hi Hd Hblk.
  constructor; rewrite ?Hs, ?Hb, ?Hp, ?Hi, ?Hd; try apply W. exact Hblk.
Qed.

Lemma node_colindx_same_structure (A A' : bsr_matrix) (I : nat) :
  bsr_blocksize A' = bsr_blocksize A ->
  bsr_indptr A' = bsr_indptr A -> bsr_indices A' = bsr_indices A ->
  node_colindx A' I = node_colindx A I.
Proof. intros Hb Hp Hi. unfold node_colindx, bsr_colindx. now rewrite Hb, Hp, Hi. Qed.

Section IdempotentBSR.
Variables (U SP : bsr_matrix) (B : dmatrix) (BtBinv : list dmatrix) (k R C : nat).
Hypothesis W : bsr_wf SP.
Hypothesis Hshape : bsr_shape U = bsr_shape SP.
Hypothesis Hbsz : bsr_blocksize U = bsr_blocksize SP.
Hypothesis Hbs : bsr_blocksize SP = (R, C).
Hypothesis Hk : 0 < k.
Hypothesis HB : rect k B.
Hypothesis HBrows : drows B = snd (bsr_shape SP).
Hypothesis HBpos : 0 < drows B.
Hypothesis HGlen : fst (bsr_shape SP) / R <= length BtBinv.
Hypothesis HG : forall I, I < fst (bsr_shape SP) / R ->
  rect k (nth I BtBinv []) /\ drows (nth I BtBinv []) = k.
Hypothesis Hrefl : forall I, I < fst (bsr_shape SP) / R -> node_colindx SP I <> [] ->
  reflexive_inverse B (node_colindx SP I) (nth I BtBinv []).

Let n := fst (bsr_shape SP).
Let m := snd (bsr_shape SP).
Let UB := dmake n k (fun i t => sum_upto m (fun j => bsr_get U i j * dget B j t)%Qc).
Let U1 := projected_BSR U SP B BtBinv UB.
Let UB1 := dmake n k (fun i t => sum_upto m (fun j => bsr_get U1 i j * dget B j t)%Qc).

Lemma node_of_row (i : nat) : i < n -> i / R < n / R /\ i / R * R + i mod R = i.
Proof.
  intros Hi. destruct (block_sizes_pos SP R C W Hbs) as [HR HC].
  pose proof (bwf_rows SP W) as Hn. rewrite Hbs in Hn. simpl in Hn. fold n in Hn.
  split.
  - apply Nat.Div0.div_lt_upper_bound. pose proof (Nat.div_mod n R ltac:(lia)). lia.
  - pose proof (Nat.div_mod i R ltac:(lia)). lia.
Qed.

Lemma length_UB_row (X : bsr_matrix) (i : nat) :
  i < n ->
  length (nth i (dmake n k (fun i t =>
            sum_upto m (fun j => bsr_get X i j * dget B j t)%Qc)) []) = k.
Proof.
  intros Hi.
  pose proof (rect_dmake n k
    (fun i t => sum_upto m (fun j => bsr_get X i j * dget B j t)%Qc)) as HR.
  unfold rect in HR. rewrite Forall_forall in HR. apply HR. apply nth_In.
  match goal with |- _ < length ?X => change (length X) with (drows X) end.
  now rewrite drows_dmake.
Qed.

(** The product of the projected operator with [B], row by row. *)
Lemma projected_BSR_row_times_B (i t : nat) (M : dmatrix) :
  i < n -> t < k -> node_colindx SP (i / R) <> [] ->
  local_gram B (node_colindx SP (i / R)) = Ok M ->
  dget UB1 i t
  = (dget UB i t
     - sum_upto k (fun a =>
         dget M t a
         * sum_upto k (fun b => dget (nth (i / R) BtBinv []) a b * dget UB i b)))%Qc.
Proof.
  intros Hi Ht Hne EM. destruct (node_of_row i Hi) as [HI Ei].
  unfold UB1. rewrite dget_dmake by assumption.
  rewrite (sum_upto_ext m _
    (fun j => bsr_get U i j * dget B j t
              - entries_get (combine (node_colindx SP (i / R))
                               (node_row_update SP B BtBinv UB (i / R) (i mod R))) j
                * dget B j t)%Qc).
  2:{ intros j Hj. unfold U1, projected_BSR. rewrite bsr_get_of_fun_wf.
      - rewrite Hshape. fold n m.
        destruct (Nat.ltb_spec i n); [|lia]. destruct (Nat.ltb_spec j m); [|lia].
        simpl. rewrite Hbs. simpl fst. ring.
      - rewrite Hbsz. apply (bwf_R_pos SP W).
      - rewrite Hbsz. apply (bwf_C_pos SP W).
      - rewrite Hbsz, Hshape. apply (bwf_rows SP W).
      - rewrite Hbsz, Hshape. apply (bwf_cols SP W). }
  rewrite sum_upto_minus.
  assert (EUB : dget UB i t = sum_upto m (fun j => bsr_get U i j * dget B j t)%Qc).
  { unfold UB. now rewrite dget_dmake. }
  rewrite EUB. f_equal.
  rewrite entries_get_sum.
  2:{ apply Forall_forall. intros [c v] Hin. apply in_combine_l in Hin. simpl.
      pose proof (node_colindx_lt SP (i / R) W) as H. rewrite Forall_forall in H.
      now apply H. }
  unfold node_row_update. rewrite Hbs. simpl fst. rewrite Ei.
  rewrite (local_update_times_B_gram k B (nth (i / R) BtBinv []) M); auto.
  apply (length_UB_row U i Hi).
Qed.

(** A second application computes no update. *)
Lemma second_node_row_update_zero (i : nat) :
  i < n ->
  node_row_update SP B BtBinv UB1 (i / R) (i mod R)
  = map (fun _ => 0%Qc) (node_colindx SP (i / R)).
Proof.
  intros Hi. destruct (node_of_row i Hi) as [HI Ei].
  unfold node_row_update. rewrite Hbs. simpl fst. rewrite Ei.
  destruct (node_colindx SP (i / R)) as [|c0 cs] eqn:Ecol; [reflexivity|].
  rewrite <- Ecol.
  assert (Hne : node_colindx SP (i / R) <> []) by (rewrite Ecol; discriminate).
  destruct (HG (i / R) HI) as [HGr HGk].
  destruct (reflexive_inverse_entries k B (nth (i / R) BtBinv []) (node_colindx SP (i / R))
              Hk HB Hne HGr HGk (Hrefl (i / R) HI Hne)) as (M & EM & HM).
  apply (second_update_zero k B (nth (i / R) BtBinv []) M (nth i UB [])).
  - apply (length_UB_row U1 i Hi).
  - intros t Ht. exact (projected_BSR_row_times_B i t M Hi Ht Hne EM).
  - exact HM.
Qed.

(** Applied to its own result, with the pattern it left, the projector
    returns the same operator and leaves the same pattern. *)
Lemma Satisfy_Constraints_BSR_twice :
  exists U' SP',
    Satisfy_Constraints_BSR U SP B BtBinv (BSR_Get_Colindices SP) = Ok (U', SP') /\
    Satisfy_Constraints_BSR U' SP' B BtBinv (BSR_Get_Colindices SP') = Ok (U', SP').
Proof.
  destruct (Satisfy_Constraints_BSR_returns U SP B BtBinv k R C
              W Hshape Hbsz Hbs Hk HB HBrows HBpos HGlen HG) as (st & Hinv & E).
  fold n m UB in Hinv, E. fold U1 in E.
  set (SP1 := bsr_set_data (fst st)
                (map (fun blk => map (fun row => map (fun _ => 1%Qc) row) blk)
                     (bsr_data (fst st)))) in *.
  exists U1, SP1. split; [exact E|].
  assert (Hinv' : bscratch_inv SP B BtBinv UB
                    (fst (bsr_shape SP) / fst (bsr_blocksize SP)) st).
  { rewrite Hbs. exact Hinv. }
  pose proof (scratch_blocks_shape SP B BtBinv UB st W Hinv') as Hblk.
  destruct Hinv as (_ & Hsh & Hb & Hptr & Hidx & Hlen & _).
  assert (Hdata1 : bsr_data SP1
                   = repeat (repeat (repeat 1%Qc C) R) (length (bsr_data SP))).
  { unfold SP1. simpl. rewrite Hbs in Hblk. simpl in Hblk.
    rewrite (ones_blocks R C) by exact Hblk. now rewrite Hlen. }
  assert (W1 : bsr_wf SP1).
  { apply (bsr_wf_same_structure SP); auto.
    - rewrite Hdata1. apply repeat_length.
    - rewrite Hdata1, Hbs. apply ones_blocks_shape. }
  assert (Hsh1 : bsr_shape SP1 = bsr_shape SP) by exact Hsh.
  assert (Hb1 : bsr_blocksize SP1 = bsr_blocksize SP) by exact Hb.
  assert (HshU1 : bsr_shape U1 = bsr_shape SP1).
  { unfold U1, projected_BSR. simpl. congruence. }
  assert (HbU1 : bsr_blocksize U1 = bsr_blocksize SP1).
  { unfold U1, projected_BSR. simpl. congruence. }
  assert (Hbs1 : bsr_blocksize SP1 = (R, C)) by congruence.
  assert (Hcols1 : BSR_Get_Colindices SP1 = BSR_Get_Colindices SP).
  { unfold BSR_Get_Colindices, SP1. simpl. now rewrite Hb, Hsh, Hptr, Hidx. }
  destruct (Satisfy_Constraints_BSR_returns U1 SP1 B BtBinv k R C
              W1 HshU1 HbU1 Hbs1 Hk HB) as (st2 & Hinv2 & E2).
  { now rewrite Hsh1. }
  { exact HBpos. }
  { now rewrite Hsh1. }
  { intros I HI. apply HG. now rewrite <- Hsh1. }
  rewrite E2. f_equal. f_equal.
  - (* the operator *)
    rewrite Hsh1. fold n m. fold UB1.
    unfold projected_BSR at 1. rewrite HshU1, Hsh1, HbU1, Hb1.
    transitivity (bsr_of_fun (bsr_shape SP) (bsr_blocksize SP) (fun i j => bsr_get U1 i j)).
    + apply bsr_of_fun_ext; try apply W. intros i j Hi Hj. rewrite Hbs. simpl fst.
      rewrite (node_colindx_same_structure SP SP1) by assumption.
      assert (Hup : node_row_update SP1 B BtBinv UB1 (i / R) (i mod R)
                    = node_row_update SP B BtBinv UB1 (i / R) (i mod R)).
      { unfold node_row_update.
        now rewrite (node_colindx_same_structure SP SP1), Hb1 by assumption. }
      rewrite Hup, (second_node_row_update_zero i Hi), entries_get_zero_values. ring.
    + unfold U1 at 2. unfold projected_BSR. rewrite Hshape, Hbsz.
      apply bsr_of_fun_ext; try apply W. intros i j Hi Hj.
      unfold U1, projected_BSR. rewrite bsr_get_of_fun_wf.
      * rewrite Hshape.
        destruct (Nat.ltb_spec i (fst (bsr_shape SP))); [|lia].
        destruct (Nat.ltb_spec j (snd (bsr_shape SP))); [|lia]. reflexivity.
      * rewrite Hbsz. apply W.
      * rewrite Hbsz. apply W.
      * rewrite Hbsz, Hshape. apply W.
      * rewrite Hbsz, Hshape. apply W.
  - (* the pattern *)
    assert (Hinv2' : bscratch_inv SP1 B BtBinv
                       (dmake (fst (bsr_shape SP1)) k (fun i t =>
                          sum_upto (snd (bsr_shape SP1))
                            (fun j => bsr_get U1 i j * dget B j t)%Qc))
                       (fst (bsr_shape SP1) / fst (bsr_blocksize SP1)) st2).
    { rewrite Hbs1. exact Hinv2. }
    pose proof (scratch_blocks_shape SP1 B BtBinv _ st2 W1 Hinv2') as Hblk2.
    destruct Hinv2 as (_ & Hsh2 & Hbz2 & Hptr2 & Hidx2 & Hlen2 & _).
    rewrite Hbs1 in Hblk2. simpl in Hblk2.
    unfold bsr_set_data at 1. rewrite Hsh2, Hbz2, Hptr2, Hidx2.
    rewrite (ones_blocks R C) by exact Hblk2. rewrite Hlen2, Hdata1, repeat_length.
    unfold SP1 at 5. unfold bsr_set_data. simpl. f_equal.
    rewrite Hbs in Hblk. simpl in Hblk.
    rewrite (ones_blocks R C) by exact Hblk. now rewrite Hlen.
Qed.

End IdempotentBSR.

(** ** The truncated inverse of an exact decomposition *)

Lemma sum_upto_kronecker (k t : nat) (f : nat -> Qc) :
  t < k -> sum_upto k (fun q => f q * kronecker t q)%Qc = f t.
Proof.
  intros Ht. rewrite (sum_upto_single k t).
  - unfold kronecker. rewrite Nat.eqb_refl. ring.
  - exact Ht.
  - intros i _ Hi. unfold kronecker. destruct (Nat.eqb_spec t i); [congruence|ring].
Qed.

Lemma qsum_kronecker (K : list nat) (p : nat) (f : nat -> Qc) :
  NoDup K -> In p K ->
  qsum (map (fun s => f s * kronecker p s)%Qc K) = f p.
Proof.
  induction K as [|x K IH]; intros Hnd Hin; [contradiction|].
  apply NoDup_cons_iff in Hnd as [Hx Hnd]. simpl.
  destruct (Nat.eq_dec p x) as [->|Hne].
  - unfold kronecker at 1. rewrite Nat.eqb_refl.
    rewrite qsum_map_zero; [ring|].
    intros s Hs. unfold kronecker. destruct (Nat.eqb_spec x s); [congruence|ring].
  - destruct Hin as [E|Hin]; [congruence|].
    rewrite IH by assumption. unfold kronecker.
    destruct (Nat.eqb_spec p x); [congruence|ring].
Qed.

Lemma kept_indices_facts (k : nat) (Sigma : list Qc) :
  NoDup (kept_indices k Sigma) /\
  forall p, In p (kept_indices k Sigma) -> p < k /\ nth p Sigma 0%Qc <> 0%Qc.
Proof.
  unfold kept_indices. split.
  - apply NoDup_filter. apply seq_NoDup.
  - intros p Hp. apply filter_In in Hp as [Hp Hr]. apply in_seq in Hp.
    split; [lia|]. now apply (ratio_above_nonzero _ (nth 0 Sigma 0%Qc)).
Qed.

(** [G*M*G = G] for the truncated inverse [G] of an exact decomposition of [M]. *)
Lemma truncated_inverse_reflexive (k : nat) (M : dmatrix)
    (usv : dmatrix * list Qc * dmatrix) :
  svd_exact k M usv ->
  forall a d, a < k -> d < k ->
    dget (truncated_inverse_spec k usv) a d
    = sum_upto k (fun c =>
        sum_upto k (fun b => dget (truncated_inverse_spec k usv) a b * dget M b c)
        * dget (truncated_inverse_spec k usv) c d)%Qc.
Proof.
  destruct usv as [[U Sigma] VT]. intros (HM & HU & HV) a d Ha Hd.
  unfold truncated_inverse_spec.
  destruct (Qc_ltb (Qcabs (nth 0 Sigma 0%Qc)) abs_threshold).
  - (* nothing is kept *)
    unfold dzeros. rewrite dget_dmake by assumption. symmetry.
    apply sum_upto_zero. intros c Hc. rewrite (dget_dmake k k) by assumption. ring.
  - destruct (kept_indices_facts k Sigma) as [Hnd HK].
    set (K := kept_indices k Sigma) in *.
    set (G := dmake k k (fun a b =>
                qsum (map (fun p => dget VT p a * (1 / nth p Sigma 0) * dget U b p)%Qc K))).
    assert (HGe : forall a b, a < k -> b < k ->
              dget G a b
              = qsum (map (fun p => dget VT p a * (1 / nth p Sigma 0) * dget U b p)%Qc K)).
    { intros a0 b0 Ha0 Hb0. unfold G. now rewrite dget_dmake. }
    (* the product G*M *)
    assert (HGM : forall c, c < k ->
              sum_upto k (fun b => dget G a b * dget M b c)%Qc
              = qsum (map (fun p => dget VT p a * dget VT p c)%Qc K)).
    { intros c Hc.
      rewrite (sum_upto_ext k _
        (fun b => qsum (map (fun p => sum_upto k (fun q =>
            (dget VT p a * (1 / nth p Sigma 0) * nth q Sigma 0 * dget VT q c)
            * (dget U b p * dget U b q))) K))%Qc).
      2:{ intros b Hb. rewrite HGe, HM by assumption.
          rewrite <- qsum_map_scale_r. apply qsum_map_ext. intros p _.
          rewrite <- sum_upto_scale_l. apply sum_upto_ext. intros q _. ring. }
      unfold sum_upto at 1.
      rewrite (qsum_map_swap (fun b p => sum_upto k (fun q =>
            (dget VT p a * (1 / nth p Sigma 0) * nth q Sigma 0 * dget VT q c)
            * (dget U b p * dget U b q)))%Qc (seq 0 k) K).
      apply qsum_map_ext. intros p Hp. destruct (HK p Hp) as [Hpk Hnz].
      change (sum_upto k (fun b => sum_upto k (fun q =>
            (dget VT p a * (1 / nth p Sigma 0) * nth q Sigma 0 * dget VT q c)
            * (dget U b p * dget U b q)))%Qc = (dget VT p a * dget VT p c)%Qc).
      rewrite sum_upto_swap.
      rewrite (sum_upto_ext k _
        (fun q => (dget VT p a * (1 / nth p Sigma 0) * nth q Sigma 0 * dget VT q c)
                  * kronecker p q)%Qc).
      2:{ intros q Hq. rewrite sum_upto_scale_l. now rewrite HU. }
      rewrite sum_upto_kronecker by exact Hpk. field. exact Hnz. }
    rewrite HGe by assumption.
    rewrite (sum_upto_ext k _
      (fun c => qsum (map (fun p => qsum (map (fun s =>
          (dget VT p a * (1 / nth s Sigma 0) * dget U d s)
          * (dget VT p c * dget VT s c)) K)) K))%Qc).
    2:{ intros c Hc. rewrite HGM, HGe by assumption.
        rewrite <- qsum_map_scale_r. apply qsum_map_ext. intros p _.
        rewrite <- qsum_map_scale_l. apply qsum_map_ext. intros s _. ring. }
    unfold sum_upto.
    rewrite (qsum_map_swap (fun c p => qsum (map (fun s =>
          (dget VT p a * (1 / nth s Sigma 0) * dget U d s)
          * (dget VT p c * dget VT s c)) K))%Qc (seq 0 k) K).
    apply qsum_map_ext. intros p Hp. destruct (HK p Hp) as [Hpk _].
    rewrite (qsum_map_swap (fun c s =>
          (dget VT p a * (1 / nth s Sigma 0) * dget U d s)
          * (dget VT p c * dget VT s c))%Qc (seq 0 k) K).
    rewrite (qsum_map_ext _
      (fun s => (dget VT p a * (1 / nth s Sigma 0) * dget U d s) * kronecker p s)%Qc).
    2:{ intros s Hs. destruct (HK s Hs) as [Hsk _].
        change (sum_upto k (fun c =>
                  (dget VT p a * (1 / nth s Sigma 0) * dget U d s)
                  * (dget VT p c * dget VT s c))%Qc
                = (dget VT p a * (1 / nth s Sigma 0) * dget U d s * kronecker p s)%Qc).
        rewrite sum_upto_scale_l. now rewrite HV. }
    now rewrite qsum_kronecker.
Qed.

(** The entry the builder computes from an exact decomposition is a reflexive
    generalised inverse of the local Gram matrix. *)
Lemma table_entry_reflexive (svd : dmatrix -> dmatrix * list Qc * dmatrix) (k : nat)
    (B : dmatrix) (colindx : list nat) (G : dmatrix) :
  0 < k -> rect k B -> colindx <> [] ->
  table_entry_spec svd k B colindx G ->
  (forall M, local_gram B colindx = Ok M -> svd_exact k M (svd M)) ->
  reflexive_inverse B colindx G.
Proof.
  intros Hk HB Hne [_ HG] Hex. destruct (HG Hne) as (M & EM & ->).
  destruct (local_gram_entries k B colindx M Hk HB Hne EM) as (HMk & HMr & _).
  destruct (truncated_inverse_shape k (svd M)) as [HGr HGk].
  set (G := truncated_inverse_spec k (svd M)) in *.
  assert (HGc : dcols G = k) by (apply dcols_rect; [exact HGr|lia]).
  assert (HMc : dcols M = k) by (apply dcols_rect; [exact HMr|lia]).
  exists M. eexists. split; [exact EM|]. split.
  - apply dmul_ok. congruence.
  - rewrite dmul_ok by (rewrite dcols_dmake by (rewrite HGk; lia); congruence).
    f_equal. rewrite drows_dmake, HGk, HMk, HMc, HGc.
    apply (dmatrix_ext k).
    + apply rect_dmake.
    + exact HGr.
    + now rewrite drows_dmake, HGk.
    + intros a d Ha Hd. rewrite drows_dmake in Ha. rewrite dget_dmake by assumption.
      pose proof (truncated_inverse_reflexive k M (svd M) (Hex M EM) a d Ha Hd) as HR.
      fold G in HR. rewrite HR.
      apply sum_upto_ext. intros c Hc. f_equal.
      now rewrite dget_dmake.
Qed.


Lemma result_tables_eq (r : result (list dmatrix)) (X : list dmatrix) :
  match r with Ok t => map dvalues t = map dvalues X | Raise _ => False end -> r = Ok X.
Proof.
  destruct r as [t|e]; [|contradiction]. intros H. f_equal.
  revert X H. induction t as [|Y t IH]; intros [|Z X] H; simpl in H; try discriminate.
  - reflexivity.
  - injection H as HY Ht. f_equal; [now apply dvalues_eq|now apply IH].
Qed.

(** [svd_1x1] is exact on every [1] by [1] matrix. *)
Lemma svd_1x1_exact (M : dmatrix) : svd_exact 1 M (svd_1x1 M).
Proof.
  unfold svd_exact, svd_1x1.
  assert (Hs : forall f : nat -> Qc, sum_upto 1 f = f 0).
  { intros f. unfold sum_upto. cbn [seq map qsum]. ring. }
  assert (Hd : forall x : Qc, dget [[x]] 0 0 = x) by reflexivity.
  assert (Hn : forall x : Qc, nth 0 [x] 0%Qc = x) by reflexivity.
  split; [|split].
  - intros a b Ha Hb. assert (a = 0) as -> by lia. assert (b = 0) as -> by lia.
    rewrite Hs, !Hd, Hn.
    destruct (Qc_ltb (dget M 0 0) 0%Qc) eqn:E.
    + apply Qc_ltb_lt in E. rewrite Qcabs_neg by (now apply Qclt_le_weak). ring.
    + apply Qc_ltb_ge in E. rewrite Qcabs_pos by exact E. ring.
  - intros p q Hp Hq. assert (p = 0) as -> by lia. assert (q = 0) as -> by lia.
    rewrite Hs, !Hd. unfold kronecker. cbn [Nat.eqb]. ring.
  - intros p q Hp Hq. assert (p = 0) as -> by lia. assert (q = 0) as -> by lia.
    rewrite Hs, !Hd. unfold kronecker. cbn [Nat.eqb].
    destruct (Qc_ltb _ _); ring.
Qed.


(** ** The store *)

Lemma length_store {M : Type} (h : heap M) (a : nat) (v : M) :
  length (store h a v) = length h.
Proof.
  unfold store. destruct (Nat.ltb_spec a (length h)); [|reflexivity].
  rewrite length_app, length_firstn. cbn [length]. rewrite length_skipn. lia.
Qed.

Lemma deref_store_same {M : Type} (h : heap M) (a : nat) (v : M) :
  a < length h -> deref (store h a v) a = Ok v.
Proof.
  intros Ha. unfold deref, index, store.
  destruct (Nat.ltb_spec a (length h)); [|lia].
  rewrite nth_error_app2 by (rewrite length_firstn; lia).
  rewrite length_firstn, Nat.min_l by lia. now rewrite Nat.sub_diag.
Qed.

Lemma nth_error_store_other {M : Type} (h : heap M) (a a' : nat) (v : M) :
  a' <> a -> nth_error (store h a v) a' = nth_error h a'.
Proof.
  intros Hne. unfold store. destruct (Nat.ltb_spec a (length h)); [|reflexivity].
  destruct (Nat.lt_ge_cases a' a) as [L|L].
  - rewrite nth_error_app1 by (rewrite length_firstn; lia).
    rewrite nth_error_firstn. destruct (Nat.ltb_spec a' a); [reflexivity|lia].
  - rewrite nth_error_app2 by (rewrite length_firstn; lia).
    rewrite length_firstn, Nat.min_l by lia.
    destruct (a' - a) as [|d] eqn:E; [lia|]. cbn [nth_error].
    rewrite nth_error_skipn. f_equal. lia.
Qed.

Lemma deref_lt {M : Type} (h : heap M) (a : nat) (v : M) :
  deref h a = Ok v -> a < length h.
Proof.
  unfold deref, index. destruct (nth_error h a) eqn:E; [|discriminate].
  intros _. apply nth_error_Some. congruence.
Qed.

Lemma store_same {M : Type} (h : heap M) (a : nat) (v : M) :
  deref h a = Ok v -> store h a v = h.
Proof.
  intros H. pose proof (deref_lt h a v H) as Ha.
  unfold deref, index in H. destruct (nth_error h a) as [x|] eqn:E; [|discriminate].
  injection H as ->. unfold store. destruct (Nat.ltb_spec a (length h)); [|lia].
  apply nth_error_split in E as (l1 & l2 & -> & Hl).
  rewrite firstn_app, Hl, Nat.sub_diag, firstn_all2 by lia. simpl firstn.
  rewrite app_nil_r. f_equal.
  replace (S a) with (length (l1 ++ [v])) by (rewrite length_app; simpl; lia).
  replace (l1 ++ v :: l2) with ((l1 ++ [v]) ++ l2) by (now rewrite <- app_assoc).
  now rewrite skipn_app, skipn_all, Nat.sub_diag.
Qed.

Lemma store_store {M : Type} (h : heap M) (a : nat) (v w : M) :
  store (store h a v) a w = store h a w.
Proof.
  unfold store at 1. rewrite length_store.
  destruct (Nat.ltb_spec a (length h)) as [Ha|Ha].
  - unfold store. destruct (Nat.ltb_spec a (length h)); [|lia].
    rewrite firstn_app, length_firstn, Nat.min_l, Nat.sub_diag by lia.
    rewrite firstn_firstn, Nat.min_id. simpl firstn. rewrite app_nil_r. f_equal. f_equal.
    replace (S a) with (length (firstn a h ++ [v]))
      by (rewrite length_app, length_firstn; simpl; lia).
    replace (firstn a h ++ v :: skipn (length (firstn a h ++ [v])) h)
      with ((firstn a h ++ [v]) ++ skipn (length (firstn a h ++ [v])) h)
      by (now rewrite <- app_assoc).
    rewrite skipn_app, skipn_all, Nat.sub_diag. reflexivity.
  - unfold store. destruct (Nat.ltb_spec a (length h)); [lia|reflexivity].
Qed.

(** ** What the projector leaves of its arguments *)

Lemma assign_slice_length (data : list Qc) (a b : nat) (v : dmatrix) (data' : list Qc) :
  assign_slice data a b v = Ok data' -> length data' = length data.
Proof.
  unfold assign_slice. destruct v as [|row [|row2 v]]; try discriminate.
  assert (Hlen : forall w : list Qc, length w = length (slice data a b) ->
            length (splice data a w) = length data).
  { intros w Hw. unfold splice. rewrite !length_app, length_firstn, length_skipn.
    rewrite Hw. unfold slice. rewrite length_firstn, length_skipn. lia. }
  destruct (Nat.eqb_spec (length row) (length (slice data a b))) as [E|E].
  - intros [= <-]. now apply Hlen.
  - destruct (length row =? 1); [|discriminate].
    intros [= <-]. apply Hlen. apply repeat_length.
Qed.

Lemma Satisfy_Constraints_CSR_row_frame (B : dmatrix) (BtBinv : list dmatrix)
    (UB : dmatrix) (sp sp' : csr_matrix) (i : nat) :
  Satisfy_Constraints_CSR_row B BtBinv UB sp i = Ok sp' -> csr_same_structure sp sp'.
Proof.
  unfold Satisfy_Constraints_CSR_row, csr_same_structure.
  destruct (index (csr_indptr sp) i) as [rowstart|]; simpl bind; [|discriminate].
  destruct (index (csr_indptr sp) (i + 1)) as [rowend|]; simpl bind; [|discriminate].
  destruct (negb (rowend =? rowstart)).
  - destruct (take_rows B _) as [Bi|]; simpl bind; [|discriminate].
    destruct (index UB i) as [UBi|]; simpl bind; [|discriminate].
    destruct (index BtBinv i) as [G|]; simpl bind; [|discriminate].
    destruct (update_local_CSR Bi G UBi) as [upd|]; simpl bind; [|discriminate].
    destruct (assign_slice _ _ _ _) as [data|] eqn:E; simpl bind; [|discriminate].
    intros [= <-]. simpl. repeat split. now apply assign_slice_length in E.
  - intros [= <-]. repeat split.
Qed.

Lemma csr_same_structure_trans (A A' A'' : csr_matrix) :
  csr_same_structure A A' -> csr_same_structure A' A'' -> csr_same_structure A A''.
Proof.
  unfold csr_same_structure. intros (H1 & H2 & H3 & H4) (K1 & K2 & K3 & K4).
  repeat split; congruence.
Qed.

Lemma bsr_same_structure_trans (A A' A'' : bsr_matrix) :
  bsr_same_structure A A' -> bsr_same_structure A' A'' -> bsr_same_structure A A''.
Proof.
  unfold bsr_same_structure. intros (H1 & H2 & H3 & H4 & H5) (K1 & K2 & K3 & K4 & K5).
  repeat split; congruence.
Qed.

Lemma Satisfy_Constraints_CSR_call_frame (h : heap csr_matrix) (U SP : nat)
    (B : dmatrix) (BtBinv : list dmatrix) (U' : csr_matrix) (h' : heap csr_matrix) :
  Satisfy_Constraints_CSR_call h U SP B BtBinv = Ok (U', h') ->
  frame csr_same_structure csr_all_ones h h' SP.
Proof.
  unfold Satisfy_Constraints_CSR_call.
  destruct (deref h U) as [u|]; simpl bind; [|discriminate].
  destruct (csr_times_dense u B) as [UB|]; simpl bind; [|discriminate].
  destruct (for_range _ _ h) as [h1|] eqn:Eloop; simpl bind; [|discriminate].
  destruct (deref h1 U) as [u1|]; simpl bind; [|discriminate].
  destruct (deref h1 SP) as [sp1|] eqn:Esp1; simpl bind; [|discriminate].
  destruct (csr_sub u1 sp1) as [U1|]; simpl bind; [|discriminate].
  intros [= <- <-].
  (* the loop keeps the other objects and the structure of the pattern *)
  assert (Hinv : length h1 = length h /\
                 (forall a, a <> SP -> nth_error h1 a = nth_error h a) /\
                 (forall sp, deref h SP = Ok sp ->
                    exists spc, deref h1 SP = Ok spc /\ csr_same_structure sp spc)).
  { unfold for_range in Eloop.
    refine (for_each_invariant_partial
             (fun _ hc => length hc = length h /\
                (forall a, a <> SP -> nth_error hc a = nth_error h a) /\
                (forall sp, deref h SP = Ok sp ->
                   exists spc, deref hc SP = Ok spc /\ csr_same_structure sp spc))
             _ _ _ _ _ _ _ Eloop).
    - split; [reflexivity|]. split; [reflexivity|].
      intros sp Hsp. exists sp. split; [exact Hsp|]. repeat split.
    - intros i hc hn _ (Hlen & Hoth & Hpat).
      destruct (deref hc SP) as [spc|] eqn:Espc; simpl bind; [|discriminate].
      destruct (Satisfy_Constraints_CSR_row B BtBinv UB spc i) as [spn|] eqn:Erow;
        simpl bind; [|discriminate].
      intros [= <-]. split; [now rewrite length_store|]. split.
      + intros a Ha. rewrite nth_error_store_other by exact Ha. now apply Hoth.
      + intros sp Hsp. destruct (Hpat sp Hsp) as (spc' & E1 & E2).
        try rewrite Espc in E1. injection E1 as E1. subst spc'.
        exists spn. split.
        * apply deref_store_same. now apply (deref_lt hc SP spc).
        * apply (csr_same_structure_trans sp spc spn E2).
          now apply (Satisfy_Constraints_CSR_row_frame B BtBinv UB spc spn i). }
  destruct Hinv as (Hlen & Hoth & Hpat).
  pose proof (deref_lt h1 SP sp1 Esp1) as HSP.
  destruct (nth_error h SP) as [sp|] eqn:Esp.
  2:{ apply nth_error_None in Esp. lia. }
  assert (Hd : deref h SP = Ok sp) by (unfold deref, index; now rewrite Esp).
  destruct (Hpat sp Hd) as (spc & E1 & (Hs1 & Hs2 & Hs3 & Hs4)).
  try rewrite Esp1 in E1. injection E1 as E1. subst spc.
  unfold frame. split; [now rewrite length_store|]. split.
  - intros a Ha. rewrite nth_error_store_other by exact Ha. now apply Hoth.
  - exists sp. eexists. split; [exact Hd|]. split; [now apply deref_store_same|].
    split.
    + unfold csr_same_structure. simpl. rewrite length_map. auto.
    + unfold csr_all_ones. simpl. now rewrite map_const_repeat, repeat_length.
Qed.

Lemma assign_block_rows_length (R C : nat) (data : list dmatrix) (a b j : nat)
    (V : dmatrix) (data' : list dmatrix) :
  assign_block_rows R C data a b j V = Ok data' -> length data' = length data.
Proof.
  unfold assign_block_rows. destruct (negb (j <? R)); [discriminate|].
  destruct (_ && _); [|discriminate].
  intros [= <-]. unfold splice.
  rewrite !length_app, length_firstn, length_skipn, length_map, length_seq.
  unfold slice. rewrite length_firstn, length_skipn. lia.
Qed.

Lemma Satisfy_Constraints_BSR_write_frame (X : dmatrix)
    (rowstart rowend numBlocks R C : nat) (sp sp' : bsr_matrix) (j : nat) :
  Satisfy_Constraints_BSR_write X rowstart rowend numBlocks R C sp j = Ok sp' ->
  bsr_same_structure sp sp'.
Proof.
  unfold Satisfy_Constraints_BSR_write.
  destruct (column_reshape X j numBlocks C) as [V|]; simpl bind; [|discriminate].
  destruct (assign_block_rows _ _ _ _ _ _ _) as [data|] eqn:E; simpl bind; [|discriminate].
  intros [= <-]. unfold bsr_same_structure. simpl. repeat split.
  now apply assign_block_rows_length in E.
Qed.

Lemma bsr_same_structure_refl (A : bsr_matrix) : bsr_same_structure A A.
Proof. repeat split. Qed.

Lemma Satisfy_Constraints_BSR_node_frame (B : dmatrix) (BtBinv : list dmatrix)
    (colindices : list (list nat)) (UB : dmatrix) (R C : nat)
    (sp sp' : bsr_matrix) (ro ro' i : nat) :
  Satisfy_Constraints_BSR_node B BtBinv colindices UB R C (sp, ro) i = Ok (sp', ro') ->
  bsr_same_structure sp sp'.
Proof.
  unfold Satisfy_Constraints_BSR_node.
  destruct (index (bsr_indptr sp) i) as [rowstart|]; simpl bind; [|discriminate].
  destruct (index (bsr_indptr sp) (i + 1)) as [rowend|]; simpl bind; [|discriminate].
  destruct (index colindices i) as [colindx|]; simpl bind; [|discriminate].
  destruct (negb (length colindx =? 0)).
  - destruct (take_rows B colindx) as [Bi|]; simpl bind; [|discriminate].
    destruct (index BtBinv i) as [G|]; simpl bind; [|discriminate].
    destruct (dmul G _) as [t|]; simpl bind; [|discriminate].
    destruct (dmul Bi t) as [X|]; simpl bind; [|discriminate].
    destruct (for_range R _ sp) as [spn|] eqn:Eloop; simpl bind; [|discriminate].
    intros [= <- <-]. unfold for_range in Eloop.
    refine (for_each_invariant_partial (fun _ s => bsr_same_structure sp s)
              _ _ _ _ _ _ _ Eloop); [apply bsr_same_structure_refl|].
    intros j s s' _ Hs Estep.
    apply (bsr_same_structure_trans sp s s' Hs).
    now apply (Satisfy_Constraints_BSR_write_frame X rowstart rowend
                 (rowend - rowstart) R C s s' j).
  - intros [= <- <-]. apply bsr_same_structure_refl.
Qed.

Lemma Satisfy_Constraints_BSR_call_frame (h : heap bsr_matrix) (U SP : nat)
    (B : dmatrix) (BtBinv : list dmatrix) (colindices : list (list nat))
    (U' : bsr_matrix) (h' : heap bsr_matrix) :
  Satisfy_Constraints_BSR_call h U SP B BtBinv colindices = Ok (U', h') ->
  frame bsr_same_structure bsr_all_ones h h' SP.
Proof.
  unfold Satisfy_Constraints_BSR_call.
  destruct (deref h U) as [u|]; cbn [bind]; [|discriminate].
  destruct (fst (bsr_blocksize u) =? 0); [discriminate|].
  destruct (bsr_times_dense u B) as [UB|]; cbn [bind]; [|discriminate].
  destruct (for_range _ _ (h, 0)) as [[h1 ro1]|] eqn:Eloop; cbn [bind]; [|discriminate].
  destruct (deref h1 U) as [u1|]; cbn [bind]; [|discriminate].
  destruct (deref h1 SP) as [sp1|] eqn:Esp1; cbn [bind]; [|discriminate].
  destruct (bsr_sub u1 sp1) as [U1|]; cbn [bind]; [|discriminate].
  intros [= <- <-].
  assert (Hinv : length h1 = length h /\
                 (forall a, a <> SP -> nth_error h1 a = nth_error h a) /\
                 (forall sp, deref h SP = Ok sp ->
                    exists spc, deref h1 SP = Ok spc /\ bsr_same_structure sp spc)).
  { unfold for_range in Eloop.
    refine (for_each_invariant_partial
             (fun _ (st : heap bsr_matrix * nat) =>
                length (fst st) = length h /\
                (forall a, a <> SP -> nth_error (fst st) a = nth_error h a) /\
                (forall sp, deref h SP = Ok sp ->
                   exists spc, deref (fst st) SP = Ok spc /\ bsr_same_structure sp spc))
             _ _ _ _ _ _ _ Eloop).
    - simpl. split; [reflexivity|]. split; [reflexivity|].
      intros sp Hsp. exists sp. split; [exact Hsp|]. apply bsr_same_structure_refl.
    - intros i [hc roc] [hn ron] _ (Hlen & Hoth & Hpat). simpl fst in *.
      cbv beta iota.
      destruct (deref hc SP) as [spc|] eqn:Espc; cbn [bind]; [|discriminate].
      destruct (Satisfy_Constraints_BSR_node B BtBinv colindices UB
                  (fst (bsr_blocksize u)) (snd (bsr_blocksize u)) (spc, roc) i)
        as [[spn ron']|] eqn:Enode; cbn [bind]; [|discriminate].
      intros [= <- <-]. split; [now rewrite length_store|]. split.
      + intros a Ha. rewrite nth_error_store_other by exact Ha. now apply Hoth.
      + intros sp Hsp. destruct (Hpat sp Hsp) as (spc' & E1 & E2).
        try rewrite Espc in E1. injection E1 as E1. subst spc'.
        exists spn. split.
        * apply deref_store_same. now apply (deref_lt hc SP spc).
        * apply (bsr_same_structure_trans sp spc spn E2).
          exact (Satisfy_Constraints_BSR_node_frame _ _ _ _ _ _ _ _ _ _ _ Enode). }
  destruct Hinv as (Hlen & Hoth & Hpat).
  pose proof (deref_lt h1 SP sp1 Esp1) as HSP.
  destruct (nth_error h SP) as [sp|] eqn:Esp.
  2:{ apply nth_error_None in Esp. lia. }
  assert (Hd : deref h SP = Ok sp) by (unfold deref, index; now rewrite Esp).
  destruct (Hpat sp Hd) as (spc & E1 & (Hs1 & Hs2 & Hs3 & Hs4 & Hs5)).
  try rewrite Esp1 in E1. injection E1 as E1. subst spc.
  unfold frame. split; [now rewrite length_store|]. split.
  - intros a Ha. rewrite nth_error_store_other by exact Ha. now apply Hoth.
  - exists sp. eexists. split; [exact Hd|]. split; [now apply deref_store_same|].
    split.
    + unfold bsr_same_structure. simpl. rewrite length_map. auto.
    + unfold bsr_all_ones. simpl. apply map_map_const_ones.
Qed.

(** ** The frame of a call of the projector *)

(** C10. A call of the Constraint Projector that returns leaves its
    arguments as it found them. With the caller's objects in a store, the
    operator [U] and the pattern at their addresses: after
    [Satisfy_Constraints_CSR] (rows) and after [Satisfy_Constraints_BSR]
    (nodes), the store has as many objects, every object other than the
    pattern is the one it was, the pattern has the shape, row pointers,
    column indices and number of stored values it had and these values
    are all 1.0 again, and the operator passed as [U] (an object other than
    the pattern) holds what it held: the result is a new operator. *)
Theorem constraint_projector_frame :
  (forall (h : heap csr_matrix) (U Sparsity_Pattern : nat) (B : dmatrix)
          (BtBinv : list dmatrix) (U' : csr_matrix) (h' : heap csr_matrix),
     Satisfy_Constraints_CSR_call h U Sparsity_Pattern B BtBinv = Ok (U', h') ->
     frame csr_same_structure csr_all_ones h h' Sparsity_Pattern /\
     (U <> Sparsity_Pattern -> deref h' U = deref h U))
  /\
  (forall (h : heap bsr_matrix) (U Sparsity_Pattern : nat) (B : dmatrix)
          (BtBinv : list dmatrix) (colindices : list (list nat))
          (U' : bsr_matrix) (h' : heap bsr_matrix),
     Satisfy_Constraints_BSR_call h U Sparsity_Pattern B BtBinv colindices
     = Ok (U', h') ->
     frame bsr_same_structure bsr_all_ones h h' Sparsity_Pattern /\
     (U <> Sparsity_Pattern -> deref h' U = deref h U)).
Proof.
  split.
  - intros h U SP B BtBinv U' h' Hcall.
    pose proof (Satisfy_Constraints_CSR_call_frame h U SP B BtBinv U' h' Hcall) as Hf.
    split; [exact Hf|].
    intros Hne. destruct Hf as (_ & Hoth & _).
    unfold deref, index. now rewrite (Hoth U Hne).
  - intros h U SP B BtBinv colindices U' h' Hcall.
    pose proof (Satisfy_Constraints_BSR_call_frame h U SP B BtBinv colindices U' h' Hcall)
      as Hf.
    split; [exact Hf|].
    intros Hne. destruct Hf as (_ & Hoth & _).
    unfold deref, index. now rewrite (Hoth U Hne).
Qed.

Lemma constraint_projector_frame_witness :
  exists (U' : csr_matrix) (h' : heap csr_matrix),
    Satisfy_Constraints_CSR_call [ex_U_csr; ex_SP_csr] 0 1 ex_B ex_BtBinv_csr
    = Ok (U', h') /\
    frame csr_same_structure csr_all_ones [ex_U_csr; ex_SP_csr] h' 1 /\
    (0 <> 1 -> deref h' 0 = deref [ex_U_csr; ex_SP_csr] 0).
Proof.
  eexists. eexists. split.
  - vm_compute. reflexivity.
  - eapply (proj1 constraint_projector_frame
             [ex_U_csr; ex_SP_csr] 0 1 ex_B ex_BtBinv_csr).
    vm_compute. reflexivity.
Defined.

(** ** The tests on the arguments *)

Lemma test_inputs_ok (num_iters : pyval) (min_tol : pyfloat) (fmtA fmtT : format) :
  test_inputs num_iters min_tol fmtA fmtT = Ok tt <->
  isinstance_int num_iters = true /\ (0 <= int_value num_iters)%Z /\
  float_gt min_tol 1%Qc = false /\ fmtA <> FmtOther /\ fmtT = FmtBSR.
Proof.
  unfold test_inputs.
  destruct (isinstance_int num_iters); simpl.
  2:{ split; [discriminate|]. intros (H & _). discriminate. }
  destruct (Z.ltb_spec (int_value num_iters) 0).
  { split; [discriminate|]. intros (_ & H' & _). lia. }
  destruct (float_gt min_tol 1%Qc).
  { split; [discriminate|]. intros (_ & _ & H' & _). discriminate. }
  destruct fmtA, fmtT; simpl; split; try discriminate; try tauto;
    try (intros _; repeat split; try assumption; discriminate);
    try (intros (_ & _ & _ & _ & H'); discriminate);
    try (intros (_ & _ & _ & H' & _); now elim H').
Qed.

Lemma test_inputs_raises (num_iters : pyval) (min_tol : pyfloat) (fmtA fmtT : format)
    (e : exn) :
  test_inputs num_iters min_tol fmtA fmtT = Raise e ->
  In e [TypeError msg_num_iters_int; TypeError msg_num_iters_neg; TypeError msg_min_tol;
        TypeError msg_A_format; TypeError msg_T_format].
Proof.
  unfold test_inputs.
  destruct (isinstance_int num_iters); simpl; [|intros [= <-]; simpl; tauto].
  destruct (int_value num_iters <? 0)%Z; [intros [= <-]; simpl; tauto|].
  destruct (float_gt min_tol 1%Qc); [intros [= <-]; simpl; tauto|].
  destruct fmtA, fmtT; simpl; try discriminate; intros [= <-]; simpl; tauto.
Qed.

(** C7. [energy_prolongation_smoother] raises an invalid-argument error (a
    [TypeError] with one of the five messages of lines 200-213), whatever
    the other arguments hold and before anything is computed from them,
    exactly when [num_iters] is not an instance of [int], or is negative, or
    [min_tol > 1], or [A] is neither CSR nor BSR, or [T] is not BSR.  For all
    other arguments the tests pass; a [min_tol] that is at most 1 (so any
    [min_tol <= 0], and [min_tol = 1]) is accepted. *)
Theorem argument_validation
    (svd : dmatrix -> dmatrix * list Qc * dmatrix)
    (UnAmal : csr_matrix -> nat -> nat -> bsr_matrix)
    (BSR_Get_Row : bsr_matrix -> nat -> list Qc * list nat)
    (sa_smoothed_prolongator : spmatrix -> spmatrix -> result spmatrix)
    (A T : pyobject) (Atilde : csr_matrix) (B : dmatrix) (SPD : bool)
    (num_iters : pyval) (min_tol : pyfloat) (file_output : bool) :
  let invalid :=
    isinstance_int num_iters = false \/ (int_value num_iters < 0)%Z \/
    float_gt min_tol 1%Qc = true \/ format_of A = FmtOther \/ format_of T <> FmtBSR in
  (invalid <->
   exists e, test_inputs num_iters min_tol (format_of A) (format_of T) = Raise e) /\
  (forall e, test_inputs num_iters min_tol (format_of A) (format_of T) = Raise e ->
     energy_prolongation_smoother svd UnAmal BSR_Get_Row sa_smoothed_prolongator
       A T Atilde B SPD num_iters min_tol file_output = Raise e /\
     In e [TypeError msg_num_iters_int; TypeError msg_num_iters_neg;
           TypeError msg_min_tol; TypeError msg_A_format; TypeError msg_T_format]) /\
  (~ invalid ->
     test_inputs num_iters min_tol (format_of A) (format_of T) = Ok tt) /\
  (forall q : Qc, (q <= 1)%Qc -> float_gt (FFinite q) 1%Qc = false).
Proof.
  intros invalid.
  assert (Hok := test_inputs_ok num_iters min_tol (format_of A) (format_of T)).
  assert (Hdec : invalid \/
                 (isinstance_int num_iters = true /\ (0 <= int_value num_iters)%Z /\
                  float_gt min_tol 1%Qc = false /\ format_of A <> FmtOther /\
                  format_of T = FmtBSR)).
  { unfold invalid.
    destruct (isinstance_int num_iters); [|now left; left].
    destruct (Z.ltb_spec (int_value num_iters) 0); [now left; right; left|].
    destruct (float_gt min_tol 1%Qc); [now left; right; right; left|].
    destruct (format_of A) eqn:EA; try (left; right; right; right; left; reflexivity);
      destruct (format_of T) eqn:ET;
      try (left; right; right; right; right; discriminate);
      right; repeat split; try assumption; try discriminate. }
  assert (Hexcl : invalid ->
                  ~ (isinstance_int num_iters = true /\ (0 <= int_value num_iters)%Z /\
                     float_gt min_tol 1%Qc = false /\ format_of A <> FmtOther /\
                     format_of T = FmtBSR)).
  { unfold invalid. intros [H|[H|[H|[H|H]]]] (H1 & H2 & H3 & H4 & H5);
      try congruence; try lia. }
  split; [|split; [|split]].
  - split.
    + intros Hinv.
      destruct (test_inputs num_iters min_tol (format_of A) (format_of T)) as [[]|e] eqn:E.
      * exfalso. apply (Hexcl Hinv). now apply Hok.
      * now exists e.
    + intros (e & E). destruct Hdec as [H|H]; [exact H|].
      apply Hok in H. congruence.
  - intros e E. split; [|now apply (test_inputs_raises _ _ _ _ _ E)].
    unfold energy_prolongation_smoother. now rewrite E.
  - intros Hval. destruct Hdec as [H|H]; [contradiction|]. now apply Hok.
  - intros q Hq. simpl. apply Qc_ltb_ge. exact Hq.
Qed.

Lemma argument_validation_witness :
  energy_prolongation_smoother svd_1x1 (fun _ _ _ => ex_SP_bsr) (fun _ _ => ([], []))
    (fun _ T => Ok T) (Sparse (Csr ex_SP_csr)) (Sparse (Bsr ex_SP_bsr)) ex_SP_csr ex_B
    true (PyLong 4) (FFinite 0%Qc) false
  = Raise (TypeError msg_num_iters_int)
  /\ test_inputs (PyBool true) (FFinite 1%Qc) FmtCSR FmtBSR = Ok tt.
Proof.
  split.
  - apply (argument_validation svd_1x1 (fun _ _ _ => ex_SP_bsr) (fun _ _ => ([], []))
             (fun _ T => Ok T) (Sparse (Csr ex_SP_csr)) (Sparse (Bsr ex_SP_bsr))
             ex_SP_csr ex_B true (PyLong 4) (FFinite 0%Qc) false).
    reflexivity.
  - apply (argument_validation svd_1x1 (fun _ _ _ => ex_SP_bsr) (fun _ _ => ([], []))
             (fun _ T => Ok T) (Sparse (Csr ex_SP_csr)) (Sparse (Bsr ex_SP_bsr))
             ex_SP_csr ex_B true (PyBool true) (FFinite 1%Qc) false).
    intros [H|[H|[H|[H|H]]]].
    + discriminate H.
    + vm_compute in H. discriminate H.
    + vm_compute in H. discriminate H.
    + discriminate H.
    + now apply H.
Defined.

(** ** An operator without stored values *)

(** C8. When the tests on the arguments have passed and one of [A], [T],
    [Atilde] has no stored value ([nnz == 0]), [energy_prolongation_smoother]
    returns, without raising, the tentative prolongator [T] it was given;
    all it does besides is print the diagnostic message (after the warning
    on the block sizes, where [A] is BSR with another row block size
    than [T]): nothing is written. *)
Theorem no_nonzeros_returns_T
    (svd : dmatrix -> dmatrix * list Qc * dmatrix)
    (UnAmal : csr_matrix -> nat -> nat -> bsr_matrix)
    (BSR_Get_Row : bsr_matrix -> nat -> list Qc * list nat)
    (sa_smoothed_prolongator : spmatrix -> spmatrix -> result spmatrix)
    (A T : pyobject) (Atilde : csr_matrix) (B : dmatrix) (SPD : bool)
    (num_iters : pyval) (min_tol : pyfloat) (file_output : bool) :
  test_inputs num_iters min_tol (format_of A) (format_of T) = Ok tt ->
  exists (a : spmatrix) (t : bsr_matrix),
    A = Sparse a /\ T = Sparse (Bsr t) /\
    (sp_nnz a = 0 \/ bsr_nnz t = 0 \/ csr_nnz Atilde = 0 ->
     exists printed,
       energy_prolongation_smoother svd UnAmal BSR_Get_Row sa_smoothed_prolongator
         A T Atilde B SPD num_iters min_tol file_output = Ok (Bsr t, printed) /\
       (printed = [Print msg_no_nonzeros] \/
        printed = [Print warn_blocksize; Print msg_no_nonzeros])).
Proof.
  intros Htest. pose proof Htest as Hok.
  apply test_inputs_ok in Hok as (_ & _ & _ & HA & HT).
  destruct A as [a|]; [|now elim HA].
  destruct T as [[t|t]|]; try discriminate HT.
  exists a, t. split; [reflexivity|]. split; [reflexivity|].
  intros Hnnz. unfold energy_prolongation_smoother, prepare. rewrite Htest. cbn [bind].
  assert (E : (bsr_nnz t =? 0) || (csr_nnz Atilde =? 0) || (sp_nnz a =? 0) = true).
  { destruct Hnnz as [H|[H|H]]; rewrite H; rewrite Nat.eqb_refl;
      rewrite ?orb_true_r; reflexivity. }
  rewrite E. cbn [bind]. eexists. split; [reflexivity|].
  destruct a as [a|a]; [now left|].
  destruct (negb (fst (bsr_blocksize t) =? fst (bsr_blocksize a))); [now right|now left].
Qed.

Lemma no_nonzeros_returns_T_witness :
  exists printed,
    energy_prolongation_smoother svd_1x1 (fun _ _ _ => ex_SP_bsr) (fun _ _ => ([], []))
      (fun _ T => Ok T) (Sparse (Csr (mk_csr (3, 3) [0; 0; 0; 0] [] [])))
      (Sparse (Bsr ex_U_bsr)) ex_SP_csr ex_B true (PyInt 4)
      (FFinite (Q2Qc (1 # 100000000))) false
    = Ok (Bsr ex_U_bsr, printed) /\
    (printed = [Print msg_no_nonzeros] \/
     printed = [Print warn_blocksize; Print msg_no_nonzeros]).
Proof.
  destruct (no_nonzeros_returns_T svd_1x1 (fun _ _ _ => ex_SP_bsr) (fun _ _ => ([], []))
              (fun _ T => Ok T) (Sparse (Csr (mk_csr (3, 3) [0; 0; 0; 0] [] [])))
              (Sparse (Bsr ex_U_bsr)) ex_SP_csr ex_B true (PyInt 4)
              (FFinite (Q2Qc (1 # 100000000))) false)
    as (a & t & Ea & Et & H).
  - vm_compute. reflexivity.
  - injection Ea as <-. injection Et as <-. apply H. left. reflexivity.
Defined.

(** ** Sparse matrices of either class: the entries of the results *)

Lemma existsb_eqb_In (j : nat) (l : list nat) : existsb (Nat.eqb j) l = true <-> In j l.
Proof.
  rewrite existsb_exists. split.
  - intros (x & Hx & E). apply Nat.eqb_eq in E. now subst.
  - intros H. exists j. split; [exact H|apply Nat.eqb_refl].
Qed.

Lemma existsb_eqb_not_In (j : nat) (l : list nat) : existsb (Nat.eqb j) l = false <-> ~ In j l.
Proof.
  rewrite <- existsb_eqb_In. destruct (existsb (Nat.eqb j) l); split; congruence.
Qed.

Lemma entries_get_graph (g : nat -> Qc) (l : list nat) (j : nat) :
  NoDup l ->
  entries_get (map (fun c => (c, g c)) l) j = if existsb (Nat.eqb j) l then g j else 0%Qc.
Proof.
  induction l as [|c l IH]; intros Hnd; [reflexivity|].
  apply NoDup_cons_iff in Hnd as [Hc Hnd]. cbn [map]. rewrite entries_get_cons, IH by exact Hnd.
  cbn [existsb]. rewrite (Nat.eqb_sym j c).
  destruct (Nat.eqb_spec c j) as [->|Hne]; cbn [orb].
  - apply existsb_eqb_not_In in Hc. rewrite Hc. ring.
  - ring.
Qed.

Lemma NoDup_filter_seq (present : nat -> bool) (s len : nat) :
  NoDup (filter present (seq s len)).
Proof. apply NoDup_filter, seq_NoDup. Qed.

Lemma existsb_filter_seq (present : nat -> bool) (m j : nat) :
  existsb (Nat.eqb j) (filter present (seq 0 m)) = (j <? m) && present j.
Proof.
  destruct ((j <? m) && present j) eqn:E.
  - apply andb_prop in E as [Hj Hp]. apply Nat.ltb_lt in Hj.
    apply existsb_eqb_In, filter_In. split; [apply in_seq; lia|exact Hp].
  - apply existsb_eqb_not_In. intros Hin. apply filter_In in Hin as [Hin Hp].
    apply in_seq in Hin. rewrite Hp, andb_true_r in E. apply Nat.ltb_ge in E. lia.
Qed.

Lemma csr_row_of_mask (shape : nat * nat) (present : nat -> nat -> bool)
    (f : nat -> nat -> Qc) (i : nat) :
  csr_row (csr_of_mask shape present f) i
  = if i <? fst shape then mask_row (snd shape) (present i) (f i) else [].
Proof.
  unfold csr_of_mask. destruct (Nat.ltb_spec i (fst shape)) as [Hi|Hi].
  - rewrite csr_row_of_rows by (rewrite length_map, length_seq; exact Hi).
    exact (nth_map_seq [] (fun i => mask_row (snd shape) (present i) (f i)) _ _ Hi).
  - apply csr_row_out_of_rows. now rewrite length_map, length_seq.
Qed.

Lemma csr_get_of_mask (shape : nat * nat) (present : nat -> nat -> bool)
    (f : nat -> nat -> Qc) (i j : nat) :
  csr_get (csr_of_mask shape present f) i j
  = if (i <? fst shape) && (j <? snd shape) && present i j then f i j else 0%Qc.
Proof.
  unfold csr_get. rewrite csr_row_of_mask.
  destruct (i <? fst shape); cbn [andb]; [|reflexivity].
  unfold mask_row. rewrite entries_get_graph by apply NoDup_filter_seq.
  now rewrite existsb_filter_seq.
Qed.

Lemma csr_has_of_mask (shape : nat * nat) (present : nat -> nat -> bool)
    (f : nat -> nat -> Qc) (i j : nat) :
  csr_has (csr_of_mask shape present f) i j
  = (i <? fst shape) && (j <? snd shape) && present i j.
Proof.
  unfold csr_has. rewrite csr_row_of_mask.
  destruct (i <? fst shape); cbn [andb]; [|reflexivity].
  unfold mask_row. rewrite map_map. cbn [fst]. rewrite map_id.
  apply existsb_filter_seq.
Qed.

Lemma csr_has_false (A : csr_matrix) (i j : nat) :
  csr_has A i j = false -> csr_get A i j = 0%Qc.
Proof.
  unfold csr_has, csr_get. intros H. apply entries_get_not_stored.
  now apply existsb_eqb_not_In.
Qed.

Lemma csr_has_stored (A : csr_matrix) (i j : nat) :
  csr_has A i j = true <-> csr_stored A i j.
Proof. apply existsb_eqb_In. Qed.

Lemma bsr_has_false (A : bsr_matrix) (i j : nat) :
  bsr_has A i j = false -> bsr_get A i j = 0%Qc.
Proof.
  unfold bsr_has, bsr_get. intros H. apply entries_get_not_stored.
  now apply existsb_eqb_not_In.
Qed.

Lemma sp_has_false (X : spmatrix) (i j : nat) :
  sp_has X i j = false -> sp_get X i j = 0%Qc.
Proof. destruct X; [apply csr_has_false|apply bsr_has_false]. Qed.

(** Scaling the values of a list of entries. *)
Lemma entries_get_scale (a : Qc) (es : list (nat * Qc)) (j : nat) :
  entries_get (map (fun e => (fst e, a * snd e)%Qc) es) j = (a * entries_get es j)%Qc.
Proof.
  induction es as [|[c v] es IH]; [unfold entries_get; simpl; ring|].
  cbn [map fst snd]. rewrite !entries_get_cons, IH.
  destruct (c =? j); ring.
Qed.

Lemma slice_map {A C : Type} (f : A -> C) (l : list A) (a b : nat) :
  slice (map f l) a b = map f (slice l a b).
Proof. unfold slice. now rewrite skipn_map, firstn_map. Qed.

Lemma combine_map_r {A C D : Type} (f : C -> D) (l : list A) (r : list C) :
  combine l (map f r) = map (fun e => (fst e, f (snd e))) (combine l r).
Proof.
  revert r. induction l as [|x l IH]; intros [|y r]; simpl; try reflexivity.
  now rewrite IH.
Qed.

Lemma csr_row_scale (a : Qc) (X : csr_matrix) (i : nat) :
  csr_row (csr_scale a X) i = map (fun e => (fst e, a * snd e)%Qc) (csr_row X i).
Proof.
  unfold csr_row, csr_scale. cbn [csr_indptr csr_indices csr_data].
  now rewrite slice_map, combine_map_r.
Qed.

Lemma csr_get_scale (a : Qc) (X : csr_matrix) (i j : nat) :
  csr_get (csr_scale a X) i j = (a * csr_get X i j)%Qc.
Proof. unfold csr_get. now rewrite csr_row_scale, entries_get_scale. Qed.

Lemma block_col_test (C J j : nat) :
  0 < C -> (J * C <=? j) && (j <? J * C + C) = (J =? j / C).
Proof.
  intros HC. pose proof (Nat.div_mod j C ltac:(lia)) as E.
  pose proof (Nat.mod_upper_bound j C ltac:(lia)) as Hlt.
  destruct (Nat.eqb_spec J (j / C)) as [->|Hne].
  - apply andb_true_iff. split; [apply Nat.leb_le|apply Nat.ltb_lt]; lia.
  - apply andb_false_iff.
    destruct (Nat.leb_spec (J * C) j) as [H1|H1]; [|now left]. right.
    apply Nat.ltb_ge. destruct (Nat.lt_ge_cases j (J * C + C)) as [H2|H2]; [|exact H2].
    exfalso. apply Hne. apply (Nat.div_unique j C J (j - J * C)); lia.
Qed.

Lemma entries_get_blocks_graph (C r : nat) (blk : nat -> dmatrix) (l : list nat) (j : nat) :
  0 < C -> NoDup l ->
  entries_get (flat_map (block_entries C r) (map (fun J => (J, blk J)) l)) j
  = if existsb (Nat.eqb (j / C)) l then dget (blk (j / C)) r (j mod C) else 0%Qc.
Proof.
  intros HC. induction l as [|J l IH]; intros Hnd; [reflexivity|].
  apply NoDup_cons_iff in Hnd as [HJ Hnd]. cbn [map flat_map].
  rewrite entries_get_app, entries_get_block, IH by exact Hnd.
  rewrite block_col_test by exact HC. cbn [existsb]. rewrite (Nat.eqb_sym (j / C) J).
  destruct (Nat.eqb_spec J (j / C)) as [->|Hne]; cbn [orb].
  - apply existsb_eqb_not_In in HJ. rewrite HJ.
    replace (j - j / C * C) with (j mod C)
      by (pose proof (Nat.div_mod j C ltac:(lia)); lia).
    ring.
  - ring.
Qed.

Lemma bsr_get_of_mask (n m R C : nat) (present : nat -> nat -> bool)
    (f : nat -> nat -> Qc) (i j : nat) :
  0 < R -> 0 < C -> n mod R = 0 -> m mod C = 0 ->
  bsr_get (bsr_of_mask (n, m) (R, C) present f) i j
  = if (i <? n) && (j <? m) && present (i / R) (j / C) then f i j else 0%Qc.
Proof.
  intros HR HC Hn Hm. unfold bsr_get, bsr_row, bsr_of_mask. simpl fst. simpl snd.
  assert (En : n = n / R * R).
  { pose proof (Nat.div_mod n R ltac:(lia)). lia. }
  assert (Em : m = m / C * C).
  { pose proof (Nat.div_mod m C ltac:(lia)). lia. }
  pose proof (Nat.div_mod i R ltac:(lia)) as Ei.
  pose proof (Nat.div_mod j C ltac:(lia)) as Ej.
  pose proof (Nat.mod_upper_bound i R ltac:(lia)) as Hir.
  pose proof (Nat.mod_upper_bound j C ltac:(lia)) as Hjc.
  destruct (Nat.ltb_spec i n) as [Hi|Hi]; cbn [andb].
  - assert (HI : i / R < n / R) by (apply Nat.Div0.div_lt_upper_bound; lia).
    rewrite bsr_node_of_nodes by (rewrite length_map, length_seq; exact HI).
    rewrite (nth_map_seq [] (fun I => mask_node R C (m / C) (present I) f I) _ _ HI).
    unfold mask_node.
    rewrite (entries_get_blocks_graph C (i mod R) (fun J => block_of_fun R C f (i / R) J))
      by (try exact HC; apply NoDup_filter_seq).
    rewrite existsb_filter_seq.
    assert (Hjm : (j / C <? m / C) = (j <? m)).
    { destruct (Nat.ltb_spec j m) as [H|H].
      - apply Nat.ltb_lt. apply Nat.Div0.div_lt_upper_bound. lia.
      - apply Nat.ltb_ge. apply Nat.Div0.div_le_mono. exact H. }
    rewrite Hjm. destruct (j <? m); cbn [andb]; [|reflexivity].
    destruct (present (i / R) (j / C)); [|reflexivity].
    unfold block_of_fun. rewrite dget_dmake by assumption.
    f_equal; lia.
  - rewrite bsr_node_out_of_nodes.
    + reflexivity.
    + rewrite length_map, length_seq. apply Nat.div_le_lower_bound; lia.
Qed.

Lemma bsr_has_node (X : bsr_matrix) (i j : nat) :
  0 < snd (bsr_blocksize X) ->
  bsr_has X i j
  = existsb (Nat.eqb (j / snd (bsr_blocksize X)))
            (map fst (bsr_node X (i / fst (bsr_blocksize X)))).
Proof.
  intros HC. unfold bsr_has, bsr_row. rewrite map_fst_block_entries.
  destruct (existsb (Nat.eqb (j / _)) _) eqn:E.
  - apply existsb_eqb_In. apply In_expand_block_columns; [exact HC|].
    now apply existsb_eqb_In.
  - apply existsb_eqb_not_In. intros H. apply In_expand_block_columns in H; [|exact HC].
    apply existsb_eqb_not_In in E. contradiction.
Qed.

Lemma dget_map_map (g : Qc -> Qc) (blk : dmatrix) (r c : nat) :
  g 0%Qc = 0%Qc -> dget (map (map g) blk) r c = g (dget blk r c).
Proof.
  intros Hg. unfold dget.
  destruct (Nat.lt_ge_cases r (length blk)) as [Hr|Hr].
  - rewrite (nth_indep _ [] (map g []) ) by (now rewrite length_map).
    rewrite map_nth.
    destruct (Nat.lt_ge_cases c (length (nth r blk []))) as [Hc|Hc].
    + rewrite (nth_indep _ 0%Qc (g 0%Qc)) by (now rewrite length_map).
      now rewrite map_nth.
    + rewrite !nth_overflow; try (now rewrite ?length_map); now rewrite Hg.
  - rewrite (nth_overflow (map (map g) blk)) by (now rewrite length_map).
    rewrite (nth_overflow blk) by exact Hr. destruct c; simpl; now rewrite Hg.
Qed.

Lemma block_entries_map_values (g : Qc -> Qc) (C r : nat) (nodes : list (nat * dmatrix)) :
  g 0%Qc = 0%Qc ->
  flat_map (block_entries C r) (map (fun e => (fst e, map (map g) (snd e))) nodes)
  = map (fun e => (fst e, g (snd e))) (flat_map (block_entries C r) nodes).
Proof.
  intros Hg. induction nodes as [|[J blk] nodes IH]; [reflexivity|].
  cbn [map flat_map fst snd]. rewrite map_app, IH. f_equal.
  unfold block_entries. cbn [fst snd]. rewrite map_map. apply map_ext. intros c.
  cbn [fst snd]. now rewrite dget_map_map.
Qed.

Lemma bsr_row_map_values (g : Qc -> Qc) (X : bsr_matrix) (i : nat) :
  g 0%Qc = 0%Qc ->
  bsr_row (bsr_set_data X (map (map (map g)) (bsr_data X))) i
  = map (fun e => (fst e, g (snd e))) (bsr_row X i).
Proof.
  intros Hg. unfold bsr_row, bsr_node, bsr_set_data.
  cbn [bsr_blocksize bsr_indptr bsr_indices bsr_data].
  rewrite slice_map, combine_map_r.
  now apply block_entries_map_values.
Qed.

Lemma bsr_get_scale (a : Qc) (X : bsr_matrix) (i j : nat) :
  bsr_get (bsr_scale a X) i j = (a * bsr_get X i j)%Qc.
Proof.
  unfold bsr_get, bsr_scale.
  rewrite (bsr_row_map_values (fun v => (a * v)%Qc)) by ring.
  apply entries_get_scale.
Qed.

Lemma sp_get_scale (a : Qc) (X : spmatrix) (i j : nat) :
  sp_get (sp_scale a X) i j = (a * sp_get X i j)%Qc.
Proof. destruct X; [apply csr_get_scale|apply bsr_get_scale]. Qed.

Lemma sp_shape_scale (a : Qc) (X : spmatrix) : sp_shape (sp_scale a X) = sp_shape X.
Proof. now destruct X. Qed.

Lemma sp_blocksize_scale (a : Qc) (X : spmatrix) :
  sp_blocksize (sp_scale a X) = sp_blocksize X.
Proof. now destruct X. Qed.

Lemma shape_eqb_eq (s t : nat * nat) : shape_eqb s t = true <-> s = t.
Proof.
  unfold shape_eqb. destruct s as [a b], t as [c d]. simpl.
  rewrite andb_true_iff, !Nat.eqb_eq. split; [intros [-> ->]; reflexivity|].
  intros [= -> ->]. now split.
Qed.

Lemma sp_tiles_csr (x : csr_matrix) : sp_tiles (Csr x).
Proof.
  unfold sp_tiles. simpl. repeat split; try lia; apply Nat.mod_1_r.
Qed.

Lemma sp_shape_of_fun (X : spmatrix) (f : nat -> nat -> Qc) :
  sp_shape (sp_of_fun X f) = sp_shape X.
Proof. now destruct X. Qed.

Lemma sp_blocksize_of_fun (X : spmatrix) (f : nat -> nat -> Qc) :
  sp_blocksize (sp_of_fun X f) = sp_blocksize X.
Proof. now destruct X. Qed.

Lemma sp_tiles_of_fun (X : spmatrix) (f : nat -> nat -> Qc) :
  sp_tiles X -> sp_tiles (sp_of_fun X f).
Proof. unfold sp_tiles. now rewrite sp_shape_of_fun, sp_blocksize_of_fun. Qed.

Lemma sp_tiles_scale (a : Qc) (X : spmatrix) : sp_tiles X -> sp_tiles (sp_scale a X).
Proof. unfold sp_tiles. now rewrite sp_shape_scale, sp_blocksize_scale. Qed.

Lemma sp_get_of_fun (X : spmatrix) (f : nat -> nat -> Qc) (i j : nat) :
  sp_tiles X ->
  sp_get (sp_of_fun X f) i j
  = if (i <? fst (sp_shape X)) && (j <? snd (sp_shape X)) then f i j else 0%Qc.
Proof.
  intros (HR & HC & Hn & Hm). destruct X as [x|x]; simpl in *.
  - apply csr_get_of_fun.
  - now apply bsr_get_of_fun_wf.
Qed.

(** What an element-wise operation returns. *)
Lemma sp_add_inv (X Y Z : spmatrix) :
  sp_add X Y = Ok Z ->
  sp_shape Y = sp_shape X /\
  Z = sp_of_fun X (fun i j => sp_get X i j + sp_get Y i j)%Qc.
Proof.
  unfold sp_add. destruct (shape_eqb _ _) eqn:E; [|discriminate].
  apply shape_eqb_eq in E. intros [= <-]. now split.
Qed.

Lemma sp_sub_inv (X Y Z : spmatrix) :
  sp_sub X Y = Ok Z ->
  sp_shape Y = sp_shape X /\
  Z = sp_of_fun X (fun i j => sp_get X i j - sp_get Y i j)%Qc.
Proof.
  unfold sp_sub. destruct (shape_eqb _ _) eqn:E; [|discriminate].
  apply shape_eqb_eq in E. intros [= <-]. now split.
Qed.

Lemma sp_multiply_inv (X Y Z : spmatrix) :
  sp_multiply X Y = Ok Z ->
  sp_shape Y = sp_shape X /\
  Z = sp_of_fun X (fun i j => sp_get X i j * sp_get Y i j)%Qc.
Proof.
  unfold sp_multiply. destruct (shape_eqb _ _) eqn:E; [|discriminate].
  apply shape_eqb_eq in E. intros [= <-]. now split.
Qed.

(** The product of two sparse matrices: shape, tiling and entries. *)
Lemma sp_matmul_shape (X Y Z : spmatrix) :
  sp_matmul X Y = Ok Z ->
  snd (sp_shape X) = fst (sp_shape Y) /\
  sp_shape Z = (fst (sp_shape X), snd (sp_shape Y)).
Proof.
  unfold sp_matmul. destruct (Nat.eqb_spec (snd (sp_shape X)) (fst (sp_shape Y))) as [E|E];
    [|discriminate].
  destruct X as [x|x]; intros [= <-]; (split; [exact E|]); reflexivity.
Qed.

Lemma sp_matmul_tiles (X Y Z : spmatrix) :
  sp_matmul X Y = Ok Z -> sp_tiles X -> sp_tiles Y -> sp_tiles Z.
Proof.
  intros H (HR & _ & Hn & _) (_ & HC & _ & Hm). unfold sp_matmul in H.
  destruct (snd (sp_shape X) =? fst (sp_shape Y)); [|discriminate].
  destruct X as [x|x]; injection H as <-; [apply sp_tiles_csr|].
  unfold sp_tiles. simpl in *. auto.
Qed.

Lemma block_has_false (R C : nat) (has : nat -> nat -> bool) (I J i j : nat) :
  0 < R -> 0 < C -> block_has R C has I J = false -> i / R = I -> j / C = J ->
  has i j = false.
Proof.
  intros HR HC H Hi Hj. unfold block_has in H.
  pose proof (Nat.div_mod i R ltac:(lia)). pose proof (Nat.div_mod j C ltac:(lia)).
  pose proof (Nat.mod_upper_bound i R ltac:(lia)).
  pose proof (Nat.mod_upper_bound j C ltac:(lia)).
  destruct (has i j) eqn:E; [|reflexivity].
  assert (Ht : existsb (fun i => existsb (fun j => has i j) (seq (J * C) C)) (seq (I * R) R)
               = true).
  { apply existsb_exists. exists i. split; [apply in_seq; nia|].
    apply existsb_exists. exists j. split; [apply in_seq; nia|exact E]. }
  congruence.
Qed.

Lemma sp_get_matmul (X Y Z : spmatrix) (i j : nat) :
  sp_matmul X Y = Ok Z -> sp_tiles X -> sp_tiles Y ->
  i < fst (sp_shape X) -> j < snd (sp_shape Y) ->
  sp_get Z i j = sum_upto (fst (sp_shape Y)) (fun a => sp_get X i a * sp_get Y a j)%Qc.
Proof.
  intros H (HR & Hn0 & Hn & Hxm) (HRy & HC & Hyn & Hm) Hi Hj.
  unfold sp_matmul in H.
  destruct (Nat.eqb_spec (snd (sp_shape X)) (fst (sp_shape Y))) as [E|E]; [|discriminate].
  apply Nat.ltb_lt in Hi as Hib. apply Nat.ltb_lt in Hj as Hjb.
  destruct X as [x|x]; injection H as <-; cbn [sp_get].
  - rewrite csr_get_of_mask. cbn [fst snd]. simpl in Hib. rewrite Hib, Hjb. cbn [andb].
    destruct (existsb _ _) eqn:Ep; [reflexivity|].
    symmetry. apply sum_upto_zero. intros a _. cbn [sp_get].
    destruct (in_dec Nat.eq_dec a (map fst (csr_row x i))) as [Hin|Hout].
    + assert (Hy : sp_has Y a j = false).
      { destruct (sp_has Y a j) eqn:Ey; [|reflexivity].
        assert (existsb (fun a => sp_has Y a j) (map fst (csr_row x i)) = true)
          by (apply existsb_exists; now exists a).
        congruence. }
      rewrite (sp_has_false Y a j Hy). ring.
    + unfold csr_get. rewrite entries_get_not_stored by exact Hout. ring.
  - simpl in HR, Hn0, Hn, Hxm, Hi, Hib.
    rewrite bsr_get_of_mask; try assumption. rewrite Hib, Hjb. cbn [andb].
    destruct (existsb _ _) eqn:Ep; [reflexivity|].
    symmetry. apply sum_upto_zero. intros a _. cbn [sp_get].
    destruct (bsr_has x i a) eqn:Ex.
    + rewrite bsr_has_node in Ex by exact Hn0. apply existsb_eqb_In in Ex.
      assert (Hb : block_has (snd (bsr_blocksize x)) (snd (sp_blocksize Y)) (sp_has Y)
                     (a / snd (bsr_blocksize x)) (j / snd (sp_blocksize Y)) = false).
      { destruct (block_has _ _ _ _ _) eqn:Eb; [|reflexivity].
        assert (existsb (fun K => block_has (snd (bsr_blocksize x)) (snd (sp_blocksize Y))
                                    (sp_has Y) K (j / snd (sp_blocksize Y)))
                  (map fst (bsr_node x (i / fst (bsr_blocksize x)))) = true)
          by (apply existsb_exists; now exists (a / snd (bsr_blocksize x))).
        congruence. }
      rewrite (sp_has_false Y a j); [ring|].
      now apply (block_has_false _ _ _ _ _ a j Hn0 HC Hb).
    + rewrite (bsr_has_false x i a Ex). ring.
Qed.

(** ** The check of the diagonal *)

Lemma for_each_check (body : nat -> result unit) (e : exn) (l : list nat) :
  (forall i, In i l -> body i = Ok tt \/ body i = Raise e) ->
  (for_each l (fun _ i => body i) tt = Ok tt /\ forall i, In i l -> body i = Ok tt) \/
  (for_each l (fun _ i => body i) tt = Raise e /\ exists i, In i l /\ body i = Raise e).
Proof.
  induction l as [|i l IH]; intros H.
  - left. split; [reflexivity|]. intros i [].
  - cbn [for_each]. destruct (H i (or_introl eq_refl)) as [E|E]; rewrite E; cbn [bind].
    + destruct IH as [[E1 H1]|[E1 (i' & Hi' & E')]].
      * intros i' Hi'. apply H. now right.
      * left. split; [exact E1|]. intros i' [<-|Hi']; [exact E|now apply H1].
      * right. split; [exact E1|]. exists i'. split; [now right|exact E'].
    + right. split; [reflexivity|]. exists i. split; [now left|exact E].
Qed.

Lemma filter_all {A : Type} (p : A -> bool) (l : list A) :
  length l <= length (filter p l) -> forall x, In x l -> p x = true.
Proof.
  induction l as [|a l IH]; intros H x Hx; [destruct Hx|].
  cbn [filter] in H. pose proof (filter_length_le p l) as Hle.
  destruct (p a) eqn:Ea; cbn [length] in H.
  - destruct Hx as [<-|Hx]; [exact Ea|]. apply IH; [lia|exact Hx].
  - lia.
Qed.

Lemma length_sp_diagonal (A : spmatrix) :
  length (sp_diagonal A) = Nat.min (fst (sp_shape A)) (snd (sp_shape A)).
Proof. unfold sp_diagonal. now rewrite length_map, length_seq. Qed.

Lemma In_zero_positions (D : list Qc) (i : nat) :
  In i (zero_positions D) <-> i < length D /\ nth i D 0%Qc = 0%Qc.
Proof.
  unfold zero_positions. rewrite filter_In, in_seq, Qc_eqb_eq. split.
  - intros [H E]. split; [lia|exact E].
  - intros [H E]. split; [lia|exact E].
Qed.

Lemma check_zero_row_cases (BSR_Get_Row : bsr_matrix -> nat -> list Qc * list nat)
    (A : spmatrix) (i : nat) :
  sp_wf A -> i < fst (sp_shape A) ->
  (check_zero_row BSR_Get_Row A i = Ok tt /\ ~ row_is_stored BSR_Get_Row A i) \/
  (check_zero_row BSR_Get_Row A i = Raise (ValueError msg_zero_diag) /\
   row_is_stored BSR_Get_Row A i).
Proof.
  intros W Hi. destruct A as [a|a]; cbn [check_zero_row row_is_stored].
  - simpl in W, Hi. pose proof (wf_indptr_len a W) as Hlen.
    rewrite (index_ok 0) by lia. cbn [bind].
    rewrite (index_ok 0) by lia. cbn [bind].
    replace (i + 1) with (S i) by lia.
    destruct (Nat.eqb_spec (nth i (csr_indptr a) 0) (nth (S i) (csr_indptr a) 0)) as [E|E];
      cbn [negb]; [left|right]; split; auto.
  - destruct (BSR_Get_Row a i) as [zi colindx]. cbn [snd].
    destruct colindx as [|c colindx]; cbn [length Nat.ltb Nat.leb]; [left|right];
      split; auto; discriminate.
Qed.

Lemma replaced_diagonal (D : list Qc) :
  map (fun i => if existsb (Nat.eqb i) (zero_positions D) then 1%Qc else nth i D 0%Qc)
      (seq 0 (length D))
  = map (fun d => if Qc_eqb d 0%Qc then 1%Qc else d) D.
Proof.
  rewrite <- (map_seq_nth 0%Qc (fun d => if Qc_eqb d 0%Qc then 1%Qc else d) D).
  apply map_ext_in. intros i Hi. apply in_seq in Hi.
  destruct (existsb (Nat.eqb i) (zero_positions D)) eqn:E.
  - apply existsb_eqb_In, In_zero_positions in E as [_ E]. rewrite E.
    now rewrite (proj2 (Qc_eqb_eq 0%Qc 0%Qc) eq_refl).
  - apply existsb_eqb_not_In in E. destruct (Qc_eqb (nth i D 0%Qc) 0%Qc) eqn:Ez; [|reflexivity].
    exfalso. apply E. apply In_zero_positions. split; [lia|]. now apply Qc_eqb_eq.
Qed.

Lemma replaced_diagonal_nonzero (D : list Qc) :
  Forall (fun s => s <> 0%Qc) (map (fun d => if Qc_eqb d 0%Qc then 1%Qc else d) D).
Proof.
  apply Forall_map, Forall_forall. intros d _.
  destruct (Qc_eqb d 0%Qc) eqn:E.
  - discriminate.
  - intros H. apply Qc_eqb_eq in H. congruence.
Qed.

(** The outcome of lines 238-252. *)
Lemma checked_diagonal_cases (BSR_Get_Row : bsr_matrix -> nat -> list Qc * list nat)
    (A : spmatrix) :
  sp_wf A ->
  let D := sp_diagonal A in
  (checked_diagonal BSR_Get_Row A
   = Ok (map (fun d => if Qc_eqb d 0%Qc then 1%Qc else d) D) /\
   forall i, i < length D -> nth i D 0%Qc = 0%Qc -> ~ row_is_stored BSR_Get_Row A i) \/
  (checked_diagonal BSR_Get_Row A = Raise (ValueError msg_zero_diag) /\
   exists i, i < length D /\ nth i D 0%Qc = 0%Qc /\ row_is_stored BSR_Get_Row A i).
Proof.
  intros W D. unfold checked_diagonal. fold D.
  pose proof (length_sp_diagonal A) as HlenD. fold D in HlenD.
  destruct (Nat.eqb_spec (length (nonzero_indices D)) (fst (sp_shape A))) as [E|E];
    cbn [negb].
  - left.
    assert (Hall : forall i, In i (seq 0 (length D)) -> nonzero (nth i D 0%Qc) = true).
    { apply filter_all. fold (nonzero_indices D). rewrite length_seq. lia. }
    assert (Hnz : forall i, i < length D -> nth i D 0%Qc <> 0%Qc).
    { intros i Hi. apply nonzero_true. apply Hall. apply in_seq. lia. }
    split.
    + f_equal. rewrite <- (map_id D) at 1. apply map_ext_in. intros d Hd.
      destruct (In_nth D d 0%Qc Hd) as (i & Hi & <-).
      destruct (Qc_eqb (nth i D 0%Qc) 0%Qc) eqn:Ez; [|reflexivity].
      apply Qc_eqb_eq in Ez. exfalso. apply (Hnz i); [lia|exact Ez].
    + intros i Hi Ez. exfalso. now apply (Hnz i).
  - destruct (for_each_check (check_zero_row BSR_Get_Row A) (ValueError msg_zero_diag)
                (zero_positions D)) as [[E1 H1]|[E1 (i & Hi & Ei)]].
    + intros i Hi. apply In_zero_positions in Hi as [Hi _].
      destruct (check_zero_row_cases BSR_Get_Row A i W) as [[H _]|[H _]]; [lia|auto|auto].
    + left. rewrite E1. cbn [bind]. rewrite replaced_diagonal. split; [reflexivity|].
      intros i Hi Ez.
      destruct (check_zero_row_cases BSR_Get_Row A i W) as [[_ H]|[H _]]; [lia|exact H|].
      rewrite H1 in H by (apply In_zero_positions; now split). discriminate.
    + right. rewrite E1. cbn [bind]. split; [reflexivity|].
      apply In_zero_positions in Hi as [Hi Ez]. exists i. split; [exact Hi|].
      split; [exact Ez|].
      destruct (check_zero_row_cases BSR_Get_Row A i W) as [[H _]|[_ H]]; [lia| |exact H].
      rewrite Ei in H. discriminate.
Qed.

Lemma csr_row_empty (a : csr_matrix) (i : nat) :
  nth i (csr_indptr a) 0 = nth (S i) (csr_indptr a) 0 -> csr_row a i = [].
Proof.
  intros E. unfold csr_row. rewrite <- E. unfold slice. rewrite Nat.sub_diag. reflexivity.
Qed.

(** C6. For a well-formed [A], the check of lines 238-252 raises if and
    only if some row that has a zero on the diagonal is found nonzero (it
    stores something, for scalar storage; the helper [BSR_Get_Row] returns a
    column for it, for block storage), and what it raises is the [ValueError]
    with the message of the source; then [energy_prolongation_smoother]
    raises it, once its tests have passed and no operator is without
    stored values.  Otherwise the zeros of the diagonal are replaced by 1.0,
    the division [1.0/D] divides by no zero, and the rows with a zero on
    the diagonal are rows of zeros of [A] (for block storage: where the
    helper returns the columns of the nonzero values), so that scaling
    them by the inverse diagonal leaves zeros. *)
Theorem zero_diagonal_is_fatal
    (svd : dmatrix -> dmatrix * list Qc * dmatrix)
    (UnAmal : csr_matrix -> nat -> nat -> bsr_matrix)
    (BSR_Get_Row : bsr_matrix -> nat -> list Qc * list nat)
    (sa_smoothed_prolongator : spmatrix -> spmatrix -> result spmatrix)
    (A : spmatrix) :
  sp_wf A ->
  let D := sp_diagonal A in
  let D' := map (fun d => if Qc_eqb d 0%Qc then 1%Qc else d) D in
  let bad := exists i, i < length D /\ nth i D 0%Qc = 0%Qc /\
                       row_is_stored BSR_Get_Row A i in
  (bad <-> checked_diagonal BSR_Get_Row A = Raise (ValueError msg_zero_diag)) /\
  (forall e, checked_diagonal BSR_Get_Row A = Raise e -> e = ValueError msg_zero_diag) /\
  (forall (T : bsr_matrix) (Atilde : csr_matrix) (B : dmatrix) (SPD : bool)
          (num_iters : pyval) (min_tol : pyfloat) (file_output : bool),
     test_inputs num_iters min_tol (format_of (Sparse A)) FmtBSR = Ok tt ->
     bsr_nnz T <> 0 -> csr_nnz Atilde <> 0 -> sp_nnz A <> 0 -> bad ->
     energy_prolongation_smoother svd UnAmal BSR_Get_Row sa_smoothed_prolongator
       (Sparse A) (Sparse (Bsr T)) Atilde B SPD num_iters min_tol file_output
     = Raise (ValueError msg_zero_diag)) /\
  (~ bad ->
     checked_diagonal BSR_Get_Row A = Ok D' /\
     reciprocals D' = Ok (map (fun d => 1 / d)%Qc D') /\
     ((forall a i, A = Bsr a -> snd (BSR_Get_Row a i) = [] ->
                   forall j, bsr_get a i j = 0%Qc) ->
      forall i j, i < length D -> nth i D 0%Qc = 0%Qc ->
        sp_get A i j = 0%Qc /\
        (nth i (map (fun d => 1 / d)%Qc D') 0%Qc * sp_get A i j = 0)%Qc)).
Proof.
  intros W D D' bad.
  pose proof (checked_diagonal_cases BSR_Get_Row A W) as Hcases. cbv zeta in Hcases.
  fold D in Hcases. fold D' in Hcases.
  assert (Hiff : bad <-> checked_diagonal BSR_Get_Row A = Raise (ValueError msg_zero_diag)).
  { split.
    - intros (i & Hi & Ez & Hst). destruct Hcases as [[_ H]|[H _]]; [|exact H].
      exfalso. now apply (H i Hi Ez).
    - intros E. destruct Hcases as [[H _]|[_ H]]; [|exact H]. congruence. }
  split; [exact Hiff|]. split; [|split].
  - intros e E. destruct Hcases as [[H _]|[H _]]; congruence.
  - intros T Atilde B SPD num_iters min_tol file_output Htest HT HAt HA Hbad.
    unfold energy_prolongation_smoother. cbn [format_of] in Htest |- *.
    assert (Htest' : test_inputs num_iters min_tol
                       (match A with Csr _ => FmtCSR | Bsr _ => FmtBSR end) FmtBSR = Ok tt)
      by exact Htest.
    rewrite Htest'. cbn [bind]. unfold prepare.
    apply Nat.eqb_neq in HT, HAt, HA. rewrite HT, HAt, HA. cbn [orb].
    apply Hiff in Hbad. rewrite Hbad. reflexivity.
  - intros Hgood.
    destruct Hcases as [[E Hrows]|[_ H]]; [|contradiction].
    split; [exact E|]. split; [apply reciprocals_ok, replaced_diagonal_nonzero|].
    intros Hhelper i j Hi Ez.
    assert (Hz : sp_get A i j = 0%Qc).
    { specialize (Hrows i Hi Ez). destruct A as [a|a]; cbn [row_is_stored sp_get] in *.
      - unfold csr_get. rewrite csr_row_empty; [reflexivity|].
        destruct (Nat.eq_dec (nth i (csr_indptr a) 0) (nth (S i) (csr_indptr a) 0));
          [assumption|contradiction].
      - apply Hhelper; [reflexivity|]. destruct (snd (BSR_Get_Row a i)); [reflexivity|].
        exfalso. apply Hrows. discriminate. }
    split; [exact Hz|]. rewrite Hz. ring.
Qed.

Lemma zero_diagonal_is_fatal_witness :
  checked_diagonal (fun _ _ => ([], [])) (Csr ex_A_empty_row)
  = Ok (map (fun d => if Qc_eqb d 0%Qc then 1%Qc else d)
            (sp_diagonal (Csr ex_A_empty_row))) /\
  sp_get (Csr ex_A_empty_row) 1 0 = 0%Qc.
Proof.
  pose proof (zero_diagonal_is_fatal svd_1x1 (fun _ _ _ => ex_SP_bsr)
                (fun _ _ => ([], [])) (fun _ T => Ok T) (Csr ex_A_empty_row)
                (csr_wfb_wf ex_A_empty_row eq_refl)) as H.
  cbv zeta in H. destruct H as (_ & _ & _ & H).
  destruct H as (E & _ & Hz).
  - intros (i & Hi & Ez & Hst).
    destruct i as [|[|[|i]]].
    + vm_compute in Ez. discriminate Ez.
    + apply Hst. reflexivity.
    + vm_compute in Ez. discriminate Ez.
    + vm_compute in Hi. lia.
  - split; [exact E|].
    apply (Hz ltac:(intros a i Ea; discriminate Ea) 1 0).
    + vm_compute. lia.
    + apply Qc_is_canon. reflexivity.
Defined.

(** ** The residual norms of the SPD branch *)

Lemma Qc_sq_nonneg (a : Qc) : (0 <= a * a)%Qc.
Proof.
  destruct (Qclt_le_dec a 0) as [H|H].
  - replace (a * a)%Qc with ((- a) * (- a))%Qc by ring.
    assert (Ha : (0 <= - a)%Qc).
    { apply Qclt_le_weak in H. apply Qcopp_le_compat in H.
      now replace (- 0)%Qc with 0%Qc in H by ring. }
    pose proof (Qcmult_le_compat_r 0 (- a) (- a) Ha Ha) as H'.
    now rewrite Qcmult_0_l in H'.
  - pose proof (Qcmult_le_compat_r 0 a a H H) as H'. now rewrite Qcmult_0_l in H'.
Qed.

Lemma Qc_sq_pos (a : Qc) : a <> 0%Qc -> (0 < a * a)%Qc.
Proof.
  intros Ha. destruct (Qcle_lt_or_eq _ _ (Qc_sq_nonneg a)) as [H|H]; [exact H|].
  symmetry in H. apply Qcmult_integral in H. tauto.
Qed.

Lemma Qc_pos_nonneg (x y : Qc) : (0 < x)%Qc -> (0 <= y)%Qc -> (0 < x + y)%Qc.
Proof.
  intros Hx Hy. apply (Qclt_le_trans _ (x + 0)%Qc).
  - now rewrite Qcplus_0_r.
  - apply Qcplus_le_compat; [apply Qcle_refl|exact Hy].
Qed.

Lemma Qc_nonneg_pos (x y : Qc) : (0 <= x)%Qc -> (0 < y)%Qc -> (0 < x + y)%Qc.
Proof. intros Hx Hy. rewrite Qcplus_comm. now apply Qc_pos_nonneg. Qed.

Lemma Qc_nonneg_nonneg (x y : Qc) : (0 <= x)%Qc -> (0 <= y)%Qc -> (0 <= x + y)%Qc.
Proof.
  intros Hx Hy. replace 0%Qc with (0 + 0)%Qc by ring. now apply Qcplus_le_compat.
Qed.

Lemma Qc_scale_nonneg (k s : Qc) : (0 < k)%Qc -> (0 <= s)%Qc -> (0 <= k * s)%Qc.
Proof.
  intros Hk Hs. pose proof (Qcmult_le_compat_r 0 k s (Qclt_le_weak _ _ Hk) Hs) as H.
  now rewrite Qcmult_0_l in H.
Qed.

Lemma Qc_scale_pos (k s : Qc) : (0 < k)%Qc -> (0 < s)%Qc -> (0 < k * s)%Qc.
Proof.
  intros Hk Hs. pose proof (Qcmult_lt_compat_r 0 k s Hs Hk) as H.
  now rewrite Qcmult_0_l in H.
Qed.

Lemma cx5_A_entries :
  map (fun i => map (fun j => this (sp_get (Csr cx5_A) i j)) (seq 0 3)) (seq 0 3)
  = [[4; -2; 1]; [-2; 3; 1]; [1; 1; 3]]%Q.
Proof. vm_compute. reflexivity. Qed.

Lemma cx5_A_symmetric : symmetric (Csr cx5_A).
Proof.
  split; [reflexivity|]. intros i j Hi Hj. simpl in Hi, Hj. apply Qc_decomp.
  destruct i as [|[|[|i]]], j as [|[|[|j]]]; try lia; vm_compute; reflexivity.
Qed.

Lemma cx5_A_positive_definite : positive_definite (Csr cx5_A).
Proof.
  intros x (i & Hi & Hx). simpl in Hi.
  assert (E : forall i j v, i < 3 -> j < 3 ->
            nth j (nth i [[4; -2; 1]; [-2; 3; 1]; [1; 1; 3]]%Q []) 0%Q = v ->
            sp_get (Csr cx5_A) i j = Q2Qc v).
  { intros i' j' v Hi' Hj' Hv. apply Qc_is_canon. rewrite <- Hv, <- cx5_A_entries.
    destruct i' as [|[|[|i']]], j' as [|[|[|j']]]; try lia; vm_compute; reflexivity. }
  unfold sum_upto. cbn [sp_shape csr_shape cx5_A fst snd seq map qsum].
  rewrite (E 0 0 4%Q), (E 0 1 (-2)%Q), (E 0 2 1%Q), (E 1 0 (-2)%Q), (E 1 1 3%Q),
    (E 1 2 1%Q), (E 2 0 1%Q), (E 2 1 1%Q), (E 2 2 3%Q) by (try lia; reflexivity).
  set (a := x 0). set (b := x 1). set (c := x 2).
  set (u := (a - b / Q2Qc 2 + c / Q2Qc 4)%Qc).
  set (v := (b + Q2Qc 3 * c / Q2Qc 4)%Qc).
  assert (H2 : Q2Qc 2 <> 0%Qc) by discriminate.
  assert (H4 : Q2Qc 4 <> 0%Qc) by discriminate.
  assert (H8 : Q2Qc 8 <> 0%Qc) by discriminate.
  match goal with |- (0 < ?e)%Qc =>
    replace e with (Q2Qc 4 * (u * u) + (Q2Qc 2 * (v * v) + Q2Qc (13 # 8) * (c * c)))%Qc
  end.
  2:{ unfold u, v. replace (Q2Qc (13 # 8)) with (Q2Qc 13 / Q2Qc 8)%Qc
        by (apply Qc_is_canon; reflexivity).
      replace (Q2Qc (-2)) with (- Q2Qc 2)%Qc by (apply Qc_is_canon; reflexivity).
      replace (Q2Qc 4) with (Q2Qc 2 * Q2Qc 2)%Qc by (apply Qc_is_canon; reflexivity).
      replace (Q2Qc 8) with (Q2Qc 2 * Q2Qc 2 * Q2Qc 2)%Qc by (apply Qc_is_canon; reflexivity).
      replace (Q2Qc 3) with (1 + Q2Qc 2)%Qc by (apply Qc_is_canon; reflexivity).
      replace (Q2Qc 13) with (1 + Q2Qc 2 * Q2Qc 2 * (1 + Q2Qc 2))%Qc
        by (apply Qc_is_canon; reflexivity).
      replace (Q2Qc 1) with 1%Qc by (apply Qc_is_canon; reflexivity).
      replace (Q2Qc 2) with (1 + 1)%Qc by (apply Qc_is_canon; reflexivity).
      field. repeat split; discriminate. }
  assert (P4 : (0 < Q2Qc 4)%Qc) by reflexivity.
  assert (P2 : (0 < Q2Qc 2)%Qc) by reflexivity.
  assert (P13 : (0 < Q2Qc (13 # 8))%Qc) by reflexivity.
  destruct (Qc_eq_dec c 0) as [Hc|Hc].
  - destruct (Qc_eq_dec b 0) as [Hb|Hb].
    + assert (Ha : a <> 0%Qc).
      { destruct i as [|[|[|i]]]; try lia; fold a in Hx; fold b in Hx; fold c in Hx;
          congruence. }
      assert (Eu : u = a) by (unfold u; rewrite Hb, Hc; field; split; assumption).
      apply Qc_pos_nonneg.
      * apply Qc_scale_pos; [exact P4|]. rewrite Eu. now apply Qc_sq_pos.
      * apply Qc_nonneg_nonneg; apply Qc_scale_nonneg; auto using Qc_sq_nonneg.
    + assert (Ev : v = b) by (unfold v; rewrite Hc; field; assumption).
      apply Qc_nonneg_pos.
      * apply Qc_scale_nonneg; auto using Qc_sq_nonneg.
      * apply Qc_pos_nonneg.
        -- apply Qc_scale_pos; [exact P2|]. rewrite Ev. now apply Qc_sq_pos.
        -- apply Qc_scale_nonneg; auto using Qc_sq_nonneg.
  - apply Qc_nonneg_pos.
    + apply Qc_scale_nonneg; auto using Qc_sq_nonneg.
    + apply Qc_nonneg_pos.
      * apply Qc_scale_nonneg; auto using Qc_sq_nonneg.
      * apply Qc_scale_pos; [exact P13|]. now apply Qc_sq_pos.
Qed.

Lemma Qc_max_le_l (x y : Qc) : (x <= Qc_max x y)%Qc.
Proof.
  unfold Qc_max. destruct (Qc_ltb x y) eqn:E.
  - apply Qclt_le_weak. now apply Qc_ltb_lt.
  - apply Qcle_refl.
Qed.

Lemma Qc_max_le_r (x y : Qc) : (y <= Qc_max x y)%Qc.
Proof.
  unfold Qc_max. destruct (Qc_ltb x y) eqn:E.
  - apply Qcle_refl.
  - now apply Qc_ltb_ge.
Qed.

Lemma Qc_max_cases (x y : Qc) : Qc_max x y = x \/ Qc_max x y = y.
Proof. unfold Qc_max. destruct (Qc_ltb x y); auto. Qed.

Lemma fold_max_spec (l : list Qc) (m : Qc) :
  (m <= fold_left Qc_max l m)%Qc /\
  (forall v, In v l -> (v <= fold_left Qc_max l m)%Qc) /\
  (fold_left Qc_max l m = m \/ In (fold_left Qc_max l m) l).
Proof.
  revert m. induction l as [|x l IH]; intros m; cbn [fold_left].
  - split; [apply Qcle_refl|]. split; [intros v []|now left].
  - destruct (IH (Qc_max m x)) as (H1 & H2 & H3). split; [|split].
    + apply (Qcle_trans _ (Qc_max m x)); [apply Qc_max_le_l|exact H1].
    + intros v [<-|Hv]; [|now apply H2].
      apply (Qcle_trans _ (Qc_max m x)); [apply Qc_max_le_r|exact H1].
    + destruct H3 as [H3|H3]; [|right; now right].
      rewrite H3. destruct (Qc_max_cases m x) as [E|E]; rewrite E; [now left|].
      right. now left.
Qed.

(** What [max(data.__abs__())] returns. *)
Lemma max_abs_spec (data : list Qc) (r : Qc) :
  max_abs data = Ok r ->
  (forall v, In v data -> (Qcabs v <= r)%Qc) /\ (exists v, In v data /\ Qcabs v = r).
Proof.
  destruct data as [|x l]; [discriminate|]. cbn [max_abs]. intros [= <-].
  destruct (fold_max_spec (map Qcabs l) (Qcabs x)) as (H1 & H2 & H3). split.
  - intros v [<-|Hv]; [exact H1|]. apply H2. now apply in_map.
  - destruct H3 as [H3|H3].
    + exists x. split; [now left|]. now rewrite H3.
    + apply in_map_iff in H3 as (v & Ev & Hv). exists v. split; [now right|exact Ev].
Qed.

Ltac bind_ok H :=
  repeat match type of H with
         | bind ?r _ = Ok _ =>
             let E := fresh "E" in
             destruct r eqn:E; cbn [bind] in H; [|discriminate H]
         | (let '(_, _) := ?p in _) = Ok _ => destruct p
         end.

Lemma cg_step_resid (csrflag : bool) (A Dinv : spmatrix) (B : dmatrix)
    (BtBinv : list dmatrix) (colindices : list (list nat)) (s s' : state) :
  cg_step csrflag A Dinv B BtBinv colindices s = Ok s' ->
  st_i s' = st_i s + 1 /\ max_abs (sp_values (st_R s')) = Ok (st_resid s').
Proof.
  unfold cg_step. intros H. bind_ok H. injection H as <-. cbn. now split.
Qed.

Lemma minres_step_resid (csrflag : bool) (A : spmatrix) (B : dmatrix)
    (BtBinv : list dmatrix) (colindices : list (list nat)) (s s' : state) :
  minres_step csrflag A B BtBinv colindices s = Ok s' ->
  st_i s' = st_i s + 1 /\ max_abs (sp_values (st_R s')) = Ok (st_resid s').
Proof.
  unfold minres_step. intros H. bind_ok H. injection H as <-. cbn. now split.
Qed.

(** The loop leaves with its condition false, after at most [num_iters] turns. *)
Lemma while_stops (num_iters : Z) (min_tol : pyfloat) (body : state -> result state)
    (fuel : nat) (s s' : state) :
  (forall s1 s2, body s1 = Ok s2 -> st_i s2 = st_i s1 + 1) ->
  (num_iters <= Z.of_nat (st_i s + fuel))%Z ->
  while fuel (continue num_iters min_tol) body s = Ok s' ->
  continue num_iters min_tol s' = false /\ st_i s <= st_i s' <= st_i s + fuel.
Proof.
  intros Hbody. revert s. induction fuel as [|fuel IH]; intros s Hle H; cbn [while] in H.
  - injection H as <-. split; [|lia]. unfold continue.
    destruct (Z.ltb_spec (Z.of_nat (st_i s)) num_iters); [lia|reflexivity].
  - destruct (continue num_iters min_tol s) eqn:Ec.
    + destruct (body s) as [s1|] eqn:E1; cbn [bind] in H; [|discriminate].
      pose proof (Hbody _ _ E1) as Hi.
      destruct (IH s1) as [H1 H2]; [lia|exact H|]. split; [exact H1|lia].
    + injection H as <-. split; [exact Ec|lia].
Qed.

(** C5 fails as stated.  For the symmetric positive definite [cx5_A], the
    prolongator [cx5_T] of two aggregates and the constant vector, the
    largest absolute value of the stored entries of [R] is 1/2 when the loop
    of the SPD branch starts and 7/12 after its first turn. *)
Lemma residual_norm_counterexample :
  symmetric (Csr cx5_A) /\ positive_definite (Csr cx5_A) /\
  exists Dinv BtBinv colindices blocks events s0 s1,
    prepare svd_1x1 no_UnAmal no_BSR_Get_Row no_fallback
      (Csr cx5_A) cx5_T cx5_A cx5_B false
    = Ok (Ready true Dinv BtBinv colindices blocks events s0) /\
    cg_step true (Csr cx5_A) Dinv cx5_B BtBinv colindices s0 = Ok s1 /\
    minimize true (Csr cx5_A) Dinv cx5_B BtBinv colindices 1
      (FFinite (Q2Qc (1 # 100000000))) true s0 = Ok s1 /\
    st_resid s0 = Q2Qc (1 # 2) /\
    st_resid s1 = Q2Qc (7 # 12) /\
    (st_resid s0 < st_resid s1)%Qc.
Proof.
  split; [exact cx5_A_symmetric|]. split; [exact cx5_A_positive_definite|].
  do 7 eexists.
  split; [vm_compute; reflexivity|].
  split; [vm_compute; reflexivity|].
  split; [vm_compute; reflexivity|].
  split; [apply Qc_is_canon; vm_compute; reflexivity|].
  split; [apply Qc_is_canon; vm_compute; reflexivity|].
  vm_compute. reflexivity.
Qed.

(** C5, amended.  In the SPD branch, the residual norm after each turn of
    the loop is the value of [max] over the absolute values of the stored
    entries of the new [R]: it bounds each of them and is one of them.  The
    loop makes a turn only while [i < num_iters] and the norm exceeds
    [min_tol]; it leaves after at most [num_iters] turns, with this
    condition false.  (The sequence of the norms need not decrease.) *)
Theorem residual_norm_is_max_abs (csrflag : bool) (A Dinv : spmatrix) (B : dmatrix)
    (BtBinv : list dmatrix) (colindices : list (list nat))
    (num_iters : Z) (min_tol : pyfloat) :
  (forall s s',
     cg_step csrflag A Dinv B BtBinv colindices s = Ok s' ->
     st_i s' = st_i s + 1 /\
     max_abs (sp_values (st_R s')) = Ok (st_resid s') /\
     (forall v, In v (sp_values (st_R s')) -> (Qcabs v <= st_resid s')%Qc) /\
     (exists v, In v (sp_values (st_R s')) /\ Qcabs v = st_resid s')) /\
  (forall s s',
     st_i s = 0 -> (0 <= num_iters)%Z ->
     minimize csrflag A Dinv B BtBinv colindices num_iters min_tol true s = Ok s' ->
     continue num_iters min_tol s' = false /\ (Z.of_nat (st_i s') <= num_iters)%Z).
Proof.
  split.
  - intros s s' H. apply cg_step_resid in H as [Hi Hmax].
    split; [exact Hi|]. split; [exact Hmax|]. now apply max_abs_spec.
  - intros s s' Hi Hn H. unfold minimize in H.
    apply (while_stops num_iters min_tol _ (Z.to_nat num_iters) s s') in H.
    + destruct H as [H1 H2]. split; [exact H1|]. lia.
    + intros s1 s2 E. now apply cg_step_resid in E.
    + lia.
Qed.

Lemma residual_norm_is_max_abs_witness :
  exists Dinv BtBinv colindices blocks events s0 s1,
    prepare svd_1x1 no_UnAmal no_BSR_Get_Row no_fallback
      (Csr cx5_A) cx5_T cx5_A cx5_B false
    = Ok (Ready true Dinv BtBinv colindices blocks events s0) /\
    cg_step true (Csr cx5_A) Dinv cx5_B BtBinv colindices s0 = Ok s1 /\
    st_i s1 = st_i s0 + 1 /\
    max_abs (sp_values (st_R s1)) = Ok (st_resid s1) /\
    (forall v, In v (sp_values (st_R s1)) -> (Qcabs v <= st_resid s1)%Qc) /\
    (exists v, In v (sp_values (st_R s1)) /\ Qcabs v = st_resid s1).
Proof.
  do 7 eexists.
  split; [vm_compute; reflexivity|].
  match goal with |- ?P /\ _ => assert (H : P) by (vm_compute; reflexivity) end.
  split; [exact H|].
  exact (proj1 (residual_norm_is_max_abs _ _ _ _ _ _ 1%Z (FFinite 0%Qc)) _ _ H).
Defined.

(** ** The action on the near-nullspace vectors *)

Lemma dget_out_of_rect (k : nat) (B : dmatrix) (j t : nat) :
  rect k B -> k <= t -> dget B j t = 0%Qc.
Proof.
  intros HB Ht. unfold dget. destruct (Nat.lt_ge_cases j (length B)) as [Hj|Hj].
  - apply nth_overflow. unfold rect in HB. rewrite Forall_forall in HB.
    rewrite (HB (nth j B [])) by (now apply nth_In). exact Ht.
  - rewrite (nth_overflow B) by exact Hj. now destruct t.
Qed.

Lemma annihilates_of_times_dense (X : spmatrix) (B : dmatrix) (k : nat) :
  rect k B -> 0 < drows B ->
  sp_times_dense X B = Ok (dzeros (fst (sp_shape X)) k) ->
  annihilates X B.
Proof.
  intros HB HBpos H i t Hi.
  destruct (Nat.lt_ge_cases t k) as [Ht|Ht].
  - assert (E : sp_times_dense X B
                = Ok (dmake (fst (sp_shape X)) (dcols B)
                        (fun i t => sum_upto (snd (sp_shape X))
                                      (fun j => sp_get X i j * dget B j t)%Qc))).
    { destruct X as [x|x]; cbn [sp_times_dense sp_shape sp_get] in *.
      - unfold csr_times_dense in *. destruct (snd (csr_shape x) =? drows B);
          [reflexivity|discriminate].
      - unfold bsr_times_dense in *. destruct (snd (bsr_shape x) =? drows B);
          [reflexivity|discriminate]. }
    rewrite E in H. injection H as H. rewrite (dcols_rect k B HB HBpos) in H.
    apply (f_equal (fun M => dget M i t)) in H. unfold dzeros in H.
    rewrite !dget_dmake in H by assumption. exact H.
  - apply sum_upto_zero. intros j _. rewrite (dget_out_of_rect k B j t HB Ht). ring.
Qed.

Lemma csr_get_not_zero_stored (A : csr_matrix) (i j : nat) :
  csr_get A i j <> 0%Qc -> csr_stored A i j.
Proof.
  intros H. apply csr_has_stored. destruct (csr_has A i j) eqn:E; [reflexivity|].
  now apply csr_has_false in E.
Qed.

Lemma csr_pattern_subset_masked (shape : nat * nat) (g : nat -> nat -> Qc)
    (SP : csr_matrix) :
  csr_pattern_subset (csr_of_fun shape (fun i j => g i j * csr_get SP i j)%Qc) SP.
Proof.
  intros i j H. apply csr_stored_of_fun in H as (_ & _ & H).
  apply csr_get_not_zero_stored. intros E. apply H. rewrite E. ring.
Qed.

Lemma csr_set_data_ones (SP Sc : csr_matrix) :
  csr_all_ones SP ->
  csr_shape Sc = csr_shape SP -> csr_indptr Sc = csr_indptr SP ->
  csr_indices Sc = csr_indices SP ->
  csr_set_data Sc (repeat 1%Qc (length (csr_data SP))) = SP.
Proof.
  intros Hones Hs Hp Hi. unfold csr_set_data. rewrite Hs, Hp, Hi, <- Hones.
  now destruct SP.
Qed.

(** The projector on scalar storage, as the loops use it. *)
Lemma projector_ok_csr (SP : csr_matrix) (B : dmatrix) (BtBinv : list dmatrix)
    (colindices : list (list nat)) (k : nat) :
  csr_wf SP -> csr_all_ones SP -> 0 < k -> rect k B ->
  drows B = snd (csr_shape SP) -> 0 < drows B ->
  table_shaped k (Csr SP) BtBinv -> table_inverts k B (Csr SP) BtBinv ->
  projector_ok true B BtBinv colindices (Csr SP).
Proof.
  intros W Hones Hk HB HBrows HBpos [HGlen HG] Hinv X U Hcls _ Hmul.
  destruct X as [x|x]; [|discriminate Hcls].
  apply sp_multiply_inv in Hmul as [Hsh ->]. cbn [sp_shape] in Hsh.
  cbn [sp_of_fun sp_get]. rewrite <- Hsh.
  set (U := csr_of_fun (csr_shape SP) (fun i j => csr_get x i j * csr_get SP i j)%Qc).
  assert (HshU : csr_shape U = csr_shape SP) by reflexivity.
  cbn [sp_supports fst snd] in HGlen, HG, Hinv.
  destruct (Satisfy_Constraints_CSR_returns U SP B BtBinv k W HshU Hk HB HBrows HBpos
              HGlen HG) as (Sc & Hsc & E).
  destruct Hsc as (Hs1 & Hs2 & Hs3 & _).
  rewrite (csr_set_data_ones SP Sc Hones Hs1 Hs2 Hs3) in E.
  eexists. split.
  - cbn [Satisfy_Constraints]. rewrite E. cbn [bind]. reflexivity.
  - split; [reflexivity|]. split; [reflexivity|]. split; [reflexivity|].
    apply (annihilates_of_times_dense _ B k HB HBpos). cbn [sp_times_dense sp_shape].
    unfold projected_CSR at 2. rewrite csr_shape_of_fun, HshU.
    apply (projected_CSR_times_B U SP B BtBinv k W HshU Hk HB HBrows HBpos HGlen HG).
    + apply csr_pattern_subset_masked.
    + exact Hinv.
Qed.

Lemma bsr_has_stored (A : bsr_matrix) (i j : nat) :
  bsr_has A i j = true <-> bsr_stored A i j.
Proof. apply existsb_eqb_In. Qed.

Lemma bsr_pattern_subset_masked (g : nat -> nat -> Qc) (SP : bsr_matrix) :
  bsr_wf SP ->
  bsr_pattern_subset
    (bsr_of_fun (bsr_shape SP) (bsr_blocksize SP) (fun i j => g i j * bsr_get SP i j)%Qc)
    SP.
Proof.
  intros W i j H.
  pose proof (bwf_R_pos SP W) as HR. pose proof (bwf_C_pos SP W) as HC.
  destruct (bsr_shape SP) as [n m] eqn:Es. destruct (bsr_blocksize SP) as [R C] eqn:Eb.
  apply bsr_stored_of_fun in H; try assumption.
  2:{ pose proof (bwf_rows SP W) as Hn. now rewrite Es, Eb in Hn. }
  2:{ pose proof (bwf_cols SP W) as Hm. now rewrite Es, Eb in Hm. }
  destruct H as (i' & j' & Hi & Hj & _ & _ & Hnz).
  apply bsr_has_stored.
  assert (Hs : bsr_has SP i' j' = true).
  { destruct (bsr_has SP i' j') eqn:E; [reflexivity|].
    apply bsr_has_false in E. exfalso. apply Hnz. rewrite E. ring. }
  rewrite bsr_has_node in Hs |- * by (rewrite Eb; exact HC).
  rewrite Eb in Hs |- *. cbn [fst snd] in Hs |- *. now rewrite <- Hi, <- Hj.
Qed.

Lemma ones_fixed (data : list dmatrix) :
  Forall (Forall (Forall (fun v => v = 1%Qc))) data ->
  map (fun blk => map (fun row => map (fun _ => 1%Qc) row) blk) data = data.
Proof.
  intros H. induction H as [|blk data Hblk _ IH]; [reflexivity|].
  cbn [map]. rewrite IH. f_equal.
  induction Hblk as [|row blk Hrow _ IHb]; [reflexivity|].
  cbn [map]. rewrite IHb. f_equal.
  induction Hrow as [|v row Hv _ IHr]; [reflexivity|].
  cbn [map]. now rewrite IHr, Hv.
Qed.

Lemma bsr_set_data_ones (SP : bsr_matrix) (B : dmatrix) (BtBinv : list dmatrix)
    (UB : dmatrix) (st : bsr_matrix * nat) :
  bsr_wf SP -> bsr_all_ones SP ->
  bscratch_inv SP B BtBinv UB (fst (bsr_shape SP) / fst (bsr_blocksize SP)) st ->
  bsr_set_data (fst st)
    (map (fun blk => map (fun row => map (fun _ => 1%Qc) row) blk) (bsr_data (fst st)))
  = SP.
Proof.
  intros W Hones Hinv.
  pose proof (scratch_blocks_shape SP B BtBinv UB st W Hinv) as Hshape.
  destruct Hinv as (_ & Hs & Hb & Hp & Hi & Hlen & _).
  rewrite (ones_blocks _ _ _ Hshape), Hlen.
  rewrite <- (ones_blocks _ _ _ (bwf_blocks SP W)), (ones_fixed _ Hones).
  unfold bsr_set_data. rewrite Hs, Hb, Hp, Hi. now destruct SP.
Qed.

(** The projector on block storage, as the loops use it. *)
Lemma projector_ok_bsr (SP : bsr_matrix) (B : dmatrix) (BtBinv : list dmatrix) (k : nat) :
  bsr_wf SP -> bsr_all_ones SP -> 0 < k -> rect k B ->
  drows B = snd (bsr_shape SP) -> 0 < drows B ->
  table_shaped k (Bsr SP) BtBinv -> table_inverts k B (Bsr SP) BtBinv ->
  projector_ok false B BtBinv (BSR_Get_Colindices SP) (Bsr SP).
Proof.
  intros W Hones Hk HB HBrows HBpos [HGlen HG] Hinv X U Hcls Hbsz Hmul.
  destruct X as [x|x]; [discriminate Hcls|].
  apply sp_multiply_inv in Hmul as [Hsh ->]. cbn [sp_shape] in Hsh.
  cbn [sp_blocksize] in Hbsz.
  cbn [sp_of_fun sp_get]. rewrite <- Hsh, Hbsz.
  set (U := bsr_of_fun (bsr_shape SP) (bsr_blocksize SP)
              (fun i j => bsr_get x i j * bsr_get SP i j)%Qc).
  assert (HshU : bsr_shape U = bsr_shape SP) by reflexivity.
  assert (HbsU : bsr_blocksize U = bsr_blocksize SP) by reflexivity.
  assert (Ebs : bsr_blocksize SP = (fst (bsr_blocksize SP), snd (bsr_blocksize SP)))
    by apply surjective_pairing.
  cbn [sp_supports fst snd] in HGlen, HG, Hinv.
  destruct (Satisfy_Constraints_BSR_returns U SP B BtBinv k _ _ W HshU HbsU Ebs Hk HB
              HBrows HBpos HGlen HG) as (st & Hsc & E).
  rewrite (bsr_set_data_ones SP B BtBinv _ st W Hones Hsc) in E.
  eexists. split.
  - cbn [Satisfy_Constraints]. rewrite E. cbn [bind]. reflexivity.
  - split; [reflexivity|]. split; [reflexivity|]. split; [reflexivity|].
    apply (annihilates_of_times_dense _ B k HB HBpos). cbn [sp_times_dense sp_shape].
    unfold projected_BSR at 2. cbn [bsr_shape bsr_of_fun bsr_of_nodes]. rewrite HshU.
    apply (projected_BSR_times_B U SP B BtBinv k _ _ W HshU HbsU Ebs Hk HB HBrows HBpos
             HGlen HG).
    + apply bsr_pattern_subset_masked. exact W.
    + exact Hinv.
Qed.

Lemma is_csr_of_fun (X : spmatrix) (f : nat -> nat -> Qc) :
  is_csr (sp_of_fun X f) = is_csr X.
Proof. now destruct X. Qed.

Lemma is_csr_scale (a : Qc) (X : spmatrix) : is_csr (sp_scale a X) = is_csr X.
Proof. now destruct X. Qed.

Lemma sp_matmul_class (X Y Z : spmatrix) :
  sp_matmul X Y = Ok Z -> is_csr Y = is_csr X ->
  is_csr Z = is_csr X /\ sp_blocksize Z = (fst (sp_blocksize X), snd (sp_blocksize Y)).
Proof.
  unfold sp_matmul. destruct (snd (sp_shape X) =? fst (sp_shape Y)); [|discriminate].
  destruct X as [x|x], Y as [y|y]; intros [= <-] Hc; try discriminate Hc; now split.
Qed.

Lemma sp_tiles_same (X Y : spmatrix) :
  sp_tiles Y -> sp_shape X = sp_shape Y -> sp_blocksize X = sp_blocksize Y -> sp_tiles X.
Proof. unfold sp_tiles. intros H -> ->. exact H. Qed.

Lemma sp_tiles_of_wf (X : spmatrix) : sp_wf X -> sp_tiles X.
Proof.
  destruct X as [x|x]; intros W; [apply sp_tiles_csr|].
  unfold sp_tiles. cbn [sp_shape sp_blocksize].
  split; [apply W|]. split; [apply W|]. split; apply W.
Qed.

(** The action of an element-wise result on [B]. *)
Lemma sp_of_fun_action (X : spmatrix) (f : nat -> nat -> Qc) (B : dmatrix) (i t : nat) :
  sp_tiles X -> i < fst (sp_shape X) ->
  sum_upto (snd (sp_shape (sp_of_fun X f)))
    (fun j => sp_get (sp_of_fun X f) i j * dget B j t)%Qc
  = sum_upto (snd (sp_shape X)) (fun j => f i j * dget B j t)%Qc.
Proof.
  intros HX Hi. rewrite sp_shape_of_fun. apply sum_upto_ext. intros j Hj.
  rewrite sp_get_of_fun by exact HX.
  apply Nat.ltb_lt in Hi, Hj. now rewrite Hi, Hj.
Qed.

Lemma sum_upto_plus (n : nat) (f g : nat -> Qc) :
  sum_upto n (fun i => f i + g i)%Qc = (sum_upto n f + sum_upto n g)%Qc.
Proof. apply qsum_map_plus. Qed.

Lemma annihilates_scale (a : Qc) (X : spmatrix) (B : dmatrix) :
  annihilates X B -> annihilates (sp_scale a X) B.
Proof.
  intros H i t Hi. rewrite sp_shape_scale in *.
  rewrite (sum_upto_ext _ _ (fun j => a * (sp_get X i j * dget B j t))%Qc).
  - rewrite sum_upto_scale_l, (H i t Hi). ring.
  - intros j _. rewrite sp_get_scale. ring.
Qed.

Lemma annihilates_add (X Y Z : spmatrix) (B : dmatrix) :
  sp_add X Y = Ok Z -> sp_tiles X -> annihilates X B -> annihilates Y B ->
  annihilates Z B.
Proof.
  intros H HX HaX HaY. apply sp_add_inv in H as [Hsh ->]. intros i t Hi.
  rewrite sp_shape_of_fun in Hi. rewrite sp_of_fun_action by assumption.
  rewrite (sum_upto_ext _ _ (fun j => sp_get X i j * dget B j t
                                      + sp_get Y i j * dget B j t)%Qc)
    by (intros; ring).
  rewrite sum_upto_plus, (HaX i t Hi).
  rewrite <- Hsh in Hi |- *. rewrite (HaY i t Hi). ring.
Qed.

Lemma annihilates_sub (X Y Z : spmatrix) (B : dmatrix) :
  sp_sub X Y = Ok Z -> sp_tiles X -> annihilates X B -> annihilates Y B ->
  annihilates Z B.
Proof.
  intros H HX HaX HaY. apply sp_sub_inv in H as [Hsh ->]. intros i t Hi.
  rewrite sp_shape_of_fun in Hi. rewrite sp_of_fun_action by assumption.
  rewrite (sum_upto_ext _ _ (fun j => sp_get X i j * dget B j t
                                      - sp_get Y i j * dget B j t)%Qc)
    by (intros; ring).
  rewrite sum_upto_minus, (HaX i t Hi).
  rewrite <- Hsh in Hi |- *. rewrite (HaY i t Hi). ring.
Qed.

(** Adding an operator that annihilates [B] keeps the action on [B]. *)
Lemma same_action_add (X Y Z : spmatrix) (B : dmatrix) :
  sp_add X Y = Ok Z -> sp_tiles X -> annihilates Y B -> same_action Z X B.
Proof.
  intros H HX HaY. apply sp_add_inv in H as [Hsh ->].
  split; [apply sp_shape_of_fun|]. intros i t Hi.
  rewrite sp_shape_of_fun in Hi. rewrite sp_of_fun_action by assumption.
  rewrite (sum_upto_ext _ _ (fun j => sp_get X i j * dget B j t
                                      + sp_get Y i j * dget B j t)%Qc)
    by (intros; ring).
  rewrite sum_upto_plus.
  rewrite <- Hsh in Hi. rewrite <- Hsh at 2. rewrite (HaY i t Hi). ring.
Qed.

Lemma same_action_trans (X Y Z : spmatrix) (B : dmatrix) :
  same_action X Y B -> same_action Y Z B -> same_action X Z B.
Proof.
  intros [H1 H2] [H3 H4]. split; [congruence|]. intros i t Hi.
  rewrite (H2 i t Hi). apply H4. now rewrite <- H1.
Qed.

Lemma same_action_refl (X : spmatrix) (B : dmatrix) : same_action X X B.
Proof. now split. Qed.

(** A product annihilates what its right factor annihilates. *)
Lemma annihilates_matmul (X Y Z : spmatrix) (B : dmatrix) :
  sp_matmul X Y = Ok Z -> sp_tiles X -> sp_tiles Y -> annihilates Y B ->
  annihilates Z B.
Proof.
  intros H HX HY HaY i t Hi.
  pose proof (sp_matmul_shape X Y Z H) as [Hin Hsh]. rewrite Hsh in Hi |- *.
  cbn [fst snd] in Hi |- *.
  rewrite (sum_upto_ext _ _
             (fun j => sum_upto (fst (sp_shape Y))
                         (fun a => sp_get X i a * (sp_get Y a j * dget B j t)))%Qc).
  2:{ intros j Hj. rewrite (sp_get_matmul X Y Z i j H HX HY Hi Hj).
      rewrite <- sum_upto_scale_r. apply sum_upto_ext. intros a _. ring. }
  rewrite sum_upto_swap. apply sum_upto_zero. intros a Ha.
  rewrite sum_upto_scale_l, (HaY a t Ha). ring.
Qed.

(** ** The invariant of the loops *)

Section LoopInvariant.
Variables (csrflag : bool) (A Dinv : spmatrix) (B : dmatrix) (BtBinv : list dmatrix).
Variables (colindices : list (list nat)) (SP T0 : spmatrix).
Hypothesis Henv : loop_env csrflag A Dinv B BtBinv colindices SP.

Lemma pair_eq (p q : nat * nat) : fst p = fst q -> snd p = snd q -> p = q.
Proof. destruct p, q. simpl. now intros -> ->. Qed.

(** The residual after a step, whatever is subtracted from it. *)
Lemma residual_update (R X R' : spmatrix) :
  is_csr R = csrflag -> sp_blocksize R = sp_blocksize SP -> sp_shape R = sp_shape SP ->
  annihilates R B -> annihilates X B -> sp_sub R X = Ok R' ->
  is_csr R' = csrflag /\ sp_blocksize R' = sp_blocksize SP /\
  sp_shape R' = sp_shape SP /\ annihilates R' B.
Proof.
  intros Hc Hb Hs Ha HaX H. destruct Henv as (HSP & _).
  assert (HtR : sp_tiles R) by (now apply (sp_tiles_same R SP)).
  pose proof (annihilates_sub R X R' B H HtR Ha HaX) as Ha'.
  apply sp_sub_inv in H as [_ ->].
  rewrite is_csr_of_fun, sp_blocksize_of_fun, sp_shape_of_fun. auto.
Qed.

(** The prolongator after a step. *)
Lemma prolongator_update (T X T' : spmatrix) :
  sp_tiles T -> same_action T T0 B -> annihilates X B -> sp_add T X = Ok T' ->
  sp_tiles T' /\ same_action T' T0 B.
Proof.
  intros Ht Hs HaX H. split.
  - apply sp_add_inv in H as [_ ->]. now apply sp_tiles_of_fun.
  - apply (same_action_trans T' T T0); [|exact Hs].
    now apply (same_action_add T X T').
Qed.

(** A product by [A] (or [Dinv]), masked by the pattern and projected. *)
Lemma constrained_product (M X Y U U' SP' : spmatrix) :
  is_csr M = csrflag -> fst (sp_blocksize M) = fst (sp_blocksize SP) ->
  is_csr X = csrflag -> snd (sp_blocksize X) = snd (sp_blocksize SP) ->
  sp_matmul M X = Ok Y -> sp_multiply Y SP = Ok U ->
  Satisfy_Constraints csrflag B BtBinv colindices U SP = Ok (U', SP') ->
  SP' = SP /\ is_csr U' = csrflag /\ sp_shape U' = sp_shape SP /\
  sp_blocksize U' = sp_blocksize SP /\ annihilates U' B.
Proof.
  intros HcM HbM HcX HbX Hmm Hmul Hsc.
  destruct Henv as (_ & _ & _ & _ & _ & _ & _ & Hproj).
  destruct (sp_matmul_class M X Y Hmm ltac:(congruence)) as [HcY HbY].
  destruct (Hproj Y U) as (U1 & E & H1 & H2 & H3 & H4).
  - congruence.
  - rewrite HbY. apply pair_eq; cbn [fst snd]; congruence.
  - exact Hmul.
  - rewrite E in Hsc. injection Hsc as <- <-. auto.
Qed.

Lemma cg_step_inv (s s' : state) :
  loop_inv csrflag B SP T0 s ->
  cg_step csrflag A Dinv B BtBinv colindices s = Ok s' ->
  loop_inv csrflag B SP T0 s'.
Proof.
  intros (Hpat & HcR & HbR & HsR & HaR & HtT & HsT & HP) H.
  pose proof Henv as (HSP & HcA & HcD & HtA & HtD & HbA & HbD & Hproj).
  assert (HtR : sp_tiles (st_R s)) by (now apply (sp_tiles_same _ SP)).
  unfold cg_step in H. rewrite Hpat in H.
  destruct (sp_matmul Dinv (st_R s)) as [Z|] eqn:EZ; cbn [bind] in H; [|discriminate].
  destruct (sp_multiply (st_R s) Z) as [RZ|] eqn:ERZ; cbn [bind] in H; [|discriminate].
  destruct (sp_matmul_class _ _ _ EZ ltac:(congruence)) as [HcZ HbZ].
  assert (HbZ' : sp_blocksize Z = sp_blocksize SP).
  { rewrite HbZ. apply pair_eq; cbn [fst snd]; congruence. }
  pose proof (sp_matmul_tiles _ _ _ EZ HtD HtR) as HtZ.
  pose proof (annihilates_matmul _ _ _ B EZ HtD HtR HaR) as HaZ.
  match type of H with bind ?c _ = _ => destruct c as [P|] eqn:EP end;
    cbn [bind] in H; [|discriminate].
  assert (HPnew : is_csr P = csrflag /\ sp_blocksize P = sp_blocksize SP /\
                  sp_tiles P /\ annihilates P B).
  { destruct (st_i s =? 0).
    - injection EP as <-. rewrite HcZ, HcD. auto.
    - destruct (bound (st_oldsum s)) as [oldsum|]; cbn [bind] in EP; [|discriminate].
      destruct (divide (sp_sum RZ) oldsum) as [beta|]; cbn [bind] in EP; [|discriminate].
      destruct (st_P s) as [Pold|] eqn:EPold; cbn [bind bound] in EP; [|discriminate].
      destruct (HP Pold eq_refl) as (_ & _ & _ & HaPold).
      pose proof (annihilates_add Z _ P B EP HtZ HaZ (annihilates_scale beta _ _ HaPold))
        as HaP.
      apply sp_add_inv in EP as [_ ->].
      rewrite is_csr_of_fun, sp_blocksize_of_fun, HcZ, HcD.
      split; [reflexivity|]. split; [exact HbZ'|]. split; [|exact HaP].
      now apply sp_tiles_of_fun. }
  destruct HPnew as (HcP & HbP & HtP & HaP).
  destruct (sp_matmul A P) as [AP0|] eqn:EAP0; cbn [bind] in H; [|discriminate].
  destruct (sp_multiply AP0 SP) as [AP1|] eqn:EAP1; cbn [bind] in H; [|discriminate].
  destruct (Satisfy_Constraints csrflag B BtBinv colindices AP1 SP) as [[AP SP']|] eqn:ESC;
    cbn [bind] in H; [|discriminate].
  destruct (constrained_product A P AP0 AP1 AP SP' HcA HbA HcP (f_equal snd HbP)
              EAP0 EAP1 ESC)
    as (-> & HcAP & HsAP & HbAP & HaAP).
  destruct (sp_multiply P AP) as [PAP|]; cbn [bind] in H; [|discriminate].
  destruct (divide (sp_sum RZ) (sp_sum PAP)) as [alpha|]; cbn [bind] in H; [|discriminate].
  destruct (sp_add (st_T s) (sp_scale alpha P)) as [T'|] eqn:ET; cbn [bind] in H;
    [|discriminate].
  destruct (sp_sub (st_R s) (sp_scale alpha AP)) as [R'|] eqn:ER; cbn [bind] in H;
    [|discriminate].
  destruct (max_abs (sp_values R')) as [resid|]; cbn [bind] in H; [|discriminate].
  injection H as <-. unfold loop_inv. cbn [st_pattern st_R st_T st_P].
  destruct (residual_update _ _ _ HcR HbR HsR HaR (annihilates_scale alpha _ _ HaAP) ER)
    as (H1 & H2 & H3 & H4).
  destruct (prolongator_update _ _ _ HtT HsT (annihilates_scale alpha _ _ HaP) ET)
    as (H5 & H6).
  repeat (split; [assumption || reflexivity|]).
  intros P' [= <-]. auto.
Qed.

Lemma minres_step_inv (s s' : state) :
  loop_inv csrflag B SP T0 s ->
  minres_step csrflag A B BtBinv colindices s = Ok s' ->
  loop_inv csrflag B SP T0 s'.
Proof.
  intros (Hpat & HcR & HbR & HsR & HaR & HtT & HsT & HP) H.
  pose proof Henv as (HSP & HcA & HcD & HtA & HtD & HbA & HbD & Hproj).
  unfold minres_step in H. rewrite Hpat in H.
  destruct (sp_matmul A (st_R s)) as [P0|] eqn:EP0; cbn [bind] in H; [|discriminate].
  destruct (sp_multiply P0 SP) as [P1|] eqn:EP1; cbn [bind] in H; [|discriminate].
  destruct (Satisfy_Constraints csrflag B BtBinv colindices P1 SP) as [[P SP']|] eqn:ESC;
    cbn [bind] in H; [|discriminate].
  destruct (constrained_product A _ P0 P1 P SP' HcA HbA HcR (f_equal snd HbR)
              EP0 EP1 ESC)
    as (-> & HcP & HsP & HbP & HaP).
  destruct (sp_multiply P (st_R s)) as [PR|]; cbn [bind] in H; [|discriminate].
  destruct (sp_multiply P P) as [PP|]; cbn [bind] in H; [|discriminate].
  destruct (divide (sp_sum PR) (sp_sum PP)) as [alpha|]; cbn [bind] in H; [|discriminate].
  destruct (sp_add (st_T s) (sp_scale alpha (st_R s))) as [T'|] eqn:ET; cbn [bind] in H;
    [|discriminate].
  destruct (sp_sub (st_R s) (sp_scale alpha P)) as [R'|] eqn:ER; cbn [bind] in H;
    [|discriminate].
  destruct (max_abs (sp_values R')) as [resid|]; cbn [bind] in H; [|discriminate].
  injection H as <-. unfold loop_inv. cbn [st_pattern st_R st_T st_P].
  destruct (residual_update _ _ _ HcR HbR HsR HaR (annihilates_scale alpha _ _ HaP) ER)
    as (H1 & H2 & H3 & H4).
  destruct (prolongator_update _ _ _ HtT HsT (annihilates_scale alpha _ _ HaR) ET)
    as (H5 & H6).
  repeat (split; [assumption || reflexivity|]).
  exact HP.
Qed.

Lemma while_inv (cond : state -> bool) (body : state -> result state) (fuel : nat)
    (s s' : state) :
  (forall s1 s2, loop_inv csrflag B SP T0 s1 -> body s1 = Ok s2 ->
                 loop_inv csrflag B SP T0 s2) ->
  loop_inv csrflag B SP T0 s -> while fuel cond body s = Ok s' ->
  loop_inv csrflag B SP T0 s'.
Proof.
  intros Hbody. revert s. induction fuel as [|fuel IH]; intros s Hs H; cbn [while] in H.
  - now injection H as <-.
  - destruct (cond s); [|now injection H as <-].
    destruct (body s) as [s1|] eqn:E; cbn [bind] in H; [|discriminate].
    apply (IH s1); [|exact H]. now apply (Hbody s).
Qed.

(** The invariant holds when the loops are left. *)
Lemma minimize_inv (num_iters : Z) (min_tol : pyfloat) (SPD : bool) (s s' : state) :
  loop_inv csrflag B SP T0 s ->
  minimize csrflag A Dinv B BtBinv colindices num_iters min_tol SPD s = Ok s' ->
  loop_inv csrflag B SP T0 s'.
Proof.
  intros Hs H. unfold minimize in H. apply (while_inv _ _ _ s s') in H; [exact H| |exact Hs].
  destruct SPD; [apply cg_step_inv|apply minres_step_inv].
Qed.

End LoopInvariant.

(** ** The pattern the function builds *)

Lemma total_firstn_le (lens : list nat) (i j : nat) :
  i <= j -> total (firstn i lens) <= total (firstn j lens).
Proof.
  revert i j. induction lens as [|n ns IH]; intros i j Hij.
  - now rewrite !firstn_nil.
  - destruct i as [|i]; [simpl; lia|]. destruct j as [|j]; [lia|].
    simpl. specialize (IH i j ltac:(lia)). unfold total in *. simpl. lia.
Qed.

Lemma Forall_concat {A : Type} (P : A -> Prop) (ls : list (list A)) :
  Forall (Forall P) ls -> Forall P (List.concat ls).
Proof.
  intros H. induction H as [|l ls Hl _ IH]; [constructor|].
  simpl. apply Forall_app. now split.
Qed.

(** Rows of entries with columns below the width give well-formed storage. *)
Lemma csr_of_rows_wf (shape : nat * nat) (rows : list (list (nat * Qc))) :
  length rows = fst shape ->
  Forall (Forall (fun e => fst e < snd shape)) rows ->
  csr_wf (csr_of_rows shape rows).
Proof.
  intros Hlen Hcols. unfold csr_of_rows.
  set (lens := map (@List.length _) rows).
  assert (Hll : length lens = fst shape) by (unfold lens; now rewrite length_map).
  constructor; cbn [csr_shape csr_indptr csr_indices csr_data].
  - now rewrite length_build_indptr, Hll.
  - rewrite nth_build_indptr by lia. reflexivity.
  - intros i Hi. rewrite !nth_build_indptr by lia. cbn [Nat.add].
    apply total_firstn_le. lia.
  - rewrite nth_build_indptr by lia. cbn [Nat.add].
    rewrite <- Hll, firstn_all.
    symmetry. apply length_concat_map. intros l. apply length_map.
  - rewrite !(length_concat_map _ rows) by (intros l; apply length_map). reflexivity.
  - apply Forall_concat. apply Forall_map.
    apply (Forall_impl _ (P := Forall (fun e => fst e < snd shape))); [|exact Hcols].
    intros l Hl. apply Forall_map. exact Hl.
Qed.

Lemma In_insert_entry {A : Type} (e x : nat * A) (l : list (nat * A)) :
  In e (insert_entry x l) <-> e = x \/ In e l.
Proof.
  induction l as [|y l IH]; cbn [insert_entry].
  - simpl. intuition congruence.
  - destruct (fst x <=? fst y); cbn [In]; [intuition congruence|].
    rewrite IH. intuition congruence.
Qed.

Lemma In_sort_entries {A : Type} (e : nat * A) (l : list (nat * A)) :
  In e (sort_entries l) <-> In e l.
Proof.
  unfold sort_entries. induction l as [|x l IH]; cbn [fold_right]; [reflexivity|].
  rewrite In_insert_entry, IH. simpl. intuition congruence.
Qed.

Lemma Forall_sort_entries {A : Type} (P : nat * A -> Prop) (l : list (nat * A)) :
  Forall P l -> Forall P (sort_entries l).
Proof.
  rewrite !Forall_forall. intros H e He. apply H. now apply In_sort_entries.
Qed.

Lemma all_ones_repeat (l : list Qc) :
  Forall (fun v => v = 1%Qc) l -> l = repeat 1%Qc (length l).
Proof.
  intros H. induction H as [|v l Hv _ IH]; [reflexivity|]. simpl. now rewrite Hv, <- IH.
Qed.

Lemma csr_row_set_data_map (g : Qc -> Qc) (X : csr_matrix) (i : nat) :
  csr_row (csr_set_data X (map g (csr_data X))) i
  = map (fun e => (fst e, g (snd e))) (csr_row X i).
Proof.
  unfold csr_row, csr_set_data. cbn [csr_indptr csr_indices csr_data].
  now rewrite slice_map, combine_map_r.
Qed.

(** The scalar pattern: the product of lines 275-277, with ones, sorted. *)
Lemma csr_pattern_facts (shape : nat * nat) (present : nat -> nat -> bool)
    (f : nat -> nat -> Qc) (SP : csr_matrix) :
  sp_sort_indices (sp_set_ones (Csr (csr_of_mask shape present f))) = Csr SP ->
  csr_wf SP /\ csr_all_ones SP /\ csr_shape SP = shape.
Proof.
  cbn [sp_sort_indices sp_set_ones]. intros [= <-].
  set (y := csr_of_mask shape present f).
  assert (Hrow : forall i, i < fst shape ->
            Forall (fun e => fst e < snd shape /\ snd e = 1%Qc)
              (sort_entries (csr_row (csr_set_data y (map (fun _ => 1%Qc) (csr_data y))) i))).
  { intros i Hi. apply Forall_sort_entries. rewrite csr_row_set_data_map.
    unfold y. rewrite csr_row_of_mask. apply Nat.ltb_lt in Hi. rewrite Hi.
    apply Forall_map, Forall_map, Forall_forall. intros j Hj. cbn [fst snd].
    apply filter_In in Hj as [Hj _]. apply in_seq in Hj. split; [lia|reflexivity]. }
  cbn [csr_shape csr_set_data].
  replace (csr_shape y) with shape by reflexivity.
  split; [|split; [|reflexivity]].
  - apply csr_of_rows_wf.
    + now rewrite length_map, length_seq.
    + apply Forall_map, Forall_forall. intros i Hi. apply in_seq in Hi.
      apply (Forall_impl _ (P := fun e => fst e < snd shape /\ snd e = 1%Qc));
        [tauto|apply Hrow; lia].
  - unfold csr_all_ones. apply all_ones_repeat. cbn [csr_of_rows csr_data].
    apply Forall_concat. apply Forall_map, Forall_map, Forall_forall. intros i Hi.
    apply in_seq in Hi. apply Forall_map.
    apply (Forall_impl _ (P := fun e => fst e < snd shape /\ snd e = 1%Qc));
      [tauto|apply Hrow; lia].
Qed.

Lemma bsr_of_nodes_wf (shape blocksize : nat * nat) (nodes : list (list (nat * dmatrix))) :
  0 < fst blocksize -> 0 < snd blocksize ->
  fst shape mod fst blocksize = 0 -> snd shape mod snd blocksize = 0 ->
  length nodes = fst shape / fst blocksize ->
  Forall (Forall (fun e => fst e < snd shape / snd blocksize /\
                           drows (snd e) = fst blocksize /\
                           rect (snd blocksize) (snd e))) nodes ->
  bsr_wf (bsr_of_nodes shape blocksize nodes).
Proof.
  intros HR HC Hn Hm Hlen Hnodes. unfold bsr_of_nodes.
  set (lens := map (@List.length _) nodes).
  assert (Hll : length lens = fst shape / fst blocksize)
    by (unfold lens; now rewrite length_map).
  constructor; cbn [bsr_shape bsr_blocksize bsr_indptr bsr_indices bsr_data];
    try assumption.
  - now rewrite length_build_indptr, Hll.
  - rewrite nth_build_indptr by lia. reflexivity.
  - intros i Hi. rewrite !nth_build_indptr by lia. cbn [Nat.add].
    apply total_firstn_le. lia.
  - rewrite nth_build_indptr by lia. cbn [Nat.add].
    rewrite <- Hll, firstn_all.
    symmetry. apply length_concat_map. intros l. apply length_map.
  - rewrite !(length_concat_map _ nodes) by (intros l; apply length_map). reflexivity.
  - apply Forall_concat. apply Forall_map.
    eapply Forall_impl; [|exact (Hnodes)]; cbv beta. intros l Hl. apply Forall_map.
    eapply Forall_impl; [|exact (Hl)]; cbv beta. tauto.
  - apply Forall_concat. apply Forall_map.
    eapply Forall_impl; [|exact (Hnodes)]; cbv beta. intros l Hl. apply Forall_map.
    eapply Forall_impl; [|exact (Hl)]; cbv beta. tauto.
Qed.

Lemma bsr_node_set_data_map (g : dmatrix -> dmatrix) (X : bsr_matrix) (I : nat) :
  bsr_node (bsr_set_data X (map g (bsr_data X))) I
  = map (fun e => (fst e, g (snd e))) (bsr_node X I).
Proof.
  unfold bsr_node, bsr_set_data. cbn [bsr_indptr bsr_indices bsr_data].
  now rewrite slice_map, combine_map_r.
Qed.

Lemma ones_block_facts (R C : nat) (f : nat -> nat -> Qc) (I J : nat) :
  let blk := map (map (fun _ : Qc => 1%Qc)) (block_of_fun R C f I J) in
  drows blk = R /\ rect C blk /\ Forall (Forall (fun v => v = 1%Qc)) blk.
Proof.
  cbv zeta. unfold block_of_fun. split; [|split].
  - unfold drows. now rewrite length_map, drows_dmake.
  - unfold rect. apply Forall_map.
    eapply Forall_impl; [|exact (rect_dmake R C _)]; cbv beta. intros row Hrow.
    now rewrite length_map.
  - apply Forall_map, Forall_forall. intros row _. apply Forall_map, Forall_forall.
    reflexivity.
Qed.

(** The block pattern: the product of lines 266-269, with ones, sorted. *)
Lemma bsr_pattern_facts (shape blocksize : nat * nat) (present : nat -> nat -> bool)
    (f : nat -> nat -> Qc) (SP : bsr_matrix) :
  0 < fst blocksize -> 0 < snd blocksize ->
  fst shape mod fst blocksize = 0 -> snd shape mod snd blocksize = 0 ->
  sp_sort_indices (sp_set_ones (Bsr (bsr_of_mask shape blocksize present f))) = Bsr SP ->
  bsr_wf SP /\ bsr_all_ones SP /\ bsr_shape SP = shape /\ bsr_blocksize SP = blocksize.
Proof.
  intros HR HC Hn Hm. cbn [sp_sort_indices sp_set_ones]. intros [= <-].
  set (y := bsr_of_mask shape blocksize present f).
  set (x := bsr_set_data y (map (map (map (fun _ : Qc => 1%Qc))) (bsr_data y))).
  assert (Hnode : forall I, I < fst shape / fst blocksize ->
            Forall (fun e => (fst e < snd shape / snd blocksize /\
                              drows (snd e) = fst blocksize /\
                              rect (snd blocksize) (snd e)) /\
                             Forall (Forall (fun v => v = 1%Qc)) (snd e))
              (sort_entries (bsr_node x I))).
  { intros I HI. apply Forall_sort_entries. unfold x.
    rewrite (bsr_node_set_data_map (map (map (fun _ : Qc => 1%Qc)))).
    unfold y, bsr_of_mask.
    rewrite bsr_node_of_nodes by (rewrite length_map, length_seq; exact HI).
    rewrite (nth_map_seq [] (fun I => mask_node (fst blocksize) (snd blocksize)
                                       (snd shape / snd blocksize) (present I) f I) _ _ HI).
    unfold mask_node. apply Forall_map, Forall_map, Forall_forall. intros J HJ.
    cbn [fst snd]. apply filter_In in HJ as [HJ _]. apply in_seq in HJ.
    destruct (ones_block_facts (fst blocksize) (snd blocksize) f I J) as (H1 & H2 & H3).
    repeat split; try assumption. lia. }
  replace (bsr_shape x) with shape by reflexivity.
  replace (bsr_blocksize x) with blocksize by reflexivity.
  split; [|split; [|split; reflexivity]].
  - apply bsr_of_nodes_wf; try assumption.
    + now rewrite length_map, length_seq.
    + apply Forall_map, Forall_forall. intros I HI. apply in_seq in HI.
      eapply Forall_impl; [|exact (Hnode I ltac:(lia))]; cbv beta. tauto.
  - unfold bsr_all_ones. cbn [bsr_of_nodes bsr_data].
    apply Forall_concat. apply Forall_map, Forall_map, Forall_forall. intros I HI.
    apply in_seq in HI. apply Forall_map.
    eapply Forall_impl; [|exact (Hnode I ltac:(lia))]; cbv beta. tauto.
Qed.

(** ** Conversions between the classes *)

Lemma csr_get_tocsr (X : bsr_matrix) (i j : nat) :
  i < fst (bsr_shape X) -> csr_get (bsr_tocsr X) i j = bsr_get X i j.
Proof.
  intros Hi. unfold csr_get, bsr_get, bsr_tocsr.
  rewrite csr_row_of_rows by (rewrite length_map, length_seq; exact Hi).
  now rewrite (nth_map_seq [] (bsr_row X) _ _ Hi).
Qed.

Lemma same_action_tocsr (T : bsr_matrix) (B : dmatrix) :
  same_action (Csr (bsr_tocsr T)) (Bsr T) B.
Proof.
  split; [reflexivity|]. intros i t Hi. cbn [sp_shape bsr_tocsr csr_of_rows csr_shape] in *.
  apply sum_upto_ext. intros j _. cbn [sp_get]. now rewrite csr_get_tocsr.
Qed.

Lemma csr_tobsr_inv (X : csr_matrix) (blocksize : nat * nat) (Y : bsr_matrix) :
  csr_tobsr X blocksize = Ok Y ->
  sp_tiles (Bsr Y) /\ bsr_shape Y = csr_shape X /\ bsr_blocksize Y = blocksize /\
  forall i j, i < fst (csr_shape X) -> j < snd (csr_shape X) ->
    bsr_get Y i j = csr_get X i j.
Proof.
  unfold csr_tobsr. destruct blocksize as [R C]. destruct (csr_shape X) as [n m] eqn:Es.
  cbn [fst snd].
  destruct (Nat.ltb_spec 0 R) as [HR|]; [|discriminate].
  destruct (Nat.ltb_spec 0 C) as [HC|]; [|discriminate].
  destruct (Nat.eqb_spec (n mod R) 0) as [Hn|]; [|discriminate].
  destruct (Nat.eqb_spec (m mod C) 0) as [Hm|]; [|discriminate].
  cbn [andb]. intros [= <-]. split; [|split; [reflexivity|split; [reflexivity|]]].
  - unfold sp_tiles. cbn. auto.
  - intros i j Hi Hj. rewrite bsr_get_of_mask by assumption.
    apply Nat.ltb_lt in Hi, Hj. rewrite Hi, Hj. cbn [andb].
    destruct (block_has R C (csr_has X) (i / R) (j / C)) eqn:E; [reflexivity|].
    symmetry. apply csr_has_false.
    now apply (block_has_false R C (csr_has X) (i / R) (j / C) i j).
Qed.

Lemma same_action_tobsr (X : csr_matrix) (blocksize : nat * nat) (Y : bsr_matrix)
    (B : dmatrix) :
  csr_tobsr X blocksize = Ok Y -> same_action (Bsr Y) (Csr X) B.
Proof.
  intros H. apply csr_tobsr_inv in H as (_ & Hs & _ & Hget).
  split; [exact Hs|]. intros i t Hi. cbn [sp_shape sp_get] in *. rewrite Hs in *.
  apply sum_upto_ext. intros j Hj. now rewrite Hget.
Qed.

(** [Dinv] has the class and the row block size of [A]. *)
Lemma diagonal_preconditioner_facts (A : spmatrix) (D : list Qc) (Nfine : nat)
    (Dinv : spmatrix) :
  diagonal_preconditioner A D Nfine = Ok Dinv ->
  is_csr Dinv = is_csr A /\ sp_tiles Dinv /\
  fst (sp_blocksize Dinv) = fst (sp_blocksize A).
Proof.
  unfold diagonal_preconditioner.
  destruct (reciprocals D) as [d|]; cbn [bind]; [|discriminate].
  destruct A as [a|a].
  - intros [= <-]. split; [reflexivity|]. split; [apply sp_tiles_csr|reflexivity].
  - destruct (csr_tobsr (spdiags d Nfine) (bsr_blocksize a)) as [X|] eqn:E;
      cbn [bind]; [|discriminate].
    intros [= <-]. apply csr_tobsr_inv in E as (Ht & _ & Hb & _).
    split; [reflexivity|]. split; [exact Ht|]. cbn [sp_blocksize]. now rewrite Hb.
Qed.

Lemma same_action_times_dense (X Y : spmatrix) (B : dmatrix) :
  same_action X Y B -> sp_times_dense X B = sp_times_dense Y B.
Proof.
  intros [Hs H].
  assert (E : forall Z, sp_times_dense Z B
                = if snd (sp_shape Z) =? drows B
                  then Ok (dmake (fst (sp_shape Z)) (dcols B)
                             (fun i t => sum_upto (snd (sp_shape Z))
                                           (fun j => sp_get Z i j * dget B j t)%Qc))
                  else Raise (ValueError msg_dim_mismatch)).
  { intros [z|z]; reflexivity. }
  rewrite !E, Hs. destruct (snd (sp_shape Y) =? drows B); [|reflexivity].
  f_equal. apply dmake_ext. intros i t Hi _.
  rewrite <- (H i t) by (rewrite Hs; exact Hi). now rewrite Hs.
Qed.

(** ** From the arguments to the loops *)

Lemma sp_shape_abs (X : spmatrix) : sp_shape (sp_abs X) = sp_shape X.
Proof. now destruct X. Qed.

Lemma sp_blocksize_abs (X : spmatrix) : sp_blocksize (sp_abs X) = sp_blocksize X.
Proof. now destruct X. Qed.

Lemma sparsity_pattern_facts (UnAmal : csr_matrix -> nat -> nat -> bsr_matrix)
    (A : spmatrix) (T : bsr_matrix) (Atilde : csr_matrix) (B : dmatrix)
    (T' SP : spmatrix) (colindices : list (list nat)) :
  bsr_wf T ->
  (forall a, A = Bsr a ->
     sp_tiles (Bsr (UnAmal Atilde (fst (bsr_blocksize a)) (fst (bsr_blocksize a)))) /\
     fst (bsr_blocksize (UnAmal Atilde (fst (bsr_blocksize a)) (fst (bsr_blocksize a))))
     = fst (bsr_blocksize a)) ->
  sparsity_pattern UnAmal A T Atilde = Ok (T', SP, colindices) ->
  sp_wf SP /\ sp_all_ones SP /\ is_csr SP = is_csr A /\ is_csr T' = is_csr A /\
  snd (sp_shape SP) = snd (bsr_shape T) /\
  fst (sp_blocksize SP) = fst (sp_blocksize A) /\
  snd (sp_blocksize SP) = snd (sp_blocksize T') /\
  sp_tiles T' /\ same_action T' (Bsr T) B /\
  (forall sp, SP = Bsr sp -> colindices = BSR_Get_Colindices sp).
Proof.
  intros WT HUn H. unfold sparsity_pattern in H. destruct A as [a|a].
  - destruct (sp_matmul _ _) as [Y|] eqn:EY; cbn [bind] in H; [|discriminate].
    remember (sp_sort_indices (sp_set_ones Y)) as S1 eqn:ES1.
    injection H as <- <- <-.
    unfold sp_matmul in EY. cbn [sp_abs sp_shape] in EY.
    destruct (snd (csr_shape (csr_abs Atilde)) =? fst (csr_shape (csr_abs (bsr_tocsr T))));
      [|discriminate].
    injection EY as <-.
    destruct S1 as [sp|sp]; [|cbn [sp_sort_indices sp_set_ones] in ES1; discriminate ES1].
    symmetry in ES1. apply csr_pattern_facts in ES1 as (W & Hones & Hsh).
    cbn [sp_wf sp_all_ones is_csr sp_shape sp_blocksize fst snd].
    rewrite Hsh. cbn [fst snd].
    split; [exact W|]. split; [exact Hones|]. do 5 (split; [reflexivity|]).
    split; [apply sp_tiles_csr|]. split; [apply same_action_tocsr|]. discriminate.
  - destruct (HUn a eq_refl) as [HtU HbU].
    set (Un := UnAmal Atilde (fst (bsr_blocksize a)) (fst (bsr_blocksize a))) in *.
    destruct (sp_matmul _ _) as [Y|] eqn:EY; cbn [bind] in H; [|discriminate].
    remember (sp_sort_indices (sp_set_ones Y)) as S1 eqn:ES1.
    assert (Hcol : forall sp, S1 = Bsr sp -> colindices = BSR_Get_Colindices sp).
    { intros sp ->. now injection H as _ <-. }
    assert (ET : T' = Bsr T /\ SP = S1).
    { destruct S1; injection H as <- <- _; now split. }
    destruct ET as [-> ->]. clear H.
    unfold sp_matmul in EY. cbn [sp_abs sp_shape sp_blocksize] in EY.
    destruct (snd (bsr_shape (bsr_abs Un)) =? fst (bsr_shape (bsr_abs T)));
      [|discriminate].
    injection EY as <-.
    destruct S1 as [sp|sp]; [cbn [sp_sort_indices sp_set_ones] in ES1; discriminate ES1|].
    symmetry in ES1.
    destruct HtU as (HR & _ & Hn & _).
    cbn [sp_shape sp_blocksize] in HR, Hn.
    apply bsr_pattern_facts in ES1 as (W & Hones & Hsh & Hbs);
      cbn [fst snd bsr_abs bsr_set_data bsr_blocksize bsr_shape];
      try assumption; try apply WT.
    cbn [sp_wf sp_all_ones is_csr sp_shape sp_blocksize].
    rewrite Hsh, Hbs. cbn [fst snd bsr_abs bsr_set_data bsr_blocksize bsr_shape].
    split; [exact W|]. split; [exact Hones|]. do 2 (split; [reflexivity|]).
    split; [reflexivity|]. split; [exact HbU|]. split; [reflexivity|].
    split; [apply (sp_tiles_of_wf (Bsr T)); exact WT|].
    split; [apply same_action_refl|].
    exact Hcol.
Qed.

(** The call of the projector returns and leaves the pattern as it was,
    whatever the table holds. *)
Lemma projector_returns_csr (SP : csr_matrix) (B : dmatrix) (BtBinv : list dmatrix)
    (colindices : list (list nat)) (k : nat) (X U : spmatrix) :
  csr_wf SP -> csr_all_ones SP -> 0 < k -> rect k B ->
  drows B = snd (csr_shape SP) -> 0 < drows B ->
  table_shaped k (Csr SP) BtBinv ->
  is_csr X = true -> sp_multiply X (Csr SP) = Ok U ->
  exists U', Satisfy_Constraints true B BtBinv colindices U (Csr SP) = Ok (U', Csr SP).
Proof.
  intros W Hones Hk HB HBrows HBpos [HGlen HG] Hcls Hmul.
  destruct X as [x|x]; [|discriminate Hcls].
  apply sp_multiply_inv in Hmul as [Hsh ->]. cbn [sp_shape] in Hsh.
  cbn [sp_of_fun sp_get]. rewrite <- Hsh.
  set (U := csr_of_fun (csr_shape SP) (fun i j => csr_get x i j * csr_get SP i j)%Qc).
  assert (HshU : csr_shape U = csr_shape SP) by reflexivity.
  cbn [sp_supports fst snd] in HGlen, HG.
  destruct (Satisfy_Constraints_CSR_returns U SP B BtBinv k W HshU Hk HB HBrows HBpos
              HGlen HG) as (Sc & Hsc & E).
  destruct Hsc as (Hs1 & Hs2 & Hs3 & _).
  rewrite (csr_set_data_ones SP Sc Hones Hs1 Hs2 Hs3) in E.
  eexists. cbn [Satisfy_Constraints]. rewrite E. cbn [bind]. reflexivity.
Qed.

Lemma projector_returns_bsr (SP : bsr_matrix) (B : dmatrix) (BtBinv : list dmatrix)
    (k : nat) (X U : spmatrix) :
  bsr_wf SP -> bsr_all_ones SP -> 0 < k -> rect k B ->
  drows B = snd (bsr_shape SP) -> 0 < drows B ->
  table_shaped k (Bsr SP) BtBinv ->
  is_csr X = false -> sp_blocksize X = bsr_blocksize SP ->
  sp_multiply X (Bsr SP) = Ok U ->
  exists U',
    Satisfy_Constraints false B BtBinv (BSR_Get_Colindices SP) U (Bsr SP) = Ok (U', Bsr SP).
Proof.
  intros W Hones Hk HB HBrows HBpos [HGlen HG] Hcls Hbsz Hmul.
  destruct X as [x|x]; [discriminate Hcls|].
  apply sp_multiply_inv in Hmul as [Hsh ->]. cbn [sp_shape] in Hsh.
  cbn [sp_blocksize] in Hbsz.
  cbn [sp_of_fun sp_get]. rewrite <- Hsh, Hbsz.
  set (U := bsr_of_fun (bsr_shape SP) (bsr_blocksize SP)
              (fun i j => bsr_get x i j * bsr_get SP i j)%Qc).
  assert (HshU : bsr_shape U = bsr_shape SP) by reflexivity.
  assert (HbsU : bsr_blocksize U = bsr_blocksize SP) by reflexivity.
  assert (Ebs : bsr_blocksize SP = (fst (bsr_blocksize SP), snd (bsr_blocksize SP)))
    by apply surjective_pairing.
  cbn [sp_supports fst snd] in HGlen, HG.
  destruct (Satisfy_Constraints_BSR_returns U SP B BtBinv k _ _ W HshU HbsU Ebs Hk HB
              HBrows HBpos HGlen HG) as (st & Hsc & E).
  rewrite (bsr_set_data_ones SP B BtBinv _ st W Hones Hsc) in E.
  eexists. cbn [Satisfy_Constraints]. rewrite E. cbn [bind]. reflexivity.
Qed.

(** The table the function builds has its entries, of the right shape. *)
Lemma build_BtBinv_shaped (svd : dmatrix -> dmatrix * list Qc * dmatrix) (k : nat)
    (B : dmatrix) (SP : spmatrix) (colindices : list (list nat)) (BtBinv : list dmatrix) :
  0 < k ->
  (forall M, drows M = k -> rect k M -> svd_shapes k (svd M)) ->
  rect k B -> sp_wf SP -> drows B = snd (sp_shape SP) ->
  (forall sp, SP = Bsr sp -> colindices = BSR_Get_Colindices sp) ->
  build_BtBinv svd SP B colindices (fst (sp_shape SP)) k = Ok BtBinv ->
  table_shaped k SP BtBinv.
Proof.
  intros Hk Hsvd HB W HBrows Hcol H. destruct SP as [sp|sp]; cbn [build_BtBinv] in H.
  - destruct (build_BtBinv_CSR_spec svd B k Hk Hsvd HB sp W HBrows)
      as (t & E & Hlen & Hdone & _).
    cbn [sp_shape] in H. rewrite E in H. injection H as <-.
    split; cbn [sp_supports fst snd]; [lia|].
    intros i Hi. apply (table_entry_shape svd k B (csr_colindx sp i)). now apply Hdone.
  - destruct (build_BtBinv_BSR_spec svd B k Hk Hsvd HB sp W HBrows)
      as (t & E & Hlen & Hdone & _).
    rewrite (Hcol sp eq_refl) in H. cbn [sp_shape] in H. rewrite E in H. injection H as <-.
    split; cbn [sp_supports fst snd]; [lia|].
    intros i Hi. apply (table_entry_shape svd k B (node_colindx sp i)). now apply Hdone.
Qed.

(** What holds when the loops start. *)
Lemma prepare_ready (svd : dmatrix -> dmatrix * list Qc * dmatrix)
    (UnAmal : csr_matrix -> nat -> nat -> bsr_matrix)
    (BSR_Get_Row : bsr_matrix -> nat -> list Qc * list nat)
    (sa_smoothed_prolongator : spmatrix -> spmatrix -> result spmatrix)
    (A : spmatrix) (T : bsr_matrix) (Atilde : csr_matrix) (B : dmatrix)
    (file_output : bool) (k : nat)
    (csrflag : bool) (Dinv : spmatrix) (BtBinv : list dmatrix)
    (colindices : list (list nat)) (blocks : nat * nat) (events : list event)
    (s0 : state) :
  0 < k -> rect k B -> drows B = snd (bsr_shape T) -> 0 < drows B ->
  (forall M, drows M = k -> rect k M -> svd_shapes k (svd M)) ->
  sp_tiles A -> fst (sp_shape A) = snd (sp_shape A) -> bsr_wf T ->
  (forall a, A = Bsr a ->
     sp_tiles (Bsr (UnAmal Atilde (fst (bsr_blocksize a)) (fst (bsr_blocksize a)))) /\
     fst (bsr_blocksize (UnAmal Atilde (fst (bsr_blocksize a)) (fst (bsr_blocksize a))))
     = fst (bsr_blocksize a)) ->
  prepare svd UnAmal BSR_Get_Row sa_smoothed_prolongator A T Atilde B file_output
  = Ok (Ready csrflag Dinv BtBinv colindices blocks events s0) ->
  table_inverts k B (st_pattern s0) BtBinv ->
  csrflag = is_csr A /\ blocks = bsr_blocksize T /\
  loop_env csrflag A Dinv B BtBinv colindices (st_pattern s0) /\
  loop_inv csrflag B (st_pattern s0) (Bsr T) s0.
Proof.
  intros Hk HB HBrows HBpos Hsvd HtA Hsq WT HUn H Hinv.
  unfold prepare in H.
  destruct ((bsr_nnz T =? 0) || (csr_nnz Atilde =? 0) || (sp_nnz A =? 0));
    [discriminate H|].
  destruct (checked_diagonal BSR_Get_Row A) as [D|]; cbn [bind] in H; [|discriminate].
  destruct (diagonal_preconditioner A D (fst (bsr_shape T))) as [Dinv1|] eqn:ED;
    cbn [bind] in H; [|discriminate].
  destruct (sparsity_pattern UnAmal A T Atilde) as [[[T' SP] cols]|] eqn:ESP;
    cbn [bind] in H; [|discriminate].
  destruct (build_BtBinv svd SP B cols (fst (bsr_shape T)) (dcols B)) as [G|] eqn:EG;
    cbn [bind] in H; [|discriminate].
  destruct (sp_matmul (sp_neg A) T') as [R1|] eqn:ER1; cbn [bind] in H; [|discriminate].
  destruct (sp_multiply R1 SP) as [R2|] eqn:ER2; cbn [bind] in H; [|discriminate].
  match type of H with bind ?c _ = _ => destruct c as [[R SP']|] eqn:ESC end;
    cbn [bind] in H; [|discriminate].
  destruct (sp_nnz R =? 0).
  { destruct (sa_smoothed_prolongator A T'); discriminate H. }
  destruct (max_abs (sp_values R)) as [resid|]; cbn [bind] in H; [|discriminate].
  injection H as <- <- <- <- <- <- <-. cbn [st_pattern] in Hinv |- *.
  set (csrflag := match A with Csr _ => true | Bsr _ => false end) in *.
  assert (Hflag : csrflag = is_csr A) by (now destruct A).
  destruct (diagonal_preconditioner_facts A D _ Dinv1 ED) as (HcD & HtD & HbD).
  destruct (sparsity_pattern_facts UnAmal A T Atilde B T' SP cols WT HUn ESP)
    as (W & Hones & HcSP & HcT & HsSP & HbSP1 & HbSP2 & HtT & HaT & Hcols).
  (* the shapes *)
  destruct (sp_matmul_shape _ _ _ ER1) as [Hin HsR1].
  unfold sp_neg in Hin, HsR1. rewrite sp_shape_scale in Hin, HsR1.
  pose proof (sp_multiply_inv _ _ _ ER2) as [HsSPR _].
  assert (Hrows : fst (sp_shape SP) = fst (bsr_shape T)).
  { rewrite HsSPR, HsR1. cbn [fst]. rewrite Hsq, Hin.
    destruct HaT as [E _]. now rewrite E. }
  assert (Hdcols : dcols B = k) by (now apply dcols_rect).
  assert (HBrowsSP : drows B = snd (sp_shape SP)) by congruence.
  (* the table *)
  assert (Hshaped : table_shaped k SP G).
  { apply (build_BtBinv_shaped svd k B SP cols G); try assumption.
    now rewrite Hrows, <- Hdcols. }
  (* the first projection leaves the pattern *)
  destruct (sp_matmul_class _ _ _ ER1) as [HcR1 HbR1].
  { unfold sp_neg. rewrite is_csr_scale. congruence. }
  unfold sp_neg in HcR1, HbR1. rewrite is_csr_scale in HcR1.
  rewrite sp_blocksize_scale in HbR1.
  assert (HbR1' : sp_blocksize R1 = sp_blocksize SP).
  { rewrite HbR1. apply pair_eq; cbn [fst snd]; congruence. }
  assert (HSP' : SP' = SP).
  { destruct SP as [sp|sp].
    - assert (Ef : csrflag = true) by (rewrite Hflag, <- HcSP; reflexivity).
      rewrite Ef in ESC.
      destruct (projector_returns_csr sp B G cols k R1 R2 W Hones Hk HB HBrowsSP HBpos
                  Hshaped) as (U' & E); [congruence|exact ER2|].
      rewrite E in ESC. now injection ESC as _ <-.
    - assert (Ef : csrflag = false) by (rewrite Hflag, <- HcSP; reflexivity).
      rewrite Ef in ESC. rewrite (Hcols sp eq_refl) in ESC.
      destruct (projector_returns_bsr sp B G k R1 R2 W Hones Hk HB HBrowsSP HBpos
                  Hshaped) as (U' & E); [congruence|exact HbR1'|exact ER2|].
      rewrite E in ESC. now injection ESC as _ <-. }
  subst SP'.
  (* the surroundings of the loops *)
  assert (Hproj : projector_ok csrflag B G cols SP).
  { destruct SP as [sp|sp].
    - assert (Ef : csrflag = true) by (rewrite Hflag, <- HcSP; reflexivity).
      rewrite Ef. now apply (projector_ok_csr sp B G cols k).
    - assert (Ef : csrflag = false) by (rewrite Hflag, <- HcSP; reflexivity).
      rewrite Ef, (Hcols sp eq_refl). now apply (projector_ok_bsr sp B G k). }
  assert (Henv : loop_env csrflag A Dinv1 B G cols SP).
  { unfold loop_env. split; [now apply sp_tiles_of_wf|].
    split; [now symmetry|]. split; [congruence|]. split; [exact HtA|].
    split; [exact HtD|]. split; [now symmetry|]. split; [congruence|exact Hproj]. }
  split; [exact Hflag|]. split; [reflexivity|]. split; [exact Henv|].
  assert (Hc1 : is_csr (sp_neg A) = csrflag)
    by (unfold sp_neg; rewrite is_csr_scale; now symmetry).
  assert (Hb1 : fst (sp_blocksize (sp_neg A)) = fst (sp_blocksize SP))
    by (unfold sp_neg; rewrite sp_blocksize_scale; now symmetry).
  assert (Hc2 : is_csr T' = csrflag) by congruence.
  assert (Hb2 : snd (sp_blocksize T') = snd (sp_blocksize SP)) by (now symmetry).
  destruct (constrained_product csrflag A Dinv1 B G cols SP Henv (sp_neg A) T' R1 R2 R SP
              Hc1 Hb1 Hc2 Hb2 ER1 ER2 ESC) as (_ & H1 & H2 & H3 & H4).
  unfold loop_inv. cbn [st_pattern st_R st_T st_P].
  split; [reflexivity|]. do 4 (split; [assumption|]).
  split; [exact HtT|]. split; [exact HaT|]. discriminate.
Qed.

(** Where the builder truncates, the action on [B] is not kept.  With a
    near-nullspace vector of scale 1e-6 the local Gram matrices are 1e-12,
    below the absolute threshold of the builder: the table holds zeros, the
    projector removes nothing, and one turn of the loop of the SPD branch
    moves the action of the prolongator on [B] from (1, 1) to
    (-11/166, 13/249). *)
Lemma nullspace_action_counterexample :
  symmetric (Csr cx1_A) /\
  exists Dinv BtBinv colindices blocks events s0 P printed TB PB,
    prepare svd_1x1 no_UnAmal no_BSR_Get_Row no_fallback (Csr cx1_A) cx1_T cx1_A cx_B false
    = Ok (Ready true Dinv BtBinv colindices blocks events s0) /\
    energy_prolongation_smoother svd_1x1 no_UnAmal no_BSR_Get_Row no_fallback
      (Sparse (Csr cx1_A)) (Sparse (Bsr cx1_T)) cx1_A cx_B true (PyInt 1)
      (FFinite (Q2Qc (1 # 100000000))) false
    = Ok (P, printed) /\
    sp_times_dense (Bsr cx1_T) cx_B = Ok TB /\
    sp_times_dense P cx_B = Ok PB /\
    dvalues TB = [[1]; [1]]%Q /\
    dvalues PB = [[-11 # 166]; [13 # 249]]%Q /\
    PB <> TB.
Proof.
  split.
  { split; [reflexivity|]. intros i j Hi Hj. simpl in Hi, Hj. apply Qc_decomp.
    destruct i as [|[|i]], j as [|[|j]]; try lia; vm_compute; reflexivity. }
  do 10 eexists.
  split; [vm_compute; reflexivity|].
  split; [vm_compute; reflexivity|].
  split; [vm_compute; reflexivity|].
  split; [vm_compute; reflexivity|].
  split; [vm_compute; reflexivity|].
  split; [vm_compute; reflexivity|].
  intros E. apply (f_equal dvalues) in E. vm_compute in E. discriminate.
Qed.



(** ** What the residual stores *)

Lemma csr_data_of_fun_nonzero (shape : nat * nat) (f : nat -> nat -> Qc) (v : Qc) :
  In v (csr_data (csr_of_fun shape f)) -> v <> 0%Qc.
Proof.
  unfold csr_of_fun, csr_of_rows. cbn [csr_data]. intros H.
  apply in_concat in H as (row & Hrow & Hv).
  apply in_map_iff in Hrow as (es & <- & Hes).
  apply in_map_iff in Hes as (i & <- & _).
  apply in_map_iff in Hv as (e & <- & He).
  unfold fun_row in He. apply filter_In in He as [_ He]. now apply nonzero_true.
Qed.

Lemma bsr_values_of_fun_nonzero (shape blocksize : nat * nat) (f : nat -> nat -> Qc) :
  bsr_values (bsr_of_fun shape blocksize f) <> [] ->
  exists v, In v (bsr_values (bsr_of_fun shape blocksize f)) /\ v <> 0%Qc.
Proof.
  unfold bsr_values, bsr_of_fun, bsr_of_nodes. cbn [bsr_data].
  set (data := List.concat (map (map snd) _)). intros Hne.
  assert (Hblk : exists blk v, In blk data /\ In v (List.concat blk)).
  { destruct (List.concat (List.concat data)) as [|v l] eqn:E; [now elim Hne|].
    assert (Hv : In v (List.concat (List.concat data))) by (rewrite E; now left).
    apply in_concat in Hv as (row & Hrow & Hv).
    apply in_concat in Hrow as (blk & Hblk & Hrow).
    exists blk, v. split; [exact Hblk|]. apply in_concat. now exists row. }
  destruct Hblk as (blk & v0 & Hblk & _).
  assert (Hnz : block_nonzero blk = true).
  { unfold data in Hblk. apply in_concat in Hblk as (l & Hl & Hb).
    apply in_map_iff in Hl as (node & <- & Hnode).
    apply in_map_iff in Hnode as (I & <- & _).
    apply in_map_iff in Hb as (e & <- & He).
    unfold fun_node in He. now apply filter_In in He as [_ He]. }
  apply block_nonzero_true in Hnz as (r & c & Hr & Hc & Hv).
  exists (dget blk r c). split; [|exact Hv].
  apply in_concat. exists (nth r blk []). split.
  - apply in_concat. exists blk. split; [exact Hblk|]. now apply nth_In.
  - unfold dget. now apply nth_In.
Qed.

Lemma sp_values_of_fun_nonzero (X : spmatrix) (f : nat -> nat -> Qc) :
  sp_values (sp_of_fun X f) <> [] ->
  exists v, In v (sp_values (sp_of_fun X f)) /\ v <> 0%Qc.
Proof.
  destruct X as [x|x]; cbn [sp_of_fun sp_values].
  - intros Hne. destruct (csr_data _) as [|v l] eqn:E; [now elim Hne|].
    exists v. split; [now left|]. apply (csr_data_of_fun_nonzero (csr_shape x) f).
    rewrite E. now left.
  - apply bsr_values_of_fun_nonzero.
Qed.

Lemma Qcabs_gt_0 (v : Qc) : v <> 0%Qc -> (0 < Qcabs v)%Qc.
Proof.
  intros Hv. destruct (Qcle_lt_or_eq _ _ (Qcabs_nonneg v)) as [H|H]; [exact H|].
  symmetry in H. apply Qcabs_null in H. contradiction.
Qed.

Lemma cg_step_residual (csrflag : bool) (A Dinv : spmatrix) (B : dmatrix)
    (BtBinv : list dmatrix) (colindices : list (list nat)) (s s' : state) :
  cg_step csrflag A Dinv B BtBinv colindices s = Ok s' ->
  exists X, sp_sub (st_R s) X = Ok (st_R s').
Proof.
  unfold cg_step. intros H. bind_ok H. injection H as <-. cbn [st_R].
  eexists. eassumption.
Qed.

Lemma minres_step_residual (csrflag : bool) (A : spmatrix) (B : dmatrix)
    (BtBinv : list dmatrix) (colindices : list (list nat)) (s s' : state) :
  minres_step csrflag A B BtBinv colindices s = Ok s' ->
  exists X, sp_sub (st_R s) X = Ok (st_R s').
Proof.
  unfold minres_step. intros H. bind_ok H. injection H as <-. cbn [st_R].
  eexists. eassumption.
Qed.

Lemma nonzero_zero : nonzero 0%Qc = false.
Proof. now apply nonzero_false. Qed.

Lemma concat_nils {A C : Type} (l : list C) : List.concat (map (fun _ => @nil A) l) = [].
Proof. induction l as [|x l IH]; [reflexivity|]. exact IH. Qed.

Lemma csr_data_of_zero (shape : nat * nat) :
  csr_data (csr_of_fun shape (fun _ _ => 0%Qc)) = [].
Proof.
  unfold csr_of_fun, csr_of_rows. cbn [csr_data]. rewrite map_map.
  rewrite (map_ext _ (fun _ => @nil Qc)); [apply concat_nils|].
  intros i. unfold fun_row. induction (seq 0 (snd shape)) as [|j l IH]; [reflexivity|].
  cbn [map filter snd]. rewrite nonzero_zero. exact IH.
Qed.

Lemma block_of_zero (R C I J : nat) :
  block_nonzero (block_of_fun R C (fun _ _ => 0%Qc) I J) = false.
Proof.
  unfold block_nonzero, block_of_fun, dmake.
  assert (Hrow : forall l : list nat, existsb nonzero (map (fun _ => 0%Qc) l) = false).
  { intros l. induction l as [|c l IH]; [reflexivity|].
    cbn [map existsb]. now rewrite nonzero_zero, IH. }
  induction (seq 0 R) as [|r l IH]; [reflexivity|].
  cbn [map existsb]. now rewrite IH, Hrow.
Qed.

Lemma bsr_values_of_zero (shape blocksize : nat * nat) :
  bsr_values (bsr_of_fun shape blocksize (fun _ _ => 0%Qc)) = [].
Proof.
  unfold bsr_values, bsr_of_fun, bsr_of_nodes. cbn [bsr_data]. rewrite map_map.
  rewrite (map_ext _ (fun _ => @nil dmatrix)); [now rewrite concat_nils|].
  intros I. unfold fun_node.
  induction (seq 0 (snd shape / snd blocksize)) as [|J l IH]; [reflexivity|].
  cbn [map filter snd]. rewrite block_of_zero. exact IH.
Qed.

Lemma sp_of_fun_ext (X : spmatrix) (f g : nat -> nat -> Qc) :
  sp_tiles X ->
  (forall i j, i < fst (sp_shape X) -> j < snd (sp_shape X) -> f i j = g i j) ->
  sp_of_fun X f = sp_of_fun X g.
Proof.
  intros (HR & HC & Hn & Hm) H. destruct X as [x|x]; cbn [sp_of_fun]; f_equal.
  - now apply csr_of_fun_ext.
  - now apply bsr_of_fun_ext.
Qed.

(** X2.  The residual norm that a turn of either loop leaves is positive:
    the new residual stores something, and nothing it stores is a zero
    (scalar storage) or a block of zeros (block storage).  A residual that
    the update cancels exactly stores nothing, and [max] over its values
    raises the [ValueError] of an empty sequence: the loops cannot leave
    with a zero residual. *)
Theorem residual_norm_positive (csrflag : bool) (A Dinv : spmatrix) (B : dmatrix)
    (BtBinv : list dmatrix) (colindices : list (list nat)) :
  (forall s s',
     cg_step csrflag A Dinv B BtBinv colindices s = Ok s' \/
     minres_step csrflag A B BtBinv colindices s = Ok s' ->
     sp_values (st_R s') <> [] /\ (0 < st_resid s')%Qc) /\
  (forall R X,
     sp_tiles R -> sp_shape X = sp_shape R ->
     (forall i j, i < fst (sp_shape R) -> j < snd (sp_shape R) ->
                  sp_get X i j = sp_get R i j) ->
     exists R', sp_sub R X = Ok R' /\ sp_values R' = [] /\
                max_abs (sp_values R') = Raise (ValueError msg_max_empty)).
Proof.
  split.
  - intros s s' H.
    assert (Hsub : exists X, sp_sub (st_R s) X = Ok (st_R s')).
    { destruct H as [H|H];
        [now apply cg_step_residual in H|now apply minres_step_residual in H]. }
    assert (Hmax : max_abs (sp_values (st_R s')) = Ok (st_resid s')).
    { destruct H as [H|H];
        [now apply cg_step_resid in H|now apply minres_step_resid in H]. }
    destruct Hsub as (X & Hsub). apply sp_sub_inv in Hsub as [_ ER].
    assert (Hne : sp_values (st_R s') <> []).
    { intros E. rewrite E in Hmax. discriminate Hmax. }
    split; [exact Hne|].
    rewrite ER in Hne. apply sp_values_of_fun_nonzero in Hne as (v & Hv & Hnz).
    rewrite <- ER in Hv.
    destruct (max_abs_spec _ _ Hmax) as [Hbound _].
    apply (Qclt_le_trans _ (Qcabs v)); [now apply Qcabs_gt_0|now apply Hbound].
  - intros R X HR Hs Hget. unfold sp_sub. rewrite Hs.
    rewrite (proj2 (shape_eqb_eq _ _) eq_refl). eexists. split; [reflexivity|].
    assert (E : sp_values (sp_of_fun R (fun i j => sp_get R i j - sp_get X i j)%Qc) = []).
    { rewrite (sp_of_fun_ext R _ (fun _ _ => 0%Qc) HR).
      - destruct R as [r|r]; cbn [sp_of_fun sp_values];
          [apply csr_data_of_zero|apply bsr_values_of_zero].
      - intros i j Hi Hj. rewrite (Hget i j Hi Hj). ring. }
    split; [exact E|]. now rewrite E.
Qed.

Lemma residual_norm_positive_witness :
  exists Dinv BtBinv colindices blocks events s0 s1,
    prepare svd_1x1 no_UnAmal no_BSR_Get_Row no_fallback
      (Csr cx5_A) cx5_T cx5_A cx5_B false
    = Ok (Ready true Dinv BtBinv colindices blocks events s0) /\
    cg_step true (Csr cx5_A) Dinv cx5_B BtBinv colindices s0 = Ok s1 /\
    sp_values (st_R s1) <> [] /\ (0 < st_resid s1)%Qc.
Proof.
  do 7 eexists.
  split; [vm_compute; reflexivity|].
  match goal with |- ?P /\ _ => assert (H : P) by (vm_compute; reflexivity) end.
  split; [exact H|].
  exact (proj1 (residual_norm_positive _ _ _ _ _ _) _ _ (or_introl H)).
Defined.

(** ** The ways the function returns *)

Lemma sparsity_pattern_T (UnAmal : csr_matrix -> nat -> nat -> bsr_matrix)
    (A : spmatrix) (T : bsr_matrix) (Atilde : csr_matrix)
    (T' SP : spmatrix) (colindices : list (list nat)) :
  sparsity_pattern UnAmal A T Atilde = Ok (T', SP, colindices) -> T' = working_T A T.
Proof.
  unfold sparsity_pattern, working_T. destruct A as [a|a];
    destruct (sp_matmul _ _) as [Y|]; cbn [bind]; try discriminate.
  - now intros [= <- _ _].
  - remember (sp_sort_indices (sp_set_ones Y)) as S1. destruct S1; now intros [= <- _ _].
Qed.

(** The three ways [prepare] ends without raising. *)
Lemma prepare_cases (svd : dmatrix -> dmatrix * list Qc * dmatrix)
    (UnAmal : csr_matrix -> nat -> nat -> bsr_matrix)
    (BSR_Get_Row : bsr_matrix -> nat -> list Qc * list nat)
    (sa_smoothed_prolongator : spmatrix -> spmatrix -> result spmatrix)
    (A : spmatrix) (T : bsr_matrix) (Atilde : csr_matrix) (B : dmatrix)
    (file_output : bool) (p : prepared) :
  prepare svd UnAmal BSR_Get_Row sa_smoothed_prolongator A T Atilde B file_output = Ok p ->
  (no_nonzeros A T Atilde = true /\
   p = Returned (Bsr T) (printed_warning A T ++ [Print msg_no_nonzeros])) \/
  (no_nonzeros A T Atilde = false /\
   exists P, sa_smoothed_prolongator A (working_T A T) = Ok P /\
     p = Returned P (printed_warning A T ++ written_inputs file_output
                     ++ [Print msg_initial_R])) \/
  (no_nonzeros A T Atilde = false /\
   exists Dinv BtBinv colindices R resid SP,
     sp_values R <> [] /\
     p = Ready (is_csr A) Dinv BtBinv colindices (bsr_blocksize T)
           (printed_warning A T ++ written_inputs file_output)
           (mk_state 0 (working_T A T) R resid None None SP)).
Proof.
  unfold prepare. fold (no_nonzeros A T Atilde). fold (printed_warning A T).
  fold (written_inputs file_output).
  destruct (no_nonzeros A T Atilde).
  { intros [= <-]. left. now split. }
  intros H. right.
  destruct (checked_diagonal BSR_Get_Row A) as [D|]; cbn [bind] in H; [|discriminate].
  destruct (diagonal_preconditioner A D (fst (bsr_shape T))) as [Dinv1|];
    cbn [bind] in H; [|discriminate].
  destruct (sparsity_pattern UnAmal A T Atilde) as [[[T' SP] cols]|] eqn:ESP;
    cbn [bind] in H; [|discriminate].
  apply sparsity_pattern_T in ESP. subst T'.
  destruct (build_BtBinv svd SP B cols (fst (bsr_shape T)) (dcols B)) as [G|];
    cbn [bind] in H; [|discriminate].
  destruct (sp_matmul (sp_neg A) (working_T A T)) as [R1|]; cbn [bind] in H;
    [|discriminate].
  destruct (sp_multiply R1 SP) as [R2|]; cbn [bind] in H; [|discriminate].
  match type of H with bind ?c _ = _ => destruct c as [[R SP']|] end;
    cbn [bind] in H; [|discriminate].
  destruct (sp_nnz R =? 0).
  - left. split; [reflexivity|].
    destruct (sa_smoothed_prolongator A (working_T A T)) as [P|]; cbn [bind] in H;
      [|discriminate].
    injection H as <-. exists P. now split.
  - right. split; [reflexivity|].
    destruct (max_abs (sp_values R)) as [resid|] eqn:Emax; cbn [bind] in H;
      [|discriminate].
    injection H as <-. exists Dinv1, G, cols, R, resid, SP'. split.
    + intros E. rewrite E in Emax. discriminate Emax.
    + now destruct A.
Qed.

(** ** The storage of the returned prolongator *)

Lemma same_format_of_fun (X : spmatrix) (f : nat -> nat -> Qc) :
  same_format (sp_of_fun X f) X.
Proof.
  split; [apply is_csr_of_fun|split; [apply sp_shape_of_fun|apply sp_blocksize_of_fun]].
Qed.

Lemma cg_step_format (csrflag : bool) (A Dinv : spmatrix) (B : dmatrix)
    (BtBinv : list dmatrix) (colindices : list (list nat)) (s s' : state) :
  cg_step csrflag A Dinv B BtBinv colindices s = Ok s' -> same_format (st_T s') (st_T s).
Proof.
  unfold cg_step. intros H. bind_ok H. injection H as <-. cbn [st_T].
  match goal with E : sp_add (st_T s) _ = Ok _ |- _ => apply sp_add_inv in E as [_ ->] end.
  apply same_format_of_fun.
Qed.

Lemma minres_step_format (csrflag : bool) (A : spmatrix) (B : dmatrix)
    (BtBinv : list dmatrix) (colindices : list (list nat)) (s s' : state) :
  minres_step csrflag A B BtBinv colindices s = Ok s' -> same_format (st_T s') (st_T s).
Proof.
  unfold minres_step. intros H. bind_ok H. injection H as <-. cbn [st_T].
  match goal with E : sp_add (st_T s) _ = Ok _ |- _ => apply sp_add_inv in E as [_ ->] end.
  apply same_format_of_fun.
Qed.

Lemma minimize_format (csrflag : bool) (A Dinv : spmatrix) (B : dmatrix)
    (BtBinv : list dmatrix) (colindices : list (list nat)) (num_iters : Z)
    (min_tol : pyfloat) (SPD : bool) (s s' : state) :
  minimize csrflag A Dinv B BtBinv colindices num_iters min_tol SPD s = Ok s' ->
  same_format (st_T s') (st_T s).
Proof.
  unfold minimize. generalize (Z.to_nat num_iters) as fuel. intros fuel. revert s.
  induction fuel as [|fuel IH]; intros s H; cbn [while] in H.
  - injection H as <-. now split.
  - destruct (continue num_iters min_tol s); [|injection H as <-; now split].
    match type of H with bind ?c _ = _ => destruct c as [s1|] eqn:E1 end;
      cbn [bind] in H; [|discriminate].
    apply IH in H. destruct H as (H1 & H2 & H3).
    assert (H0 : same_format (st_T s1) (st_T s)).
    { destruct SPD; [now apply cg_step_format in E1|now apply minres_step_format in E1]. }
    destruct H0 as (G1 & G2 & G3). split; [congruence|split; congruence].
Qed.

Lemma printed_warning_no_message (A : spmatrix) (T : bsr_matrix) :
  ~ In (Print msg_initial_R) (printed_warning A T).
Proof.
  unfold printed_warning. destruct A as [a|a]; [intros []|].
  destruct (negb _); [|intros []]. intros [E|[]]. discriminate E.
Qed.

Lemma written_inputs_no_message (file_output : bool) (text : string) :
  ~ In (Print text) (written_inputs file_output).
Proof.
  unfold written_inputs. destruct file_output; [|intros []].
  cbn [In]. intros H. repeat (destruct H as [H|H]; [discriminate H|]). exact H.
Qed.

(** How a run that went through the loops built what it returns. *)
Lemma energy_through_loops (svd : dmatrix -> dmatrix * list Qc * dmatrix)
    (UnAmal : csr_matrix -> nat -> nat -> bsr_matrix)
    (BSR_Get_Row : bsr_matrix -> nat -> list Qc * list nat)
    (sa_smoothed_prolongator : spmatrix -> spmatrix -> result spmatrix)
    (A : spmatrix) (T : bsr_matrix) (Atilde : csr_matrix) (B : dmatrix) (SPD : bool)
    (num_iters : pyval) (min_tol : pyfloat) (file_output : bool)
    (P : spmatrix) (printed : list event) :
  energy_prolongation_smoother svd UnAmal BSR_Get_Row sa_smoothed_prolongator
    (Sparse A) (Sparse (Bsr T)) Atilde B SPD num_iters min_tol file_output
  = Ok (P, printed) ->
  ~ In (Print msg_initial_R) printed ->
  P = Bsr T \/
  exists Dinv BtBinv colindices s0 s,
    st_T s0 = working_T A T /\ st_i s0 = 0 /\
    minimize (is_csr A) A Dinv B BtBinv colindices (int_value num_iters) min_tol SPD s0
    = Ok s /\
    match A with
    | Csr _ => exists t t', st_T s = Csr t /\ csr_tobsr t (bsr_blocksize T) = Ok t' /\
                            P = Bsr t'
    | Bsr _ => P = st_T s
    end.
Proof.
  unfold energy_prolongation_smoother. intros H Hno.
  destruct (test_inputs _ _ _ _); cbn [bind] in H; [|discriminate].
  destruct (prepare _ _ _ _ _ _ _ _ _) as [p|] eqn:Ep; cbn [bind] in H; [|discriminate].
  apply prepare_cases in Ep.
  destruct Ep as [[_ ->]|[(_ & P1 & _ & ->)|(_ & Dinv & G & cols & R & resid & SP & _ & ->)]].
  - injection H as <- _. now left.
  - injection H as _ <-. exfalso. apply Hno.
    rewrite !in_app_iff. right. right. now left.
  - right.
    match type of H with bind ?c _ = _ => destruct c as [s|] eqn:Es end;
      cbn [bind] in H; [|discriminate].
    exists Dinv, G, cols, (mk_state 0 (working_T A T) R resid None None SP), s. split; [reflexivity|]. split; [reflexivity|].
    split; [exact Es|].
    destruct A as [a0|a0]; cbn [is_csr] in H.
    + destruct (st_T s) as [t|t]; [|discriminate].
      destruct (csr_tobsr t (bsr_blocksize T)) as [t'|] eqn:Et; cbn [bind] in H;
        [|discriminate].
      injection H as <- _. now exists t, t'.
    + cbn [bind] in H. now injection H as <- _.
Qed.

(** X3.  Unless the run handed the work to the default smoother (it then printed
    the message on the initial residual), the prolongator that
    [energy_prolongation_smoother] returns is stored in block rows, with the
    shape and the block size of [T], whatever the class of [A], the branch of
    the loops and the number of turns. *)
Theorem returned_prolongator_format (svd : dmatrix -> dmatrix * list Qc * dmatrix)
    (UnAmal : csr_matrix -> nat -> nat -> bsr_matrix)
    (BSR_Get_Row : bsr_matrix -> nat -> list Qc * list nat)
    (sa_smoothed_prolongator : spmatrix -> spmatrix -> result spmatrix)
    (A : spmatrix) (T : bsr_matrix) (Atilde : csr_matrix) (B : dmatrix) (SPD : bool)
    (num_iters : pyval) (min_tol : pyfloat) (file_output : bool)
    (P : spmatrix) (printed : list event) :
  energy_prolongation_smoother svd UnAmal BSR_Get_Row sa_smoothed_prolongator
    (Sparse A) (Sparse (Bsr T)) Atilde B SPD num_iters min_tol file_output
  = Ok (P, printed) ->
  ~ In (Print msg_initial_R) printed ->
  is_csr P = false /\ sp_shape P = bsr_shape T /\ sp_blocksize P = bsr_blocksize T.
Proof.
  intros H Hno.
  destruct (energy_through_loops _ _ _ _ _ _ _ _ _ _ _ _ _ _ H Hno)
    as [->|(Dinv & G & cols & s0 & s & HT & _ & Hmin & HP)]; [now repeat split|].
  apply minimize_format in Hmin. rewrite HT in Hmin. destruct Hmin as (H1 & H2 & H3).
  destruct A as [a|a].
  - destruct HP as (t & t' & Et & Etobsr & ->).
    apply csr_tobsr_inv in Etobsr as (_ & Es & Eb & _).
    cbn [is_csr sp_shape sp_blocksize]. rewrite Es, Eb.
    rewrite Et in H2. cbn [sp_shape working_T] in H2. rewrite H2.
    now repeat split.
  - subst P. cbn [working_T is_csr sp_shape sp_blocksize] in H1, H2, H3.
    now repeat split.
Qed.

Lemma returned_prolongator_format_witness :
  exists P printed,
    energy_prolongation_smoother svd_1x1 no_UnAmal no_BSR_Get_Row no_fallback
      (Sparse (Csr cx5_A)) (Sparse (Bsr cx5_T)) cx5_A cx5_B true (PyInt 2)
      (FFinite (Q2Qc (1 # 100000000))) false
    = Ok (P, printed) /\
    ~ In (Print msg_initial_R) printed /\
    is_csr P = false /\ sp_shape P = bsr_shape cx5_T /\
    sp_blocksize P = bsr_blocksize cx5_T.
Proof.
  do 2 eexists.
  match goal with |- ?P1 /\ _ => assert (Hrun : P1) by (vm_compute; reflexivity) end.
  split; [exact Hrun|].
  assert (Hno : ~ In (Print msg_initial_R) (@nil event)) by (intros []).
  split; [exact Hno|].
  exact (returned_prolongator_format _ _ _ _ _ _ _ _ _ _ _ _ _ _ Hrun Hno).
Defined.

(** X4.  With [num_iters = 0] the loops are not entered: the returned prolongator
    has the entries of [T] (and its shape and block size).  When [A] is stored
    by scalar rows this is the round trip of [T] through [tocsr] (line 274) and
    [tobsr] (line 479); when [A] is stored by block rows [T] itself is
    returned. *)
Theorem zero_iterations_return_T (svd : dmatrix -> dmatrix * list Qc * dmatrix)
    (UnAmal : csr_matrix -> nat -> nat -> bsr_matrix)
    (BSR_Get_Row : bsr_matrix -> nat -> list Qc * list nat)
    (sa_smoothed_prolongator : spmatrix -> spmatrix -> result spmatrix)
    (A : spmatrix) (T : bsr_matrix) (Atilde : csr_matrix) (B : dmatrix) (SPD : bool)
    (num_iters : pyval) (min_tol : pyfloat) (file_output : bool)
    (P : spmatrix) (printed : list event) :
  int_value num_iters = 0%Z ->
  energy_prolongation_smoother svd UnAmal BSR_Get_Row sa_smoothed_prolongator
    (Sparse A) (Sparse (Bsr T)) Atilde B SPD num_iters min_tol file_output
  = Ok (P, printed) ->
  ~ In (Print msg_initial_R) printed ->
  (forall a, A = Bsr a -> P = Bsr T) /\
  sp_shape P = bsr_shape T /\ sp_blocksize P = bsr_blocksize T /\
  forall i j, i < fst (bsr_shape T) -> j < snd (bsr_shape T) ->
    sp_get P i j = bsr_get T i j.
Proof.
  intros H0 H Hno.
  destruct (energy_through_loops _ _ _ _ _ _ _ _ _ _ _ _ _ _ H Hno)
    as [->|(Dinv & G & cols & s0 & s & HT & _ & Hmin & HP)]; [now repeat split|].
  unfold minimize in Hmin. rewrite H0 in Hmin. cbn [Z.to_nat while] in Hmin.
  injection Hmin as <-. rewrite HT in HP.
  destruct A as [a|a].
  - destruct HP as (t & t' & Et & Etobsr & ->).
    cbn [working_T] in Et. injection Et as <-.
    apply csr_tobsr_inv in Etobsr as (_ & Es & Eb & Hget).
    split; [intros a0 E; discriminate E|].
    cbn [sp_shape sp_blocksize sp_get]. split; [exact Es|]. split; [exact Eb|].
    intros i j Hi Hj. rewrite Hget by assumption. now apply csr_get_tocsr.
  - subst P. cbn [working_T]. now repeat split.
Qed.

Lemma zero_iterations_return_T_witness :
  exists P printed,
    int_value (PyInt 0) = 0%Z /\
    energy_prolongation_smoother svd_1x1 no_UnAmal no_BSR_Get_Row no_fallback
      (Sparse (Csr cx5_A)) (Sparse (Bsr cx5_T)) cx5_A cx5_B true (PyInt 0)
      (FFinite (Q2Qc (1 # 100000000))) false
    = Ok (P, printed) /\
    ~ In (Print msg_initial_R) printed /\
    (forall a, Csr cx5_A = Bsr a -> P = Bsr cx5_T) /\
    sp_shape P = bsr_shape cx5_T /\ sp_blocksize P = bsr_blocksize cx5_T /\
    forall i j, i < fst (bsr_shape cx5_T) -> j < snd (bsr_shape cx5_T) ->
      sp_get P i j = bsr_get cx5_T i j.
Proof.
  do 2 eexists.
  split; [reflexivity|].
  match goal with |- ?P1 /\ _ => assert (Hrun : P1) by (vm_compute; reflexivity) end.
  split; [exact Hrun|].
  assert (Hno : ~ In (Print msg_initial_R) (@nil event)) by (intros []).
  split; [exact Hno|].
  exact (zero_iterations_return_T _ _ _ _ _ _ _ _ _ (PyInt 0) _ _ _ _ eq_refl Hrun Hno).
Defined.

(** ** What a run prints and writes *)

(** X5.  A call of [energy_prolongation_smoother] that returns did one of three
    things.  Where [A], [T] or [Atilde] stores nothing it returned [T] itself
    after one message.  Where the projected initial residual stores nothing it
    printed the message on the initial residual and returned what the default
    smoother made of [A] and [T] ([T] converted to scalar rows when [A] is), not
    converted back.  Otherwise it went through the loops.  The warning on the
    block sizes comes first and never stops the call, and files are written
    only under [file_output]: the six inputs before the loops, the result
    after them. *)
Theorem returning_runs (svd : dmatrix -> dmatrix * list Qc * dmatrix)
    (UnAmal : csr_matrix -> nat -> nat -> bsr_matrix)
    (BSR_Get_Row : bsr_matrix -> nat -> list Qc * list nat)
    (sa_smoothed_prolongator : spmatrix -> spmatrix -> result spmatrix)
    (A : spmatrix) (T : bsr_matrix) (Atilde : csr_matrix) (B : dmatrix) (SPD : bool)
    (num_iters : pyval) (min_tol : pyfloat) (file_output : bool)
    (P : spmatrix) (printed : list event) :
  energy_prolongation_smoother svd UnAmal BSR_Get_Row sa_smoothed_prolongator
    (Sparse A) (Sparse (Bsr T)) Atilde B SPD num_iters min_tol file_output
  = Ok (P, printed) ->
  (no_nonzeros A T Atilde = true /\ P = Bsr T /\
   printed = printed_warning A T ++ [Print msg_no_nonzeros]) \/
  (no_nonzeros A T Atilde = false /\
   sa_smoothed_prolongator A (working_T A T) = Ok P /\
   printed = printed_warning A T ++ written_inputs file_output
             ++ [Print msg_initial_R]) \/
  (no_nonzeros A T Atilde = false /\
   printed = printed_warning A T ++ written_inputs file_output
             ++ written_result file_output).
Proof.
  unfold energy_prolongation_smoother. intros H.
  destruct (test_inputs _ _ _ _); cbn [bind] in H; [|discriminate].
  destruct (prepare _ _ _ _ _ _ _ _ _) as [p|] eqn:Ep; cbn [bind] in H; [|discriminate].
  apply prepare_cases in Ep.
  destruct Ep as [[Hz ->]|[(Hz & P1 & HP & ->)
                          |(Hz & Dinv & G & cols & R & resid & SP & _ & ->)]].
  - injection H as <- <-. left. now repeat split.
  - injection H as <- <-. right. left. now repeat split.
  - right. right. split; [exact Hz|].
    match type of H with bind ?c _ = _ => destruct c as [s|] end;
      cbn [bind] in H; [|discriminate].
    match type of H with bind ?c _ = _ => destruct c as [T1|] end;
      cbn [bind] in H; [|discriminate].
    injection H as _ <-. unfold written_result. now rewrite app_assoc.
Qed.

Lemma returning_runs_witness :
  exists P printed,
    energy_prolongation_smoother svd_1x1 no_UnAmal no_BSR_Get_Row no_fallback
      (Sparse (Csr cx5_A)) (Sparse (Bsr cx5_T)) cx5_A cx5_B true (PyInt 2)
      (FFinite (Q2Qc (1 # 100000000))) true
    = Ok (P, printed) /\
    ((no_nonzeros (Csr cx5_A) cx5_T cx5_A = true /\ P = Bsr cx5_T /\
      printed = printed_warning (Csr cx5_A) cx5_T ++ [Print msg_no_nonzeros]) \/
     (no_nonzeros (Csr cx5_A) cx5_T cx5_A = false /\
      no_fallback (Csr cx5_A) (working_T (Csr cx5_A) cx5_T) = Ok P /\
      printed = printed_warning (Csr cx5_A) cx5_T ++ written_inputs true
                ++ [Print msg_initial_R]) \/
     (no_nonzeros (Csr cx5_A) cx5_T cx5_A = false /\
      printed = printed_warning (Csr cx5_A) cx5_T ++ written_inputs true
                ++ written_result true)).
Proof.
  do 2 eexists.
  match goal with |- ?P1 /\ _ => assert (Hrun : P1) by (vm_compute; reflexivity) end.
  split; [exact Hrun|].
  exact (returning_runs _ _ _ _ _ _ _ _ _ _ _ _ _ _ Hrun).
Defined.

(** ** The diagonal preconditioner *)

Lemma nth_map_lt {X Y : Type} (f : X -> Y) (l : list X) (i : nat) (dx : X) (dy : Y) :
  i < length l -> nth i (map f l) dy = f (nth i l dx).
Proof.
  intros Hi. rewrite (nth_indep _ dy (f dx)) by (now rewrite length_map).
  apply map_nth.
Qed.

Lemma reciprocals_length (D d : list Qc) :
  reciprocals D = Ok d -> length d = length D.
Proof.
  revert d. induction D as [|x D IH]; intros d H; simpl in H.
  - now injection H as <-.
  - destruct (nonzero x); [|discriminate].
    destruct (reciprocals D) as [r|]; cbn [bind] in H; [|discriminate].
    injection H as <-. simpl. now rewrite (IH r).
Qed.

Lemma diagonal_preconditioner_get (A : spmatrix) (D d : list Qc) (Nfine : nat)
    (Dinv : spmatrix) (i j : nat) :
  reciprocals D = Ok d ->
  diagonal_preconditioner A D Nfine = Ok Dinv ->
  i < Nfine -> j < Nfine ->
  sp_shape Dinv = (Nfine, Nfine) /\
  sp_get Dinv i j = if (i =? j) && (j <? length d) then nth j d 0%Qc else 0%Qc.
Proof.
  intros Hd H Hi Hj. unfold diagonal_preconditioner in H. rewrite Hd in H.
  cbn [bind] in H.
  assert (G : csr_get (spdiags d Nfine) i j
              = if (i =? j) && (j <? length d) then nth j d 0%Qc else 0%Qc).
  { unfold spdiags. rewrite csr_get_of_fun. cbn [fst snd].
    apply Nat.ltb_lt in Hi, Hj. now rewrite Hi, Hj. }
  destruct A as [a|a].
  - injection H as <-. split; [reflexivity|exact G].
  - destruct (csr_tobsr (spdiags d Nfine) (bsr_blocksize a)) as [X|] eqn:E;
      cbn [bind] in H; [|discriminate].
    injection H as <-. apply csr_tobsr_inv in E as (_ & Es & _ & Hget).
    split; [exact Es|]. cbn [sp_get]. rewrite Hget by assumption. exact G.
Qed.



(** ** The pattern of the scalar path *)

Lemma entries_get_insert_entry (e : nat * Qc) (l : list (nat * Qc)) (j : nat) :
  entries_get (insert_entry e l) j = entries_get (e :: l) j.
Proof.
  induction l as [|x l IH]; cbn [insert_entry]; [reflexivity|].
  destruct (fst e <=? fst x); [reflexivity|].
  destruct e as [c v], x as [c' v'].
  rewrite entries_get_cons, IH, !entries_get_cons. ring.
Qed.

Lemma entries_get_sort_entries (l : list (nat * Qc)) (j : nat) :
  entries_get (sort_entries l) j = entries_get l j.
Proof.
  unfold sort_entries. induction l as [|[c v] l IH]; cbn [fold_right]; [reflexivity|].
  rewrite entries_get_insert_entry, !entries_get_cons. now rewrite IH.
Qed.

Lemma existsb_sort_entries {A : Type} (l : list (nat * A)) (j : nat) :
  existsb (Nat.eqb j) (map fst (sort_entries l)) = existsb (Nat.eqb j) (map fst l).
Proof.
  apply eq_true_iff_eq. rewrite !existsb_eqb_In, !in_map_iff.
  split; intros (e & He & Hin); exists e; (split; [exact He|]);
    now apply In_sort_entries.
Qed.

Lemma csr_row_abs (X : csr_matrix) (i : nat) :
  csr_row (csr_abs X) i = map (fun e => (fst e, Qcabs (snd e))) (csr_row X i).
Proof. exact (csr_row_set_data_map Qcabs X i). Qed.

Lemma csr_has_abs (X : csr_matrix) (i j : nat) : csr_has (csr_abs X) i j = csr_has X i j.
Proof. unfold csr_has. now rewrite csr_row_abs, map_map. Qed.

Lemma csr_has_tocsr (X : bsr_matrix) (i j : nat) :
  csr_has (bsr_tocsr X) i j = (i <? fst (bsr_shape X)) && bsr_has X i j.
Proof.
  unfold csr_has, bsr_has, bsr_tocsr. destruct (Nat.ltb_spec i (fst (bsr_shape X))) as [Hi|Hi].
  - rewrite csr_row_of_rows by (rewrite length_map, length_seq; exact Hi).
    now rewrite (nth_map_seq [] (bsr_row X) _ _ Hi).
  - rewrite csr_row_out_of_rows by (now rewrite length_map, length_seq). reflexivity.
Qed.

(** The row of the pattern built from a structural product. *)
Lemma csr_pattern_row (shape : nat * nat) (present : nat -> nat -> bool)
    (f : nat -> nat -> Qc) (SP : csr_matrix) (i : nat) :
  sp_sort_indices (sp_set_ones (Csr (csr_of_mask shape present f))) = Csr SP ->
  i < fst shape ->
  csr_row SP i = sort_entries (mask_row (snd shape) (present i) (fun _ => 1%Qc)).
Proof.
  cbn [sp_sort_indices sp_set_ones]. intros [= <-] Hi.
  cbn [csr_set_data csr_shape].
  replace (csr_shape (csr_of_mask shape present f)) with shape by reflexivity.
  rewrite csr_row_of_rows by (rewrite length_map, length_seq; exact Hi).
  rewrite (nth_map_seq [] (fun i => sort_entries (csr_row _ i)) _ _ Hi).
  rewrite csr_row_set_data_map, csr_row_of_mask.
  apply Nat.ltb_lt in Hi. rewrite Hi. unfold mask_row. now rewrite map_map.
Qed.



(** ** The projector off the pattern *)

Lemma map_fst_csr_row (A : csr_matrix) (i : nat) :
  csr_wf A -> i < fst (csr_shape A) -> map fst (csr_row A i) = csr_colindx A i.
Proof.
  intros W Hi. unfold csr_row, csr_colindx. cbv zeta. apply map_fst_combine.
  pose proof (indptr_le_nnz A (S i) W ltac:(lia)) as Hend.
  pose proof (wf_data_len A W) as Hd.
  rewrite !length_slice by lia. reflexivity.
Qed.

Lemma entries_get_off_support (colindx : list nat) (vals : list Qc) (j : nat) :
  ~ In j colindx -> entries_get (combine colindx vals) j = 0%Qc.
Proof.
  intros H. apply entries_get_not_stored. intros Hin.
  apply in_map_iff in Hin as ([c v] & E & Hin). cbn [fst] in E. subst c.
  apply in_combine_l in Hin. contradiction.
Qed.

(** X8.  [Satisfy_Constraints_CSR] returns whenever the shapes fit (the
    operator has the shape of a well-formed pattern, [B] has a row for every
    column and [k] columns, the table has a [k] by [k] entry for every row),
    whatever the table holds.  The operator returned has the shape of [U] and
    the entry of [U] at every position the pattern does not store: the
    projection changes [U] on the pattern only. *)
Theorem projector_csr_off_pattern (U SP : csr_matrix) (B : dmatrix)
    (BtBinv : list dmatrix) (k : nat) :
  csr_wf SP -> csr_shape U = csr_shape SP ->
  0 < k -> rect k B -> drows B = snd (csr_shape SP) -> 0 < drows B ->
  fst (csr_shape SP) <= length BtBinv ->
  (forall i, i < fst (csr_shape SP) ->
     rect k (nth i BtBinv []) /\ drows (nth i BtBinv []) = k) ->
  exists U' SP',
    Satisfy_Constraints_CSR U SP B BtBinv = Ok (U', SP') /\
    csr_shape U' = csr_shape U /\
    forall i j, i < fst (csr_shape SP) -> j < snd (csr_shape SP) ->
      csr_has SP i j = false -> csr_get U' i j = csr_get U i j.
Proof.
  intros W Hshape Hk HB HBrows HBpos HGlen HG.
  destruct (Satisfy_Constraints_CSR_returns U SP B BtBinv k W Hshape Hk HB HBrows HBpos
              HGlen HG) as (Sc & _ & Ecall).
  eexists. eexists. split; [exact Ecall|]. split; [reflexivity|].
  intros i j Hi Hj Hhas. unfold projected_CSR. rewrite csr_get_of_fun, Hshape.
  apply Nat.ltb_lt in Hi as Hib. apply Nat.ltb_lt in Hj as Hjb. rewrite Hib, Hjb.
  cbn [andb]. rewrite entries_get_off_support; [ring|].
  rewrite <- (map_fst_csr_row SP i W Hi). now apply existsb_eqb_not_In.
Qed.

(** X9.  [Satisfy_Constraints_BSR], called with the column table of the
    pattern, returns whenever the shapes and block sizes fit, whatever the
    table of inverses holds.  The operator returned has the shape and block
    size of [U] and the entry of [U] at every position outside the stored
    blocks of the pattern. *)
Theorem projector_bsr_off_pattern (U SP : bsr_matrix) (B : dmatrix)
    (BtBinv : list dmatrix) (k : nat) :
  bsr_wf SP -> bsr_shape U = bsr_shape SP -> bsr_blocksize U = bsr_blocksize SP ->
  0 < k -> rect k B -> drows B = snd (bsr_shape SP) -> 0 < drows B ->
  fst (bsr_shape SP) / fst (bsr_blocksize SP) <= length BtBinv ->
  (forall I, I < fst (bsr_shape SP) / fst (bsr_blocksize SP) ->
     rect k (nth I BtBinv []) /\ drows (nth I BtBinv []) = k) ->
  exists U' SP',
    Satisfy_Constraints_BSR U SP B BtBinv (BSR_Get_Colindices SP) = Ok (U', SP') /\
    bsr_shape U' = bsr_shape U /\ bsr_blocksize U' = bsr_blocksize U /\
    forall i j, i < fst (bsr_shape SP) -> j < snd (bsr_shape SP) ->
      bsr_has SP i j = false -> bsr_get U' i j = bsr_get U i j.
Proof.
  intros W Hshape Hbsz Hk HB HBrows HBpos HGlen HG.
  destruct (Satisfy_Constraints_BSR_returns U SP B BtBinv k
              (fst (bsr_blocksize SP)) (snd (bsr_blocksize SP)) W Hshape Hbsz
              (surjective_pairing _) Hk HB HBrows HBpos HGlen HG) as (st & _ & Ecall).
  eexists. eexists. split; [exact Ecall|]. split; [reflexivity|]. split; [reflexivity|].
  intros i j Hi Hj Hhas.
  pose proof (bwf_R_pos SP W) as HR. pose proof (bwf_C_pos SP W) as HC.
  pose proof (bwf_rows SP W) as Hn. pose proof (bwf_cols SP W) as Hm.
  unfold projected_BSR. rewrite bsr_get_of_fun_wf by (rewrite ?Hbsz, ?Hshape; assumption).
  rewrite Hshape.
  apply Nat.ltb_lt in Hi as Hib. apply Nat.ltb_lt in Hj as Hjb. rewrite Hib, Hjb.
  cbn [andb]. rewrite entries_get_off_support; [ring|].
  rewrite <- (map_fst_bsr_row SP i W Hi). now apply existsb_eqb_not_In.
Qed.

Lemma projector_csr_off_pattern_witness :
  exists U' SP',
    Satisfy_Constraints_CSR ex_U_csr_wide ex_SP_csr ex_B ex_BtBinv_csr = Ok (U', SP') /\
    csr_shape U' = csr_shape ex_U_csr_wide /\
    forall i j, i < fst (csr_shape ex_SP_csr) -> j < snd (csr_shape ex_SP_csr) ->
      csr_has ex_SP_csr i j = false -> csr_get U' i j = csr_get ex_U_csr_wide i j.
Proof.
  apply (projector_csr_off_pattern ex_U_csr_wide ex_SP_csr ex_B ex_BtBinv_csr 1).
  - apply csr_wfb_wf. reflexivity.
  - reflexivity.
  - lia.
  - apply rectb_rect. reflexivity.
  - reflexivity.
  - simpl. lia.
  - simpl. lia.
  - intros i Hi. simpl in Hi.
    destruct i as [|[|[|i]]]; [| | |lia]; (split; [apply rectb_rect|]; reflexivity).
Defined.

Lemma projector_bsr_off_pattern_witness :
  exists U' SP',
    Satisfy_Constraints_BSR ex_U_bsr ex_SP_bsr_sparse ex_B ex_BtBinv_bsr
      (BSR_Get_Colindices ex_SP_bsr_sparse) = Ok (U', SP') /\
    bsr_shape U' = bsr_shape ex_U_bsr /\ bsr_blocksize U' = bsr_blocksize ex_U_bsr /\
    forall i j, i < fst (bsr_shape ex_SP_bsr_sparse) ->
      j < snd (bsr_shape ex_SP_bsr_sparse) ->
      bsr_has ex_SP_bsr_sparse i j = false -> bsr_get U' i j = bsr_get ex_U_bsr i j.
Proof.
  apply (projector_bsr_off_pattern ex_U_bsr ex_SP_bsr_sparse ex_B ex_BtBinv_bsr 1).
  - apply bsr_wfb_wf. reflexivity.
  - reflexivity.
  - reflexivity.
  - lia.
  - apply rectb_rect. reflexivity.
  - reflexivity.
  - simpl. lia.
  - simpl. lia.
  - intros I HI. simpl in HI.
    destruct I as [|[|I]]; [| |lia]; (split; [apply rectb_rect|]; reflexivity).
Defined.

(** ** The Jacobi smoother *)

(** The scaling factors are finite: the reciprocal of the diagonal, 0 where
    the diagonal is zero. *)
Lemma jacobi_D_inv_finite (S : spmatrix) :
  jacobi_D_inv S
  = map (fun d => FFinite (if Qc_eqb d 0 then 0 else 1 / d)%Qc) (sp_diagonal S).
Proof.
  unfold jacobi_D_inv, assign_where_zero, array_reciprocal.
  induction (sp_diagonal S) as [|d D IH]; [reflexivity|].
  cbn [map combine fst snd]. rewrite IH. now destruct (Qc_eqb d 0).
Qed.

Lemma sp_matmul_returns (X Y : spmatrix) :
  snd (sp_shape X) = fst (sp_shape Y) -> exists Z, sp_matmul X Y = Ok Z.
Proof.
  intros E. unfold sp_matmul. rewrite E, Nat.eqb_refl. destruct X; eexists; reflexivity.
Qed.


Lemma scale_rows_by_diagonal_scales (S : spmatrix) (v : list Qc) (X : spmatrix) :
  sp_tiles S ->
  scale_rows_by_diagonal S (map FFinite v) true = Ok X ->
  sp_shape X = sp_shape S /\ sp_tiles X /\
  forall i j, i < fst (sp_shape S) -> j < snd (sp_shape S) ->
    sp_get X i j = (nth i v 0 * sp_get S i j)%Qc.
Proof.
  intros Ht [= <-]. split; [apply sp_shape_of_fun|]. split; [now apply sp_tiles_of_fun|].
  intros i j Hi Hj. rewrite sp_get_of_fun by exact Ht.
  apply Nat.ltb_lt in Hi, Hj. rewrite Hi, Hj. cbn [andb].
  now rewrite (map_nth FFinite v 0%Qc i).
Qed.


(** ** When the table inverts the local Gram matrices *)

(** [M*G = I] for the entry [G] computed from a full-rank decomposition of [M]. *)
Lemma truncated_inverse_inverts (k : nat) (M : dmatrix)
    (usv : dmatrix * list Qc * dmatrix) :
  full_rank_svd k M usv ->
  forall a d, a < k -> d < k ->
    sum_upto k (fun c => dget M a c * dget (truncated_inverse_spec k usv) c d)%Qc
    = kronecker a d.
Proof.
  destruct usv as [[U Sigma] VT]. intros ((HM & HU & HV) & HUr & Habs & Hrel) a d Ha Hd.
  unfold truncated_inverse_spec. rewrite Habs.
  assert (HK : kept_indices k Sigma = seq 0 k).
  { unfold kept_indices. rewrite (filter_ext_in _ (fun _ => true)).
    - clear. induction (seq 0 k) as [|x l IH]; simpl; [reflexivity|]. now rewrite IH.
    - intros p Hp. apply in_seq in Hp. apply Hrel. lia. }
  assert (Hnz : forall p, p < k -> nth p Sigma 0%Qc <> 0%Qc).
  { intros p Hp. apply (proj2 (kept_indices_facts k Sigma)). rewrite HK.
    apply in_seq. lia. }
  rewrite HK.
  rewrite (sum_upto_ext k _
    (fun c => sum_upto k (fun p => sum_upto k (fun q =>
        (dget U a p * nth p Sigma 0 * (1 / nth q Sigma 0) * dget U d q)
        * (dget VT p c * dget VT q c))))%Qc).
  2:{ intros c Hc. rewrite HM, dget_dmake by assumption.
      rewrite <- sum_upto_scale_r. apply sum_upto_ext. intros p _.
      unfold sum_upto. rewrite <- qsum_map_scale_l. apply qsum_map_ext. intros q _. ring. }
  rewrite sum_upto_swap.
  rewrite (sum_upto_ext k _ (fun p => dget U a p * dget U d p)%Qc).
  - now apply HUr.
  - intros p Hp. rewrite sum_upto_swap.
    rewrite (sum_upto_ext k _
      (fun q => (dget U a p * nth p Sigma 0 * (1 / nth q Sigma 0) * dget U d q)
                * kronecker p q)%Qc).
    2:{ intros q Hq. rewrite sum_upto_scale_l. now rewrite HV. }
    rewrite sum_upto_kronecker by exact Hp. field. now apply Hnz.
Qed.

Lemma table_entry_inverts (svd : dmatrix -> dmatrix * list Qc * dmatrix) (k : nat)
    (B : dmatrix) (colindx : list nat) (G : dmatrix) :
  0 < k -> rect k B -> colindx <> [] ->
  table_entry_spec svd k B colindx G ->
  (forall M, local_gram B colindx = Ok M -> full_rank_svd k M (svd M)) ->
  inverts_gram k B colindx G.
Proof.
  intros Hk HB Hne [_ HG] Hfull. destruct (HG Hne) as (M & EM & ->).
  destruct (local_gram_entries k B colindx M Hk HB Hne EM) as (HMk & HMr & _).
  destruct (truncated_inverse_shape k (svd M)) as [HGr HGk].
  assert (HGc : dcols (truncated_inverse_spec k (svd M)) = k)
    by (apply dcols_rect; [exact HGr|lia]).
  assert (HMc : dcols M = k) by (apply dcols_rect; [exact HMr|lia]).
  exists M. split; [exact EM|].
  rewrite dmul_ok by congruence. f_equal. rewrite HMk, HGc, HGk.
  unfold identity. apply dmake_ext. intros a d Ha Hd.
  rewrite (truncated_inverse_inverts k M (svd M) (Hfull M EM) a d Ha Hd).
  reflexivity.
Qed.


(** [svd_1x1] is a full-rank decomposition of a [1] by [1] matrix whose entry
    is at least 1e-10 in absolute value. *)
Lemma svd_1x1_full_rank (M : dmatrix) :
  Qc_ltb (Qcabs (dget M 0 0)) abs_threshold = false -> full_rank_svd 1 M (svd_1x1 M).
Proof.
  intros Habs. split; [apply svd_1x1_exact|]. unfold svd_1x1.
  assert (Hs : forall f : nat -> Qc, sum_upto 1 f = f 0).
  { intros f. unfold sum_upto. cbn [seq map qsum]. ring. }
  assert (Hn : forall x : Qc, nth 0 [x] 0%Qc = x) by reflexivity.
  split; [|split].
  - intros a b Ha Hb. assert (a = 0) as -> by lia. assert (b = 0) as -> by lia.
    rewrite Hs. unfold kronecker. cbn [Nat.eqb].
    change (dget [[1%Qc]] 0 0) with 1%Qc. ring.
  - rewrite Hn. rewrite Qcabs_pos by apply Qcabs_nonneg. exact Habs.
  - intros p Hp. assert (p = 0) as -> by lia. rewrite !Hn.
    assert (Hnz : Qcabs (dget M 0 0) <> 0%Qc).
    { intros E. rewrite E in Habs. discriminate Habs. }
    replace (Qcabs (dget M 0 0) / Qcabs (dget M 0 0))%Qc with 1%Qc
      by (field; exact Hnz).
    reflexivity.
Qed.


(** ** The projector on one object *)

Lemma bsr_values_of_difference (shape blocksize : nat * nat) (g : nat -> nat -> Qc) :
  bsr_values (bsr_of_fun shape blocksize (fun i j => g i j - g i j)%Qc) = [].
Proof.
  rewrite <- (bsr_values_of_zero shape blocksize). f_equal.
  unfold bsr_of_fun. cbv zeta. f_equal. apply map_ext. intros I.
  unfold fun_node. f_equal. apply map_ext. intros J. f_equal.
  unfold block_of_fun. apply dmake_ext. intros r c _ _. ring.
Qed.

(** X12.  The operator and the pattern must be two objects.  When
    [Satisfy_Constraints_CSR] or [Satisfy_Constraints_BSR] is called with one
    object as both [U] and [Sparsity_Pattern] and returns, the loop has
    written the updates into [U] itself: the operator returned stores nothing
    (it is the zero matrix, whatever [U] and [B] were), and the caller's
    object is left with 1.0 as every stored value. *)
Theorem constraint_projector_same_object :
  (forall (h : heap csr_matrix) (U : nat) (B : dmatrix) (BtBinv : list dmatrix)
          (U' : csr_matrix) (h' : heap csr_matrix),
     Satisfy_Constraints_CSR_call h U U B BtBinv = Ok (U', h') ->
     csr_data U' = [] /\ csr_nnz U' = 0 /\
     exists u u', deref h U = Ok u /\ deref h' U = Ok u' /\
                  csr_same_structure u u' /\ csr_all_ones u')
  /\
  (forall (h : heap bsr_matrix) (U : nat) (B : dmatrix) (BtBinv : list dmatrix)
          (colindices : list (list nat)) (U' : bsr_matrix) (h' : heap bsr_matrix),
     Satisfy_Constraints_BSR_call h U U B BtBinv colindices = Ok (U', h') ->
     bsr_values U' = [] /\
     exists u u', deref h U = Ok u /\ deref h' U = Ok u' /\
                  bsr_same_structure u u' /\ bsr_all_ones u').
Proof.
  split.
  - intros h U B BtBinv U' h' Hcall.
    pose proof (Satisfy_Constraints_CSR_call_frame h U U B BtBinv U' h' Hcall)
      as (_ & _ & Hobj).
    assert (Hdata : csr_data U' = []).
    { unfold Satisfy_Constraints_CSR_call in Hcall.
      destruct (deref h U) as [u|]; cbn [bind] in Hcall; [|discriminate].
      destruct (csr_times_dense u B) as [UB|]; cbn [bind] in Hcall; [|discriminate].
      destruct (for_range _ _ h) as [h1|]; cbn [bind] in Hcall; [|discriminate].
      destruct (deref h1 U) as [u1|]; cbn [bind] in Hcall; [|discriminate].
      unfold csr_sub in Hcall.
      destruct (shape_eqb _ _); cbn [bind] in Hcall; [|discriminate].
      injection Hcall as <- _.
      rewrite (csr_of_fun_ext _ _ (fun _ _ => 0%Qc)); [apply csr_data_of_zero|].
      intros i j _ _. ring. }
    split; [exact Hdata|]. split; [unfold csr_nnz; now rewrite Hdata|exact Hobj].
  - intros h U B BtBinv colindices U' h' Hcall.
    pose proof (Satisfy_Constraints_BSR_call_frame h U U B BtBinv colindices U' h' Hcall)
      as (_ & _ & Hobj).
    split; [|exact Hobj].
    unfold Satisfy_Constraints_BSR_call in Hcall.
    destruct (deref h U) as [u|]; cbn [bind] in Hcall; [|discriminate].
    destruct (fst (bsr_blocksize u) =? 0); [discriminate|].
    destruct (bsr_times_dense u B) as [UB|]; cbn [bind] in Hcall; [|discriminate].
    destruct (for_range _ _ (h, 0)) as [[h1 ro]|]; cbn [bind] in Hcall; [|discriminate].
    destruct (deref h1 U) as [u1|]; cbn [bind] in Hcall; [|discriminate].
    unfold bsr_sub in Hcall.
    destruct (shape_eqb _ _); cbn [bind] in Hcall; [|discriminate].
    injection Hcall as <- _. apply bsr_values_of_difference.
Qed.

Lemma constraint_projector_same_object_witness :
  exists (U' : csr_matrix) (h' : heap csr_matrix),
    Satisfy_Constraints_CSR_call [ex_U_csr] 0 0 ex_B ex_BtBinv_csr = Ok (U', h') /\
    csr_data U' = [] /\ csr_nnz U' = 0 /\
    exists u u', deref [ex_U_csr] 0 = Ok u /\ deref h' 0 = Ok u' /\
                 csr_same_structure u u' /\ csr_all_ones u'.
Proof.
  eexists. eexists.
  match goal with |- ?P1 /\ _ => assert (H1 : P1) by (vm_compute; reflexivity) end.
  split; [exact H1|].
  exact (proj1 constraint_projector_same_object [ex_U_csr] 0 ex_B ex_BtBinv_csr _ _ H1).
Defined.

(** ** How many turns the loops take *)

(** What every turn establishes holds when the loop is left, unless no turn
    was taken. *)
Lemma while_last (cond : state -> bool) (body : state -> result state)
    (P : state -> Prop) (fuel : nat) (s s' : state) :
  (forall s1 s2, body s1 = Ok s2 -> P s2) ->
  while fuel cond body s = Ok s' -> s' = s \/ P s'.
Proof.
  intros Hbody. revert s. induction fuel as [|fuel IH]; intros s H; cbn [while] in H.
  - injection H as <-. now left.
  - destruct (cond s); [|injection H as <-; now left].
    destruct (body s) as [s1|] eqn:E1; cbn [bind] in H; [|discriminate].
    destruct (IH s1 H) as [->|HP]; right; [now apply (Hbody s)|exact HP].
Qed.

(** X13.  The loops of lines 404-472, entered with [i = 0] and
    [num_iters >= 0], take at most [num_iters] turns, and they are left only
    when the condition of the [while] fails: [i] has reached [num_iters], or
    the residual norm is no longer above [min_tol].  Each turn adds one to
    [i] and leaves in [resid] the largest absolute stored value of the new
    residual. *)
Theorem loops_stop (csrflag : bool) (A Dinv : spmatrix) (B : dmatrix)
    (BtBinv : list dmatrix) (colindices : list (list nat)) (num_iters : Z)
    (min_tol : pyfloat) (SPD : bool) (s0 s : state) :
  st_i s0 = 0 -> (0 <= num_iters)%Z ->
  minimize csrflag A Dinv B BtBinv colindices num_iters min_tol SPD s0 = Ok s ->
  (Z.of_nat (st_i s) <= num_iters)%Z /\
  (Z.of_nat (st_i s) = num_iters \/ gt_float (st_resid s) min_tol = false) /\
  (0 < st_i s -> max_abs (sp_values (st_R s)) = Ok (st_resid s)).
Proof.
  intros H0 Hn H. unfold minimize in H.
  set (body := if SPD then cg_step csrflag A Dinv B BtBinv colindices
               else minres_step csrflag A B BtBinv colindices) in *.
  assert (Hbody : forall s1 s2, body s1 = Ok s2 ->
            st_i s2 = st_i s1 + 1 /\ max_abs (sp_values (st_R s2)) = Ok (st_resid s2)).
  { intros s1 s2 E. unfold body in E.
    destruct SPD; [now apply cg_step_resid in E|now apply minres_step_resid in E]. }
  destruct (while_stops num_iters min_tol body (Z.to_nat num_iters) s0 s) as [Hc Hi].
  - intros s1 s2 E. now apply Hbody.
  - rewrite H0. lia.
  - exact H.
  - rewrite H0 in Hi. split; [lia|]. split.
    + unfold continue in Hc. apply andb_false_iff in Hc as [Hc|Hc]; [left|now right].
      apply Z.ltb_ge in Hc. lia.
    + intros Hpos.
      destruct (while_last (continue num_iters min_tol) body
                  (fun s2 => max_abs (sp_values (st_R s2)) = Ok (st_resid s2))
                  (Z.to_nat num_iters) s0 s) as [->|Hr]; [| |lia|exact Hr].
      * intros s1 s2 E. exact (proj2 (Hbody s1 s2 E)).
      * exact H.
Qed.

Lemma loops_stop_witness :
  exists Dinv BtBinv colindices blocks events s0 s,
    prepare svd_1x1 no_UnAmal no_BSR_Get_Row no_fallback
      (Csr cx5_A) cx5_T cx5_A cx5_B false
    = Ok (Ready true Dinv BtBinv colindices blocks events s0) /\
    minimize true (Csr cx5_A) Dinv cx5_B BtBinv colindices 2
      (FFinite (Q2Qc (1 # 100000000))) true s0 = Ok s /\
    (Z.of_nat (st_i s) <= 2)%Z /\
    (Z.of_nat (st_i s) = 2%Z
     \/ gt_float (st_resid s) (FFinite (Q2Qc (1 # 100000000))) = false) /\
    (0 < st_i s -> max_abs (sp_values (st_R s)) = Ok (st_resid s)).
Proof.
  do 7 eexists.
  split; [vm_compute; reflexivity|].
  match goal with |- ?P /\ _ => assert (H : P) by (vm_compute; reflexivity) end.
  split; [exact H|].
  refine (loops_stop _ _ _ _ _ _ 2 _ _ _ _ _ _ H).
  - reflexivity.
  - lia.
Defined.
